(** * Lindenmayer-System-Generator: the interpreter of [src/lindenmayer_systems.py]

    A shallow embedding of [lindenmayer_system] and the properties of its
    grammar validation, bracket stack, bounding box and auto-scaling.

    Conventions of the embedding.
    - A Python [str] is a [string]; iterating over it visits its characters
      ([list_ascii_of_string]).  Characters are the code points U+0000..U+00FF.
      Among these every upper case character is a letter.  Python has upper
      case characters beyond them that are no letters (U+2160, a Roman
      numeral, is one): a property that depends on it asks for variable
      names of letters ([lettered]).
    - Python numbers that may be floats (coordinates, angles, step length) are
      real numbers: [R] with exact arithmetic.  Nothing is rounded and nothing
      overflows: the [OverflowError] that a power of floats can raise at line
      214 is outside the model.
    - The [vars] dictionary is an association list in insertion order, since the
      code depends on which variable was declared first.
    - Exceptions are values of [exception]; a computation is a function from
      the state of the outside world to the new state and either a value or an
      exception. *)

From Stdlib Require Import List String Ascii Bool Arith ZArith NArith Lia.
From Stdlib Require Import Reals Lra.
Import ListNotations.

Local Open Scope string_scope.
Local Open Scope list_scope.

(** ** Characters and strings *)

Module Chars.

Definition code (c : ascii) : N := N_of_ascii c.

Definition between (lo hi n : N) : bool := (lo <=? n)%N && (n <=? hi)%N.

(** [str.isupper] on a one character string: the code point has the
    Uppercase property (A-Z, and the capital letters of Latin-1). *)
Definition isupper (c : ascii) : bool :=
  let n := code c in
  between 65 90 n || (between 192 222 n && negb (n =? 215)%N).

Definition islower (c : ascii) : bool :=
  let n := code c in
  between 97 122 n || (n =? 170)%N || (n =? 181)%N || (n =? 186)%N
  || (between 223 255 n && negb (n =? 247)%N).

(** [str.isalpha] on a one character string: a letter.  Below U+0100 the
    letters are the upper case and the lower case characters. *)
Definition isalpha (c : ascii) : bool := isupper c || islower c.

(** A character as the one character string Python hands out when it
    iterates over a string. *)
Definition str (c : ascii) : string := String c EmptyString.

Definition chars (s : string) : list ascii := list_ascii_of_string s.

(** [c in '[]+-'] for a one character string [c]. *)
Definition is_control (c : ascii) : bool :=
  (c =? "[")%char || (c =? "]")%char || (c =? "+")%char || (c =? "-")%char.

(** Truthiness of a string: non-empty. *)
Definition truthy (s : string) : bool :=
  match s with EmptyString => false | String _ _ => true end.

End Chars.
Import Chars.

(** ** Grammar *)

(** A value of the [vars] dictionary: a replacement string, or a tuple of a
    replacement string and the flag that says whether the variable draws. *)
Inductive properties : Type :=
| Plain (replacement : string)
| Pair (replacement : string) (draw : bool).

Definition variables_type := list (string * properties).

Definition keys (vars : variables_type) : list string := map fst vars.

Definition in_keys (c : string) (vars : variables_type) : bool :=
  existsb (String.eqb c) (keys vars).

(** The replacement string of a dictionary value, whichever form it has. *)
Definition replacement_of (p : properties) : string :=
  match p with Plain r => r | Pair r _ => r end.

(** ** Exceptions *)

(** The texts of the [ValueError]s the function raises, with the values
    that are formatted into them. *)
Inductive message : Type :=
| InvalidVariableName (e : string)
    (* Variable name "{e}" is invalid. *)
| AxiomCharacter (e : string)
    (* Character "{e}" in axiom is neither one of [,],+,- nor a variable. *)
| ReplacementCharacter (e3 e2 e1 : string)
    (* Character "{e3}" from the replacement "{e2}" of the variable "{e1}" ... *)
| UnmatchedBracket (index : nat)
    (* Unmatched ] bracket encountered at index {index} while parsing the axiom. *)
| VariableNotProvided (char : ascii)
    (* Variable {char} was not provided. *)
| InvalidCharacter (char : ascii).
    (* Invalid character {char} encountered while parsing the axiom. *)

Inductive exception : Type :=
| ValueError (m : message)
| AssertionError
| IndexError
| UnboundLocalError (name : string)
| ZeroDivisionError
| TypeError.

(** ** Grammar validation (lines 116-129) *)

Module Validation.

(** Line 118: [len(e := var) == 1 and var.isupper()]. *)
Definition valid_name (var : string) : bool :=
  match var with
  | String c EmptyString => isupper c
  | _ => false
  end.

(** The generator of line 118, consumed by [any]: the walrus variable [e] is
    assigned at every key that is looked at. *)
Fixpoint any_invalid_name (ks : list string) (e : option string)
  : option string * bool :=
  match ks with
  | [] => (e, false)
  | var :: rest =>
      if negb (valid_name var) then (Some var, true)
      else any_invalid_name rest (Some var)
  end.

(** The generators of lines 121 and 124:
    [any(not (c in vars.keys() or (e := c) in '[]+-') for c in s)].
    [e] is assigned at every character that is not a key. *)
Fixpoint any_foreign_char (vars : variables_type) (cs : list ascii)
  (e : option string) : option string * bool :=
  match cs with
  | [] => (e, false)
  | c :: rest =>
      if in_keys (str c) vars then any_foreign_char vars rest e
      else if is_control c then any_foreign_char vars rest (Some (str c))
      else (Some (str c), true)
  end.

(** Line 125: [[i[0], i][isinstance(i, str)]].  The list is built before it
    is indexed, so [i[0]] is evaluated for a string as well. *)
Definition select_replacement (i : properties) : exception + string :=
  match i with
  | Plain EmptyString => inl IndexError
  | Plain s => inr s
  | Pair r _ => inr r
  end.

(** The walrus variables [e1], [e2], [e3] of line 124. *)
Record walrus : Type := mkWalrus
  { e1 : option string; e2 : option string; e3 : option string }.

(** The outer generator of lines 124-125, consumed by [any]. *)
Fixpoint any_bad_replacement (vars : variables_type)
  (items : list (string * properties)) (w : walrus)
  : exception + (walrus * bool) :=
  match items with
  | [] => inr (w, false)
  | (k, i) :: rest =>
      match select_replacement i with
      | inl ex => inl ex
      | inr repl =>
          let w1 := mkWalrus (Some k) (e2 w) (e3 w) in
          if negb (truthy k) then inr (w1, true)
          else
            let w2 := mkWalrus (Some k) (Some repl) (e3 w) in
            if negb (truthy repl) then inr (w2, true)
            else
              let '(e3', bad) := any_foreign_char vars (chars repl) (e3 w) in
              let w3 := mkWalrus (Some k) (Some repl) e3' in
              if bad then inr (w3, true)
              else any_bad_replacement vars rest w3
      end
  end.

(** Reading a local variable for an f-string. *)
Definition read (name : string) (v : option string) : exception + string :=
  match v with
  | Some s => inr s
  | None => inl (UnboundLocalError name)
  end.

(** The compression factor: a number or the literal ['auto']. *)
Inductive compression : Type :=
| Auto
| Factor (f : R).

Definition nonzero (x : R) : bool := if Req_dec_T x 0 then false else true.

Definition compression_nonzero (c : compression) : bool :=
  match c with Auto => true | Factor f => nonzero f end.

(** Lines 118-129. *)
Definition validate (axiom : string) (vars : variables_type)
  (step_length : R) (compression_factor : compression) : exception + unit :=
  let '(e, bad) := any_invalid_name (keys vars) None in
  if bad then
    match read "e" e with
    | inl ex => inl ex
    | inr e => inl (ValueError (InvalidVariableName e))
    end
  else
  let '(e, bad) := any_foreign_char vars (chars axiom) e in
  if bad then
    match read "e" e with
    | inl ex => inl ex
    | inr e => inl (ValueError (AxiomCharacter e))
    end
  else
  match any_bad_replacement vars vars (mkWalrus None None None) with
  | inl ex => inl ex
  | inr (w, true) =>
      match read "e3" (e3 w) with
      | inl ex => inl ex
      | inr c =>
          match read "e2" (e2 w) with
          | inl ex => inl ex
          | inr r =>
              match read "e1" (e1 w) with
              | inl ex => inl ex
              | inr v => inl (ValueError (ReplacementCharacter c r v))
              end
          end
      end
  | inr (_, false) =>
      if nonzero step_length && compression_nonzero compression_factor
      then inr tt
      else inl AssertionError
  end.

(** What the three checks are meant to establish. *)

Definition legal_char (vars : variables_type) (c : ascii) : bool :=
  in_keys (str c) vars || is_control c.

Definition names_ok (vars : variables_type) : bool :=
  forallb valid_name (keys vars).

Definition axiom_ok (vars : variables_type) (axiom : string) : bool :=
  forallb (legal_char vars) (chars axiom).

Definition replacement_ok (vars : variables_type) (p : properties) : bool :=
  truthy (replacement_of p) && forallb (legal_char vars) (chars (replacement_of p)).

Definition replacements_ok (vars : variables_type) : bool :=
  forallb (fun kv => replacement_ok vars (snd kv)) vars.

Definition grammar_ok (axiom : string) (vars : variables_type) : bool :=
  names_ok vars && axiom_ok vars axiom && replacements_ok vars.

End Validation.
Import Validation.

(** ** The renderer *)

(** Modelled from the spec: the renderer collaborator of section 6 (Python's
    [turtle] module, which is not part of the repository), as an ideal turtle
    over the reals: [forward] moves along the heading, [left] and [right] turn,
    [goto] and [seth] teleport, [pos] and [heading] query.  Headings are in
    degrees, counter-clockwise from east, and [heading] answers in [0, 360). *)

Module Renderer.

Local Open Scope R_scope.

Definition cord_type : Type := R * R.
Definition rgb : Type := Z * Z * Z.

Record turtle : Type := mkTurtle
  { t_pos : cord_type;
    t_angle : R;         (* accumulated orientation, in degrees *)
    t_down : bool;
    t_shown : bool;
    t_speed : Z;
    t_color : rgb }.

(** [Turtle()]: at the origin, facing east, pen down, visible. *)
Definition fresh_turtle : turtle := mkTurtle (0, 0) 0 true true 3 (0, 0, 0)%Z.

(** Python's [x % 360] on floats. *)
Definition mod360 (x : R) : R := x - 360 * IZR (Zfloor (x / 360)).

Definition heading_of (t : turtle) : R := mod360 (t_angle t).

Definition radians (deg : R) : R := deg * PI / 180.

Definition direction (h : R) : cord_type := (cos (radians h), sin (radians h)).

Definition move (p : cord_type) (distance : R) (h : R) : cord_type :=
  (fst p + distance * fst (direction h), snd p + distance * snd (direction h)).

Inductive turtle_op : Type :=
| Hideturtle
| Seth (to_angle : R)
| Penup
| Pendown
| Goto (p : cord_type)
| Forward (distance : R)
| Left (angle : R)
| Right (angle : R)
| Color (c : rgb)
| Speed (s : Z)
| WriteText (text : string)
| Clear.

Definition apply_op (o : turtle_op) (t : turtle) : turtle :=
  match o with
  | Hideturtle => mkTurtle (t_pos t) (t_angle t) (t_down t) false (t_speed t) (t_color t)
  | Seth a => mkTurtle (t_pos t) a (t_down t) (t_shown t) (t_speed t) (t_color t)
  | Penup => mkTurtle (t_pos t) (t_angle t) false (t_shown t) (t_speed t) (t_color t)
  | Pendown => mkTurtle (t_pos t) (t_angle t) true (t_shown t) (t_speed t) (t_color t)
  | Goto p => mkTurtle p (t_angle t) (t_down t) (t_shown t) (t_speed t) (t_color t)
  | Forward d =>
      mkTurtle (move (t_pos t) d (heading_of t)) (t_angle t) (t_down t) (t_shown t)
        (t_speed t) (t_color t)
  | Left a => mkTurtle (t_pos t) (t_angle t + a) (t_down t) (t_shown t) (t_speed t) (t_color t)
  | Right a => mkTurtle (t_pos t) (t_angle t - a) (t_down t) (t_shown t) (t_speed t) (t_color t)
  | Color c => mkTurtle (t_pos t) (t_angle t) (t_down t) (t_shown t) (t_speed t) c
  | Speed s => mkTurtle (t_pos t) (t_angle t) (t_down t) (t_shown t) s (t_color t)
  | WriteText _ => t
  | Clear => t
  end.

Inductive screen_op : Type :=
| ScreenCall                      (* Screen() *)
| Title (s : string)
| Iconbitmap (path : string)
| Colormode (n : Z)
| Bgcolor (c : rgb)
| Tkraise
| Tracer (n delay : Z)
| SetupFull                       (* setup(width=1.0, height=1.0) *)
| Setup (width height : Z)
| ScreensizeWidth (canvwidth : R)
| ScreensizeHeight (canvheight : R)
| Update
| Exitonclick.

(** Everything the function does to the outside world, in the order it
    happens.  A turtle operation is recorded with the turtle it leaves. *)
Inductive event : Type :=
| TurtleNew (h : nat)
| TurtleDid (h : nat) (o : turtle_op) (after : turtle)
| ScreenDid (o : screen_op)
| Printed (text : string)
| Warned (axiom : string).

Record world : Type := mkWorld
  { turtles : nat -> turtle;      (* the turtle objects, by handle *)
    next_turtle : nat;            (* the handle of the next [Turtle()] *)
    window : Z * Z;               (* window_width(), window_height() *)
    monitor : Z * Z;              (* the size of the physical screen *)
    isfile : string -> bool;      (* os.path.isfile *)
    log : list event }.

Definition emit (e : event) (w : world) : world :=
  mkWorld (turtles w) (next_turtle w) (window w) (monitor w) (isfile w) (log w ++ [e]).

Definition store (h : nat) (t : turtle) (w : world) : world :=
  mkWorld (fun k => if Nat.eqb k h then t else turtles w k)
    (next_turtle w) (window w) (monitor w) (isfile w) (log w).

Definition resize (size : Z * Z) (w : world) : world :=
  mkWorld (turtles w) (next_turtle w) size (monitor w) (isfile w) (log w).

Definition allocate (w : world) : world :=
  mkWorld (fun k => if Nat.eqb k (next_turtle w) then fresh_turtle else turtles w k)
    (S (next_turtle w)) (window w) (monitor w) (isfile w) (log w).

End Renderer.
Import Renderer.

(** ** Computations: state of the world and exceptions *)

Definition M (A : Type) : Type := world -> world * (exception + A).

Definition ret {A} (a : A) : M A := fun w => (w, inr a).

Definition raise {A} (ex : exception) : M A := fun w => (w, inl ex).

Definition bind {A B} (c : M A) (k : A -> M B) : M B :=
  fun w =>
    match c w with
    | (w', inr a) => k a w'
    | (w', inl ex) => (w', inl ex)
    end.

Notation "x <- c ;; k" := (bind c (fun x => k))
  (at level 61, c at next level, right associativity).
Notation "c ;; k" := (bind c (fun _ => k))
  (at level 61, right associativity).

Definition when (b : bool) (c : M unit) : M unit := if b then c else ret tt.

Definition lift {A} (r : exception + A) : M A := fun w => (w, r).

(** Renderer calls. *)

Definition Turtle : M nat :=
  fun w => let h := next_turtle w in (emit (TurtleNew h) (allocate w), inr h).

Definition call (h : nat) (o : turtle_op) : M unit :=
  fun w =>
    let t' := apply_op o (turtles w h) in
    (emit (TurtleDid h o t') (store h t' w), inr tt).

Definition pos (h : nat) : M cord_type := fun w => (w, inr (t_pos (turtles w h))).

Definition heading (h : nat) : M R := fun w => (w, inr (heading_of (turtles w h))).

Definition screen (o : screen_op) : M unit :=
  fun w =>
    let w' := match o with
              | Setup width height => resize (width, height) w
              | SetupFull => resize (monitor w) w
              | _ => w
              end in
    (emit (ScreenDid o) w', inr tt).

Definition window_width : M Z := fun w => (w, inr (fst (window w))).
Definition window_height : M Z := fun w => (w, inr (snd (window w))).

Definition print (text : string) : M unit := fun w => (emit (Printed text) w, inr tt).

Definition warn (axiom : string) : M unit := fun w => (emit (Warned axiom) w, inr tt).

Definition os_path_isfile (path : string) : M bool := fun w => (w, inr (isfile w path)).

(** ** The interpreter *)

Module Interpreter.

Local Open Scope R_scope.

(** [fg_color]: an rgb triple, or a function of x, y, heading, the initial
    depth, the extreme coordinates, the variable and the index. *)
Inductive fg_color_type : Type :=
| StaticColor (c : rgb)
| ColorFunction
    (f : R -> R -> R -> option Z -> option (cord_type * cord_type) -> string -> nat -> rgb).

Inductive window_size : Type :=
| FullScreen
| WindowSize (width height : Z).

(** The screen of the turtle module: there is one. *)
Inductive Screen : Type := TheScreen.

(** The parameters of [lindenmayer_system] other than [axiom], [depth] and
    [__initial_call], under their names. *)
Record options : Type := mkOptions
  { vars : variables_type;
    angle : R;
    instant_draw : bool;
    fg_color : fg_color_type;
    bg_color : rgb;
    compression_factor : compression;
    step_length : R;
    initial_window_size : option window_size;
    initial_angle : R;
    system_center_cords : Z * Z;
    _turtle : option nat;
    _screen : option Screen;
    _mainloop : bool;
    _screen_icon : option string;
    __initial_depth : option Z;
    __static_color : option bool;
    __no_draw : bool;
    __extrem_cords : option (cord_type * cord_type) }.

(** What the function returns: the turtle, the screen and the two corners. *)
Definition returned : Type := nat * Screen * cord_type * cord_type.

Definition min_corner (r : returned) : cord_type := snd (fst r).
Definition max_corner (r : returned) : cord_type := snd r.

(** Truthiness of a flag that may be [None]. *)
Definition truth (b : option bool) : bool :=
  match b with Some true => true | _ => false end.

(** Lines 100-104. *)
Definition acquire_screen (o : options) : M Screen :=
  match _screen o with
  | Some s => ret s
  | None =>
      screen ScreenCall ;;
      screen (Title "Lindenmayer System") ;;
      match _screen_icon o with
      | Some icon => f <- os_path_isfile icon ;; when f (screen (Iconbitmap icon))
      | None => ret tt
      end ;;
      ret TheScreen
  end.

(** Lines 105-106. *)
Definition acquire_turtle (o : options) : M nat :=
  match _turtle o with
  | Some t => ret t
  | None => Turtle
  end.

(** Lines 110-115. *)
Definition orient (o : options) (t : nat) : M unit :=
  when (instant_draw o) (call t Hideturtle) ;;
  call t (Seth (mod360 (initial_angle o + 90))) ;;
  call t Penup ;;
  call t (Goto (IZR (fst (system_center_cords o)), IZR (snd (system_center_cords o)))) ;;
  call t Pendown.

(** Lines 218-220. *)
Definition suppress (o : options) (t : nat) : M unit :=
  when (__no_draw o) (call t (Speed 0) ;; call t Penup).

(** The running extremes of line 224. *)
Record extremes : Type := mkExtremes
  { max_x : R; max_y : R; min_x : R; min_y : R }.

Definition zero_extremes : extremes := mkExtremes 0 0 0 0.

(** Lines 258-259. *)
Definition include_pos (p : cord_type) (b : extremes) : extremes :=
  mkExtremes (Rmax (fst p) (max_x b)) (Rmax (snd p) (max_y b))
             (Rmin (fst p) (min_x b)) (Rmin (snd p) (min_y b)).

(** Lines 276-277. *)
Definition include_ret (r : returned) (b : extremes) : extremes :=
  mkExtremes (Rmax (fst (max_corner r)) (max_x b)) (Rmax (snd (max_corner r)) (max_y b))
             (Rmin (fst (min_corner r)) (min_x b)) (Rmin (snd (min_corner r)) (min_y b)).

(** Lines 243-246 and 278-280: the loop over [vars.items()] that looks for the
    variable [char] and unpacks its properties on the way. *)
Fixpoint find_variable (items : list (string * properties)) (var_index : nat)
  (char : ascii) : option (string * string * bool) :=
  match items with
  | [] => None
  | (var, props) :: rest =>
      let '(replacement, draw) :=
        match props with
        | Plain s => (s, Nat.eqb var_index 0)
        | Pair s d => (s, d)
        end in
      if String.eqb var (str char) then Some (var, replacement, draw)
      else find_variable rest (S var_index) char
  end.

(** Lines 261-266. *)
Definition grow_canvas (t : nat) : M unit :=
  p <- pos t ;;
  ww <- window_width ;;
  if Rge_dec (Rabs (fst p) + 20) (IZR (ww / 2)) then
    screen (ScreensizeWidth (Rabs (fst p) * 2 + 20))
  else
    wh <- window_height ;;
    if Rge_dec (Rabs (snd p) + 20) (IZR (wh / 2)) then
      screen (ScreensizeHeight (Rabs (snd p) * 2 + 20))
    else ret tt.

(** Lines 248-266: a variable that is reached at depth 0. *)
Definition draw_forward (o : options) (t : nat) (var : string) (index : nat)
  (b : extremes) : M extremes :=
  (if negb (truth (__static_color o)) && negb (__no_draw o) then
     match fg_color o with
     | ColorFunction f =>
         p <- pos t ;;
         h <- heading t ;;
         call t (Color (f (fst p) (snd p) h (__initial_depth o) (__extrem_cords o) var index))
     | StaticColor _ => raise TypeError
     end
   else ret tt) ;;
  call t (Forward (step_length o)) ;;
  b' <- match __extrem_cords o with
        | None => p <- pos t ;; ret (include_pos p b)
        | Some _ => ret b
        end ;;
  match compression_factor o with
  | Auto => ret tt
  | Factor _ => if __no_draw o then ret tt else grow_canvas t
  end ;;
  ret b'.

Section Scan.

Variable o : options.
Variable t : nat.

(** The recursive call of lines 269-273 for a given replacement; [None]
    when [depth == 0]. *)
Variable deeper : option (string -> M returned).

(** Lines 226-282: the loop over the axiom, from [index] on, with the
    stack of stored states (top first) and the running extremes. *)
Fixpoint scan (index : nat) (stored_states : list (cord_type * R))
    (b : extremes) (cs : list ascii) : M (list (cord_type * R) * extremes) :=
    match cs with
    | [] => ret (stored_states, b)
    | char :: rest =>
        if (char =? "[")%char then
          p <- pos t ;;
          h <- heading t ;;
          scan (S index) ((p, h) :: stored_states) b rest
        else if (char =? "]")%char then
          match stored_states with
          | [] => raise (ValueError (UnmatchedBracket index))
          | (stored_pos, stored_head) :: below =>
              call t Penup ;;
              call t (Goto stored_pos) ;;
              call t (Seth stored_head) ;;
              when (negb (__no_draw o)) (call t Pendown) ;;
              scan (S index) below b rest
          end
        else if (char =? "+")%char then
          call t (Left (angle o)) ;;
          scan (S index) stored_states b rest
        else if (char =? "-")%char then
          call t (Right (angle o)) ;;
          scan (S index) stored_states b rest
        else if isalpha char && isupper char then
          match find_variable (vars o) 0 char with
          | None => raise (ValueError (VariableNotProvided char))
          | Some (var, replacement, draw) =>
              b' <- match deeper with
                    | None =>
                        if draw then draw_forward o t var index b else ret b
                    | Some recurse =>
                        r <- recurse replacement ;;
                        match __extrem_cords o with
                        | None => ret (include_ret r b)
                        | Some _ => ret b
                        end
                    end ;;
              scan (S index) stored_states b' rest
          end
        else raise (ValueError (InvalidCharacter char))
    end.

End Scan.

(** Lines 292-299. *)
Definition finish (axiom : string) (o : options) (t : nat) (s : Screen)
  (stored_states : list (cord_type * R)) (b : extremes) : M returned :=
  when (negb (Nat.eqb (List.length stored_states) 0)) (warn axiom) ;;
  match __extrem_cords o with
  | Some (lo, hi) => ret (t, s, lo, hi)
  | None => ret (t, s, (min_x b, min_y b), (max_x b, max_y b))
  end.

(** The arguments of the recursive call of lines 269-273 (all but the
    replacement and the depth). *)
Definition recursive_options (o : options) (t : nat) (s : Screen) : options :=
  mkOptions (vars o) (angle o) (instant_draw o) (fg_color o) (bg_color o)
    (compression_factor o) (step_length o) None (initial_angle o)
    (system_center_cords o) (Some t) (Some s) (_mainloop o) None
    (__initial_depth o) (__static_color o) (__no_draw o) (__extrem_cords o).

(** [depth == __initial_depth]. *)
Definition at_initial_depth (d : nat) (o : options) : bool :=
  match __initial_depth o with
  | Some i => (Z.of_nat d =? i)%Z
  | None => false
  end.

(** [lindenmayer_system] called with [__initial_call = False] and
    [depth = d >= 0]: the body without the block of lines 116-217 and
    284-290.  The recursion of the source is on [depth]. *)
Fixpoint nested (d : nat) (axiom : string) (o : options) {struct d} : M returned :=
  s <- acquire_screen o ;;
  t <- acquire_turtle o ;;
  when (__no_draw o && at_initial_depth d o) (orient o t) ;;
  suppress o t ;;
  r <- scan o t
         match d with
         | O => None
         | S d' => Some (fun replacement => nested d' replacement (recursive_options o t s))
         end
         0 [] zero_extremes (chars axiom) ;;
  finish axiom o t s (fst r) (snd r).

(** *** Auto-scaling (lines 164-212) *)

(** [max(a, b, key=abs)] and [min(a, b, key=abs)]: the first of the two
    unless the second is strictly better. *)
Definition max_key_abs (a b : R) : R := if Rlt_dec (Rabs a) (Rabs b) then b else a.
Definition min_key_abs (a b : R) : R := if Rlt_dec (Rabs b) (Rabs a) then b else a.

Definition divide (a b : R) : exception + R :=
  if Req_dec_T b 0 then inl ZeroDivisionError else inr (a / b).

(** Lines 172-177. *)
Definition auto_factor (min_cord max_cord : cord_type) (width height : Z)
  (step : R) : exception + R :=
  match divide (IZR width) (max_key_abs (fst min_cord) (fst max_cord)) with
  | inl ex => inl ex
  | inr fx =>
      match divide (IZR height) (max_key_abs (snd min_cord) (snd max_cord)) with
      | inl ex => inl ex
      | inr fy =>
          inr (min_key_abs fx fy * (9 / 10) * (if Rlt_dec 0 step then 1 else -1))
      end
  end.

(** Lines 184-195. *)
Definition rnd_from_zero (x : R) : Z :=
  if Rlt_dec x 0 then Zfloor x else Zceil x.

(** Line 200. *)
Definition starting_point (min_cord max_cord : cord_type) (factor : R) : cord_type :=
  let x_dis := fst max_cord - fst min_cord in
  let y_dis := snd max_cord - snd min_cord in
  (- (fst min_cord + x_dis / 2) * factor, - (snd min_cord + y_dis / 2) * factor).

(** Lines 206-208. *)
Definition frozen_extremes (start : cord_type) : cord_type * cord_type :=
  let ex := rnd_from_zero (fst start * 2) in
  let ey := rnd_from_zero (snd start * 1) in
  ((IZR (ex * 1), IZR (ey * 1)), (IZR (ex * -1), IZR (ey * -1))).

(** The arguments of the dry run of lines 167-170. *)
Definition dry_run_options (o : options) (s : Screen) (initial_depth : Z) : options :=
  mkOptions (vars o) (angle o) (instant_draw o) (StaticColor (0, 0, 0)%Z) (0, 0, 0)%Z
    (Factor 1) (step_length o) None (initial_angle o) (system_center_cords o)
    None (Some s) (_mainloop o) None (Some initial_depth) (Some true) true None.

(** Lines 164-212: returns the new step length and the frozen extremes. *)
Definition auto_scale (d : nat) (axiom : string) (o : options) (t text_turtle : nat)
  (s : Screen) (initial_depth : Z) : M (R * (cord_type * cord_type)) :=
  call text_turtle (WriteText "Calculating compression factor...") ;;
  screen (Tracer 0 0) ;;
  r <- nested d axiom (dry_run_options o s initial_depth) ;;
  ww <- window_width ;;
  wh <- window_height ;;
  factor <- lift (auto_factor (min_corner r) (max_corner r) ww wh (step_length o)) ;;
  call text_turtle Clear ;;
  let start := starting_point (min_corner r) (max_corner r) factor in
  call t Penup ;;
  call t (Goto start) ;;
  call t Pendown ;;
  print "Finished auto-adjusting compression factor." ;;
  when (negb (instant_draw o)) (screen (Tracer 1 1)) ;;
  ret (step_length o * factor, frozen_extremes start).

Definition is_static (c : fg_color_type) : bool :=
  match c with StaticColor _ => true | ColorFunction _ => false end.

Definition invert (c : rgb) : rgb :=
  let '(r, g, b) := c in (Z.abs (r - 255), Z.abs (g - 255), Z.abs (b - 255))%Z.

(** The local variables that the block of lines 116-217 reassigns, put back
    into the options the rest of the body reads. *)
Definition with_locals (o : options) (step : R) (initial_depth : Z) (static : bool)
  (extrem : option (cord_type * cord_type)) : options :=
  mkOptions (vars o) (angle o) (instant_draw o) (fg_color o) (bg_color o)
    (compression_factor o) step (initial_window_size o) (initial_angle o)
    (system_center_cords o) (_turtle o) (_screen o) (_mainloop o) (_screen_icon o)
    (Some initial_depth) (Some static) (__no_draw o) extrem.

(** Lines 100-115 of a call with [__initial_call = True]. *)
Definition prepare (o : options) : M (Screen * nat) :=
  s <- acquire_screen o ;;
  t <- acquire_turtle o ;;
  orient o t ;;
  ret (s, t).

(** Lines 131-217: returns the text turtle and the options with the
    reassigned locals. *)
Definition initialise (d : nat) (axiom : string) (o : options) (s : Screen) (t : nat)
  : M (nat * options) :=
  screen (Colormode 255) ;;
  screen (Bgcolor (bg_color o)) ;;
  screen Tkraise ;;
  text_turtle <- Turtle ;;
  call text_turtle Hideturtle ;;
  call text_turtle (Speed 0) ;;
  call text_turtle (Color (invert (bg_color o))) ;;
  match fg_color o with
  | StaticColor c => call t (Color c)
  | ColorFunction _ => ret tt
  end ;;
  let initial_depth :=
    match __initial_depth o with None => Z.of_nat d | Some i => i end in
  (if instant_draw o then call t (Speed 0) ;; screen (Tracer 0 0)
   else screen (Tracer 1 1)) ;;
  match initial_window_size o with
  | Some FullScreen => screen SetupFull
  | Some (WindowSize width height) => screen (Setup width height)
  | None => ret tt
  end ;;
  scaled <- match compression_factor o with
            | Auto =>
                a <- auto_scale d axiom o t text_turtle s initial_depth ;;
                ret (fst a, Some (snd a))
            | Factor f => ret (step_length o * powerRZ f initial_depth, None)
            end ;;
  print "Started drawing." ;;
  when (instant_draw o) (call text_turtle (WriteText "Drawing...")) ;;
  ret (text_turtle,
       with_locals o (fst scaled) initial_depth (is_static (fg_color o)) (snd scaled)).

(** Lines 218-299 of a call with [__initial_call = True]. *)
Definition draw (d : nat) (axiom : string) (o : options) (s : Screen)
  (t text_turtle : nat) : M returned :=
  suppress o t ;;
  r <- scan o t
         match d with
         | O => None
         | S d' => Some (fun replacement => nested d' replacement (recursive_options o t s))
         end
         0 [] zero_extremes (chars axiom) ;;
  when (instant_draw o) (call text_turtle Clear ;; screen Update) ;;
  print "Finished drawing." ;;
  when (_mainloop o) (screen Exitonclick) ;;
  finish axiom o t s (fst r) (snd r).

(** [lindenmayer_system] called with [__initial_call = True] and
    [depth = d >= 0]. *)
Definition top_level (d : nat) (axiom : string) (o : options) : M returned :=
  st <- prepare o ;;
  lift (validate axiom (vars o) (step_length o) (compression_factor o)) ;;
  i <- initialise d axiom o (fst st) (snd st) ;;
  draw d axiom (snd i) (fst st) (snd st) (fst i).

(** Lines 107-108. *)
Definition negative_depth (o : options) : M returned :=
  s <- acquire_screen o ;;
  t <- acquire_turtle o ;;
  p <- pos t ;;
  ret (t, s, p, p).

(** The function.  Lines 100-108 come first in each of the three cases. *)
Definition lindenmayer_system (axiom : string) (depth : Z) (__initial_call : bool)
  (o : options) : M returned :=
  if (depth <? 0)%Z then negative_depth o
  else if __initial_call then top_level (Z.to_nat depth) axiom o
  else nested (Z.to_nat depth) axiom o.

End Interpreter.
Import Interpreter.

(** ** Observations on a run *)

Module Trace.

Local Open Scope R_scope.

(** The turtle operations among some events, in order. *)
Fixpoint ops_of (evs : list event) : list turtle_op :=
  match evs with
  | [] => []
  | TurtleDid _ o _ :: rest => o :: ops_of rest
  | _ :: rest => ops_of rest
  end.

(** The operations that move, turn or lift the turtle: all but the colour,
    speed, visibility and text operations. *)
Definition is_motion (o : turtle_op) : bool :=
  match o with
  | Seth _ | Penup | Pendown | Goto _ | Forward _ | Left _ | Right _ => true
  | _ => false
  end.

Definition motions_of (evs : list event) : list turtle_op := filter is_motion (ops_of evs).

Fixpoint screen_ops_of (evs : list event) : list screen_op :=
  match evs with
  | [] => []
  | ScreenDid o :: rest => o :: screen_ops_of rest
  | _ :: rest => screen_ops_of rest
  end.

(** The positions reached by the forward movements among some events. *)
Fixpoint endpoints (evs : list event) : list cord_type :=
  match evs with
  | [] => []
  | TurtleDid _ (Forward _) after :: rest => t_pos after :: endpoints rest
  | _ :: rest => endpoints rest
  end.

(** The distances of the forward movements of one turtle. *)
Fixpoint forward_moves (h : nat) (evs : list event) : list R :=
  match evs with
  | [] => []
  | TurtleDid h' (Forward distance) _ :: rest =>
      if Nat.eqb h' h then distance :: forward_moves h rest else forward_moves h rest
  | _ :: rest => forward_moves h rest
  end.

(** The positions that the forward movements of one turtle reach. *)
Fixpoint forward_positions (h : nat) (evs : list event) : list cord_type :=
  match evs with
  | [] => []
  | TurtleDid h' (Forward _) after :: rest =>
      if Nat.eqb h' h then t_pos after :: forward_positions h rest
      else forward_positions h rest
  | _ :: rest => forward_positions h rest
  end.

(** The number of forward movements. *)
Definition forwards (evs : list event) : nat := List.length (endpoints evs).

(** [m] is the greatest element of [xs]. *)
Definition greatest (m : R) (xs : list R) : Prop :=
  In m xs /\ forall x, In x xs -> x <= m.

Definition least (m : R) (xs : list R) : Prop :=
  In m xs /\ forall x, In x xs -> m <= x.

(** The corners [lo], [hi] are those of the smallest rectangle with sides
    parallel to the axes that contains the points [ps]. *)
Definition bounding_box (lo hi : cord_type) (ps : list cord_type) : Prop :=
  least (fst lo) (map fst ps) /\ least (snd lo) (map snd ps) /\
  greatest (fst hi) (map fst ps) /\ greatest (snd hi) (map snd ps).

End Trace.
Import Trace.

(** ** Brackets and expansion of a string taken by itself *)

Module Brackets.

(** No closing bracket of [cs] finds the stack empty, for a stack that holds
    [open] states when the scan of [cs] starts. *)
Fixpoint brackets_ok (open : nat) (cs : list ascii) : bool :=
  match cs with
  | [] => true
  | c :: rest =>
      if (c =? "[")%char then brackets_ok (S open) rest
      else if (c =? "]")%char then
        match open with
        | O => false
        | S below => brackets_ok below rest
        end
      else brackets_ok open rest
  end.

(** The number of states left on the stack after [cs]. *)
Fixpoint unclosed (open : nat) (cs : list ascii) : nat :=
  match cs with
  | [] => open
  | c :: rest =>
      if (c =? "[")%char then unclosed (S open) rest
      else if (c =? "]")%char then unclosed (Nat.pred open) rest
      else unclosed open rest
  end.

(** A character the loop treats as a variable. *)
Definition is_variable (c : ascii) : bool := isalpha c && isupper c.

(** The string that [depth] rounds of rewriting make of [cs]: every declared
    variable is replaced by its replacement, everything else stays. *)
Fixpoint expansion (vars : variables_type) (depth : nat) : list ascii -> list ascii :=
  fix go (cs : list ascii) : list ascii :=
    match cs with
    | [] => []
    | c :: rest =>
        match depth with
        | O => c :: go rest
        | S depth' =>
            if is_variable c then
              match find_variable vars 0 c with
              | Some (_, replacement, _) => expansion vars depth' (chars replacement) ++ go rest
              | None => c :: go rest
              end
            else c :: go rest
        end
    end.

(** The number of forward movements that [cs] asks for at depth [depth]:
    the occurrences of drawing variables once everything is rewritten. *)
Fixpoint visits (vars : variables_type) (depth : nat) : list ascii -> nat :=
  fix go (cs : list ascii) : nat :=
    match cs with
    | [] => O
    | c :: rest =>
        (if is_variable c then
           match find_variable vars 0 c with
           | Some (_, replacement, draw) =>
               match depth with
               | O => if draw then 1%nat else O
               | S depth' => visits vars depth' (chars replacement)
               end
           | None => O
           end
         else O) + go rest
    end%nat.

(** The dictionary as the loop of lines 243-245 reads it: name, replacement
    and drawing flag of every entry, the flag of a plain entry being whether
    it is the first. *)
Fixpoint entries (items : list (string * properties)) (var_index : nat)
  : list (string * string * bool) :=
  match items with
  | [] => []
  | (var, Plain s) :: rest => (var, s, Nat.eqb var_index 0) :: entries rest (S var_index)
  | (var, Pair s d) :: rest => (var, s, d) :: entries rest (S var_index)
  end.

End Brackets.
Import Brackets.

(** ** Vocabulary of the properties *)

Module Properties.

Local Open Scope R_scope.

(** The colour of the turtle can be set where the loop wants to: either
    nothing is evaluated (static colour or no drawing) or [fg_color] is a
    function. *)
Definition color_callable (o : options) : bool :=
  truth (__static_color o) || __no_draw o || negb (is_static (fg_color o)).

(** The extremes after a forward movement to [p] (lines 255-259). *)
Definition tracked (o : options) (p : cord_type) (b : extremes) : extremes :=
  match __extrem_cords o with None => include_pos p b | Some _ => b end.

(** The running extremes are the corners of the box around [ps]. *)
Definition covers (b : extremes) (ps : list cord_type) : Prop :=
  bounding_box (min_x b, min_y b) (max_x b, max_y b) ps.

(** How a character is treated by the loop. *)
Inductive role (c : ascii) : Type :=
| RoleOpen : c = "["%char -> role c
| RoleClose : c = "]"%char -> role c
| RoleLeft : c = "+"%char -> role c
| RoleRight : c = "-"%char -> role c
| RoleVariable : is_control c = false -> is_variable c = true -> role c
| RoleInvalid : is_control c = false -> is_variable c = false -> role c.

(** Computations that always return and never move a turtle forward. *)
Definition steady {A} (c : M A) : Prop :=
  forall w, exists w' a evs,
    c w = (w', inr a) /\ log w' = log w ++ evs /\ endpoints evs = [].

(** Computations that always return. *)
Definition returns {A} (c : M A) : Prop := forall w, exists w' a, c w = (w', inr a).

(** Computations that always raise [ex]. *)
Definition raises {A} (ex : exception) (c : M A) : Prop :=
  forall w, exists w', c w = (w', inl ex).

(** The number of times a call goes through the whole expansion. *)
Definition passes (initial_call : bool) (o : options) : nat :=
  if initial_call then
    match compression_factor o with Auto => 2%nat | Factor _ => 1%nat end
  else 1%nat.

(** Whether a call computes the corners it returns from what it draws. *)
Definition tracks (initial_call : bool) (o : options) : Prop :=
  if initial_call then compression_factor o <> Auto else __extrem_cords o = None.

(** The dictionary has an entry for the character. *)
Definition declared (vars : variables_type) (c : ascii) : bool :=
  match find_variable vars 0 c with Some _ => true | None => false end.

(** The string contains a variable that the dictionary declares. *)
Definition mentions_variable (vars : variables_type) (cs : list ascii) : bool :=
  existsb (fun c => is_variable c && declared vars c) cs.

(** Every replacement holds more occurrences of drawing variables than the
    one (or none) that the replaced variable stands for. *)
Definition grows (vars : variables_type) : bool :=
  forallb (fun e : string * string * bool =>
             let '(_, replacement, draw) := e in
             ((if draw then 1 else 0) <? visits vars 0 (chars replacement))%nat)
          (entries vars 0).

(** Substituting a variable makes the string longer: every replacement has
    more than one character. *)
Definition lengthens (vars : variables_type) : bool :=
  forallb (fun kv => (1 <? String.length (replacement_of (snd kv)))%nat) vars.

(** No replacement is the empty string. *)
Definition nonempty_replacements (vars : variables_type) : bool :=
  forallb (fun kv => truthy (replacement_of (snd kv))) vars.

(** Every character is one the loop knows and no closing bracket comes
    before its opening bracket. *)
Definition known_char (vars : variables_type) (c : ascii) : bool :=
  is_control c || (is_variable c && declared vars c).

Definition safe_string (vars : variables_type) (cs : list ascii) : bool :=
  forallb (known_char vars) cs && brackets_ok 0 cs.

Definition safe_grammar (vars : variables_type) : bool :=
  forallb (fun e : string * string * bool =>
             let '(_, replacement, _) := e in safe_string vars (chars replacement))
          (entries vars 0).

(** What a call on [replacement] at depth [d'] that returned [r] has done:
    it has added events to the log, among them as many forward movements
    as the string asks for; the corners it returns are those of the box
    around the origin and the points it reached, unless they were given;
    its own brackets never found its stack empty, and it has warned last
    if some were left open. *)
Definition call_facts (o : options) (replacement : string) (d' : nat) (w w' : world)
  (r : returned) : Prop :=
  exists evs, log w' = log w ++ evs
    /\ forwards evs = visits (vars o) d' (chars replacement)
    /\ (__extrem_cords o = None ->
        bounding_box (min_corner r) (max_corner r) ((0, 0) :: endpoints evs))
    /\ brackets_ok 0 (chars replacement) = true
    /\ (unclosed 0 (chars replacement) <> O ->
        exists evs', evs = evs' ++ [Warned replacement]).

(** The screen operations of lines 100-104. *)
Definition acquisition_ops (o : options) (w : world) : list screen_op :=
  match _screen o with
  | Some _ => []
  | None =>
      ScreenCall :: Title "Lindenmayer System" ::
      match _screen_icon o with
      | Some icon => if isfile w icon then [Iconbitmap icon] else []
      | None => []
      end
  end.

(** The turtle operations of lines 110-115. *)
Definition orientation_ops (o : options) : list turtle_op :=
  (if instant_draw o then [Hideturtle] else [])
  ++ [Seth (mod360 (initial_angle o + 90)); Penup;
      Goto (IZR (fst (system_center_cords o)), IZR (snd (system_center_cords o)));
      Pendown].

(** The factor as the specification words it: 0.9 times the smaller of
    width over the largest absolute x and height over the largest absolute
    y, times the sign of the step length. *)
Definition spec_scale_factor (min_cord max_cord : cord_type) (width height : Z)
  (step : R) : R :=
  9 / 10
  * Rmin (IZR width / Rmax (Rabs (fst min_cord)) (Rabs (fst max_cord)))
         (IZR height / Rmax (Rabs (snd min_cord)) (Rabs (snd max_cord)))
  * (if Rlt_dec 0 step then 1 else if Rlt_dec step 0 then -1 else 0).

End Properties.
Import Properties.

(** ** Reference inputs *)

Module Examples.

Local Open Scope R_scope.

(** The default values of the optional parameters (lines 19-34). *)
Definition defaults (vars : variables_type) (angle : R) : options :=
  mkOptions vars angle true (StaticColor (255, 255, 255)%Z) (0, 0, 0)%Z Auto 10 None 0
    (0, 0)%Z None None true None None None false None.

(** A world in which nothing has happened yet. *)
Definition blank_world : world :=
  mkWorld (fun _ => fresh_turtle) 0 (960, 810)%Z (1920, 1080)%Z (fun _ => false) [].

(** The world and the value a computation leaves. *)
Definition after {A} (c : M A) (w : world) : world := fst (c w).

Definition outcome (c : M returned) (w : world) : returned :=
  match snd (c w) with
  | inr r => r
  | inl _ => (O, TheScreen, (0, 0), (0, 0))
  end.

(** The options of the dry run that a call with the default options makes
    (lines 167-170). *)
Definition dry_run (vars : variables_type) (angle : R) (center : Z * Z) (initial_depth : Z)
  : options :=
  dry_run_options
    (mkOptions vars angle true (StaticColor (255, 255, 255)%Z) (0, 0, 0)%Z Auto 10 None 0
       center None None true None None None false None)
    TheScreen initial_depth.

Definition measuring : options := dry_run [("F", Plain "F")] 90 (0, 0)%Z 0.

Definition leaning : options := defaults [("F", Plain "F")] 90.

(** The calls used as examples. *)
Definition blank_replacement : M returned :=
  lindenmayer_system "F" 0 true (defaults [("F", Plain "")] 90).

Definition lower_case_axiom : M returned :=
  lindenmayer_system "f" 0 true (defaults [("F", Plain "F")] 90).

Definition closing_in_replacement : M returned :=
  lindenmayer_system "[F" 1 true (defaults [("F", Plain "]")] 90).

Definition off_centre : M returned :=
  lindenmayer_system "F" 0 false (dry_run [("F", Plain "F")] 90 (100, 100)%Z 0).

Definition doubling (depth : Z) : M returned :=
  lindenmayer_system "F" depth false (dry_run [("F", Plain "FF")] 90 (0, 0)%Z 1).

Definition turning (depth : Z) : M returned :=
  lindenmayer_system "F" depth false (dry_run [("F", Plain "F+")] 90 (0, 0)%Z 1).

End Examples.
Import Examples.

Module Conduct.

(** Every event that the computation adds to the log, whether it returns or
    raises, satisfies [Q]. *)
Definition emits (Q : event -> Prop) {A} (c : M A) : Prop :=
  forall w, exists evs, log (fst (c w)) = log w ++ evs /\ Forall Q evs.

(** The computation raises nothing but exceptions of [E]. *)
Definition fails_only (E : exception -> Prop) {A} (c : M A) : Prop :=
  forall w w' ex, c w = (w', inl ex) -> E ex.

(** The computation always raises, and an exception of [E]. *)
Definition fails (E : exception -> Prop) {A} (c : M A) : Prop :=
  forall w, exists w' ex, c w = (w', inl ex) /\ E ex.

(** The turtle operations of the loop of lines 226-282 and of lines 110-115
    and 218-220, with the arguments the call gives them. *)
Definition loop_op (o : options) (op : turtle_op) : Prop :=
  match op with
  | Forward distance => distance = step_length o
  | Left a | Right a => a = angle o
  | Color _ => truth (__static_color o) = false /\ __no_draw o = false
  | Penup | Pendown | Goto _ | Seth _ => True
  | Speed s => s = 0%Z /\ __no_draw o = true
  | Hideturtle => instant_draw o = true /\ __no_draw o = true
  | WriteText _ | Clear => False
  end.

(** The screen operations of the loop: those of lines 263-266. *)
Definition loop_screen_op (o : options) (op : screen_op) : Prop :=
  match op with
  | ScreensizeWidth _ | ScreensizeHeight _ =>
      compression_factor o <> Auto /\ __no_draw o = false
  | _ => False
  end.

(** What a call that is handed its turtle [t] and its screen may add to the
    log. *)
Definition loop_event (o : options) (t : nat) (e : event) : Prop :=
  match e with
  | TurtleDid h op _ => h = t /\ loop_op o op
  | ScreenDid op => loop_screen_op o op
  | Warned _ => True
  | TurtleNew _ | Printed _ => False
  end.

(** Every forward movement is of length [distance]. *)
Definition steps_of (distance : R) (e : event) : Prop :=
  match e with
  | TurtleDid _ (Forward x) _ => x = distance
  | _ => True
  end.

(** What a computation returns satisfies [P]. *)
Definition yields {A} (P : A -> Prop) (c : M A) : Prop :=
  forall w w' a, c w = (w', inr a) -> P a.

End Conduct.
Import Conduct.

Module Ink.

(** The end points of the lines that are drawn: the forward movements made
    with the pen down. *)
Fixpoint inked (evs : list event) : list cord_type :=
  match evs with
  | [] => []
  | TurtleDid _ (Forward _) after :: rest =>
      if t_down after then t_pos after :: inked rest else inked rest
  | _ :: rest => inked rest
  end.

(** Started with the pen of [t] up, the computation draws nothing and
    leaves the pen up, whether it returns or raises. *)
Definition lifted (t : nat) {A} (c : M A) : Prop :=
  forall w, t_down (turtles w t) = false ->
    exists evs, log (fst (c w)) = log w ++ evs /\ inked evs = []
      /\ t_down (turtles (fst (c w)) t) = false.

(** The same, however the pen is when the computation starts. *)
Definition settled (t : nat) {A} (c : M A) : Prop :=
  forall w,
    exists evs, log (fst (c w)) = log w ++ evs /\ inked evs = []
      /\ t_down (turtles (fst (c w)) t) = false.

(** The computation draws nothing, whether it returns or raises. *)
Definition inkless {A} (c : M A) : Prop :=
  forall w, exists evs, log (fst (c w)) = log w ++ evs /\ inked evs = [].
End Ink.
Import Ink.

Module Failure.

(** Every character of every replacement is one that the loop knows. *)
Definition known_grammar (vars : variables_type) : bool :=
  forallb (fun e : string * string * bool =>
             let '(_, replacement, _) := e in
             forallb (known_char vars) (chars replacement))
          (entries vars 0).

(** The exception of line 231. *)
Definition unmatched (ex : exception) : Prop :=
  exists index, ex = ValueError (UnmatchedBracket index).

(** Every variable name is made of letters ([str.isalpha]).  Line 118 asks
    for one character in upper case, and there are characters in upper case
    that are no letters, such as the Roman numeral U+2160; line 242 asks for
    both. *)
Definition lettered (vars : variables_type) : bool :=
  forallb (fun var => forallb isalpha (chars var)) (keys vars).

(** The exceptions that are left to a call whose grammar is valid. *)
Definition bracket_or_scale (o : options) (ex : exception) : Prop :=
  unmatched ex \/ (compression_factor o = Auto /\ ex = ZeroDivisionError).

End Failure.
Import Failure.

Module Rewriting.

(** No replacement leaves a state on the stack. *)
Definition closed_grammar (vars : variables_type) : bool :=
  forallb (fun e : string * string * bool =>
             let '(_, replacement, _) := e in
             Nat.eqb (unclosed 0 (chars replacement)) 0)
          (entries vars 0).

(** Two exceptions that differ at most in the index of an unmatched
    bracket. *)
Definition same_failure (ex ex' : exception) : Prop :=
  match ex, ex' with
  | ValueError (UnmatchedBracket _), ValueError (UnmatchedBracket _) => True
  | _, _ => ex = ex'
  end.

(** Two outcomes of the loop: the same world, and the same stack or the same
    failure. *)
Definition alike (x y : world * (exception + (list (cord_type * R) * extremes))) : Prop :=
  fst x = fst y
  /\ match snd x, snd y with
     | inr (st, _), inr (st', _) => st = st'
     | inl ex, inl ex' => same_failure ex ex'
     | _, _ => False
     end.

(** The recursive call that the loop makes at depth [d] (lines 269-273). *)
Definition deeper_of (d : nat) (o : options) (t : nat) (s : Screen)
  : option (string -> M returned) :=
  match d with
  | O => None
  | S d' => Some (fun replacement => nested d' replacement (recursive_options o t s))
  end.

End Rewriting.
Import Rewriting.

Module Scaling.

Local Open Scope R_scope.

(** The image of a point under the scaling by [k] that sends the origin to
    [off]. *)
Definition scaled (k : R) (off p : cord_type) : cord_type :=
  (fst off + k * fst p, snd off + k * snd p).

(** A stored state and its image. *)
Definition scaled_state (k : R) (off : cord_type) (x : cord_type * R) : cord_type * R :=
  (scaled k off (fst x), snd x).

(** The second turtle is where the scaling puts the first, and is turned the
    same way. *)
Definition related (k : R) (off : cord_type) (u1 u2 : turtle) : Prop :=
  t_angle u2 = t_angle u1 /\ t_pos u2 = scaled k off (t_pos u1).

(** Two computations that run in step: started with related turtles [t1] and
    [t2], both return, with values related by [V] and turtles that are
    related again, or both raise the same exception; the forward movements
    of the second reach the images of the points that those of the first
    reach. *)
Definition sim (k : R) (off : cord_type) (t1 t2 : nat) {A B} (V : A -> B -> Prop)
  (c1 : M A) (c2 : M B) : Prop :=
  forall w1 w2, related k off (turtles w1 t1) (turtles w2 t2) ->
    exists evs1 evs2,
      log (fst (c1 w1)) = log w1 ++ evs1
      /\ log (fst (c2 w2)) = log w2 ++ evs2
      /\ endpoints evs2 = map (scaled k off) (endpoints evs1)
      /\ match snd (c1 w1), snd (c2 w2) with
         | inr a, inr b =>
             V a b /\ related k off (turtles (fst (c1 w1)) t1) (turtles (fst (c2 w2)) t2)
         | inl ex1, inl ex2 => ex1 = ex2
         | _, _ => False
         end.

(** A computation that always returns, moves no turtle forward and leaves
    the turtle [t] where it is and turned as it is. *)
Definition inert (t : nat) {A} (c : M A) : Prop :=
  forall w, exists w' a evs,
    c w = (w', inr a) /\ log w' = log w ++ evs /\ endpoints evs = []
    /\ t_pos (turtles w' t) = t_pos (turtles w t)
    /\ t_angle (turtles w' t) = t_angle (turtles w t).

(** No call of the recursion down from depth [d] sets the turtle back to the
    centre (line 109). *)
Definition orientless (d : nat) (o : options) : Prop :=
  forall d', (d' <= d)%nat -> __no_draw o && at_initial_depth d' o = false.

End Scaling.
Import Scaling.

(** ** Further reference inputs *)

Module Cases.

Local Open Scope R_scope.

(** A call with the compression factor 1/2. *)
Definition halving : options :=
  mkOptions [("F", Plain "F-F")] 60 true (StaticColor (255, 255, 255)%Z)
    (0, 0, 0)%Z (Factor (1 / 2)) 10 None 0 (0, 0)%Z None None true None
    None None false None.

(** A call of the recursion that draws a plant on the turtle and the screen
    it is handed, with steps of [step]. *)
Definition plant (step : R) : options :=
  mkOptions [("X", Plain "F[+X]-X"); ("F", Pair "FF" true)] 25 true
    (StaticColor (255, 255, 255)%Z) (0, 0, 0)%Z (Factor 1) step None 0 (0, 0)%Z
    (Some 0%nat) (Some TheScreen) true None (Some 9%Z) (Some true) false None.

(** A dry run whose variable closes a bracket that its replacement has not
    opened. *)
Definition closing : options := dry_run [("F", Plain "F]")] 90 (0, 0)%Z 1.

End Cases.
Import Cases.

(** ** The measuring pass and the drawing *)

Module Measure.

Local Open Scope R_scope.

(** From [w] to [w'] no turtle has moved forward, the turtle [t] stands
    where it stood and is turned as it was, and no turtle has gone. *)
Definition rests (t : nat) (w w' : world) : Prop :=
  (exists evs, log w' = log w ++ evs /\ endpoints evs = [])
  /\ t_pos (turtles w' t) = t_pos (turtles w t)
  /\ t_angle (turtles w' t) = t_angle (turtles w t)
  /\ (next_turtle w <= next_turtle w')%nat.

(** A computation that always returns and lets the turtle [t] rest, when
    [t] is a turtle that exists. *)
Definition calm (t : nat) {A} (c : M A) : Prop :=
  forall w, (t < next_turtle w)%nat -> exists w' a, c w = (w', inr a) /\ rests t w w'.

(** A computation that leaves the turtle [t] as it is, however it ends,
    when [t] is a turtle that exists. *)
Definition aside (t : nat) {A} (c : M A) : Prop :=
  forall w, (t < next_turtle w)%nat ->
    turtles (fst (c w)) t = turtles w t
    /\ (next_turtle w <= next_turtle (fst (c w)))%nat.

(** Where the scaling by [factor] that sends the centre to [start] sends
    the origin. *)
Definition offset (factor : R) (start : cord_type) (centre : Z * Z) : cord_type :=
  (fst start - factor * IZR (fst centre), snd start - factor * IZR (snd centre)).

End Measure.
Import Measure.

(** ** The size of the window and the lengths of the steps *)

Module Window.

Local Open Scope R_scope.

(** The computation leaves the size of the window as it is, whether it
    returns or raises. *)
Definition unsized {A} (c : M A) : Prop := forall w, window (fst (c w)) = window w.

(** The lengths of the forward movements, of all turtles, in their order. *)
Fixpoint strides (evs : list event) : list R :=
  match evs with
  | [] => []
  | TurtleDid _ (Forward distance) _ :: rest => distance :: strides rest
  | _ :: rest => strides rest
  end.

(** The quotient that lines 172-173 choose: of window width over [X] and
    window height over [Y] the one of the smaller absolute value, [X] and [Y]
    being on each axis the corner coordinate of the larger absolute value,
    both taken with their sign. *)
Definition chosen_quotient (min_cord max_cord : cord_type) (width height : Z) : R :=
  min_key_abs (IZR width / max_key_abs (fst min_cord) (fst max_cord))
              (IZR height / max_key_abs (snd min_cord) (snd max_cord)).

End Window.
Import Window.

(** ** An axiom and what comes before one of its closing brackets *)

Module Prefix.

(** A call that got through its loop: it returned, or it failed in the
    division of lines 172-173, which comes after the loop of the dry run. *)
Definition through {A} (x : exception + A) : Prop :=
  x = inl ZeroDivisionError \/ exists a, x = inr a.

(** Computations that never raise [ZeroDivisionError]. *)
Definition sober {A} (c : M A) : Prop :=
  forall w w', c w <> (w', inl ZeroDivisionError).

(** Whenever the first computation gets through, the second one, started in
    the same world, raises [ex]. *)
Definition trips (ex : exception) {A B} (c : M A) (c' : M B) : Prop :=
  forall w w' x, c w = (w', x) -> through x -> exists w'', c' w = (w'', inl ex).

End Prefix.
Import Prefix.

(** ** Type validation of the inputs ([src/typing_extra.py]) *)

Module Typing.

#[local] Set Warnings "-register-all".

(** The values that an input evaluates to.  [VIter] is any other iterable
    that can be iterated over again and again, such as a set, a frozenset, a
    range or a deque: it is known by the name of its class and by the items it
    hands out, in the order in which it hands them out.  [VObject] is any other
    object that is not iterable, known by its identity only: it is no instance
    of the classes below, such as the result of [object()]. *)
Inductive object : Type :=
| VNone
| VBool (b : bool)
| VInt (z : Z)
| VFloat (x : R)
| VStr (s : string)
| VBytes (s : string)
| VList (items : list object)
| VTuple (items : list object)
| VDict (items : list (object * object))
| VIter (cls : string) (items : list object)
| VFunction (source : string)
| VObject (identity : nat).

(** The classes that the type hints name, and the classes that
    [get_origin] answers for a subscripted hint. *)
Inductive class : Type :=
| CInt | CFloat | CBool | CStr | CBytes | CNoneType
| CList | CTuple | CDict | CIterable | CCallable
| COther (name : string).

(** Type hints: a class ([int], [NoneType], the bare [List]), a [Literal],
    a [Union] (an [Optional] is one), a subscripted generic with its
    arguments ([List[int]], [Tuple[int, int]], [Dict[str, str]],
    [Iterable[int]], [Callable[[float], int]]), and the plain list of
    parameter types that is the first argument of a [Callable]. *)
Inductive hint : Type :=
| TClass (c : class)
| TLiteral (literals : list object)
| TUnion (members : list hint)
| TGeneric (origin : class) (first : hint) (others : list hint)
| TParams (params : list hint).

Inductive error : Type :=
| TypeError_isinstance        (* isinstance() arg 2 must be a type ... *)
| IndexError_args             (* tuple or list index out of range *)
| EvalError (text : string).  (* whatever eval raises on the text *)

Definition is_str (v : object) : bool := match v with VStr _ => true | _ => false end.
Definition is_bytes (v : object) : bool := match v with VBytes _ => true | _ => false end.
Definition is_dict (v : object) : bool := match v with VDict _ => true | _ => false end.

(** [isinstance(value, c)] for a class. *)
Definition isinstance (v : object) (c : class) : bool :=
  match v, c with
  | VNone, CNoneType => true
  | VBool _, (CBool | CInt) => true
  | VInt _, CInt => true
  | VFloat _, CFloat => true
  | VStr _, (CStr | CIterable) => true
  | VBytes _, (CBytes | CIterable) => true
  | VList _, (CList | CIterable) => true
  | VTuple _, (CTuple | CIterable) => true
  | VDict _, (CDict | CIterable) => true
  | VIter _ _, CIterable => true
  | VIter cls _, COther name => String.eqb cls name
  | VFunction _, CCallable => true
  | _, _ => false
  end.

(** [get_args(value_type)] where the branches of lines 32-46 read it. *)
Definition get_args (t : hint) : list hint :=
  match t with
  | TGeneric _ first others => first :: others
  | TUnion members => members
  | _ => []
  end.

(** [get_origin(value_type)] where line 46 reads it. *)
Definition get_origin (t : hint) : option class :=
  match t with
  | TGeneric origin _ _ => Some origin
  | _ => None
  end.

(** [value_type == str] and [value_type == bytes]. *)
Definition is_class (c : class) (t : hint) : bool :=
  match t, c with
  | TClass CStr, CStr => true
  | TClass CBytes, CBytes => true
  | _, _ => false
  end.

(** [isinstance(value, value_type)] with the hint itself as second
    argument: a class is fine, anything else raises. *)
Definition isinstance_hint (v : object) (t : hint) : error + bool :=
  match t with
  | TClass c => inr (isinstance v c)
  | _ => inl TypeError_isinstance
  end.

(** Line 40: [get_origin(t) == Union and
    str(get_args(t)[1]) == "<class 'NoneType'>"]. *)
Definition is_optional (t : hint) : error + bool :=
  match t with
  | TUnion (_ :: TClass CNoneType :: _) => inr true
  | TUnion (_ :: _ :: _) => inr false
  | TUnion _ => inl IndexError_args
  | _ => inr false
  end.

(** Lines 39-40. *)
Fixpoint len_wout_optionals (sub_types : list hint) : error + nat :=
  match sub_types with
  | [] => inr O
  | t :: rest =>
      match is_optional t with
      | inl e => inl e
      | inr opt =>
          match len_wout_optionals rest with
          | inl e => inl e
          | inr n => inr (if opt then n else S n)
          end
      end
  end.

(** What a value hands out when it is iterated over (lines 35 and 43-44):
    the items of a list, a tuple or another iterable, the (key, value) pairs
    of a dict. *)
Definition elements (v : object) : list object :=
  match v with
  | VList items | VTuple items | VIter _ items => items
  | VDict items => map (fun kv => VTuple [fst kv; snd kv]) items
  | _ => []
  end.

(** A value that is not entered (lines 32-34): it is not iterable, or it is
    a [str] or [bytes]. *)
Definition scalar (v : object) : bool :=
  negb (isinstance v CIterable) || is_str v || is_bytes v.

(** The hint compares the [repr] of the value itself with that of a literal:
    it is a [Literal], or a [Union] with such a member. *)
Fixpoint compares_repr (t : hint) : bool :=
  match t with
  | TLiteral _ => true
  | TUnion members => existsb compares_repr members
  | _ => false
  end.

(** How deep the containers of a value are nested. *)
Fixpoint depth (v : object) : nat :=
  match v with
  | VList items | VTuple items | VIter _ items =>
      S (fold_right (fun x n => Nat.max (depth x) n) O items)
  | VDict items =>
      S (S (fold_right (fun kv n => Nat.max (Nat.max (depth (fst kv)) (depth (snd kv))) n)
              O items))
  | _ => O
  end.

(** [any(f(x) for x in xs)]: it stops at the first [True] and at the first
    exception. *)
Fixpoint any_of {A} (f : A -> option (error + bool)) (xs : list A)
  : option (error + bool) :=
  match xs with
  | [] => Some (inr false)
  | x :: rest =>
      match f x with
      | Some (inr false) => any_of f rest
      | r => r
      end
  end.

(** [all(f(i, x) for i, x in enumerate(xs))], counting from [i]: it stops at
    the first [False] and at the first exception. *)
Fixpoint all_from {A} (f : nat -> A -> option (error + bool)) (i : nat) (xs : list A)
  : option (error + bool) :=
  match xs with
  | [] => Some (inr true)
  | x :: rest =>
      match f i x with
      | Some (inr true) => all_from f (S i) rest
      | r => r
      end
  end.

Section Validate.

(** [repr] of a value. *)
Variable repr : object -> string.

(** Line 37: [eval(str(value_type).replace('Dict', 'Tuple', 1))]. *)
Variable retype : hint -> error + hint.

(** Lines 32-46: a hint that is neither a [Literal] nor a [Union].
    [deeper] is [validate_type] for the elements of the value (line 43);
    it is [None] when the value has been entered as deep as the caller
    allowed. *)
Definition plain_case (deeper : option (object -> hint -> option (error + bool)))
  (value : object) (value_type : hint) : option (error + bool) :=
  if is_bytes value || is_str value
     || is_class CStr value_type || is_class CBytes value_type then
    match get_args value_type with
    | [] => Some (isinstance_hint value value_type)
    | _ :: _ => Some (inr false)
    end
  else if isinstance value CIterable then
    match deeper with
    | None => None
    | Some validate_type =>
        let sub_values := elements value in
        match (if is_dict value then
                 match retype value_type with
                 | inl e => inl e
                 | inr t => inr [t]
                 end
               else inr (get_args value_type)) with
        | inl e => Some (inl e)
        | inr sub_types =>
            match len_wout_optionals sub_types with
            | inl e => Some (inl e)
            | inr lwo =>
                let n_values := List.length sub_values in
                let n_types := List.length sub_types in
                if ((lwo <=? n_values) && (n_values <=? n_types)
                    || (n_types =? 1) && (lwo <=? n_values))%nat then
                  all_from
                    (fun i sub_value =>
                       match nth_error sub_types (if (n_types =? 1)%nat then O else i) with
                       | None => Some (inl IndexError_args)
                       | Some sub_type => validate_type sub_value sub_type
                       end)
                    O sub_values
                else Some (inr false)
            end
        end
    end
  else
    match get_args value_type with
    | [] => Some (isinstance_hint value value_type)
    | _ :: _ =>
        match get_origin value_type with
        | Some origin => Some (inr (isinstance value origin))
        | None => Some (inl TypeError_isinstance)
        end
    end.

(** [validate_type] (lines 28-46); [fuel] bounds the nesting of the value
    that is looked into, [None] says that it did not suffice. *)
Fixpoint validate (fuel : nat) (value : object) {struct fuel}
  : hint -> option (error + bool) :=
  fix on_type (value_type : hint) : option (error + bool) :=
    match value_type with
    | TLiteral literals =>
        Some (inr (existsb (fun literal => String.eqb (repr value) (repr literal)) literals))
    | TUnion members => any_of on_type members
    | _ =>
        plain_case
          match fuel with
          | O => None
          | S fuel' => Some (validate fuel')
          end
          value value_type
    end.

(** [validate_type(value, value_type)]. *)
Definition validate_type (value : object) (value_type : hint) : option (error + bool) :=
  validate (S (depth value)) value value_type.

End Validate.

(** Induction on a hint that reaches the members of a union and the
    arguments of a generic. *)
Section HintInduction.

Variable P : hint -> Prop.
Hypothesis class_case : forall c, P (TClass c).
Hypothesis literal_case : forall literals, P (TLiteral literals).
Hypothesis union_case : forall members, Forall P members -> P (TUnion members).
Hypothesis generic_case :
  forall origin first others, P first -> Forall P others -> P (TGeneric origin first others).
Hypothesis params_case : forall params, Forall P params -> P (TParams params).

Fixpoint hint_induction (t : hint) : P t :=
  let all := fix all (ts : list hint) : Forall P ts :=
               match ts with
               | [] => Forall_nil P
               | t :: rest => Forall_cons t (hint_induction t) (all rest)
               end in
  match t with
  | TClass c => class_case c
  | TLiteral literals => literal_case literals
  | TUnion members => union_case members (all members)
  | TGeneric origin first others =>
      generic_case origin first others (hint_induction first) (all others)
  | TParams params => params_case params (all params)
  end.

End HintInduction.

End Typing.

Module TypingCases.

Import Typing.

(** Stands for [repr] where no literal is compared. *)
Definition unnamed (_ : object) : string := EmptyString.

Definition builtin (c : class) : bool :=
  match c with
  | CInt | CFloat | CBool | CStr | CBytes => true
  | _ => false
  end.

(** Line 37 for a [Dict] of two built-in classes: [typing.Dict[str, int]]
    is read back as [typing.Tuple[str, int]]. No other hint is given a
    reading here. *)
Definition dict_of_builtins (t : hint) : error + hint :=
  match t with
  | TGeneric CDict (TClass k) [TClass v] =>
      if builtin k && builtin v then inr (TGeneric CTuple (TClass k) [TClass v])
      else inl (EvalError "name is not defined")
  | _ => inl (EvalError "not read")
  end.

End TypingCases.

(** ** The dialogue that collects the arguments ([src/input_manager.py]) *)

Module InputManager.

Import Typing.

(** The timeout a message is shown with: that of the call, or -1. *)
Inductive timeout : Type := error_message_timeout | unlimited.

(** What the user sees: a call of [inp_fun] with its arguments (the name of
    the function, the same in every call, is left out), and a call of
    [out_fun]. *)
Inductive event : Type :=
| Asked (parameter_name : string) (parameter_type : hint) (has_default : bool)
    (parameter_default : object) (parameter_doc : option string)
    (is_function_param : bool)
| Told (title content : string) (lasting : timeout).

(** What leaves [auto_inputs] as an exception. *)
Inductive failure : Type :=
| Unvalidated (e : error)      (* raised inside validate_type *)
| Interrupted (text : string)  (* raised by eval or by the function, and no Exception *)
| Unread (text : string).      (* raised while the file is read back, lines 106-109 *)

(** What [eval] does with a text: a value, an [Exception], or an exception
    that is none (SystemExit, KeyboardInterrupt). *)
Inductive evaluation : Type :=
| Value (v : object)
| Fails (text : string)
| Leaves (text : string).

(** What the function does with its arguments. *)
Inductive outcome (R : Type) : Type :=
| Returned (r : R)
| Raised (traceback : string)
| Left (text : string).
Arguments Returned {R} r.
Arguments Raised {R} traceback.
Arguments Left {R} text.

(** The function as [auto_inputs] reads it: [get_type_hints(fun)],
    [get_default_args(fun)], the documentation of a parameter that lines
    127-132 cut out of [fun.__doc__], and the call of line 180 on the
    positional and the keyword arguments. *)
Record function (R : Type) : Type := mkFunction {
  types : list (string * hint);
  default_args : list (string * object);
  param_doc : string -> option string;
  body : list object -> list (string * object) -> outcome R
}.
Arguments types {R} f.
Arguments default_args {R} f.
Arguments param_doc {R} f.
Arguments body {R} f.

(** Line 74: [empty_value = object()]. *)
Definition empty_value : object := VObject 0.

(** [v == empty_value]. *)
Definition is_empty (v : object) : bool :=
  match v with
  | VObject O => true
  | _ => false
  end.

(** [key in d.keys()], [d.get(key, None)] and [del d[key]] on a dict that is
    kept as the list of its items. *)
Definition has_key {A} (key : string) (d : list (string * A)) : bool :=
  existsb (fun item => String.eqb (fst item) key) d.

Fixpoint get {A} (key : string) (d : list (string * A)) : option A :=
  match d with
  | [] => None
  | (k, v) :: rest => if String.eqb k key then Some v else get key rest
  end.

Definition del {A} (key : string) (d : list (string * A)) : list (string * A) :=
  filter (fun item => negb (String.eqb (fst item) key)) d.

(** The characters of line 42: backslash, slash, colon, star, question
    mark, double quote, less, greater, bar. *)
Definition forbidden : list ascii :=
  [ascii_of_nat 92; "/"%char; ":"%char; "*"%char; "?"%char; ascii_of_nat 34;
   "<"%char; ">"%char; "|"%char].

(** [char in s] for a character. *)
Definition char_in (char : ascii) (s : list ascii) : bool :=
  existsb (Ascii.eqb char) s.

(** Line 116: the parameters that are not asked for. *)
Definition hidden (param : string) : bool :=
  String.prefix "_" param || String.eqb param "return".

Definition newline : string := String (ascii_of_nat 10) EmptyString.

(** The parameters that are passed by position: those that are not hidden. *)
Definition passed (types : list (string * hint)) : list (string * hint) :=
  filter (fun p => negb (hidden (fst p))) types.

(** The parameters that the user is asked for. *)
Definition asked (types : list (string * hint)) (kwargs : list (string * object))
  : list (string * hint) :=
  filter (fun p => negb (has_key (fst p) kwargs)) (passed types).

(** The keyword arguments that are left for the call. *)
Definition kept (types : list (string * hint)) (kwargs : list (string * object))
  : list (string * object) :=
  fold_left (fun d p => del (fst p) d) (passed types) kwargs.

(** The positional arguments: for every parameter what [kwargs] gives for
    it, or else the next of the values that were entered. *)
Fixpoint positional (params : list (string * hint)) (kwargs : list (string * object))
  (entered : list object) : list object :=
  match params with
  | [] => []
  | p :: rest =>
      match get (fst p) kwargs with
      | Some given => given :: positional rest kwargs entered
      | None =>
          match entered with
          | v :: more => v :: positional rest kwargs more
          | [] => []
          end
      end
  end.

(** The question for a parameter (line 141). *)
Definition question (default_args : list (string * object)) (doc : string -> option string)
  (p : string * hint) : event :=
  Asked (fst p) (snd p) (has_key (fst p) default_args)
    match get (fst p) default_args with Some v => v | None => VNone end
    (doc (fst p)) true.

(** A name that line 38 and line 42 let through. *)
Definition valid_name (filename : object) : bool :=
  match filename with
  | VStr name =>
      negb (existsb (fun char => char_in char forbidden) (list_ascii_of_string name))
  | _ => false
  end.

(** The number of questions among the events. *)
Definition questions (evs : list event) : nat :=
  List.length (filter (fun e => match e with Asked _ _ _ _ _ _ => true | Told _ _ _ => false end)
                 evs).

(** What [auto_inputs] may show for a function with the parameters [types]:
    questions for parameters that are not hidden, the three questions about
    the saves, and its own messages. *)
Definition expected (types : list (string * hint)) (e : event) : Prop :=
  match e with
  | Asked name t _ _ _ true => In (name, t) types /\ hidden name = false
  | Asked name t _ _ _ false =>
      (name = "Restore" \/ name = "Save") /\ t = TClass CBool
      \/ name = "Filename" /\ t = TClass CStr
  | Told title _ error_message_timeout => title = "Couldn't parse input." \/ title = "Error"
  | Told title _ unlimited => title = "Runtime Exception"
  end.

Section Dialogue.

(** The directory of the saved configurations is a parameter, with the three
    things the code does to it: the names of the saves, newest first (lines
    81-84, empty when there is no directory); the values that a save holds,
    if there is such a file, or the exception that reading it raises (lines
    105-109); and the directory after a save has been written (lines
    170-175). *)
Variable Disk : Type.
Variable saved : Disk -> list string.
Variable restored : Disk -> object -> option (string + list object).
Variable stored : Disk -> object -> string -> Disk.

(** [repr], and the [eval] of line 37 of [typing_extra.py]. *)
Variable repr : object -> string.
Variable retype : hint -> error + hint.

(** The [eval] of line 23, taken to have no effect of its own. *)
Variable eval : string -> evaluation.

(** The user and the directory: the answers that are still to come, what
    has been shown so far, and the saves. *)
Record world : Type := mkWorld {
  answers : list string;
  shown : list event;
  disk : Disk
}.

(** A computation returns, raises, or is left waiting for an answer
    ([None]). *)
Definition Dialogue (A : Type) : Type := world -> option (world * (failure + A)).

Definition value {A} (a : A) : Dialogue A := fun w => Some (w, inr a).

Definition fail {A} (e : failure) : Dialogue A := fun w => Some (w, inl e).

Definition waiting {A} : Dialogue A := fun _ => None.

Definition and_then {A B} (c : Dialogue A) (k : A -> Dialogue B) : Dialogue B :=
  fun w =>
    match c w with
    | Some (w', inr a) => k a w'
    | Some (w', inl e) => Some (w', inl e)
    | None => None
    end.

Notation "'let*' x ':=' c 'in' k" := (and_then c (fun x => k))
  (at level 10, x name, c at level 100, k at level 200, only parsing).

Notation "c ';;;' k" := (and_then c (fun _ => k))
  (at level 100, k at level 200, right associativity, only parsing).

(** [inp_fun(...)]: the next answer. *)
Definition inp_fun (parameter_name : string) (parameter_type : hint) (has_default : bool)
  (parameter_default : object) (parameter_doc : option string) (is_function_param : bool)
  : Dialogue string :=
  fun w =>
    match answers w with
    | [] => None
    | answer :: rest =>
        Some (mkWorld rest
                (shown w ++ [Asked parameter_name parameter_type has_default
                               parameter_default parameter_doc is_function_param])
                (disk w),
              inr answer)
    end.

(** [out_fun(title, content)], with the timeout that line 76 fixes. *)
Definition out_fun (title content : string) : Dialogue unit :=
  fun w =>
    Some (mkWorld (answers w) (shown w ++ [Told title content error_message_timeout])
            (disk w), inr tt).

(** [validate_type(value, value_type)] where [auto_inputs] calls it. *)
Definition checked (v : object) (value_type : hint) : Dialogue bool :=
  fun w =>
    match validate_type repr retype v value_type with
    | Some (inr verdict) => Some (w, inr verdict)
    | Some (inl e) => Some (w, inl (Unvalidated e))
    | None => None
    end.

(** Lines 11-26. *)
Definition _eval_wrapper (inp : string) : Dialogue object :=
  match eval inp with
  | Value v => value v
  | Fails text =>
      out_fun "Couldn't parse input." (" Exception: " ++ text)%string ;;;
      value empty_value
  | Leaves text => fail (Interrupted text)
  end.

(** Lines 29-45. *)
Definition _check_filename (filename : object) : Dialogue bool :=
  match filename with
  | VStr name =>
      if existsb (fun char => char_in char forbidden) (list_ascii_of_string name) then
        out_fun "Error" "The filename contains an invalid character." ;;;
        value false
      else value true
  | _ =>
      out_fun "Error" "The filename has to be a string." ;;;
      value false
  end.

(** The loops of lines 88-93 and of lines 156-161, which differ in what is
    asked: until the answer is a bool. [attempts] bounds the number of
    rounds; every round takes an answer. *)
Fixpoint ask_flag (attempts : nat) (parameter_name : string) (default : bool)
  (doc : string) : Dialogue bool :=
  match attempts with
  | O => waiting
  | S attempts' =>
      let* inp := inp_fun parameter_name (TClass CBool) true (VBool default) (Some doc) false in
      let* flag := _eval_wrapper inp in
      let* correct_type := checked flag (TClass CBool) in
      (if correct_type then value tt
       else out_fun "Error" "Type validation failed. Rolling back...") ;;;
      match flag with
      | VBool b => value b
      | _ => ask_flag attempts' parameter_name default doc
      end
  end.

(** Lines 95-113: until a save of the given name is read back. It returns
    the name and the new default arguments. *)
Fixpoint ask_saved (attempts : nat) (keys : list string) (files : list string)
  : Dialogue (object * list (string * object)) :=
  match attempts with
  | O => waiting
  | S attempts' =>
      let* inp := inp_fun "Filename" (TClass CStr) true (VStr (hd EmptyString files))
                    (Some ("Enter the name of the text file." ++ newline
                           ++ ">>> Available Files: " ++ String.concat "; " files)%string)
                    false in
      let* filename := _eval_wrapper inp in
      if is_empty filename then ask_saved attempts' keys files
      else
        let* valid := _check_filename filename in
        if valid then
          fun w =>
            match restored (disk w) filename with
            | Some (inr values) => value (filename, combine keys values) w
            | Some (inl text) => fail (Unread text) w
            | None =>
                (out_fun "Error" "There exists no file with the given filename." ;;;
                 ask_saved attempts' keys files) w
            end
        else ask_saved attempts' keys files
  end.

(** Lines 134-150: until the answer evaluates and has the type of the
    parameter. It returns the value and the text that was entered. *)
Fixpoint ask_parameter (attempts : nat) (param : string) (param_type : hint)
  (default_args : list (string * object)) (doc : option string)
  : Dialogue (object * string) :=
  match attempts with
  | O => waiting
  | S attempts' =>
      let has_default_arg := has_key param default_args in
      let default_arg := match get param default_args with Some v => v | None => VNone end in
      let* raw_inp := inp_fun param param_type has_default_arg default_arg doc true in
      let* inp := _eval_wrapper raw_inp in
      if is_empty inp then ask_parameter attempts' param param_type default_args doc
      else
        let* correct_type := checked inp param_type in
        if correct_type then value (inp, raw_inp)
        else
          out_fun "Error" "Type validation failed. Rolling back..." ;;;
          ask_parameter attempts' param param_type default_args doc
  end.

(** Lines 115-150: the loop over the parameters. *)
Fixpoint collect (attempts : nat) (default_args : list (string * object))
  (doc : string -> option string) (types : list (string * hint))
  (kwargs : list (string * object)) (inputs : list object) (raw_inputs : list string)
  : Dialogue (list object * list string * list (string * object)) :=
  match types with
  | [] => value (inputs, raw_inputs, kwargs)
  | (param, param_type) :: rest =>
      if hidden param then collect attempts default_args doc rest kwargs inputs raw_inputs
      else
        match get param kwargs with
        | Some given =>
            collect attempts default_args doc rest (del param kwargs) (inputs ++ [given])
              raw_inputs
        | None =>
            let* entered := ask_parameter attempts param param_type default_args (doc param) in
            collect attempts default_args doc rest kwargs (inputs ++ [fst entered])
              (raw_inputs ++ [snd entered])
        end
  end.

(** Lines 162-176: until a name is given that the save can be written
    under. [filename] is the variable of that name, which the next round
    offers as the default when a save had been restored. *)
Fixpoint ask_name (attempts : nat) (restore : bool) (filename : object)
  (raw_inputs : list string) : Dialogue unit :=
  match attempts with
  | O => waiting
  | S attempts' =>
      let* inp := inp_fun "Filename" (TClass CStr) restore
                    (if restore then filename else VNone)
                    (Some "Please provide a name for the text file.") false in
      let* filename := _eval_wrapper inp in
      if is_empty filename then ask_name attempts' restore filename raw_inputs
      else
        let* valid := _check_filename filename in
        if valid then
          fun w =>
            Some (mkWorld (answers w) (shown w)
                    (stored (disk w) filename (String.concat newline raw_inputs)),
                  inr tt)
        else ask_name attempts' restore filename raw_inputs
  end.

(** Lines 70-176: everything up to the call of the function. It returns the
    positional and the keyword arguments of that call. *)
Definition arguments {R} (attempts : nat) (f : function R) (enable_saves : bool)
  (kwargs : list (string * object)) : Dialogue (list object * list (string * object)) :=
  let* restoring :=
    fun w =>
      let files := saved (disk w) in
      (if enable_saves && negb (Nat.eqb (List.length files) 0) then
         let* restore :=
           ask_flag attempts "Restore" false
             "Should the configuration be restored from a text file?" in
         if restore then
           let* found := ask_saved attempts (map fst (types f)) files in
           value (true, fst found, snd found)
         else value (false, VNone, default_args f)
       else value (false, VNone, default_args f)) w in
  let '(restore, filename, default_args) := restoring in
  let* collected := collect attempts default_args (param_doc f) (types f) kwargs [] [] in
  let '(inputs, raw_inputs, kwargs) := collected in
  (if enable_saves then
     let* save := ask_flag attempts "Save" true
                    "Should the configuration be saved in a text file?" in
     if save then ask_name attempts restore filename raw_inputs else value tt
   else value tt) ;;;
  value (inputs, kwargs).

(** Lines 178-183: the call. *)
Definition call {R} (f : function R) (inputs : list object) (kwargs : list (string * object))
  : Dialogue (option R) :=
  match body f inputs kwargs with
  | Returned r => value (Some r)
  | Raised traceback =>
      fun w =>
        Some (mkWorld (answers w) (shown w ++ [Told "Runtime Exception" traceback unlimited])
                (disk w), inr None)
  | Left text => fail (Interrupted text)
  end.

(** [auto_inputs(fun, inp_fun, out_fun, enable_saves, kwargs)]. No loop takes
    more rounds than there are answers. *)
Definition auto_inputs {R} (f : function R) (enable_saves : bool)
  (kwargs : list (string * object)) : Dialogue (option R) :=
  fun w =>
    (let* args := arguments (S (List.length (answers w))) f enable_saves kwargs in
     call f (fst args) (snd args)) w.

(** What has happened between two worlds: answers were taken, one for each
    question, and events were shown. *)
Definition progress (Q : event -> Prop) (w w' : world) : Prop :=
  exists taken evs,
    answers w = taken ++ answers w' /\ shown w' = shown w ++ evs
    /\ List.length taken = questions evs /\ Forall Q evs.

(** However the computation ends, it has made progress. *)
Definition advances (Q : event -> Prop) {A} (c : Dialogue A) : Prop :=
  forall w w' r, c w = Some (w', r) -> progress Q w w'.

(** However the computation ends, the saves are as they were. *)
Definition untouched {A} (c : Dialogue A) : Prop :=
  forall w w' r, c w = Some (w', r) -> disk w' = disk w.

End Dialogue.

Arguments answers {Disk} w.
Arguments shown {Disk} w.
Arguments disk {Disk} w.
Arguments mkWorld {Disk} answers shown disk.
Arguments progress {Disk} Q w w'.
Arguments advances {Disk} Q {A} c.
Arguments untouched {Disk A} c.
Arguments value {Disk A} a.
Arguments fail {Disk A} e.
Arguments waiting {Disk A}.
Arguments and_then {Disk A B} c k.

End InputManager.

Module DialogueCases.

Import Typing TypingCases InputManager.

(** [rerun_prev] (lines 186-197) as [auto_inputs] reads it: one parameter,
    [rerun: bool = True], which the function returns. *)
Definition rerun_prev : function object :=
  mkFunction object [("rerun", TClass CBool)] [("rerun", VBool true)]
    (fun param =>
       if String.eqb param "rerun"
       then Some " Would you like to rerun the previous function?"
       else None)
    (fun inputs kwargs =>
       match inputs, kwargs with
       | [rerun], [] => Returned rerun
       | _, _ => Raised "TypeError"
       end).

(** The texts that the cases enter, and what [eval] makes of them. *)
Definition literal (text : string) : evaluation :=
  if String.eqb text "True" then Value (VBool true)
  else if String.eqb text "False" then Value (VBool false)
  else if String.eqb text "1" then Value (VInt 1)
  else if String.eqb text "[]" then Value (VList [])
  else if String.eqb text "'again'" then Value (VStr "again")
  else if String.eqb text "'a/b'" then Value (VStr "a/b")
  else if String.eqb text "empty_value" then Value empty_value
  else if String.eqb text "exit()" then Leaves "SystemExit"
  else Fails "invalid syntax".

(** Saves that are kept as a list of names and contents, newest first. No
    save is read back in the cases. *)
Definition shelf : Type := list (string * string).

Definition shelf_saved (d : shelf) : list string := map fst d.

Definition shelf_restored (d : shelf) (filename : object) : option (string + list object) :=
  None.

Definition shelf_stored (d : shelf) (filename : object) (content : string) : shelf :=
  (match filename with VStr name => name | _ => EmptyString end, content) :: d.

(** The question for [rerun] and the message for an answer of another type. *)
Definition rerun_question : event :=
  Asked "rerun" (TClass CBool) true (VBool true)
    (Some " Would you like to rerun the previous function?") true.

Definition rolling_back : event :=
  Told "Error" "Type validation failed. Rolling back..." error_message_timeout.

(** [auto_inputs] on these. *)
Definition run {R} (f : function R) (enable_saves : bool) (kwargs : list (string * object))
  (w : world shelf) : option (world shelf * (failure + option R)) :=
  auto_inputs shelf shelf_saved shelf_restored shelf_stored unnamed dict_of_builtins literal
    f enable_saves kwargs w.

End DialogueCases.

(** * Properties *)

Local Open Scope R_scope.

Tactic Notation "exec" :=
  cbv beta iota zeta delta
    [bind ret raise when lift Turtle call pos heading screen window_width
     window_height print warn os_path_isfile emit store resize allocate];
  cbn [log turtles next_turtle window monitor isfile fst snd].

Tactic Notation "exec" "in" hyp(H) :=
  cbv beta iota zeta delta
    [bind ret raise when lift Turtle call pos heading screen window_width
     window_height print warn os_path_isfile emit store resize allocate] in H;
  cbn [log turtles next_turtle window monitor isfile fst snd] in H.

(** The same for longer sequences of calls: the projections are reduced on
    the way. *)
Ltac walk :=
  cbn [bind ret raise when lift Turtle call pos heading screen window_width
       window_height print warn os_path_isfile emit store resize allocate
       log turtles next_turtle window monitor isfile fst snd].

Ltac run :=
  lazy -[IZR cos sin PI Zfloor Zceil Rabs Rmin Rmax Rge_dec Rlt_dec Rle_dec Req_dec_T
         powerRZ Rdiv Rminus Ropp Rplus Rmult Rinv mod360 move direction radians heading_of
         bounding_box least greatest].

Tactic Notation "run" "in" hyp(H) :=
  lazy -[IZR cos sin PI Zfloor Zceil Rabs Rmin Rmax Rge_dec Rlt_dec Rle_dec Req_dec_T
         powerRZ Rdiv Rminus Ropp Rplus Rmult Rinv mod360 move direction radians heading_of
         bounding_box least greatest] in H.

Lemma nonzero_true x : x <> 0 -> nonzero x = true.
Proof. unfold nonzero. destruct (Req_dec_T x 0); intuition. Qed.

Lemma nonzero_iff x : nonzero x = true <-> x <> 0.
Proof. unfold nonzero. destruct (Req_dec_T x 0); split; intros; try discriminate; intuition. Qed.

Lemma any_invalid_name_snd ks : forall e,
  snd (any_invalid_name ks e) = negb (forallb valid_name ks).
Proof.
  induction ks as [|k ks IH]; intro e; simpl; [reflexivity|].
  destruct (valid_name k); simpl; [apply IH | reflexivity].
Qed.

Lemma any_invalid_name_fst ks : forall e,
  snd (any_invalid_name ks e) = true ->
  exists k, fst (any_invalid_name ks e) = Some k /\ In k ks /\ valid_name k = false.
Proof.
  induction ks as [|k ks IH]; intro e; simpl; [discriminate|].
  destruct (valid_name k) eqn:Hk; simpl.
  - intro H. destruct (IH _ H) as (k' & H1 & H2 & H3). eauto.
  - intros _. eauto.
Qed.

Lemma any_foreign_char_snd vars cs : forall e,
  snd (any_foreign_char vars cs e) = negb (forallb (legal_char vars) cs).
Proof.
  induction cs as [|c cs IH]; intro e; simpl; [reflexivity|].
  unfold legal_char at 1.
  destruct (in_keys (str c) vars); simpl; [apply IH|].
  destruct (is_control c); simpl; [apply IH | reflexivity].
Qed.

Lemma any_foreign_char_fst vars cs : forall e,
  snd (any_foreign_char vars cs e) = true ->
  exists c, fst (any_foreign_char vars cs e) = Some (str c) /\ In c cs /\ legal_char vars c = false.
Proof.
  induction cs as [|c cs IH]; intro e; simpl; [discriminate|].
  unfold legal_char.
  destruct (in_keys (str c) vars) eqn:Hk; simpl.
  - intro H. destruct (IH _ H) as (c' & H1 & H2 & H3). exists c'. auto.
  - destruct (is_control c) eqn:Hc; simpl.
    + intro H. destruct (IH _ H) as (c' & H1 & H2 & H3). exists c'. auto.
    + intros _. exists c. rewrite Hk, Hc. auto.
Qed.

Lemma valid_name_truthy k : valid_name k = true -> truthy k = true.
Proof. destruct k; [discriminate | reflexivity]. Qed.

Lemma any_bad_replacement_ok vars items : forall w,
  forallb valid_name (map fst items) = true ->
  forallb (fun kv => replacement_ok vars (snd kv)) items = true ->
  exists w', any_bad_replacement vars items w = inr (w', false).
Proof.
  induction items as [|[k i] items IH]; intros w Hn Hr; simpl in *.
  - eauto.
  - apply andb_prop in Hn as [Hk Hn]. apply andb_prop in Hr as [Hi Hr].
    unfold replacement_ok in Hi. apply andb_prop in Hi as [Ht Hc].
    assert (Hs : select_replacement i = inr (replacement_of i)).
    { destruct i as [[|]|]; simpl in *; try reflexivity; discriminate. }
    rewrite Hs. rewrite (valid_name_truthy _ Hk), Ht. simpl.
    pose proof (any_foreign_char_snd vars (chars (replacement_of i)) (e3 w)) as Hf.
    rewrite Hc in Hf. destruct (any_foreign_char _ _ _) as [e b]. simpl in Hf. subst b.
    apply IH; assumption.
Qed.

Lemma any_bad_replacement_sound vars items : forall w w',
  any_bad_replacement vars items w = inr (w', false) ->
  forallb (fun kv => replacement_ok vars (snd kv)) items = true.
Proof.
  induction items as [|[k i] items IH]; intros w w' H; simpl in *; [reflexivity|].
  destruct (select_replacement i) as [|repl] eqn:Hs; [discriminate|].
  destruct (truthy k); simpl in H; [|discriminate].
  destruct (truthy repl) eqn:Ht; simpl in H; [|discriminate].
  pose proof (any_foreign_char_snd vars (chars repl) (e3 w)) as Hf.
  destruct (any_foreign_char _ _ _) as [e b]. simpl in Hf.
  destruct b; [discriminate|].
  assert (repl = replacement_of i).
  { destruct i as [[|]|]; simpl in *; congruence. }
  subst repl. unfold replacement_ok. rewrite Ht. simpl.
  destruct (forallb _ (chars (replacement_of i))); [|discriminate]. simpl.
  eapply IH; eassumption.
Qed.

Theorem validate_accepts_iff axiom vars step cf :
  validate axiom vars step cf = inr tt <->
  grammar_ok axiom vars = true /\ step <> 0 /\ compression_nonzero cf = true.
Proof.
  unfold validate, grammar_ok, names_ok, axiom_ok, replacements_ok.
  pose proof (any_invalid_name_snd (keys vars) None) as Hn.
  pose proof (any_invalid_name_fst (keys vars) None) as Hn'.
  destruct (any_invalid_name (keys vars) None) as [e b]. simpl in Hn, Hn'.
  destruct b.
  - destruct (Hn' eq_refl) as (k & -> & _). simpl.
    split; [discriminate|]. intros [H _].
    destruct (forallb valid_name (keys vars)); discriminate.
  - destruct (forallb valid_name (keys vars)) eqn:Hnames; [|discriminate]. simpl.
    pose proof (any_foreign_char_snd vars (chars axiom) e) as Ha.
    pose proof (any_foreign_char_fst vars (chars axiom) e) as Ha'.
    destruct (any_foreign_char vars (chars axiom) e) as [e' b]. simpl in Ha, Ha'.
    destruct b.
    + destruct (Ha' eq_refl) as (c & -> & _). simpl.
      split; [discriminate|]. intros [H _].
      destruct (forallb (legal_char vars) (chars axiom)); discriminate.
    + destruct (forallb (legal_char vars) (chars axiom)); [|discriminate]. simpl.
      split.
      * destruct (any_bad_replacement vars vars _) as [ex|[w [|]]] eqn:Hb.
        -- discriminate.
        -- destruct (read "e3" (e3 w)); [discriminate|].
           destruct (read "e2" (e2 w)); [discriminate|].
           destruct (read "e1" (e1 w)); discriminate.
        -- apply any_bad_replacement_sound in Hb. rewrite Hb.
           destruct (nonzero step) eqn:Hs; simpl; [|discriminate].
           destruct (compression_nonzero cf); [|discriminate].
           intros _. repeat split. now apply nonzero_iff.
      * intros (Hr & Hs & Hc).
        destruct (any_bad_replacement_ok vars vars (mkWalrus None None None) Hnames Hr) as [w' ->].
        rewrite (nonzero_true _ Hs), Hc. reflexivity.
Qed.

(** ** What validation reports *)

Lemma any_bad_replacement_reports vars items : forall w,
  forallb valid_name (map fst items) = true ->
  forallb (fun kv => truthy (replacement_of (snd kv))) items = true ->
  forallb (fun kv => replacement_ok vars (snd kv)) items = false ->
  exists w' c k p,
    any_bad_replacement vars items w = inr (w', true)
    /\ e1 w' = Some k /\ e2 w' = Some (replacement_of p) /\ e3 w' = Some (str c)
    /\ In (k, p) items /\ In c (chars (replacement_of p)) /\ legal_char vars c = false.
Proof.
  induction items as [|[k i] items IH]; intros w Hn Ht Hr; simpl in *; [discriminate|].
  apply andb_prop in Hn as [Hk Hn]. apply andb_prop in Ht as [Hi Ht].
  assert (Hs : select_replacement i = inr (replacement_of i)).
  { destruct i as [[|]|]; simpl in *; try reflexivity; discriminate. }
  rewrite Hs, (valid_name_truthy _ Hk), Hi. simpl.
  pose proof (any_foreign_char_snd vars (chars (replacement_of i)) (e3 w)) as Hf.
  pose proof (any_foreign_char_fst vars (chars (replacement_of i)) (e3 w)) as Hf'.
  destruct (any_foreign_char _ _ _) as [e b]. simpl in Hf, Hf'.
  destruct b.
  - destruct (Hf' eq_refl) as (c & -> & Hin & Hc).
    eexists _, c, k, i. simpl. repeat split; auto.
  - unfold replacement_ok in Hr at 1. rewrite Hi in Hr.
    destruct (forallb (legal_char vars) (chars (replacement_of i))); [|discriminate].
    simpl in Hr.
    destruct (IH (mkWalrus (Some k) (Some (replacement_of i)) e) Hn Ht Hr)
      as (w' & c & k' & p & E & H1 & H2 & H3 & Hin & Hc & Hl).
    exists w', c, k', p. repeat split; auto.
Qed.

Theorem validate_reports axiom vars step cf :
  (names_ok vars = false ->
   exists k, validate axiom vars step cf = inl (ValueError (InvalidVariableName k))
             /\ In k (keys vars) /\ valid_name k = false)
  /\ (names_ok vars = true -> axiom_ok vars axiom = false ->
      exists c, validate axiom vars step cf = inl (ValueError (AxiomCharacter (str c)))
                /\ In c (chars axiom) /\ legal_char vars c = false)
  /\ (names_ok vars = true -> axiom_ok vars axiom = true ->
      nonempty_replacements vars = true -> replacements_ok vars = false ->
      exists c k p,
        validate axiom vars step cf
        = inl (ValueError (ReplacementCharacter (str c) (replacement_of p) k))
        /\ In (k, p) vars /\ In c (chars (replacement_of p)) /\ legal_char vars c = false).
Proof.
  unfold validate, names_ok, axiom_ok, replacements_ok, nonempty_replacements.
  pose proof (any_invalid_name_snd (keys vars) None) as Hn.
  pose proof (any_invalid_name_fst (keys vars) None) as Hn'.
  destruct (any_invalid_name (keys vars) None) as [e b]. simpl in Hn, Hn'.
  split; [|split].
  - intro H. rewrite H in Hn. simpl in Hn. subst b.
    destruct (Hn' eq_refl) as (k & -> & Hin & Hk). exists k. simpl. auto.
  - intros H Ha. rewrite H in Hn. simpl in Hn. subst b.
    pose proof (any_foreign_char_snd vars (chars axiom) e) as Hc.
    pose proof (any_foreign_char_fst vars (chars axiom) e) as Hc'.
    destruct (any_foreign_char vars (chars axiom) e) as [e' b]. simpl in Hc, Hc'.
    rewrite Ha in Hc. simpl in Hc. subst b.
    destruct (Hc' eq_refl) as (c & -> & Hin & Hl). exists c. simpl. auto.
  - intros H Ha Ht Hr. rewrite H in Hn. simpl in Hn. subst b.
    pose proof (any_foreign_char_snd vars (chars axiom) e) as Hc.
    destruct (any_foreign_char vars (chars axiom) e) as [e' b]. simpl in Hc.
    rewrite Ha in Hc. simpl in Hc. subst b.
    destruct (any_bad_replacement_reports vars vars (mkWalrus None None None) H Ht Hr)
      as (w' & c & k & p & E & H1 & H2 & H3 & Hin & Hc & Hl).
    rewrite E, H1, H2, H3. simpl. exists c, k, p. auto.
Qed.

(** C1 (defect of the code).  An empty replacement is meant to be rejected by
    the test [not (e2 := repl)] of line 124 with the [ValueError] of lines
    126-127, which names a character, the replacement and the variable.  It
    is not: for a replacement given as a plain string, [i[0]] of line 125 is
    evaluated first and raises [IndexError]; for one given in a tuple, the
    message reads [e3], which is unbound ([UnboundLocalError]) or still holds
    a legal character of an earlier replacement.  A top-level call on such a
    grammar ends with that exception. *)
Theorem empty_production_escapes_the_report :
  validate "F" [("F", Plain "")] 10 Auto = inl IndexError
  /\ validate "F" [("F", Pair "" true)] 10 Auto = inl (UnboundLocalError "e3")
  /\ validate "F" [("F", Plain "+"); ("G", Pair "" false)] 10 Auto
     = inl (ValueError (ReplacementCharacter "+" "" "G"))
  /\ exists w', blank_replacement blank_world = (w', inl IndexError).
Proof.
  split; [reflexivity|]. split; [reflexivity|]. split; [reflexivity|].
  eexists. unfold blank_replacement. run. reflexivity.
Qed.

(** ** The drawing flag of a variable *)

Lemma find_variable_at pre : forall n var props post c,
  var = str c -> (forall k, In k (keys pre) -> k <> str c) ->
  find_variable (pre ++ (var, props) :: post) n c
  = Some (var, replacement_of props,
          match props with Plain _ => Nat.eqb (n + List.length pre) 0 | Pair _ d => d end).
Proof.
  induction pre as [|[k p] pre IH]; intros n var props post c Hv Hpre; simpl.
  - subst var. rewrite String.eqb_refl, Nat.add_0_r. destruct props; reflexivity.
  - assert (Hk : String.eqb k (str c) = false).
    { apply String.eqb_neq. apply Hpre. simpl. auto. }
    rewrite Hk. destruct p; rewrite (IH (S n) var props post c Hv);
      try (intros k' Hin; apply Hpre; simpl; auto);
      replace (S n + List.length pre)%nat with (n + S (List.length pre))%nat by lia; reflexivity.
Qed.

(** C8.  The loop of lines 243-246 finds the entry of a variable, whatever
    comes before and after it in the dictionary, and takes as its drawing
    flag: for a plain replacement string, whether the entry is the first of
    the dictionary; for a tuple, the flag of the tuple. *)
Theorem first_plain_variable_draws pre var props post c :
  var = str c -> (forall k, In k (keys pre) -> k <> str c) ->
  find_variable (pre ++ (var, props) :: post) 0 c
  = Some (var, replacement_of props,
          match props with
          | Plain _ => match pre with [] => true | _ :: _ => false end
          | Pair _ draw => draw
          end).
Proof.
  intros Hv Hpre. rewrite (find_variable_at pre 0 var props post c Hv Hpre).
  destruct props, pre; reflexivity.
Qed.

Lemma first_plain_variable_draws_witness :
  find_variable ([("F", Plain "FF")] ++ ("X", Plain "F+X") :: [("Y", Pair "YF" true)]) 0 "X"
  = Some ("X", "F+X", false).
Proof.
  apply (first_plain_variable_draws [("F", Plain "FF")] "X" (Plain "F+X")
           [("Y", Pair "YF" true)] "X"%char).
  - reflexivity.
  - intros k [<-|[]]. discriminate.
Defined.

(** ** A negative depth *)

(** C10.  A call with a negative depth, initial or not and whatever the
    grammar, returns the position of the turtle as both corners.  It raises
    nothing and performs no turtle operation: all it may do is to create
    the screen and the turtle when none is passed. *)
Theorem negative_depth_returns_position axiom depth initial_call o w :
  (depth < 0)%Z ->
  exists w' t s p evs,
    lindenmayer_system axiom depth initial_call o w = (w', inr (t, s, p, p))
    /\ p = t_pos (turtles w' t)
    /\ log w' = log w ++ evs
    /\ ops_of evs = []
    /\ (forall h, _turtle o = Some h -> t = h /\ turtles w' = turtles w)
    /\ (_turtle o = None -> t = next_turtle w /\ turtles w' t = fresh_turtle).
Proof.
  intro Hd. unfold lindenmayer_system.
  apply Z.ltb_lt in Hd. rewrite Hd.
  unfold negative_depth, acquire_screen, acquire_turtle.
  destruct (_screen o) as [s|]; destruct (_turtle o) as [h|] eqn:Ht;
    try destruct (_screen_icon o) as [icon|];
    try destruct (isfile w icon) eqn:Hf;
    eexists _, _, _, _, _; exec; try rewrite Hf; exec;
    (split; [reflexivity|]);
    (split; [reflexivity|]);
    (split; [cbn; rewrite <- ?app_assoc; try reflexivity; symmetry; apply app_nil_r|]);
    (split; [reflexivity|]);
    (split; [intros h' E; inversion E; subst; auto | intros E; inversion E]);
    cbn; rewrite ?Nat.eqb_refl; auto.
Qed.

Lemma negative_depth_returns_position_witness :
  exists w' t s p evs,
    lindenmayer_system "a]" (-1) true (defaults [("lower", Plain "")] 90) blank_world
    = (w', inr (t, s, p, p))
    /\ p = t_pos (turtles w' t)
    /\ log w' = log blank_world ++ evs
    /\ ops_of evs = []
    /\ (forall h, _turtle (defaults [("lower", Plain "")] 90) = Some h ->
          t = h /\ turtles w' = turtles blank_world)
    /\ (_turtle (defaults [("lower", Plain "")] 90) = None ->
          t = next_turtle blank_world /\ turtles w' t = fresh_turtle).
Proof.
  apply (negative_depth_returns_position "a]" (-1) true
           (defaults [("lower", Plain "")] 90) blank_world).
  lia.
Defined.

Lemma bind_inr A B (c : M A) (k : A -> M B) w w' b :
  bind c k w = (w', inr b) ->
  exists w1 a, c w = (w1, inr a) /\ k a w1 = (w', inr b).
Proof.
  unfold bind. destruct (c w) as [w1 [ex|a]]; intro H; [discriminate|eauto].
Qed.

Lemma bind_run A B (c : M A) (k : A -> M B) w w1 a :
  c w = (w1, inr a) -> bind c k w = k a w1.
Proof. unfold bind. now intros ->. Qed.

Lemma bind_raise A B (c : M A) (k : A -> M B) w w1 ex :
  c w = (w1, inl ex) -> bind c k w = (w1, inl ex).
Proof. unfold bind. now intros ->. Qed.

Arguments bind_inr {A B c k w w' b} _.
Arguments bind_run {A B c} k {w w1 a} _.
Arguments bind_raise {A B c} k {w w1 ex} _.

Lemma grow_canvas_spec t w :
  exists w' evs, grow_canvas t w = (w', inr tt)
    /\ log w' = log w ++ evs /\ ops_of evs = [] /\ endpoints evs = []
    /\ turtles w' = turtles w /\ next_turtle w' = next_turtle w /\ window w' = window w.
Proof.
  unfold grow_canvas. exec.
  destruct (Rge_dec _ _).
  - eexists _, [_]. exec. repeat split.
  - destruct (Rge_dec _ _).
    + eexists _, [_]. exec. repeat split.
    + exists w, []. rewrite app_nil_r. repeat split.
Qed.

Lemma draw_forward_raises o t var i b w :
  color_callable o = false -> draw_forward o t var i b w = (w, inl TypeError).
Proof.
  unfold color_callable, draw_forward. intro H.
  apply orb_false_elim in H as [H H3]. apply orb_false_elim in H as [H1 H2].
  rewrite H1, H2. apply negb_false_iff in H3.
  destruct (fg_color o); [reflexivity | discriminate].
Qed.

Lemma draw_forward_spec o t var i b w :
  color_callable o = true ->
  let p := move (t_pos (turtles w t)) (step_length o) (heading_of (turtles w t)) in
  exists w' evs,
    draw_forward o t var i b w = (w', inr (tracked o p b))
    /\ log w' = log w ++ evs
    /\ endpoints evs = [p]
    /\ motions_of evs = [Forward (step_length o)]
    /\ t_pos (turtles w' t) = p
    /\ t_angle (turtles w' t) = t_angle (turtles w t)
    /\ t_down (turtles w' t) = t_down (turtles w t)
    /\ (forall h, h <> t -> turtles w' h = turtles w h)
    /\ next_turtle w' = next_turtle w /\ window w' = window w.
Proof.
  intros Hc p. unfold draw_forward, tracked.
  assert (Hcol : exists w1 evs1,
    (if negb (truth (__static_color o)) && negb (__no_draw o)
     then match fg_color o with
          | StaticColor _ => raise TypeError
          | ColorFunction f =>
              p <- pos t;; h <- heading t;;
              call t (Color (f (fst p) (snd p) h (__initial_depth o) (__extrem_cords o) var i))
          end
     else ret tt) w = (w1, inr tt)
    /\ log w1 = log w ++ evs1 /\ endpoints evs1 = [] /\ motions_of evs1 = []
    /\ t_pos (turtles w1 t) = t_pos (turtles w t)
    /\ t_angle (turtles w1 t) = t_angle (turtles w t)
    /\ t_down (turtles w1 t) = t_down (turtles w t)
    /\ (forall h, h <> t -> turtles w1 h = turtles w h)
    /\ next_turtle w1 = next_turtle w /\ window w1 = window w).
  { unfold color_callable in Hc.
    destruct (negb (truth (__static_color o)) && negb (__no_draw o)) eqn:Hb.
    - apply andb_prop in Hb as [H1 H2].
      apply negb_true_iff in H1, H2. rewrite H1, H2 in Hc. simpl in Hc.
      destruct (fg_color o) as [c|f]; [discriminate|].
      eexists _, [_]. exec. (split; [reflexivity|]). exec. rewrite Nat.eqb_refl.
      repeat split.
      intros h Hh. apply Nat.eqb_neq in Hh. now rewrite Hh.
    - exists w, []. rewrite app_nil_r. repeat split. }
  destruct Hcol as (w1 & evs1 & E1 & L1 & P1 & M1 & Tp & Ta & Td & To & Tn & Tw).
  rewrite (bind_run _ E1).
  assert (Hheading : heading_of (turtles w1 t) = heading_of (turtles w t)).
  { unfold heading_of. now rewrite Ta. }
  set (w2 := fst (call t (Forward (step_length o)) w1)).
  assert (E2 : call t (Forward (step_length o)) w1 = (w2, inr tt)) by reflexivity.
  rewrite (bind_run _ E2).
  assert (Hp : t_pos (turtles w2 t) = p).
  { subst w2 p. exec. rewrite Nat.eqb_refl. cbn [apply_op t_pos]. now rewrite Tp, Hheading. }
  assert (Hends : endpoints (evs1 ++ [TurtleDid t (Forward (step_length o))
                     (apply_op (Forward (step_length o)) (turtles w1 t))]) = [p]).
  { clear - P1 Tp Hheading. subst p.
    assert (G : forall evs e, endpoints (evs ++ [e]) = endpoints evs ++ endpoints [e]).
    { induction evs as [|[| ? [] ? | | |] evs IH]; intros; simpl; try rewrite IH; reflexivity. }
    rewrite G, P1. cbn. now rewrite Tp, Hheading. }
  assert (E3 : (match __extrem_cords o with
                | Some _ => ret b
                | None => p0 <- pos t;; ret (include_pos p0 b)
                end) w2 = (w2, inr (match __extrem_cords o with
                                    | Some _ => b | None => include_pos p b end))).
  { destruct (__extrem_cords o); exec; [reflexivity|]. fold w2. now rewrite Hp. }
  rewrite (bind_run _ E3).
  assert (Hgrow : exists w3 evs3,
    (match compression_factor o with
     | Auto => ret tt
     | Factor _ => if __no_draw o then ret tt else grow_canvas t
     end) w2 = (w3, inr tt)
    /\ log w3 = log w2 ++ evs3 /\ ops_of evs3 = [] /\ endpoints evs3 = []
    /\ turtles w3 = turtles w2 /\ next_turtle w3 = next_turtle w2 /\ window w3 = window w2).
  { destruct (compression_factor o); [|destruct (__no_draw o)];
      try solve [exists w2, []; rewrite app_nil_r; repeat split].
    apply grow_canvas_spec. }
  destruct Hgrow as (w3 & evs3 & E4 & L3 & O3 & P3 & T3 & N3 & W3).
  rewrite (bind_run _ E4).
  exists w3, ((evs1 ++ [TurtleDid t (Forward (step_length o))
                     (apply_op (Forward (step_length o)) (turtles w1 t))]) ++ evs3).
  assert (G : forall evs evs', endpoints (evs ++ evs') = endpoints evs ++ endpoints evs').
  { induction evs as [|[| ? [] ? | | |] evs IH]; intros; simpl; try rewrite IH; reflexivity. }
  assert (G' : forall evs evs', ops_of (evs ++ evs') = ops_of evs ++ ops_of evs').
  { induction evs as [|[] evs IH]; intros; simpl; try rewrite IH; reflexivity. }
  split; [reflexivity|].
  split. { rewrite L3. subst w2. exec. rewrite L1. now rewrite <- !app_assoc. }
  split. { rewrite G, Hends, P3. reflexivity. }
  split. { unfold motions_of in *. rewrite !G', !filter_app, M1, O3. reflexivity. }
  rewrite T3. split; [exact Hp|].
  subst w2. exec. rewrite Nat.eqb_refl. cbn [apply_op t_angle t_down].
  repeat split; try assumption.
  - intros h Hh. pose proof Hh as Hh'. apply Nat.eqb_neq in Hh. rewrite Hh. now apply To.
  - now rewrite N3.
  - now rewrite W3.
Qed.

Lemma endpoints_app evs evs' : endpoints (evs ++ evs') = endpoints evs ++ endpoints evs'.
Proof.
  induction evs as [|[| ? [] ? | | |] evs IH]; simpl; try rewrite IH; reflexivity.
Qed.

Lemma ops_of_app evs evs' : ops_of (evs ++ evs') = ops_of evs ++ ops_of evs'.
Proof. induction evs as [|[] evs IH]; simpl; try rewrite IH; reflexivity. Qed.

Lemma forwards_app evs evs' : forwards (evs ++ evs') = (forwards evs + forwards evs')%nat.
Proof. unfold forwards. now rewrite endpoints_app, length_app. Qed.

Lemma motions_of_app evs evs' : motions_of (evs ++ evs') = motions_of evs ++ motions_of evs'.
Proof. unfold motions_of. now rewrite ops_of_app, filter_app. Qed.

Lemma visits_cons vars d c rest :
  visits vars d (c :: rest)
  = ((if is_variable c then
        match find_variable vars 0 c with
        | Some (_, replacement, draw) =>
            match d with
            | O => if draw then 1%nat else O
            | S d' => visits vars d' (chars replacement)
            end
        | None => O
        end
      else O) + visits vars d rest)%nat.
Proof. destruct d; reflexivity. Qed.

Lemma visits_nil vars d : visits vars d [] = O.
Proof. destruct d; reflexivity. Qed.

(** Extremes of lists of reals. *)

Lemma greatest_Rmax m1 m2 xs ys zs :
  greatest m1 xs -> greatest m2 ys ->
  (forall z, In z zs <-> In z xs \/ In z ys) ->
  greatest (Rmax m2 m1) zs.
Proof.
  intros [I1 U1] [I2 U2] Hz. split.
  - apply Hz. unfold Rmax. destruct (Rle_dec m2 m1); auto.
  - intros z Hin. apply Hz in Hin as [Hin|Hin].
    + apply Rle_trans with m1; [auto | apply Rmax_r].
    + apply Rle_trans with m2; [auto | apply Rmax_l].
Qed.

Lemma least_Rmin m1 m2 xs ys zs :
  least m1 xs -> least m2 ys ->
  (forall z, In z zs <-> In z xs \/ In z ys) ->
  least (Rmin m2 m1) zs.
Proof.
  intros [I1 U1] [I2 U2] Hz. split.
  - apply Hz. unfold Rmin. destruct (Rle_dec m2 m1); auto.
  - intros z Hin. apply Hz in Hin as [Hin|Hin].
    + apply Rle_trans with m1; [apply Rmin_r | auto].
    + apply Rle_trans with m2; [apply Rmin_l | auto].
Qed.

Lemma greatest_single x : greatest x [x].
Proof. split; [now left|]. intros y [<-|[]]. apply Rle_refl. Qed.

Lemma least_single x : least x [x].
Proof. split; [now left|]. intros y [<-|[]]. apply Rle_refl. Qed.

Lemma in_map_merge (f : cord_type -> R) a ps qs z :
  In z (map f (a :: ps ++ qs)) <-> In z (map f (a :: ps)) \/ In z (map f (a :: qs)).
Proof.
  simpl. rewrite map_app, in_app_iff. tauto.
Qed.

Lemma in_map_extend (f : cord_type -> R) a ps p z :
  In z (map f (a :: ps ++ [p])) <-> In z (map f (a :: ps)) \/ In z [f p].
Proof.
  simpl. rewrite map_app, in_app_iff. simpl. tauto.
Qed.

Lemma covers_include_pos b a ps p :
  covers b (a :: ps) -> covers (include_pos p b) (a :: ps ++ [p]).
Proof.
  intros (H1 & H2 & H3 & H4). unfold covers, bounding_box, include_pos. cbn [fst snd min_x min_y max_x max_y] in *.
  repeat split.
  - eapply least_Rmin; [exact H1 | apply least_single | apply in_map_extend].
  - eapply least_Rmin; [exact H1 | apply least_single | apply in_map_extend].
  - eapply least_Rmin; [exact H2 | apply least_single | apply in_map_extend].
  - eapply least_Rmin; [exact H2 | apply least_single | apply in_map_extend].
  - eapply greatest_Rmax; [exact H3 | apply greatest_single | apply in_map_extend].
  - eapply greatest_Rmax; [exact H3 | apply greatest_single | apply in_map_extend].
  - eapply greatest_Rmax; [exact H4 | apply greatest_single | apply in_map_extend].
  - eapply greatest_Rmax; [exact H4 | apply greatest_single | apply in_map_extend].
Qed.

Lemma covers_include_ret b a ps r qs :
  covers b (a :: ps) -> bounding_box (min_corner r) (max_corner r) (a :: qs) ->
  covers (include_ret r b) (a :: ps ++ qs).
Proof.
  intros (H1 & H2 & H3 & H4) (G1 & G2 & G3 & G4).
  unfold covers, bounding_box, include_ret. cbn [fst snd min_x min_y max_x max_y] in *.
  repeat split.
  - eapply least_Rmin; [exact H1 | exact G1 | apply in_map_merge].
  - eapply least_Rmin; [exact H1 | exact G1 | apply in_map_merge].
  - eapply least_Rmin; [exact H2 | exact G2 | apply in_map_merge].
  - eapply least_Rmin; [exact H2 | exact G2 | apply in_map_merge].
  - eapply greatest_Rmax; [exact H3 | exact G3 | apply in_map_merge].
  - eapply greatest_Rmax; [exact H3 | exact G3 | apply in_map_merge].
  - eapply greatest_Rmax; [exact H4 | exact G4 | apply in_map_merge].
  - eapply greatest_Rmax; [exact H4 | exact G4 | apply in_map_merge].
Qed.

Lemma covers_origin : covers zero_extremes [(0, 0)].
Proof.
  unfold covers, bounding_box, zero_extremes. cbn.
  repeat split; try (now left); intros x [<-|[]]; apply Rle_refl.
Qed.

Lemma scan_cons o t deeper index st b char rest :
  scan o t deeper index st b (char :: rest) =
  if (char =? "[")%char then
    p <- pos t ;; h <- heading t ;; scan o t deeper (S index) ((p, h) :: st) b rest
  else if (char =? "]")%char then
    match st with
    | [] => raise (ValueError (UnmatchedBracket index))
    | (stored_pos, stored_head) :: below =>
        call t Penup ;; call t (Goto stored_pos) ;; call t (Seth stored_head) ;;
        when (negb (__no_draw o)) (call t Pendown) ;;
        scan o t deeper (S index) below b rest
    end
  else if (char =? "+")%char then
    call t (Left (angle o)) ;; scan o t deeper (S index) st b rest
  else if (char =? "-")%char then
    call t (Right (angle o)) ;; scan o t deeper (S index) st b rest
  else if is_variable char then
    match find_variable (vars o) 0 char with
    | None => raise (ValueError (VariableNotProvided char))
    | Some (var, replacement, draw) =>
        b' <- match deeper with
              | None => if draw then draw_forward o t var index b else ret b
              | Some recurse =>
                  r <- recurse replacement ;;
                  match __extrem_cords o with
                  | None => ret (include_ret r b)
                  | Some _ => ret b
                  end
              end ;;
        scan o t deeper (S index) st b' rest
    end
  else raise (ValueError (InvalidCharacter char)).
Proof. reflexivity. Qed.

Lemma role_of c : role c.
Proof.
  destruct (Ascii.eqb_spec c "[") as [E1|E1]; [now apply RoleOpen|].
  destruct (Ascii.eqb_spec c "]") as [E2|E2]; [now apply RoleClose|].
  destruct (Ascii.eqb_spec c "+") as [E3|E3]; [now apply RoleLeft|].
  destruct (Ascii.eqb_spec c "-") as [E4|E4]; [now apply RoleRight|].
  assert (Hc : is_control c = false).
  { unfold is_control. apply Ascii.eqb_neq in E1, E2, E3, E4. now rewrite E1, E2, E3, E4. }
  destruct (is_variable c) eqn:Ev; [now apply RoleVariable | now apply RoleInvalid].
Qed.

Lemma control_split c :
  is_control c = false ->
  (c =? "[")%char = false /\ (c =? "]")%char = false
  /\ (c =? "+")%char = false /\ (c =? "-")%char = false.
Proof.
  unfold is_control. intro H.
  apply orb_false_elim in H as [H H4]. apply orb_false_elim in H as [H H3].
  apply orb_false_elim in H as [H1 H2]. auto.
Qed.

Lemma scan_stack o t deeper cs : forall index st b w w' st' b',
  scan o t deeper index st b cs w = (w', inr (st', b')) ->
  brackets_ok (List.length st) cs = true
  /\ List.length st' = unclosed (List.length st) cs.
Proof.
  induction cs as [|c rest IH]; intros index st b w w' st' b' H.
  - inversion H; subst. auto.
  - rewrite scan_cons in H. cbn [brackets_ok unclosed].
    destruct (role_of c) as [E|E|E|E|Hc Hv|Hc Hv]; try subst c.
    + cbn [Ascii.eqb Bool.eqb] in *. exec in H. apply IH in H. exact H.
    + cbn [Ascii.eqb Bool.eqb] in *.
      destruct st as [|[p h] below]; [discriminate|].
      destruct (__no_draw o); exec in H; apply IH in H; exact H.
    + cbn [Ascii.eqb Bool.eqb] in *. exec in H. apply IH in H. exact H.
    + cbn [Ascii.eqb Bool.eqb] in *. exec in H. apply IH in H. exact H.
    + destruct (control_split _ Hc) as (E1 & E2 & E3 & E4).
      rewrite E1, E2, E3, E4, Hv in H. rewrite E1, E2.
      destruct (find_variable (vars o) 0 c) as [[[var repl] draw]|]; [|discriminate].
      apply bind_inr in H as (w1 & b1 & _ & Hrest). apply IH in Hrest. exact Hrest.
    + destruct (control_split _ Hc) as (E1 & E2 & E3 & E4).
      rewrite E1, E2, E3, E4, Hv in H. discriminate.
Qed.

Section ScanFacts.

Variable o : options.
Variable t : nat.
Variable deeper : option (string -> M returned).
Variable d : nat.

Hypothesis deeper_facts :
  match deeper with
  | None => d = O
  | Some recurse =>
      exists d', d = S d' /\
        forall replacement w w' r,
          recurse replacement w = (w', inr r) -> call_facts o replacement d' w w' r
  end.

Lemma scan_facts cs : forall index st b w w' st' b',
  scan o t deeper index st b cs w = (w', inr (st', b')) ->
  exists evs, log w' = log w ++ evs
    /\ forwards evs = visits (vars o) d cs
    /\ (__extrem_cords o = None ->
        forall ps, covers b ((0, 0) :: ps) -> covers b' ((0, 0) :: ps ++ endpoints evs)).
Proof.
  induction cs as [|c rest IH]; intros index st b w w' st' b' H.
  - inversion H; subst. exists []. rewrite visits_nil, !app_nil_r.
    split; [reflexivity|]. split; [reflexivity|].
    intros _ ps Hps. now rewrite app_nil_r.
  - rewrite scan_cons in H. rewrite visits_cons.
    destruct (role_of c) as [E|E|E|E|Hc Hv|Hc Hv]; try subst c.
    + cbn [Ascii.eqb Bool.eqb] in H. exec in H.
      apply IH in H. exact H.
    + cbn [Ascii.eqb Bool.eqb] in H.
      destruct st as [|[p h] below]; [discriminate|].
      destruct (__no_draw o); exec in H; apply IH in H as (evs & L & F & C); cbn [log] in L.
      * eexists. split; [rewrite L, <- !app_assoc; reflexivity|].
        split; [rewrite !forwards_app, F; reflexivity|].
        intros He ps Hps. rewrite !endpoints_app. cbn. now apply C.
      * eexists. split; [rewrite L, <- !app_assoc; reflexivity|].
        split; [rewrite !forwards_app, F; reflexivity|].
        intros He ps Hps. rewrite !endpoints_app. cbn. now apply C.
    + cbn [Ascii.eqb Bool.eqb] in H. exec in H.
      apply IH in H as (evs & L & F & C); cbn [log] in L.
      eexists. split; [rewrite L, <- !app_assoc; reflexivity|].
      split; [rewrite !forwards_app, F; reflexivity|].
      intros He ps Hps. rewrite !endpoints_app. cbn. now apply C.
    + cbn [Ascii.eqb Bool.eqb] in H. exec in H.
      apply IH in H as (evs & L & F & C); cbn [log] in L.
      eexists. split; [rewrite L, <- !app_assoc; reflexivity|].
      split; [rewrite !forwards_app, F; reflexivity|].
      intros He ps Hps. rewrite !endpoints_app. cbn. now apply C.
    + destruct (control_split _ Hc) as (E1 & E2 & E3 & E4).
      rewrite E1, E2, E3, E4, Hv in H. rewrite Hv.
      destruct (find_variable (vars o) 0 c) as [[[var repl] draw]|]; [|discriminate].
      apply bind_inr in H as (w1 & b1 & Hstep & Hrest).
      apply IH in Hrest as (evs & L & F & C).
      assert (Hs : exists evs1, log w1 = log w ++ evs1
                /\ forwards evs1 = match d with
                                   | O => if draw then 1%nat else O
                                   | S d' => visits (vars o) d' (chars repl)
                                   end
                /\ (__extrem_cords o = None -> forall ps,
                      covers b ((0, 0) :: ps) -> covers b1 ((0, 0) :: ps ++ endpoints evs1))).
      { destruct deeper as [recurse|].
        - destruct deeper_facts as (d' & -> & Hrec).
          apply bind_inr in Hstep as (w2 & r & Hcall & Hmerge).
          apply Hrec in Hcall as (evs1 & L1 & F1 & B1 & _).
          destruct (__extrem_cords o) eqn:He; inversion Hmerge; subst;
            exists evs1; (split; [exact L1|]); (split; [exact F1|]).
          + intro; discriminate.
          + intros _ ps Hps. apply covers_include_ret; auto.
        - rewrite deeper_facts. destruct draw.
          + destruct (color_callable o) eqn:Hcc.
            * destruct (draw_forward_spec o t var index b w Hcc)
                as (w2 & evs1 & E & L1 & P1 & _).
              rewrite E in Hstep. inversion Hstep; subst.
              exists evs1. split; [exact L1|]. split.
              -- unfold forwards. now rewrite P1.
              -- intros He ps Hps. unfold tracked. rewrite He, P1.
                 now apply covers_include_pos.
            * rewrite draw_forward_raises in Hstep by assumption. discriminate.
          + inversion Hstep; subst. exists []. rewrite !app_nil_r.
            split; [reflexivity|]. split; [reflexivity|].
            intros _ ps Hps. now rewrite app_nil_r. }
      destruct Hs as (evs1 & L1 & F1 & C1).
      exists (evs1 ++ evs). split; [rewrite L, L1, <- app_assoc; reflexivity|].
      split; [rewrite forwards_app, F, F1; reflexivity|].
      intros He ps Hps. rewrite endpoints_app, app_assoc. apply C; auto.
    + destruct (control_split _ Hc) as (E1 & E2 & E3 & E4).
      rewrite E1, E2, E3, E4, Hv in H. discriminate.
Qed.

End ScanFacts.

Lemma steady_ret A (a : A) : steady (ret a).
Proof. intro w. exists w, a, []. rewrite app_nil_r. auto. Qed.

Lemma steady_bind A B (c : M A) (k : A -> M B) :
  steady c -> (forall a, steady (k a)) -> steady (bind c k).
Proof.
  intros Hc Hk w. destruct (Hc w) as (w1 & a & evs1 & E1 & L1 & P1).
  destruct (Hk a w1) as (w2 & b & evs2 & E2 & L2 & P2).
  exists w2, b, (evs1 ++ evs2). rewrite (bind_run _ E1), E2.
  split; [reflexivity|]. split; [now rewrite L2, L1, app_assoc|].
  now rewrite endpoints_app, P1, P2.
Qed.

Lemma steady_call t o :
  match o with Forward _ => False | _ => True end -> steady (call t o).
Proof.
  intros Ho w. eexists _, tt, [_]. exec. split; [reflexivity|]. split; [reflexivity|].
  destruct o; try reflexivity. destruct Ho.
Qed.

Lemma steady_screen o : steady (screen o).
Proof.
  intro w. eexists _, tt, [_]. exec. split; [reflexivity|].
  destruct o; split; reflexivity.
Qed.

Lemma steady_print s : steady (print s).
Proof. intro w. eexists _, tt, [_]. exec. repeat split. Qed.

Lemma steady_warn s : steady (warn s).
Proof. intro w. eexists _, tt, [_]. exec. repeat split. Qed.

Lemma steady_Turtle : steady Turtle.
Proof. intro w. eexists _, _, [_]. exec. repeat split. Qed.

Lemma steady_when b c : steady c -> steady (when b c).
Proof. destruct b; [auto | intros _; apply steady_ret]. Qed.

Lemma steady_query A (f : world -> A) : steady (fun w => (w, inr (f w))).
Proof. intro w. exists w, (f w), []. rewrite app_nil_r. auto. Qed.

Lemma steady_isfile path : steady (os_path_isfile path).
Proof. apply (steady_query _ (fun w => isfile w path)). Qed.

Lemma steady_window_width : steady window_width.
Proof. apply (steady_query _ (fun w => fst (window w))). Qed.

Lemma steady_window_height : steady window_height.
Proof. apply (steady_query _ (fun w => snd (window w))). Qed.

Ltac steady_step :=
  lazymatch goal with
  | |- steady (bind _ _) => apply steady_bind; [|intro]
  | |- steady (ret _) => apply steady_ret
  | |- steady (screen _) => apply steady_screen
  | |- steady (print _) => apply steady_print
  | |- steady (warn _) => apply steady_warn
  | |- steady Turtle => apply steady_Turtle
  | |- steady (call _ _) => apply steady_call; exact I
  | |- steady (when _ _) => apply steady_when
  | |- steady (os_path_isfile _) => apply steady_isfile
  | |- steady window_width => apply steady_window_width
  | |- steady window_height => apply steady_window_height
  end.

Ltac steady_all := repeat steady_step.

Lemma steady_acquire_screen o : steady (acquire_screen o).
Proof.
  unfold acquire_screen. destruct (_screen o); [steady_all|].
  destruct (_screen_icon o); steady_all.
Qed.

Lemma steady_acquire_turtle o : steady (acquire_turtle o).
Proof. unfold acquire_turtle. destruct (_turtle o); steady_all. Qed.

Lemma steady_orient o t : steady (orient o t).
Proof. unfold orient. steady_all. Qed.

Lemma steady_suppress o t : steady (suppress o t).
Proof. unfold suppress. steady_all. Qed.

Lemma steady_inv A B (c : M A) (k : A -> M B) w w' b :
  steady c -> bind c k w = (w', inr b) ->
  exists w1 a evs, log w1 = log w ++ evs /\ endpoints evs = [] /\ k a w1 = (w', inr b).
Proof.
  intros Hc H. destruct (Hc w) as (w1 & a & evs & E & L & P).
  rewrite (bind_run _ E) in H. eauto 7.
Qed.

Lemma finish_facts axiom o t s st b w w' r :
  finish axiom o t s st b w = (w', inr r) ->
  (exists evs, log w' = log w ++ evs /\ endpoints evs = []
     /\ (List.length st <> O -> evs = [Warned axiom]))
  /\ (__extrem_cords o = None ->
      min_corner r = (min_x b, min_y b) /\ max_corner r = (max_x b, max_y b)).
Proof.
  unfold finish. intro H.
  assert (Hw : exists evs, log w' = log w ++ evs /\ endpoints evs = []
                 /\ (List.length st <> O -> evs = [Warned axiom])).
  { destruct (List.length st) as [|n]; exec in H.
    - exists []. rewrite app_nil_r.
      destruct (__extrem_cords o) as [[lo hi]|]; inversion H; subst; auto.
      all: repeat split; congruence.
    - exists [Warned axiom].
      destruct (__extrem_cords o) as [[lo hi]|]; inversion H; subst; auto. }
  split; [exact Hw|].
  apply steady_inv in H as (w1 & [] & evs & L & P & H); [|steady_all].
  destruct (__extrem_cords o) as [[lo hi]|]; inversion H; subst.
  - discriminate.
  - intros _. split; reflexivity.
Qed.

Lemma nested_unfold d axiom o :
  nested d axiom o =
  (s <- acquire_screen o ;;
   t <- acquire_turtle o ;;
   when (__no_draw o && at_initial_depth d o) (orient o t) ;;
   suppress o t ;;
   r <- scan o t
          match d with
          | O => None
          | S d' => Some (fun replacement => nested d' replacement (recursive_options o t s))
          end
          0 [] zero_extremes (chars axiom) ;;
   finish axiom o t s (fst r) (snd r)).
Proof. destruct d; reflexivity. Qed.

Lemma ends_with_warning (evs1 evs2 evs3 evs4 evs5 evs6 : list event) axiom :
  evs6 = [Warned axiom] ->
  exists evs', evs1 ++ evs2 ++ evs3 ++ evs4 ++ evs5 ++ evs6 = evs' ++ [Warned axiom].
Proof.
  intros ->. exists (evs1 ++ evs2 ++ evs3 ++ evs4 ++ evs5). now rewrite <- !app_assoc.
Qed.

Lemma nested_facts d : forall axiom o w w' r,
  nested d axiom o w = (w', inr r) -> call_facts o axiom d w w' r.
Proof.
  induction d as [|d IH]; intros axiom o w w' r H; rewrite nested_unfold in H;
    apply steady_inv in H as (w1 & s & evs1 & L1 & P1 & H);
      [|apply steady_acquire_screen| |apply steady_acquire_screen];
    (apply steady_inv in H as (w2 & t & evs2 & L2 & P2 & H); [|apply steady_acquire_turtle]);
    (apply steady_inv in H as (w3 & [] & evs3 & L3 & P3 & H);
      [|apply steady_when, steady_orient]);
    (apply steady_inv in H as (w4 & [] & evs4 & L4 & P4 & H); [|apply steady_suppress]);
    apply bind_inr in H as (w5 & [st b] & Hscan & Hfin);
    pose proof (scan_stack _ _ _ _ _ _ _ _ _ _ _ Hscan) as [Hok Hlen];
    [ apply (scan_facts o t None O eq_refl) in Hscan as (evs5 & L5 & F5 & C5)
    | apply (scan_facts o t _ (S d)) in Hscan as (evs5 & L5 & F5 & C5);
      [|exists d; split; [reflexivity|];
        intros repl v v' r' Hn; apply IH in Hn; exact Hn] ];
    apply finish_facts in Hfin as ((evs6 & L6 & P6 & W6) & Hr);
    exists (evs1 ++ evs2 ++ evs3 ++ evs4 ++ evs5 ++ evs6);
    (split; [rewrite L6, L5, L4, L3, L2, L1, <- !app_assoc; reflexivity|]);
    (split; [rewrite !forwards_app; unfold forwards in *;
             rewrite P1, P2, P3, P4, P6, F5; simpl; lia|]);
    (split; [intro He; destruct (Hr He) as [-> ->];
             rewrite !endpoints_app, P1, P2, P3, P4, P6, app_nil_r; cbn [app];
             apply (C5 He []); apply covers_origin|]);
    (split; [exact Hok|]);
    intro Hu; apply ends_with_warning; apply W6; cbn [fst]; cbn [List.length] in Hlen;
    congruence.
Qed.

Lemma lift_inr A (x : exception + A) w w' a :
  lift x w = (w', inr a) -> x = inr a /\ w' = w.
Proof. unfold lift. intro H. inversion H; subst. auto. Qed.

Lemma steady_prepare o : steady (prepare o).
Proof.
  unfold prepare. apply steady_bind; [apply steady_acquire_screen|intro].
  apply steady_bind; [apply steady_acquire_turtle|intro].
  apply steady_bind; [apply steady_orient|intro]. apply steady_ret.
Qed.

Lemma auto_scale_facts d axiom o t text s initial_depth w w' a :
  auto_scale d axiom o t text s initial_depth w = (w', inr a) ->
  exists evs, log w' = log w ++ evs
    /\ forwards evs = visits (vars o) d (chars axiom).
Proof.
  unfold auto_scale. intro H.
  apply steady_inv in H as (w1 & [] & evs1 & L1 & P1 & H); [|steady_all].
  apply steady_inv in H as (w2 & [] & evs2 & L2 & P2 & H); [|steady_all].
  apply bind_inr in H as (w3 & r & Hdry & H).
  apply nested_facts in Hdry as (evs3 & L3 & F3 & _ & _). cbn [dry_run_options vars] in F3.
  apply steady_inv in H as (w4 & ww & evs4 & L4 & P4 & H); [|steady_all].
  apply steady_inv in H as (w5 & wh & evs5 & L5 & P5 & H); [|steady_all].
  apply bind_inr in H as (w6 & f & Hf & H). apply lift_inr in Hf as [_ ->].
  apply steady_inv in H as (w7 & [] & evs7 & L7 & P7 & H); [|steady_all].
  apply steady_inv in H as (w8 & [] & evs8 & L8 & P8 & H); [|steady_all].
  apply steady_inv in H as (w9 & [] & evs9 & L9 & P9 & H); [|steady_all].
  apply steady_inv in H as (w10 & [] & evs10 & L10 & P10 & H); [|steady_all].
  apply steady_inv in H as (w11 & [] & evs11 & L11 & P11 & H); [|steady_all].
  apply steady_inv in H as (w12 & [] & evs12 & L12 & P12 & H); [|steady_all].
  inversion H; subst.
  exists (evs1 ++ evs2 ++ evs3 ++ evs4 ++ evs5 ++ evs7 ++ evs8 ++ evs9 ++ evs10
          ++ evs11 ++ evs12).
  split; [rewrite L12, L11, L10, L9, L8, L7, L5, L4, L3, L2, L1, <- !app_assoc;
          reflexivity|].
  rewrite !forwards_app, F3. unfold forwards.
  rewrite P1, P2, P4, P5, P7, P8, P9, P10, P11, P12. cbn. lia.
Qed.

Lemma initialise_facts d axiom o s t w w' text o' :
  initialise d axiom o s t w = (w', inr (text, o')) ->
  (exists step initial_depth extrem,
     o' = with_locals o step initial_depth (is_static (fg_color o)) extrem
     /\ (compression_factor o <> Auto -> extrem = None))
  /\ exists evs, log w' = log w ++ evs
       /\ forwards evs = match compression_factor o with
                         | Auto => visits (vars o) d (chars axiom)
                         | Factor _ => O
                         end.
Proof.
  unfold initialise. intro H.
  apply steady_inv in H as (w1 & [] & evs1 & L1 & P1 & H); [|steady_all].
  apply steady_inv in H as (w2 & [] & evs2 & L2 & P2 & H); [|steady_all].
  apply steady_inv in H as (w3 & [] & evs3 & L3 & P3 & H); [|steady_all].
  apply steady_inv in H as (w4 & tt' & evs4 & L4 & P4 & H); [|steady_all].
  apply steady_inv in H as (w5 & [] & evs5 & L5 & P5 & H); [|steady_all].
  apply steady_inv in H as (w6 & [] & evs6 & L6 & P6 & H); [|steady_all].
  apply steady_inv in H as (w7 & [] & evs7 & L7 & P7 & H); [|steady_all].
  apply steady_inv in H as (w8 & [] & evs8 & L8 & P8 & H);
    [|destruct (fg_color o); steady_all].
  apply steady_inv in H as (w9 & [] & evs9 & L9 & P9 & H);
    [|destruct (instant_draw o); steady_all].
  apply steady_inv in H as (w10 & [] & evs10 & L10 & P10 & H);
    [|destruct (initial_window_size o) as [[|]|]; steady_all].
  apply bind_inr in H as (w11 & scaled & Hscale & H).
  apply steady_inv in H as (w12 & [] & evs12 & L12 & P12 & H); [|steady_all].
  apply steady_inv in H as (w13 & [] & evs13 & L13 & P13 & H); [|steady_all].
  inversion H; subst.
  assert (Hs : (compression_factor o <> Auto -> snd scaled = None)
     /\ exists evs11, log w11 = log w10 ++ evs11
          /\ forwards evs11 = match compression_factor o with
                              | Auto => visits (vars o) d (chars axiom)
                              | Factor _ => O
                              end).
  { destruct (compression_factor o) as [|f].
    - apply bind_inr in Hscale as (wa & a & Ha & Hr). inversion Hr; subst.
      apply auto_scale_facts in Ha. split; [congruence | exact Ha].
    - inversion Hscale; subst. split; [reflexivity|].
      exists []. now rewrite app_nil_r. }
  destruct Hs as (He & evs11 & L11 & F11).
  split; [eauto 6|].
  exists (evs1 ++ evs2 ++ evs3 ++ evs4 ++ evs5 ++ evs6 ++ evs7 ++ evs8 ++ evs9 ++ evs10
          ++ evs11 ++ evs12 ++ evs13).
  split; [rewrite L13, L12, L11, L10, L9, L8, L7, L6, L5, L4, L3, L2, L1, <- !app_assoc;
          reflexivity|].
  rewrite !forwards_app, F11. unfold forwards.
  rewrite P1, P2, P3, P4, P5, P6, P7, P8, P9, P10, P12, P13. cbn. lia.
Qed.

Lemma draw_facts d axiom o s t text w w' r :
  draw d axiom o s t text w = (w', inr r) -> call_facts o axiom d w w' r.
Proof.
  unfold draw. intro H.
  apply steady_inv in H as (w1 & [] & evs1 & L1 & P1 & H); [|apply steady_suppress].
  apply bind_inr in H as (w2 & [st b] & Hscan & H).
  pose proof (scan_stack _ _ _ _ _ _ _ _ _ _ _ Hscan) as [Hok Hlen].
  apply (scan_facts o t _ d) in Hscan as (evs2 & L2 & F2 & C2).
  2:{ destruct d as [|d]; [reflexivity|]. exists d. split; [reflexivity|].
      intros repl v v' r' Hn. apply nested_facts in Hn. exact Hn. }
  apply steady_inv in H as (w3 & [] & evs3 & L3 & P3 & H); [|steady_all].
  apply steady_inv in H as (w4 & [] & evs4 & L4 & P4 & H); [|steady_all].
  apply steady_inv in H as (w5 & [] & evs5 & L5 & P5 & H); [|steady_all].
  apply finish_facts in H as ((evs6 & L6 & P6 & W6) & Hr).
  exists (evs1 ++ evs2 ++ evs3 ++ evs4 ++ evs5 ++ evs6).
  split; [rewrite L6, L5, L4, L3, L2, L1, <- !app_assoc; reflexivity|].
  split; [rewrite !forwards_app, F2; unfold forwards; rewrite P1, P3, P4, P5, P6; cbn; lia|].
  split.
  { intro He. destruct (Hr He) as [-> ->].
    rewrite !endpoints_app, P1, P3, P4, P5, P6, app_nil_r. cbn [app].
    apply (C2 He []). apply covers_origin. }
  split; [exact Hok|].
  intro Hu. apply ends_with_warning. apply W6. cbn [fst]. cbn [List.length] in Hlen.
  congruence.
Qed.

Theorem run_facts axiom depth initial_call o w w' r :
  (0 <= depth)%Z ->
  lindenmayer_system axiom depth initial_call o w = (w', inr r) ->
  exists evs, log w' = log w ++ evs
    /\ forwards evs
       = (passes initial_call o * visits (vars o) (Z.to_nat depth) (chars axiom))%nat
    /\ (tracks initial_call o ->
        bounding_box (min_corner r) (max_corner r) ((0, 0) :: endpoints evs))
    /\ brackets_ok 0 (chars axiom) = true
    /\ (unclosed 0 (chars axiom) <> O -> exists evs', evs = evs' ++ [Warned axiom]).
Proof.
  intros Hd H. unfold lindenmayer_system in H.
  apply Z.ltb_ge in Hd. rewrite Hd in H.
  destruct initial_call.
  - unfold top_level in H.
    apply steady_inv in H as (w1 & [s t] & evs1 & L1 & P1 & H); [|apply steady_prepare].
    apply bind_inr in H as (w2 & [] & Hv & H). apply lift_inr in Hv as [_ ->].
    apply bind_inr in H as (w3 & [text o'] & Hi & H).
    apply initialise_facts in Hi as ((step & id & ext & -> & Hext) & evs3 & L3 & F3).
    cbn [fst snd] in H. apply draw_facts in H as (evs4 & L4 & F4 & B4 & K4 & W4).
    cbn [with_locals vars __extrem_cords] in F4, B4.
    exists (evs1 ++ evs3 ++ evs4).
    split; [rewrite L4, L3, L1, <- !app_assoc; reflexivity|].
    split.
    { rewrite !forwards_app, F3, F4. unfold forwards, passes. rewrite P1.
      destruct (compression_factor o); cbn; lia. }
    split.
    { unfold tracks. intro Ht. rewrite !endpoints_app, P1. cbn [app].
      destruct (compression_factor o) as [|f] eqn:Hcf; [congruence|].
      assert (Hn : endpoints evs3 = []).
      { unfold forwards in F3. now apply length_zero_iff_nil. }
      rewrite Hn. cbn [app]. apply B4. apply Hext. discriminate. }
    split; [exact K4|].
    intro Hu. destruct (W4 Hu) as [evs' ->]. exists (evs1 ++ evs3 ++ evs').
    now rewrite <- !app_assoc.
  - apply nested_facts in H as (evs & L & F & B & K & W).
    exists evs. split; [exact L|]. split; [unfold passes; lia|]. auto.
Qed.

(** ** Growth of the number of forward movements with the depth *)

Lemma find_variable_entries items : forall n c e,
  find_variable items n c = Some e -> In e (entries items n).
Proof.
  induction items as [|[k p] items IH]; intros n c e H; simpl in *; [discriminate|].
  destruct p as [s|s d]; destruct (String.eqb k (str c)).
  - inversion H; subst. now left.
  - right. eapply IH; eassumption.
  - inversion H; subst. now left.
  - right. eapply IH; eassumption.
Qed.

Lemma visits_positive_mentions vars cs :
  (0 < visits vars 0 cs)%nat -> mentions_variable vars cs = true.
Proof.
  induction cs as [|c rest IH]; [rewrite visits_nil; lia|].
  rewrite visits_cons. cbn [mentions_variable existsb]. unfold declared.
  destruct (is_variable c); cbn [andb orb]; [|exact IH].
  destruct (find_variable vars 0 c) as [[[v r] dr]|]; [reflexivity|exact IH].
Qed.

Lemma visits_grows vars :
  grows vars = true ->
  forall d cs,
    (visits vars d cs <= visits vars (S d) cs)%nat
    /\ (mentions_variable vars cs = true -> (visits vars d cs < visits vars (S d) cs)%nat).
Proof.
  intro Hg. unfold grows in Hg. rewrite forallb_forall in Hg.
  induction d as [|d IHd]; induction cs as [|c rest IHc];
    try (rewrite !visits_nil; split; [lia | discriminate]);
    rewrite (visits_cons vars (S _)), (visits_cons vars _ c rest);
    cbn [mentions_variable existsb]; unfold declared;
    destruct IHc as [IHle IHlt]; fold (mentions_variable vars rest);
    destruct (is_variable c); cbn [andb orb]; try (split; [lia | intro Hm; apply IHlt in Hm; lia]);
    destruct (find_variable vars 0 c) as [[[v r] dr]|] eqn:Hf;
    try (split; [lia | intro Hm; apply IHlt in Hm; lia]);
    apply find_variable_entries in Hf; apply Hg in Hf; apply Nat.ltb_lt in Hf.
  - split; [|intros _]; destruct dr; lia.
  - assert (Hm : mentions_variable vars (chars r) = true).
    { apply visits_positive_mentions. destruct dr; lia. }
    destruct (IHd (chars r)) as [_ Hlt]. specialize (Hlt Hm).
    split; [|intros _]; lia.
Qed.

(** ** Calls that cannot fail *)

Lemma returns_after A B (c : M A) (k : A -> M B) :
  steady c -> (forall a, returns (k a)) -> returns (bind c k).
Proof.
  intros Hc Hk w. destruct (Hc w) as (w1 & a & evs & E & _).
  rewrite (bind_run _ E). apply Hk.
Qed.

Lemma returns_bind A B (c : M A) (k : A -> M B) :
  returns c -> (forall a, returns (k a)) -> returns (bind c k).
Proof.
  intros Hc Hk w. destruct (Hc w) as (w1 & a & E).
  rewrite (bind_run _ E). apply Hk.
Qed.

Lemma returns_steady A (c : M A) : steady c -> returns c.
Proof. intros Hc w. destruct (Hc w) as (w1 & a & evs & E & _). eauto. Qed.

Lemma scan_returns o t deeper :
  color_callable o = true ->
  safe_grammar (vars o) = true ->
  (forall recurse, deeper = Some recurse ->
     forall replacement, safe_string (vars o) (chars replacement) = true ->
       returns (recurse replacement)) ->
  forall cs index st b,
    forallb (known_char (vars o)) cs = true ->
    brackets_ok (List.length st) cs = true ->
    returns (scan o t deeper index st b cs).
Proof.
  intros Hcc Hg Hdeep.
  induction cs as [|c rest IH]; intros index st b Hk Hb.
  - intro w. eexists _, _. reflexivity.
  - rewrite scan_cons. cbn [forallb brackets_ok] in Hk, Hb.
    apply andb_prop in Hk as [Hc Hk].
    destruct (role_of c) as [E|E|E|E|Hctl Hv|Hctl Hv]; try subst c.
    + cbn [Ascii.eqb Bool.eqb] in *.
      apply returns_after; [apply (steady_query _ (fun w => t_pos (turtles w t)))|intro p].
      apply returns_after; [apply (steady_query _ (fun w => heading_of (turtles w t)))|intro h].
      apply IH; assumption.
    + cbn [Ascii.eqb Bool.eqb] in *.
      destruct st as [|[p h] below]; [discriminate|].
      do 4 (apply returns_after; [steady_all|intros []]).
      apply IH; assumption.
    + cbn [Ascii.eqb Bool.eqb] in *.
      apply returns_after; [steady_all|intros []]. apply IH; assumption.
    + cbn [Ascii.eqb Bool.eqb] in *.
      apply returns_after; [steady_all|intros []]. apply IH; assumption.
    + destruct (control_split _ Hctl) as (E1 & E2 & E3 & E4).
      rewrite E1, E2 in Hb. rewrite E1, E2, E3, E4, Hv.
      unfold known_char, declared in Hc. rewrite Hctl, Hv in Hc. cbn [orb andb] in Hc.
      destruct (find_variable (vars o) 0 c) as [[[var repl] dr]|] eqn:Hf; [|discriminate].
      assert (Hsafe : safe_string (vars o) (chars repl) = true).
      { apply find_variable_entries in Hf. unfold safe_grammar in Hg.
        rewrite forallb_forall in Hg. apply (Hg _ Hf). }
      apply returns_bind; [|intro b'; apply IH; assumption].
      destruct deeper as [recurse|].
      * apply returns_bind; [apply (Hdeep recurse eq_refl); exact Hsafe|].
        intro r. destruct (__extrem_cords o); intro w; eexists _, _; reflexivity.
      * destruct dr.
        -- intro w. destruct (draw_forward_spec o t var index b w Hcc) as (w1 & evs & E & _).
           eauto.
        -- intro w. eexists _, _. reflexivity.
    + unfold known_char in Hc. rewrite Hctl, Hv in Hc. discriminate.
Qed.

Lemma steady_finish axiom o t s st b : steady (finish axiom o t s st b).
Proof.
  unfold finish. apply steady_bind; [steady_all|intros []].
  destruct (__extrem_cords o) as [[lo hi]|]; steady_all.
Qed.

Theorem nested_returns d : forall axiom o,
  color_callable o = true ->
  safe_grammar (vars o) = true ->
  safe_string (vars o) (chars axiom) = true ->
  returns (nested d axiom o).
Proof.
  induction d as [|d IH]; intros axiom o Hcc Hg Hs; rewrite nested_unfold;
    unfold safe_string in Hs; apply andb_prop in Hs as [Hk Hb];
    (apply returns_after; [apply steady_acquire_screen|intro s]);
    (apply returns_after; [apply steady_acquire_turtle|intro t]);
    (apply returns_after; [apply steady_when, steady_orient|intros []]);
    (apply returns_after; [apply steady_suppress|intros []]);
    (apply returns_bind; [|intros [st b]; apply returns_steady, steady_finish]);
    apply scan_returns; try assumption.
  - intros recurse Hr. discriminate.
  - intros recurse Hr replacement Hsafe. inversion Hr; subst.
    apply IH; assumption.
Qed.

(** ** The corners a call returns *)

(** C7 (as amended).  A call with a depth of at least 0 that computes its
    corners (a call of the recursion or a dry run that was given none, or an
    initial call whose compression factor is a number) returns the corners of
    the smallest rectangle, with sides parallel to the axes, that contains
    the origin (0, 0) and every position reached by a forward movement of the
    call, those of its recursive calls included. *)
Theorem returned_corners_bound_origin_and_endpoints axiom depth initial_call o w w' r :
  (0 <= depth)%Z ->
  tracks initial_call o ->
  lindenmayer_system axiom depth initial_call o w = (w', inr r) ->
  exists evs, log w' = log w ++ evs
    /\ bounding_box (min_corner r) (max_corner r) ((0, 0) :: endpoints evs).
Proof.
  intros Hd Ht H. apply run_facts in H as (evs & L & _ & B & _); [|exact Hd].
  exists evs. auto.
Qed.

Lemma returned_corners_bound_origin_and_endpoints_witness :
  exists evs, log (after off_centre blank_world) = log blank_world ++ evs
    /\ bounding_box (min_corner (outcome off_centre blank_world))
         (max_corner (outcome off_centre blank_world)) ((0, 0) :: endpoints evs).
Proof.
  apply (returned_corners_bound_origin_and_endpoints "F" 0 false
           (dry_run [("F", Plain "F")] 90 (100, 100)%Z 0) blank_world
           (after off_centre blank_world) (outcome off_centre blank_world)).
  - lia.
  - reflexivity.
  - run. reflexivity.
Defined.

(** The dry run of [lindenmayer_system("F", {"F": "F"}, 0, 90,
    system_center_cords=(100, 100))] reaches one point, about (100, 110),
    and returns the lower corner (0, 0). *)
Lemma origin_widens_the_box :
  exists w' r, off_centre blank_world = (w', inr r)
    /\ ~ bounding_box (min_corner r) (max_corner r) (endpoints (log w')).
Proof.
  eexists _, _. split; [run; reflexivity|].
  run. intros [[Hin _] _]. cbn [map In fst] in Hin.
  destruct Hin as [Hin|[]].
  set (h := heading_of _) in Hin. unfold move, direction in Hin. cbn [fst snd] in Hin.
  pose proof (COS_bound (radians h)) as [Hlo _].
  assert (Hp : 90 <= 100 + 10 * cos (radians h)) by lra.
  pose proof (Rmin_r (100 + 10 * cos (radians h)) 0). lra.
Qed.

(** ** Deeper expansions *)

(** C9 (as amended).  Take a grammar in which every replacement holds
    strictly more occurrences of drawing variables than the variable it
    replaces counts for (one if it draws, none if it does not) and an axiom
    that holds a declared variable.  Whenever the calls at depth [d] and at
    depth [d + 1] both return, the second has made strictly more forward
    movements than the first.  And both calls of the recursion do return when
    the colour can be set, every character of the axiom and of the
    replacements is a bracket, a sign or a declared variable, and no string
    closes a bracket that it has not opened. *)
Theorem deeper_expansion_draws_more axiom d o w :
  grows (vars o) = true ->
  mentions_variable (vars o) (chars axiom) = true ->
  (forall initial_call w0 r0 w1 r1,
     lindenmayer_system axiom (Z.of_nat d) initial_call o w = (w0, inr r0) ->
     lindenmayer_system axiom (Z.of_nat (S d)) initial_call o w = (w1, inr r1) ->
     exists evs0 evs1,
       log w0 = log w ++ evs0 /\ log w1 = log w ++ evs1
       /\ (forwards evs0 < forwards evs1)%nat)
  /\ (color_callable o = true ->
      safe_grammar (vars o) = true ->
      safe_string (vars o) (chars axiom) = true ->
      exists w0 r0 w1 r1,
        lindenmayer_system axiom (Z.of_nat d) false o w = (w0, inr r0)
        /\ lindenmayer_system axiom (Z.of_nat (S d)) false o w = (w1, inr r1)).
Proof.
  intros Hg Hm. split.
  - intros initial_call w0 r0 w1 r1 H0 H1.
    apply run_facts in H0 as (evs0 & L0 & F0 & _); [|lia].
    apply run_facts in H1 as (evs1 & L1 & F1 & _); [|lia].
    rewrite Nat2Z.id in F0, F1.
    destruct (visits_grows (vars o) Hg d (chars axiom)) as [_ Hlt]. specialize (Hlt Hm).
    exists evs0, evs1. split; [exact L0|]. split; [exact L1|].
    rewrite F0, F1. unfold passes.
    destruct initial_call; [destruct (compression_factor o)|]; lia.
  - intros Hcc Hsg Hss. unfold lindenmayer_system.
    assert (H0 : (Z.of_nat d <? 0)%Z = false) by (apply Z.ltb_ge; lia).
    assert (H1 : (Z.of_nat (S d) <? 0)%Z = false) by (apply Z.ltb_ge; lia).
    rewrite H0, H1, !Nat2Z.id.
    destruct (nested_returns d axiom o Hcc Hsg Hss w) as (w0 & r0 & E0).
    destruct (nested_returns (S d) axiom o Hcc Hsg Hss w) as (w1 & r1 & E1).
    exists w0, r0, w1, r1. auto.
Qed.

Lemma deeper_expansion_draws_more_witness :
  (forall initial_call w0 r0 w1 r1,
     lindenmayer_system "F" (Z.of_nat 0) initial_call
       (dry_run [("F", Plain "FF")] 90 (0, 0)%Z 1) blank_world = (w0, inr r0) ->
     lindenmayer_system "F" (Z.of_nat 1) initial_call
       (dry_run [("F", Plain "FF")] 90 (0, 0)%Z 1) blank_world = (w1, inr r1) ->
     exists evs0 evs1,
       log w0 = log blank_world ++ evs0 /\ log w1 = log blank_world ++ evs1
       /\ (forwards evs0 < forwards evs1)%nat)
  /\ (color_callable (dry_run [("F", Plain "FF")] 90 (0, 0)%Z 1) = true ->
      safe_grammar (vars (dry_run [("F", Plain "FF")] 90 (0, 0)%Z 1)) = true ->
      safe_string (vars (dry_run [("F", Plain "FF")] 90 (0, 0)%Z 1)) (chars "F") = true ->
      exists w0 r0 w1 r1,
        lindenmayer_system "F" (Z.of_nat 0) false
          (dry_run [("F", Plain "FF")] 90 (0, 0)%Z 1) blank_world = (w0, inr r0)
        /\ lindenmayer_system "F" (Z.of_nat 1) false
             (dry_run [("F", Plain "FF")] 90 (0, 0)%Z 1) blank_world = (w1, inr r1)).
Proof.
  apply (deeper_expansion_draws_more "F" 0
           (dry_run [("F", Plain "FF")] 90 (0, 0)%Z 1) blank_world);
    reflexivity.
Defined.

(** The replacement "F+" is longer than "F", and the dry runs at depth 0
    and at depth 1 both make one forward movement. *)
Lemma longer_string_same_number_of_forwards :
  lengthens [("F", Plain "F+")] = true
  /\ exists w0 r0 w1 r1,
       turning 0 blank_world = (w0, inr r0)
       /\ turning 1 blank_world = (w1, inr r1)
       /\ forwards (log w0) = 1%nat /\ forwards (log w1) = 1%nat.
Proof.
  split; [reflexivity|].
  eexists _, _, _, _.
  split; [run; reflexivity|]. split; [run; reflexivity|].
  split; run; reflexivity.
Qed.

(** ** What a rejected grammar leaves behind *)

Lemma screen_ops_of_app evs evs' :
  screen_ops_of (evs ++ evs') = screen_ops_of evs ++ screen_ops_of evs'.
Proof. induction evs as [|[] evs IH]; simpl; try rewrite IH; reflexivity. Qed.

Lemma acquire_screen_events o w :
  exists w1 s evs,
    acquire_screen o w = (w1, inr s)
    /\ log w1 = log w ++ evs
    /\ ops_of evs = []
    /\ screen_ops_of evs = acquisition_ops o w.
Proof.
  unfold acquire_screen, acquisition_ops.
  destruct (_screen o) as [s|].
  - exists w, s, []. rewrite app_nil_r. repeat split.
  - destruct (_screen_icon o) as [icon|]; [destruct (isfile w icon) eqn:Hf|];
      eexists _, _, _; exec; try rewrite Hf; exec;
      (split; [reflexivity|]); exec; rewrite <- ?app_assoc;
      (split; [reflexivity|]); split; reflexivity.
Qed.

Lemma acquire_turtle_events o w :
  exists w1 t evs,
    acquire_turtle o w = (w1, inr t)
    /\ log w1 = log w ++ evs
    /\ ops_of evs = []
    /\ screen_ops_of evs = [].
Proof.
  unfold acquire_turtle. destruct (_turtle o) as [t|].
  - exists w, t, []. rewrite app_nil_r. repeat split.
  - eexists _, _, [_]. exec. repeat split.
Qed.

Lemma orient_events o t w :
  exists w1 evs,
    orient o t w = (w1, inr tt)
    /\ log w1 = log w ++ evs
    /\ ops_of evs = orientation_ops o
    /\ screen_ops_of evs = [].
Proof.
  unfold orient, orientation_ops.
  destruct (instant_draw o); eexists _, _; walk;
    (split; [reflexivity|]); walk; rewrite <- ?app_assoc;
    (split; [reflexivity|]); split; reflexivity.
Qed.

Lemma prepare_events o w :
  exists w1 st evs,
    prepare o w = (w1, inr st)
    /\ log w1 = log w ++ evs
    /\ ops_of evs = orientation_ops o
    /\ screen_ops_of evs = acquisition_ops o w.
Proof.
  unfold prepare.
  destruct (acquire_screen_events o w) as (w1 & s & evs1 & E1 & L1 & O1 & S1).
  destruct (acquire_turtle_events o w1) as (w2 & t & evs2 & E2 & L2 & O2 & S2).
  destruct (orient_events o t w2) as (w3 & evs3 & E3 & L3 & O3 & S3).
  exists w3, (s, t), (evs1 ++ evs2 ++ evs3).
  rewrite (bind_run _ E1), (bind_run _ E2), (bind_run _ E3).
  split; [reflexivity|].
  split; [rewrite L3, L2, L1, <- !app_assoc; reflexivity|].
  rewrite !ops_of_app, !screen_ops_of_app, O1, O2, O3, S1, S2, S3, !app_nil_r.
  split; reflexivity.
Qed.

Lemma top_level_invalid d axiom o w ex :
  validate axiom (vars o) (step_length o) (compression_factor o) = inl ex ->
  top_level d axiom o w = (fst (prepare o w), inl ex).
Proof.
  intro H. unfold top_level.
  destruct (steady_prepare o w) as (w1 & st & evs & E & _).
  rewrite (bind_run _ E), E. unfold bind, lift. now rewrite H.
Qed.

Lemma top_level_valid d axiom o w :
  validate axiom (vars o) (step_length o) (compression_factor o) = inr tt ->
  top_level d axiom o w
  = (st <- prepare o ;;
     i <- initialise d axiom o (fst st) (snd st) ;;
     draw d axiom (snd i) (fst st) (snd st) (fst i)) w.
Proof.
  intro H. unfold top_level.
  destruct (steady_prepare o w) as (w1 & st & evs & E & _).
  rewrite !(bind_run _ E). unfold bind at 1, lift. now rewrite H.
Qed.

(** C4 (as amended).  An initial call with a depth of at least 0 on a grammar
    that validation rejects raises the exception of the validation after the
    set-up of lines 100-115 and nothing else: the screen and the turtle are
    created if none is passed, and the turtle is hidden (instant draw), turned
    to [initial_angle + 90], lifted, moved to the centre of the system and
    put down.  No colour, background, speed or window operation and no
    forward movement has happened. *)
Theorem rejected_grammar_leaves_only_the_setup axiom depth o w ex :
  (0 <= depth)%Z ->
  validate axiom (vars o) (step_length o) (compression_factor o) = inl ex ->
  exists w' evs,
    lindenmayer_system axiom depth true o w = (w', inl ex)
    /\ log w' = log w ++ evs
    /\ ops_of evs = orientation_ops o
    /\ screen_ops_of evs = acquisition_ops o w.
Proof.
  intros Hd Hv. unfold lindenmayer_system. apply Z.ltb_ge in Hd. rewrite Hd.
  rewrite (top_level_invalid _ _ _ _ _ Hv).
  destruct (prepare_events o w) as (w1 & st & evs & E & L & O & S).
  exists w1, evs. rewrite E. auto.
Qed.

Lemma rejected_grammar_leaves_only_the_setup_witness :
  exists w' evs,
    lower_case_axiom blank_world = (w', inl (ValueError (AxiomCharacter "f")))
    /\ log w' = log blank_world ++ evs
    /\ ops_of evs = orientation_ops (defaults [("F", Plain "F")] 90)
    /\ screen_ops_of evs = acquisition_ops (defaults [("F", Plain "F")] 90) blank_world.
Proof.
  apply (rejected_grammar_leaves_only_the_setup "f" 0
           (defaults [("F", Plain "F")] 90) blank_world).
  - lia.
  - reflexivity.
Defined.

(** [lindenmayer_system("f", {"F": "F"}, 0, 90)]: the axiom is rejected, and
    by then the turtle has been hidden, turned, lifted, moved and put down. *)
Lemma turtle_moved_before_the_rejection :
  exists w',
    lower_case_axiom blank_world = (w', inl (ValueError (AxiomCharacter "f")))
    /\ ops_of (log w') = [Hideturtle; Seth (mod360 (0 + 90)); Penup; Goto (0, 0); Pendown]
    /\ t_down (turtles w' 0%nat) = true
    /\ t_shown (turtles w' 0%nat) = false.
Proof.
  eexists. split; [run; reflexivity|]. run. repeat split.
Qed.

(** ** One stack for each call *)


(** ** Headings *)

Lemma mod360_range x : 0 <= mod360 x < 360.
Proof.
  unfold mod360. pose proof (Zfloor_bound (x / 360)) as [Hlo Hhi].
  assert (Hx : x = 360 * (x / 360)) by (field).
  lra.
Qed.

Lemma mod360_small x : 0 <= x < 360 -> mod360 x = x.
Proof.
  intros [Hlo Hhi]. unfold mod360.
  assert (Hz : Zfloor (x / 360) = 0%Z).
  { apply Zfloor_eq. simpl. split; lra. }
  rewrite Hz. simpl. lra.
Qed.

Lemma mod360_idempotent x : mod360 (mod360 x) = mod360 x.
Proof. apply mod360_small, mod360_range. Qed.

Lemma heading_of_normal t : mod360 (heading_of t) = heading_of t.
Proof. apply mod360_idempotent. Qed.

Lemma quarter_turn_changes_heading h : mod360 (h - 90) <> h.
Proof.
  unfold mod360. intro H.
  assert (Hk : IZR (4 * Zfloor ((h - 90) / 360)) = IZR (-1)).
  { rewrite mult_IZR. lra. }
  apply eq_IZR in Hk. lia.
Qed.

(** ** Closing brackets *)

Lemma raises_bind A B ex (c : M A) (k : A -> M B) : raises ex c -> raises ex (bind c k).
Proof. intros H w. destruct (H w) as [w' E]. exists w'. now rewrite (bind_raise _ E). Qed.

Lemma raises_after A B ex (c : M A) (k : A -> M B) :
  steady c -> (forall a, raises ex (k a)) -> raises ex (bind c k).
Proof.
  intros Hc Hk w. destruct (Hc w) as (w1 & a & evs & E & _).
  rewrite (bind_run _ E). apply Hk.
Qed.

Lemma find_variable_declared items : forall n c,
  existsb (String.eqb (str c)) (map fst items) = true ->
  exists e, find_variable items n c = Some e.
Proof.
  induction items as [|[k p] items IH]; intros n c H;
    cbn [existsb map fst find_variable] in *; [discriminate|].
  rewrite String.eqb_sym in H.
  destruct (String.eqb k (str c)); [destruct p; eauto|].
  cbn [orb] in H. destruct p; apply IH; exact H.
Qed.

Lemma scan_variable_then_close o t var replacement draw c w :
  color_callable o = true ->
  is_variable c = true ->
  find_variable (vars o) 0 c = Some (var, replacement, draw) ->
  exists w', scan o t None 0 [] zero_extremes [c; "]"%char] w
             = (w', inl (ValueError (UnmatchedBracket 1))).
Proof.
  intros Hcc Hv Hf. rewrite scan_cons.
  assert (Hc : is_control c = false).
  { destruct (role_of c) as [E|E|E|E|Hc _|Hc _]; try exact Hc; subst c; discriminate. }
  destruct (control_split _ Hc) as (E1 & E2 & E3 & E4).
  rewrite E1, E2, E3, E4, Hv, Hf.
  destruct draw.
  - destruct (draw_forward_spec o t var 0 zero_extremes w Hcc) as (w1 & evs & E & _).
    rewrite (bind_run _ E). eexists. reflexivity.
  - eexists. reflexivity.
Qed.

Lemma steady_initialise_factor d axiom o s t f :
  compression_factor o = Factor f -> steady (initialise d axiom o s t).
Proof.
  intro Hcf. unfold initialise. rewrite Hcf.
  destruct (fg_color o), (instant_draw o), (initial_window_size o) as [[|]|]; steady_all.
Qed.

Lemma color_callable_with_locals o step initial_depth extrem :
  color_callable (with_locals o step initial_depth (is_static (fg_color o)) extrem) = true.
Proof.
  unfold color_callable. cbn [with_locals __static_color __no_draw fg_color truth].
  destruct (is_static (fg_color o)), (__no_draw o); reflexivity.
Qed.

(** ** The worked example "F[+F]-F" *)

Lemma call_effect t op w :
  exists w1,
    call t op w = (w1, inr tt)
    /\ turtles w1 t = apply_op op (turtles w t)
    /\ log w1 = log w ++ [TurtleDid t op (apply_op op (turtles w t))].
Proof. eexists. split; [reflexivity|]. walk. now rewrite Nat.eqb_refl. Qed.

Lemma bracket_example o t w var replacement :
  step_length o = 10 -> angle o = 90 ->
  find_variable (vars o) 0 "F" = Some (var, replacement, true) ->
  color_callable o = true ->
  let p0 := t_pos (turtles w t) in
  let h0 := heading_of (turtles w t) in
  exists w' b evs,
    scan o t None 0 [] zero_extremes (chars "F[+F]-F") w = (w', inr ([], b))
    /\ log w' = log w ++ evs
    /\ motions_of evs
       = [Forward 10; Left 90; Forward 10; Penup; Goto (move p0 10 h0); Seth h0]
         ++ (if __no_draw o then [] else [Pendown]) ++ [Right 90; Forward 10]
    /\ heading_of (turtles w' t) = mod360 (h0 - 90)
    /\ t_pos (turtles w' t) = move (move p0 10 h0) 10 (heading_of (turtles w' t)).
Proof.
  intros Hs Ha Hf Hcc p0 h0. cbn [chars list_ascii_of_string].
  (* F *)
  rewrite scan_cons. cbn [Ascii.eqb Bool.eqb]. change (is_variable "F") with true.
  cbv iota. rewrite Hf.
  destruct (draw_forward_spec o t var 0 zero_extremes w Hcc)
    as (w1 & evs1 & E1 & L1 & _ & M1 & Tp1 & Ta1 & _).
  rewrite (bind_run _ E1). rewrite Hs in M1, Tp1.
  assert (Hh1 : heading_of (turtles w1 t) = h0) by (unfold heading_of, h0; now rewrite Ta1).
  (* [ *)
  rewrite scan_cons. cbn [Ascii.eqb Bool.eqb]. cbv iota.
  unfold bind at 1 2, pos, heading. rewrite Tp1, Hh1. fold p0 h0.
  (* + *)
  rewrite scan_cons. cbn [Ascii.eqb Bool.eqb]. cbv iota.
  destruct (call_effect t (Left (angle o)) w1) as (w2 & E2 & T2 & L2).
  rewrite (bind_run _ E2). rewrite Ha in L2, T2.
  (* F *)
  rewrite scan_cons. cbn [Ascii.eqb Bool.eqb]. change (is_variable "F") with true.
  cbv iota. rewrite Hf.
  match goal with |- context [draw_forward o t var 3 ?b] =>
    destruct (draw_forward_spec o t var 3 b w2 Hcc)
      as (w3 & evs3 & E3 & L3 & _ & M3 & _)
  end.
  rewrite (bind_run _ E3). rewrite Hs in M3.
  (* ] *)
  rewrite scan_cons. cbn [Ascii.eqb Bool.eqb]. cbv iota.
  destruct (call_effect t Penup w3) as (w4 & E4 & T4 & L4). rewrite (bind_run _ E4).
  destruct (call_effect t (Goto (move p0 10 h0)) w4) as (w5 & E5 & T5 & L5).
  rewrite (bind_run _ E5).
  destruct (call_effect t (Seth h0) w5) as (w6 & E6 & T6 & L6). rewrite (bind_run _ E6).
  assert (R7 : exists w7 evs7,
            when (negb (__no_draw o)) (call t Pendown) w6 = (w7, inr tt)
            /\ log w7 = log w6 ++ evs7
            /\ motions_of evs7 = (if __no_draw o then [] else [Pendown])
            /\ t_pos (turtles w7 t) = t_pos (turtles w6 t)
            /\ t_angle (turtles w7 t) = t_angle (turtles w6 t)).
  { destruct (__no_draw o).
    - exists w6, []. rewrite app_nil_r. repeat split.
    - destruct (call_effect t Pendown w6) as (w7 & E7 & T7 & L7).
      exists w7, [TurtleDid t Pendown (apply_op Pendown (turtles w6 t))].
      rewrite T7. repeat split; assumption. }
  destruct R7 as (w7 & evs7 & E7 & L7 & M7 & Tp7 & Ta7). rewrite (bind_run _ E7).
  (* - *)
  rewrite scan_cons. cbn [Ascii.eqb Bool.eqb]. cbv iota.
  destruct (call_effect t (Right (angle o)) w7) as (w8 & E8 & T8 & L8).
  rewrite (bind_run _ E8). rewrite Ha in L8, T8.
  (* F *)
  rewrite scan_cons. cbn [Ascii.eqb Bool.eqb]. change (is_variable "F") with true.
  cbv iota. rewrite Hf.
  match goal with |- context [draw_forward o t var 6 ?b] =>
    destruct (draw_forward_spec o t var 6 b w8 Hcc)
      as (w9 & evs9 & E9 & L9 & _ & M9 & Tp9 & Ta9 & _)
  end.
  rewrite (bind_run _ E9). rewrite Hs in M9, Tp9.
  assert (Hpos8 : t_pos (turtles w8 t) = move p0 10 h0).
  { rewrite T8. cbn [apply_op t_pos]. rewrite Tp7, T6. cbn [apply_op t_pos].
    rewrite T5. reflexivity. }
  assert (Hang8 : t_angle (turtles w8 t) = h0 - 90).
  { rewrite T8. cbn [apply_op t_angle]. rewrite Ta7, T6. reflexivity. }
  assert (Hh9 : heading_of (turtles w9 t) = mod360 (h0 - 90)).
  { unfold heading_of at 1. now rewrite Ta9, Hang8. }
  assert (Hh8 : heading_of (turtles w8 t) = mod360 (h0 - 90)).
  { unfold heading_of at 1. now rewrite Hang8. }
  eexists w9, _, _. split; [reflexivity|].
  split.
  { rewrite L9, L8, L7, L6, L5, L4, L3, L2, L1, <- !app_assoc. reflexivity. }
  split.
  { rewrite !motions_of_app, M1, M3, M7, M9. reflexivity. }
  split; [exact Hh9|].
  rewrite Tp9, Hpos8, Hh8, Hh9. reflexivity.
Qed.

(** C3 (as amended).  The loop on "F[+F]-F" at depth 0 with step length 10
    and angle 90, F a drawing variable, moves forward by 10, stores the
    state, turns left by 90, moves forward by 10, restores the state (pen
    up, go to the stored position, turn to the stored heading, pen down
    unless nothing is drawn), turns right by 90 and moves forward by 10.
    The final heading is the initial heading turned right by 90 degrees,
    not the initial heading; the final position is the initial position
    plus the two forward segments outside the brackets. *)
Theorem bracketed_branch_is_undone o t w var replacement :
  step_length o = 10 -> angle o = 90 ->
  find_variable (vars o) 0 "F" = Some (var, replacement, true) ->
  color_callable o = true ->
  let p0 := t_pos (turtles w t) in
  let h0 := heading_of (turtles w t) in
  exists w' b evs,
    scan o t None 0 [] zero_extremes (chars "F[+F]-F") w = (w', inr ([], b))
    /\ log w' = log w ++ evs
    /\ motions_of evs
       = [Forward 10; Left 90; Forward 10; Penup; Goto (move p0 10 h0); Seth h0]
         ++ (if __no_draw o then [] else [Pendown]) ++ [Right 90; Forward 10]
    /\ heading_of (turtles w' t) = mod360 (h0 - 90)
    /\ heading_of (turtles w' t) <> h0
    /\ fst (t_pos (turtles w' t))
       = fst p0 + 10 * fst (direction h0) + 10 * fst (direction (heading_of (turtles w' t)))
    /\ snd (t_pos (turtles w' t))
       = snd p0 + 10 * snd (direction h0) + 10 * snd (direction (heading_of (turtles w' t))).
Proof.
  intros Hs Ha Hf Hcc p0 h0.
  destruct (bracket_example o t w var replacement Hs Ha Hf Hcc)
    as (w' & b & evs & E & L & M & Hh & Hp).
  exists w', b, evs. fold p0 h0 in M, Hh, Hp.
  split; [exact E|]. split; [exact L|]. split; [exact M|]. split; [exact Hh|].
  split; [rewrite Hh; apply quarter_turn_changes_heading|].
  rewrite Hp. unfold move. cbn [fst snd]. split; reflexivity.
Qed.

Lemma bracketed_branch_is_undone_witness :
  let p0 := t_pos (turtles blank_world 0%nat) in
  let h0 := heading_of (turtles blank_world 0%nat) in
  exists w' b evs,
    scan measuring 0 None 0 [] zero_extremes (chars "F[+F]-F") blank_world
    = (w', inr ([], b))
    /\ log w' = log blank_world ++ evs
    /\ motions_of evs
       = [Forward 10; Left 90; Forward 10; Penup; Goto (move p0 10 h0); Seth h0]
         ++ (if __no_draw measuring then [] else [Pendown]) ++ [Right 90; Forward 10]
    /\ heading_of (turtles w' 0%nat) = mod360 (h0 - 90)
    /\ heading_of (turtles w' 0%nat) <> h0
    /\ fst (t_pos (turtles w' 0%nat))
       = fst p0 + 10 * fst (direction h0)
         + 10 * fst (direction (heading_of (turtles w' 0%nat)))
    /\ snd (t_pos (turtles w' 0%nat))
       = snd p0 + 10 * snd (direction h0)
         + 10 * snd (direction (heading_of (turtles w' 0%nat))).
Proof.
  apply (bracketed_branch_is_undone measuring 0 blank_world "F" "F"); reflexivity.
Defined.

(** On a new turtle, which faces east, the loop ends facing south. *)
Lemma final_heading_is_not_the_initial_heading :
  exists w' r,
    scan measuring 0 None 0 [] zero_extremes (chars "F[+F]-F") blank_world = (w', inr r)
    /\ heading_of (turtles w' 0%nat) <> heading_of (turtles blank_world 0%nat).
Proof.
  destruct (bracket_example measuring 0 blank_world "F" "F")
    as (w' & b & evs & E & _ & _ & Hh & _); try reflexivity.
  exists w', ([], b). split; [exact E|].
  rewrite Hh. apply quarter_turn_changes_heading.
Qed.

(** ** The factor of the automatic scaling *)

Lemma max_key_abs_abs a b : Rabs (max_key_abs a b) = Rmax (Rabs a) (Rabs b).
Proof.
  unfold max_key_abs, Rmax.
  destruct (Rlt_dec (Rabs a) (Rabs b)), (Rle_dec (Rabs a) (Rabs b)); lra.
Qed.

Lemma min_key_abs_abs a b : Rabs (min_key_abs a b) = Rmin (Rabs a) (Rabs b).
Proof.
  unfold min_key_abs, Rmin.
  destruct (Rlt_dec (Rabs b) (Rabs a)), (Rle_dec (Rabs a) (Rabs b)); lra.
Qed.

(** ** A drawing that leans to the left *)

Lemma direction_north : direction 90 = (0, 1).
Proof.
  unfold direction, radians. replace (90 * PI / 180) with (PI / 2) by lra.
  now rewrite cos_PI2, sin_PI2.
Qed.

Lemma direction_west : direction 180 = (-1, 0).
Proof.
  unfold direction, radians. replace (180 * PI / 180) with PI by lra.
  now rewrite cos_PI, sin_PI.
Qed.

Lemma heading_north : mod360 (mod360 (0 + 90)) = 90.
Proof. rewrite mod360_idempotent, mod360_small by lra. lra. Qed.

Lemma heading_west : mod360 (mod360 (0 + 90) + 90) = 180.
Proof. rewrite (mod360_small (0 + 90)) by lra. rewrite mod360_small by lra. lra. Qed.

Ltac settle_extremes :=
  repeat match goal with
         | |- context [Rmin ?a ?b] =>
             first [rewrite (Rmin_left a b) by lra | rewrite (Rmin_right a b) by lra]
         | |- context [Rmax ?a ?b] =>
             first [rewrite (Rmax_left a b) by lra | rewrite (Rmax_right a b) by lra]
         end.

Lemma leaning_factor : auto_factor (-20, 0) (0, 10) 960 810 10 = inr (- (216 / 5)).
Proof.
  unfold auto_factor, divide, max_key_abs, min_key_abs. cbn [fst snd].
  rewrite (Rabs_left (-20)) by lra. rewrite !Rabs_R0.
  rewrite (Rabs_pos_eq 10) by lra.
  destruct (Rlt_dec (- -20) 0); [lra|].
  destruct (Rlt_dec 0 10); [|lra].
  destruct (Req_dec_T (-20) 0); [lra|].
  destruct (Req_dec_T 10 0); [lra|].
  rewrite (Rabs_pos_eq (810 / 10)) by lra.
  rewrite (Rabs_left (960 / -20)) by lra.
  destruct (Rlt_dec (810 / 10) (- (960 / -20))); [lra|].
  f_equal. lra.
Qed.

Lemma bind_assoc A B C (c : M A) (k1 : A -> M B) (k2 : B -> M C) w :
  bind (bind c k1) k2 w = bind c (fun a => bind (k1 a) k2) w.
Proof. unfold bind. destruct (c w) as [w1 [ex|a]]; reflexivity. Qed.

Ltac step_with v :=
  rewrite ?bind_assoc;
  match goal with
  | |- bind ?c ?k ?w = _ =>
      let E := fresh "E" in
      assert (E : c w = (after c w, inr v)) by (run; reflexivity);
      rewrite (bind_run k E); clear E; cbv beta
  end.

(** [lindenmayer_system("F+FF", {"F": "F"}, 0, 90)] in a window of 960 by
    810: the dry run (turtle 2) goes 10 north and 20 west, its corners are
    (-20, 0) and (0, 10), and the drawing (turtle 0) is made with steps of
    -432 where the formula of the specification gives 432. *)
Lemma left_leaning_drawing_is_reversed :
  exists w' r step,
    lindenmayer_system "F+FF" 0 true leaning blank_world = (w', inr r)
    /\ forward_positions 2 (log w') = [(0, 10); (-10, 10); (-20, 10)]
    /\ forward_moves 2 (log w') = [10; 10; 10]
    /\ forward_moves 0 (log w') = [step; step; step]
    /\ step = 10 * - (216 / 5)
    /\ 10 * spec_scale_factor (-20, 0) (0, 10) 960 810 10 = 10 * (216 / 5).
Proof.
  eexists _, _, _. split.
  { unfold lindenmayer_system. cbn [Z.ltb Z.compare Z.to_nat].
    rewrite top_level_valid.
    2:{ apply validate_accepts_iff. repeat split. cbn. lra. }
    step_with (TheScreen, 0%nat). cbn [fst snd]. unfold initialise.
    cbn [leaning defaults bg_color fg_color __initial_depth instant_draw initial_window_size
         compression_factor step_length invert Z.of_nat].
    do 3 step_with tt. step_with 1%nat. do 4 step_with tt.
    step_with tt. step_with tt. step_with tt.
    unfold auto_scale. step_with tt. step_with tt.
    rewrite ?bind_assoc.
    match goal with
    | |- bind (nested ?d ?a ?o) ?k ?w = _ =>
        assert (E : nested d a o w
                    = (after (nested d a o) w, inr (2%nat, TheScreen, (-20, 0), (0, 10))))
    end.
    { run. unfold heading_of, move. cbn [t_angle t_pos fst snd].
      rewrite !heading_north, !heading_west, !direction_north, !direction_west.
      cbn [fst snd]. settle_extremes.
      replace (0 + 10 * 0 + 10 * -1 + 10 * -1) with (-20) by lra.
      replace (0 + 10 * 1 + 10 * 0 + 10 * 0) with 10 by lra.
      replace (0 + 10 * 0) with 0 by lra.
      reflexivity. }
    rewrite (bind_run _ E). cbv beta.
    step_with 960%Z. step_with 810%Z.
    cbn [min_corner max_corner fst snd].
    change (step_length leaning) with 10. rewrite leaning_factor.
    step_with (- (216 / 5)).
    run. reflexivity. }
  split.
  { run. unfold heading_of, move. cbn [t_angle t_pos fst snd].
    rewrite !heading_north, !heading_west, !direction_north, !direction_west.
    cbn [fst snd]. repeat f_equal; lra. }
  split; [run; reflexivity|]. split; [run; reflexivity|]. split; [reflexivity|].
  unfold spec_scale_factor. cbn [fst snd].
  rewrite (Rabs_left (-20)) by lra. rewrite !Rabs_R0.
  rewrite (Rabs_pos_eq 10) by lra.
  rewrite (Rmax_left (- -20) 0) by lra. rewrite (Rmax_right 0 10) by lra.
  replace (- -20) with 20 by lra.
  rewrite Rmin_left by lra.
  destruct (Rlt_dec 0 10); lra.
Qed.

(** X1.  [rnd_from_zero] (lines 184-195) rounds away from zero: the result
    is at least as far from zero as [x] and less than 1 farther, it is not
    negative for [x >= 0] and negative for [x < 0], it commutes with the change
    of sign, and it returns an integer unchanged. *)
Theorem rnd_from_zero_rounds_away x :
  Rabs x <= Rabs (IZR (rnd_from_zero x)) < Rabs x + 1
  /\ (0 <= x -> 0 <= IZR (rnd_from_zero x))
  /\ (x < 0 -> IZR (rnd_from_zero x) < 0)
  /\ rnd_from_zero (- x) = (- rnd_from_zero x)%Z
  /\ forall n : Z, rnd_from_zero (IZR n) = n.
Proof.
  unfold rnd_from_zero.
  pose proof (Zfloor_bound x) as Hf. pose proof (Zceil_bound x) as Hc.
  split; [|split; [|split; [|split]]].
  - destruct (Rlt_dec x 0) as [Hx|Hx].
    + assert (IZR (Zfloor x) < 0) by lra.
      rewrite (Rabs_left x), (Rabs_left (IZR (Zfloor x))) by lra. lra.
    + assert (0 <= IZR (Zceil x)) by lra.
      rewrite (Rabs_pos_eq x), (Rabs_pos_eq (IZR (Zceil x))) by lra. lra.
  - intro Hx. destruct (Rlt_dec x 0); lra.
  - intro Hx. destruct (Rlt_dec x 0); lra.
  - destruct (Rlt_dec x 0) as [Hx|Hx]; destruct (Rlt_dec (- x) 0) as [Hn|Hn].
    + lra.
    + apply ZceilN.
    + apply ZfloorN.
    + assert (x = 0) by lra. subst x. rewrite Ropp_0.
      replace 0 with (IZR 0) by reflexivity.
      rewrite (Zceil_eq 0 (IZR 0)) by (simpl; lra). reflexivity.
  - intro n. destruct (Rlt_dec (IZR n) 0).
    + apply ZfloorZ.
    + apply Zceil_eq. lra.
Qed.


Lemma fst_bind A B (c : M A) (k : A -> M B) w :
  fst (bind c k w)
  = match c w with (w1, inr a) => fst (k a w1) | (w1, inl _) => w1 end.
Proof. unfold bind. destruct (c w) as [w1 [ex|a]]; reflexivity. Qed.

Lemma emits_bind Q A B (c : M A) (k : A -> M B) :
  emits Q c -> (forall a, emits Q (k a)) -> emits Q (bind c k).
Proof.
  intros Hc Hk w. destruct (Hc w) as (evs & E & F).
  rewrite fst_bind. destruct (c w) as [w1 [ex|a]]; simpl in E.
  - exists evs. auto.
  - destruct (Hk a w1) as (evs' & E' & F').
    exists (evs ++ evs'). rewrite E', E, app_assoc. split; [reflexivity|].
    apply Forall_app. auto.
Qed.

Lemma emits_silent Q A (c : M A) : (forall w, log (fst (c w)) = log w) -> emits Q c.
Proof. intros H w. exists []. rewrite app_nil_r. auto. Qed.

Lemma emits_ret Q A (a : A) : emits Q (ret a).
Proof. apply emits_silent. reflexivity. Qed.

Lemma emits_raise Q A ex : emits Q (@raise A ex).
Proof. apply emits_silent. reflexivity. Qed.

Lemma emits_lift Q A (x : exception + A) : emits Q (lift x).
Proof. apply emits_silent. reflexivity. Qed.

Lemma emits_when Q b c : emits Q c -> emits Q (when b c).
Proof. destruct b; [auto | intros _; apply emits_ret]. Qed.

Lemma emits_call (Q : event -> Prop) t op :
  (forall after, Q (TurtleDid t op after)) -> emits Q (call t op).
Proof. intros H w. eexists. split; [reflexivity|]. auto. Qed.

Lemma emits_screen (Q : event -> Prop) op : Q (ScreenDid op) -> emits Q (screen op).
Proof. intros H w. exists [ScreenDid op]. split; [destruct op; reflexivity | auto]. Qed.

Lemma emits_print (Q : event -> Prop) s : Q (Printed s) -> emits Q (print s).
Proof. intros H w. eexists. split; [reflexivity|]. auto. Qed.

Lemma emits_warn (Q : event -> Prop) s : Q (Warned s) -> emits Q (warn s).
Proof. intros H w. eexists. split; [reflexivity|]. auto. Qed.

Lemma emits_Turtle (Q : event -> Prop) : (forall h, Q (TurtleNew h)) -> emits Q Turtle.
Proof. intros H w. eexists. split; [reflexivity|]. auto. Qed.

Lemma emits_weaken (Q Q' : event -> Prop) A (c : M A) :
  (forall e, Q e -> Q' e) -> emits Q c -> emits Q' c.
Proof.
  intros H Hc w. destruct (Hc w) as (evs & E & F). exists evs. split; [assumption|].
  eapply Forall_impl; eassumption.
Qed.

Lemma emits_pos Q t : emits Q (pos t).
Proof. apply emits_silent. reflexivity. Qed.

Lemma emits_heading Q t : emits Q (heading t).
Proof. apply emits_silent. reflexivity. Qed.

Lemma emits_window_width Q : emits Q window_width.
Proof. apply emits_silent. reflexivity. Qed.

Lemma emits_window_height Q : emits Q window_height.
Proof. apply emits_silent. reflexivity. Qed.

Lemma emits_isfile Q path : emits Q (os_path_isfile path).
Proof. apply emits_silent. reflexivity. Qed.

Ltac emits_step :=
  lazymatch goal with
  | |- emits ?Q (bind (ret ?a) ?k) => change (emits Q (k a)); cbv beta
  | |- emits _ (bind _ _) => apply emits_bind; [|intro]
  | |- emits _ (ret _) => apply emits_ret
  | |- emits _ (raise _) => apply emits_raise
  | |- emits _ (lift _) => apply emits_lift
  | |- emits _ (when true _) => unfold when at 1
  | |- emits _ (when false _) => unfold when at 1
  | |- emits _ (when ?b _) => let E := fresh "E" in destruct b eqn:E
  | |- emits _ (pos _) => apply emits_pos
  | |- emits _ (heading _) => apply emits_heading
  | |- emits _ window_width => apply emits_window_width
  | |- emits _ window_height => apply emits_window_height
  | |- emits _ (os_path_isfile _) => apply emits_isfile
  | |- emits _ (call _ _) => apply emits_call; intro
  | |- emits _ (screen _) => apply emits_screen
  | |- emits _ (print _) => apply emits_print
  | |- emits _ (warn _) => apply emits_warn
  | |- emits _ Turtle => apply emits_Turtle; intro
  end.

Lemma emits_grow_canvas o t :
  compression_factor o <> Auto -> __no_draw o = false ->
  emits (loop_event o t) (grow_canvas t).
Proof.
  intros Hc Hn. unfold grow_canvas.
  emits_step; [emits_step|]. emits_step; [emits_step|].
  destruct (Rge_dec _ _).
  - emits_step. simpl. auto.
  - emits_step; [emits_step|]. destruct (Rge_dec _ _); emits_step. simpl. auto.
Qed.

Lemma emits_draw_forward o t var index b :
  emits (loop_event o t) (draw_forward o t var index b).
Proof.
  unfold draw_forward.
  emits_step.
  { destruct (negb (truth (__static_color o)) && negb (__no_draw o)) eqn:E.
    - apply andb_prop in E as [E1 E2].
      apply negb_true_iff in E1. apply negb_true_iff in E2.
      destruct (fg_color o); repeat emits_step. simpl. auto.
    - emits_step. }
  emits_step. { emits_step. simpl. auto. }
  emits_step. { destruct (__extrem_cords o); repeat emits_step. }
  emits_step; [|emits_step].
  destruct (compression_factor o) eqn:Ec; [emits_step|].
  destruct (__no_draw o) eqn:En; [emits_step|].
  apply emits_grow_canvas; congruence.
Qed.

Section ScanEmits.

Variable o : options.
Variable t : nat.
Variable deeper : option (string -> M returned).

Hypothesis deeper_emits :
  forall recurse replacement, deeper = Some recurse ->
    emits (loop_event o t) (recurse replacement).

Lemma emits_scan cs : forall index st b,
  emits (loop_event o t) (scan o t deeper index st b cs).
Proof.
  induction cs as [|c cs IH]; intros index st b.
  - simpl. emits_step.
  - rewrite scan_cons.
    destruct (c =? "[")%char. { repeat emits_step. apply IH. }
    destruct (c =? "]")%char.
    { destruct st as [|[p h] below]; [emits_step|].
      repeat emits_step; simpl; auto. }
    destruct (c =? "+")%char. { repeat emits_step; simpl; auto. }
    destruct (c =? "-")%char. { repeat emits_step; simpl; auto. }
    destruct (is_variable c); [|emits_step].
    destruct (find_variable (vars o) 0 c) as [[[var replacement] draw]|]; [|emits_step].
    emits_step; [|apply IH].
    destruct deeper as [recurse|] eqn:Ed.
    + emits_step; [eapply deeper_emits; reflexivity|].
      destruct (__extrem_cords o); emits_step.
    + destruct draw; [apply emits_draw_forward | emits_step].
Qed.

End ScanEmits.

Lemma loop_event_recursive o t s t' e :
  loop_event (recursive_options o t s) t' e <-> loop_event o t' e.
Proof. destruct e as [| h [] | [] | |]; simpl; tauto. Qed.

Lemma emits_finish o t axiom s st b : emits (loop_event o t) (finish axiom o t s st b).
Proof.
  unfold finish. emits_step; [repeat emits_step; exact I|].
  destruct (__extrem_cords o) as [[lo hi]|]; emits_step.
Qed.

Lemma emits_nested d : forall axiom o t s,
  _turtle o = Some t -> _screen o = Some s ->
  emits (loop_event o t) (nested d axiom o).
Proof.
  induction d as [|d IH]; intros axiom o t s Ht Hs; rewrite nested_unfold;
    unfold acquire_screen, acquire_turtle; rewrite Ht, Hs.
  - do 2 emits_step.
    emits_step.
    { emits_step; [|repeat emits_step].
      apply andb_prop in E as [E _]. unfold orient.
      repeat emits_step; simpl; auto. }
    emits_step.
    { unfold suppress. repeat emits_step; simpl; auto. }
    emits_step; [|apply emits_finish].
    apply emits_scan. intros recurse replacement H. discriminate.
  - do 2 emits_step.
    emits_step.
    { emits_step; [|repeat emits_step].
      apply andb_prop in E as [E _]. unfold orient.
      repeat emits_step; simpl; auto. }
    emits_step.
    { unfold suppress. repeat emits_step; simpl; auto. }
    emits_step; [|apply emits_finish].
    apply emits_scan. intros recurse replacement H. injection H as <-.
    eapply emits_weaken; [intro e; apply loop_event_recursive|].
    apply (IH replacement (recursive_options o t s) t s); reflexivity.
Qed.

Lemma yields_bind A B (P : B -> Prop) (c : M A) (k : A -> M B) :
  (forall a, yields P (k a)) -> yields P (bind c k).
Proof.
  intros Hk w w' b H. apply bind_inr in H as (w1 & a & _ & H). eapply Hk; eassumption.
Qed.

Lemma yields_ret A (P : A -> Prop) a : P a -> yields P (ret a).
Proof. intros H w w' a' E. inversion E; subst. exact H. Qed.

Lemma emits_bind_yields Q A B (P : A -> Prop) (c : M A) (k : A -> M B) :
  emits Q c -> yields P c -> (forall a, P a -> emits Q (k a)) -> emits Q (bind c k).
Proof.
  intros Hc Hy Hk w. destruct (Hc w) as (evs & E & F).
  rewrite fst_bind. destruct (c w) as [w1 [ex|a]] eqn:Ec; simpl in E.
  - exists evs. auto.
  - destruct (Hk a (Hy _ _ _ Ec) w1) as (evs' & E' & F').
    exists (evs ++ evs'). rewrite E', E, app_assoc. split; [reflexivity|].
    apply Forall_app. auto.
Qed.

Lemma steps_of_quiet distance evs : endpoints evs = [] -> Forall (steps_of distance) evs.
Proof.
  induction evs as [|e evs IH]; intro H; constructor.
  - destruct e as [| h [] after | | |]; simpl in *; try exact I. discriminate.
  - apply IH. destruct e as [| h [] after | | |]; simpl in *; try assumption. discriminate.
Qed.

Lemma emits_steady distance A (c : M A) : steady c -> emits (steps_of distance) c.
Proof.
  intros H w. destruct (H w) as (w' & a & evs & E & L & P).
  exists evs. rewrite E. split; [exact L | now apply steps_of_quiet].
Qed.

Lemma loop_event_steps o t e : loop_event o t e -> steps_of (step_length o) e.
Proof. destruct e as [| h [] after | | |]; simpl; tauto. Qed.

Lemma forward_moves_steps distance h evs :
  Forall (steps_of distance) evs -> Forall (fun x => x = distance) (forward_moves h evs).
Proof.
  induction 1 as [|e evs He _ IH]; simpl; [constructor|].
  destruct e as [| h' [] after | | |]; simpl in *; try assumption.
  destruct (Nat.eqb h' h); [constructor; assumption | assumption].
Qed.

Lemma emits_draw d axiom o s t text :
  emits (steps_of (step_length o)) (draw d axiom o s t text).
Proof.
  unfold draw.
  emits_step; [apply emits_steady, steady_suppress|].
  emits_step.
  { eapply emits_weaken; [apply loop_event_steps|].
    apply emits_scan. intros recurse replacement H.
    destruct d as [|d]; [discriminate|]. injection H as <-.
    eapply emits_weaken; [intro e; apply loop_event_recursive|].
    apply (emits_nested d replacement (recursive_options o t s) t s); reflexivity. }
  emits_step; [apply emits_steady; steady_all|].
  emits_step; [apply emits_steady; steady_all|].
  emits_step; [apply emits_steady; steady_all|].
  apply emits_steady, steady_finish.
Qed.

Lemma yields_initialise_factor d axiom o s t f :
  compression_factor o = Factor f ->
  yields (fun i => snd i
                   = with_locals o
                       (step_length o
                        * powerRZ f match __initial_depth o with
                                    | None => Z.of_nat d
                                    | Some i => i
                                    end)
                       match __initial_depth o with None => Z.of_nat d | Some i => i end
                       (is_static (fg_color o)) None)
    (initialise d axiom o s t).
Proof.
  intro Hc. unfold initialise. rewrite Hc.
  do 10 (apply yields_bind; intro).
  change (bind (ret ?a) ?k) with (k a). cbv beta.
  do 2 (apply yields_bind; intro). apply yields_ret. reflexivity.
Qed.

(** X3.  With a numeric compression factor [f], every forward movement
    of an initial call with [depth >= 0] that is passed no [__initial_depth],
    those of its recursive calls included, has the length
    [step_length * f ** depth] (lines 214 and 253), whether the call returns
    or raises. *)
Theorem fixed_factor_scales_every_step axiom depth o f w :
  (0 <= depth)%Z ->
  compression_factor o = Factor f ->
  __initial_depth o = None ->
  exists evs,
    log (fst (lindenmayer_system axiom depth true o w)) = log w ++ evs
    /\ forall h,
         Forall (fun x => x = step_length o * powerRZ f depth) (forward_moves h evs).
Proof.
  intros Hd Hc Hi.
  assert (H : emits (steps_of (step_length o * powerRZ f depth))
                (lindenmayer_system axiom depth true o)).
  { unfold lindenmayer_system. apply Z.ltb_ge in Hd. rewrite Hd. unfold top_level.
    emits_step; [apply emits_steady, steady_prepare|].
    emits_step; [emits_step|].
    eapply emits_bind_yields;
      [apply emits_steady; eapply steady_initialise_factor; eassumption
      |eapply yields_initialise_factor; eassumption|].
    intros i ->. rewrite Hi, Z2Nat.id by now apply Z.ltb_ge.
    apply (emits_draw (Z.to_nat depth) axiom
             (with_locals o (step_length o * powerRZ f depth) depth
                (is_static (fg_color o)) None)). }
  destruct (H w) as (evs & L & F). exists evs. split; [exact L|].
  intro h. now apply forward_moves_steps.
Qed.

Lemma inked_app evs evs' : inked (evs ++ evs') = inked evs ++ inked evs'.
Proof.
  induction evs as [|e evs IH]; [reflexivity|].
  destruct e as [| h [] after | | |]; simpl; try assumption.
  destruct (t_down after); simpl; now rewrite IH.
Qed.

Lemma inked_quiet evs : endpoints evs = [] -> inked evs = [].
Proof.
  induction evs as [|e evs IH]; [reflexivity|].
  destruct e as [| h [] after | | |]; simpl; try assumption. discriminate.
Qed.

Lemma settled_lifted t A (c : M A) : settled t c -> lifted t c.
Proof. intros H w _. apply H. Qed.

Lemma lifted_bind t A B (c : M A) (k : A -> M B) :
  lifted t c -> (forall a, lifted t (k a)) -> lifted t (bind c k).
Proof.
  intros Hc Hk w Hw. destruct (Hc w Hw) as (evs & E & F & D).
  rewrite fst_bind. destruct (c w) as [w1 [ex|a]]; simpl in E, D.
  - exists evs. auto.
  - destruct (Hk a w1 D) as (evs' & E' & F' & D').
    exists (evs ++ evs'). rewrite E', E, app_assoc, inked_app, F, F'. auto.
Qed.

Lemma lifted_still t A (c : M A) :
  (forall w, log (fst (c w)) = log w /\ turtles (fst (c w)) = turtles w) -> lifted t c.
Proof.
  intros H w Hw. destruct (H w) as [L T]. exists []. rewrite app_nil_r, T. auto.
Qed.

Lemma lifted_ret t A (a : A) : lifted t (ret a).
Proof. apply lifted_still. auto. Qed.

Lemma lifted_raise t A ex : lifted t (@raise A ex).
Proof. apply lifted_still. auto. Qed.

Lemma lifted_pos t h : lifted t (pos h).
Proof. apply lifted_still. auto. Qed.

Lemma lifted_heading t h : lifted t (heading h).
Proof. apply lifted_still. auto. Qed.

Lemma lifted_warn t s : lifted t (warn s).
Proof. intros w Hw. exists [Warned s]. auto. Qed.

Lemma lifted_call t op :
  op <> Pendown -> lifted t (call t op).
Proof.
  intros Hop w Hw. exists [TurtleDid t op (apply_op op (turtles w t))].
  cbn [call fst log turtles emit store]. rewrite Nat.eqb_refl.
  split; [reflexivity|].
  destruct op; simpl; try rewrite Hw; auto. congruence.
Qed.

Ltac lifted_step :=
  lazymatch goal with
  | |- lifted _ (bind _ _) => apply lifted_bind; [|intro]
  | |- lifted _ (ret _) => apply lifted_ret
  | |- lifted _ (raise _) => apply lifted_raise
  | |- lifted _ (pos _) => apply lifted_pos
  | |- lifted _ (heading _) => apply lifted_heading
  | |- lifted _ (warn _) => apply lifted_warn
  | |- lifted _ (call _ _) => apply lifted_call; discriminate
  | |- lifted _ (when true _) => unfold when at 1
  | |- lifted _ (when false _) => unfold when at 1
  | |- lifted _ (when ?b _) => let E := fresh "E" in destruct b eqn:E
  end.

Lemma lifted_draw_forward o t var index b :
  __no_draw o = true -> lifted t (draw_forward o t var index b).
Proof.
  intro Hn. unfold draw_forward. rewrite Hn, andb_false_r.
  lifted_step; [lifted_step|]. lifted_step; [lifted_step|].
  lifted_step; [destruct (__extrem_cords o); repeat lifted_step|].
  lifted_step; [|lifted_step].
  destruct (compression_factor o); lifted_step.
Qed.

Section ScanLifted.

Variable o : options.
Variable t : nat.
Variable deeper : option (string -> M returned).

Hypothesis dry : __no_draw o = true.

Hypothesis deeper_settled :
  forall recurse replacement, deeper = Some recurse -> settled t (recurse replacement).

Lemma lifted_scan cs : forall index st b, lifted t (scan o t deeper index st b cs).
Proof.
  induction cs as [|c cs IH]; intros index st b.
  - simpl. lifted_step.
  - rewrite scan_cons.
    destruct (c =? "[")%char. { repeat lifted_step. apply IH. }
    destruct (c =? "]")%char.
    { destruct st as [|[p h] below]; [lifted_step|].
      rewrite dry. repeat lifted_step. apply IH. }
    destruct (c =? "+")%char. { repeat lifted_step. apply IH. }
    destruct (c =? "-")%char. { repeat lifted_step. apply IH. }
    destruct (is_variable c); [|lifted_step].
    destruct (find_variable (vars o) 0 c) as [[[var replacement] draw]|]; [|lifted_step].
    lifted_step; [|apply IH].
    destruct deeper as [recurse|] eqn:Ed.
    + lifted_step; [apply settled_lifted; eapply deeper_settled; reflexivity|].
      destruct (__extrem_cords o); lifted_step.
    + destruct draw; [now apply lifted_draw_forward | lifted_step].
Qed.

End ScanLifted.

Lemma lifted_finish o t axiom s st b : lifted t (finish axiom o t s st b).
Proof.
  unfold finish. lifted_step; [repeat lifted_step|].
  destruct (__extrem_cords o) as [[lo hi]|]; lifted_step.
Qed.

Lemma settled_after t A B (c : M A) (k : A -> M B) :
  steady c -> (forall a, settled t (k a)) -> settled t (bind c k).
Proof.
  intros Hc Hk w. destruct (Hc w) as (w1 & a & evs & E & L & P).
  rewrite fst_bind, E. destruct (Hk a w1) as (evs' & L' & F' & D').
  exists (evs ++ evs'). rewrite L', L, app_assoc, inked_app, F', (inked_quiet _ P). auto.
Qed.

Lemma settled_body d axiom o t s :
  __no_draw o = true ->
  (forall replacement,
     match d with
     | O => True
     | S d' => settled t (nested d' replacement (recursive_options o t s))
     end) ->
  settled t
    (when (__no_draw o && at_initial_depth d o) (orient o t) ;;
     suppress o t ;;
     r <- scan o t
            match d with
            | O => None
            | S d' => Some (fun replacement => nested d' replacement (recursive_options o t s))
            end
            0 [] zero_extremes (chars axiom) ;;
     finish axiom o t s (fst r) (snd r)).
Proof.
  intros Hn Hrec.
  apply settled_after; [apply steady_when, steady_orient|intros _].
  unfold suppress. rewrite Hn. unfold when.
  intro w. rewrite fst_bind.
  destruct (call_effect t (Speed 0) w) as (wa & Ea & Ta & La).
  destruct (call_effect t Penup wa) as (w1 & Eb & Tb & Lb).
  rewrite (bind_run _ Ea), Eb.
  assert (Hw : t_down (turtles w1 t) = false) by (rewrite Tb; reflexivity).
  assert (L0 : log w1 = log w ++ [TurtleDid t (Speed 0) (apply_op (Speed 0) (turtles w t));
                                  TurtleDid t Penup (apply_op Penup (turtles wa t))]).
  { rewrite Lb, La, <- app_assoc. reflexivity. }
  assert (Hl : lifted t (r <- scan o t
            match d with
            | O => None
            | S d' => Some (fun replacement => nested d' replacement (recursive_options o t s))
            end
            0 [] zero_extremes (chars axiom) ;;
     finish axiom o t s (fst r) (snd r))).
  { lifted_step; [|apply lifted_finish].
    apply lifted_scan; [assumption|].
    intros recurse replacement H. destruct d as [|d]; [discriminate|].
    injection H as <-. apply (Hrec replacement). }
  destruct (Hl w1 Hw) as (evs & L & F & D).
  exists ([TurtleDid t (Speed 0) (apply_op (Speed 0) (turtles w t));
           TurtleDid t Penup (apply_op Penup (turtles wa t))] ++ evs).
  split; [rewrite L, L0, app_assoc; reflexivity|].
  split; [rewrite inked_app, F; reflexivity | exact D].
Qed.

Lemma settled_nested d : forall axiom o t s,
  __no_draw o = true -> _turtle o = Some t -> _screen o = Some s ->
  settled t (nested d axiom o).
Proof.
  induction d as [|d IH]; intros axiom o t s Hn Ht Hs; rewrite nested_unfold;
    unfold acquire_screen, acquire_turtle; rewrite Ht, Hs; intro w.
  - exact (settled_body 0 axiom o t s Hn (fun _ => I) w).
  - exact (settled_body (S d) axiom o t s Hn
             (fun replacement =>
                IH replacement (recursive_options o t s) t s Hn eq_refl eq_refl) w).
Qed.

Lemma inkless_after A B (c : M A) (k : A -> M B) :
  steady c -> (forall a, inkless (k a)) -> inkless (bind c k).
Proof.
  intros Hc Hk w. destruct (Hc w) as (w1 & a & evs & E & L & P).
  rewrite fst_bind, E. destruct (Hk a w1) as (evs' & L' & F').
  exists (evs ++ evs'). rewrite L', L, app_assoc, inked_app, F', (inked_quiet _ P). auto.
Qed.

Lemma inkless_settled t A (c : M A) : settled t c -> inkless c.
Proof. intros H w. destruct (H w) as (evs & L & F & _). eauto. Qed.

Lemma inkless_steady A (c : M A) : steady c -> inkless c.
Proof.
  intros H w. destruct (H w) as (w1 & a & evs & E & L & P).
  exists evs. rewrite E. split; [exact L | now apply inked_quiet].
Qed.

(** X4.  A call of the recursion with [__no_draw] set, such as the
    measuring pass of lines 167-170, draws no line: no forward movement of it
    or of its recursive calls is made with the pen down (lines 218-220 and
    236-237), whether the call returns or raises and however the pen was. *)
Theorem dry_run_draws_nothing axiom depth o w :
  __no_draw o = true ->
  exists evs,
    log (fst (lindenmayer_system axiom depth false o w)) = log w ++ evs
    /\ inked evs = [].
Proof.
  intro Hn. revert w.
  change (inkless (lindenmayer_system axiom depth false o)).
  unfold lindenmayer_system. destruct (depth <? 0)%Z.
  - apply inkless_steady. unfold negative_depth.
    apply steady_bind; [apply steady_acquire_screen|intro s].
    apply steady_bind; [apply steady_acquire_turtle|intro t].
    apply steady_bind; [apply steady_query|intro p]. apply steady_ret.
  - rewrite nested_unfold.
    apply inkless_after; [apply steady_acquire_screen|intro s].
    apply inkless_after; [apply steady_acquire_turtle|intro t].
    apply (inkless_settled t).
    apply settled_body; [exact Hn|].
    intro replacement. destruct (Z.to_nat depth) as [|d]; [exact I|].
    now apply (settled_nested d replacement (recursive_options o t s) t s).
Qed.

Lemma fails_only_bind E A B (c : M A) (k : A -> M B) :
  fails_only E c -> (forall a, fails_only E (k a)) -> fails_only E (bind c k).
Proof.
  intros Hc Hk w w' ex H. unfold bind in H.
  destruct (c w) as [w1 [ex1|a]] eqn:Ec.
  - inversion H; subst. eapply Hc; eassumption.
  - eapply Hk; eassumption.
Qed.

Lemma fails_only_bind_yields E A B (P : A -> Prop) (c : M A) (k : A -> M B) :
  fails_only E c -> yields P c -> (forall a, P a -> fails_only E (k a)) ->
  fails_only E (bind c k).
Proof.
  intros Hc Hy Hk w w' ex H. unfold bind in H.
  destruct (c w) as [w1 [ex1|a]] eqn:Ec.
  - inversion H; subst. eapply Hc; eassumption.
  - eapply Hk; [eapply Hy|]; eassumption.
Qed.

Lemma fails_only_returns E A (c : M A) : returns c -> fails_only E c.
Proof. intros H w w' ex Hc. destruct (H w) as (w1 & a & Ha). congruence. Qed.

Lemma fails_only_steady E A (c : M A) : steady c -> fails_only E c.
Proof. intro H. apply fails_only_returns, returns_steady, H. Qed.

Lemma fails_only_ret E A (a : A) : fails_only E (ret a).
Proof. intros w w' ex H. discriminate. Qed.

Lemma fails_only_raise (E : exception -> Prop) A ex : E ex -> fails_only E (@raise A ex).
Proof. intros H w w' ex' Hc. inversion Hc; subst. exact H. Qed.

Lemma fails_only_weaken (E E' : exception -> Prop) A (c : M A) :
  (forall ex, E ex -> E' ex) -> fails_only E c -> fails_only E' c.
Proof. intros H Hc w w' ex Hw. eapply H, Hc, Hw. Qed.

Lemma fails_only_draw_forward E o t var index b :
  color_callable o = true -> fails_only E (draw_forward o t var index b).
Proof.
  intros Hc w w' ex H.
  destruct (draw_forward_spec o t var index b w Hc) as (w1 & evs & Hd & _). congruence.
Qed.

Lemma known_replacement vars c var replacement draw :
  known_grammar vars = true ->
  find_variable vars 0 c = Some (var, replacement, draw) ->
  forallb (known_char vars) (chars replacement) = true.
Proof.
  intros Hg Hf. apply find_variable_entries in Hf.
  unfold known_grammar in Hg. rewrite forallb_forall in Hg. exact (Hg _ Hf).
Qed.

Section ScanFails.

Variable o : options.
Variable t : nat.
Variable deeper : option (string -> M returned).

Hypothesis callable : color_callable o = true.
Hypothesis known : known_grammar (vars o) = true.

Hypothesis deeper_fails :
  forall recurse replacement, deeper = Some recurse ->
    forallb (known_char (vars o)) (chars replacement) = true ->
    fails_only unmatched (recurse replacement).

Lemma fails_only_scan cs : forall index st b,
  forallb (known_char (vars o)) cs = true ->
  fails_only unmatched (scan o t deeper index st b cs).
Proof.
  induction cs as [|c cs IH]; intros index st b Hk.
  - simpl. apply fails_only_ret.
  - simpl in Hk. apply andb_prop in Hk as [Hc Hk]. rewrite scan_cons.
    destruct (c =? "[")%char eqn:E1.
    { apply fails_only_bind; [apply fails_only_steady, steady_query|intro].
      apply fails_only_bind; [apply fails_only_steady, steady_query|intro]. auto. }
    destruct (c =? "]")%char eqn:E2.
    { destruct st as [|[p h] below]; [apply fails_only_raise; eexists; reflexivity|].
      apply fails_only_bind; [apply fails_only_steady; steady_all|intro].
      apply fails_only_bind; [apply fails_only_steady; steady_all|intro].
      apply fails_only_bind; [apply fails_only_steady; steady_all|intro].
      apply fails_only_bind; [apply fails_only_steady; steady_all|intro]. auto. }
    destruct (c =? "+")%char eqn:E3.
    { apply fails_only_bind; [apply fails_only_steady; steady_all|intro]. auto. }
    destruct (c =? "-")%char eqn:E4.
    { apply fails_only_bind; [apply fails_only_steady; steady_all|intro]. auto. }
    assert (Hv : is_variable c && declared (vars o) c = true).
    { unfold known_char, is_control in Hc. rewrite E1, E2, E3, E4 in Hc. exact Hc. }
    apply andb_prop in Hv as [Hv Hd]. rewrite Hv.
    unfold declared in Hd.
    destruct (find_variable (vars o) 0 c) as [[[var replacement] draw]|] eqn:Hf;
      [|discriminate].
    apply fails_only_bind; [|intro; auto].
    destruct deeper as [recurse|] eqn:Ed.
    + apply fails_only_bind.
      * eapply deeper_fails; [reflexivity|]. eapply known_replacement; eassumption.
      * intro r. destruct (__extrem_cords o); apply fails_only_ret.
    + destruct draw; [now apply fails_only_draw_forward | apply fails_only_ret].
Qed.

End ScanFails.

Lemma color_callable_recursive o t s :
  color_callable (recursive_options o t s) = color_callable o.
Proof. reflexivity. Qed.

Lemma fails_only_nested d : forall axiom o,
  color_callable o = true ->
  known_grammar (vars o) = true ->
  forallb (known_char (vars o)) (chars axiom) = true ->
  fails_only unmatched (nested d axiom o).
Proof.
  induction d as [|d IH]; intros axiom o Hc Hg Ha; rewrite nested_unfold.
  - apply fails_only_bind; [apply fails_only_steady, steady_acquire_screen|intro s].
    apply fails_only_bind; [apply fails_only_steady, steady_acquire_turtle|intro t].
    apply fails_only_bind; [apply fails_only_steady, steady_when, steady_orient|intro].
    apply fails_only_bind; [apply fails_only_steady, steady_suppress|intro].
    apply fails_only_bind; [|intro; apply fails_only_steady, steady_finish].
    apply fails_only_scan; auto. discriminate.
  - apply fails_only_bind; [apply fails_only_steady, steady_acquire_screen|intro s].
    apply fails_only_bind; [apply fails_only_steady, steady_acquire_turtle|intro t].
    apply fails_only_bind; [apply fails_only_steady, steady_when, steady_orient|intro].
    apply fails_only_bind; [apply fails_only_steady, steady_suppress|intro].
    apply fails_only_bind; [|intro; apply fails_only_steady, steady_finish].
    apply fails_only_scan; auto.
    intros recurse replacement H Hk. injection H as <-.
    apply IH; assumption.
Qed.

(** A valid grammar holds only characters that the loop knows. *)

Lemma in_keys_In c vars : in_keys c vars = true -> In c (keys vars).
Proof.
  unfold in_keys. rewrite existsb_exists. intros (k & Hin & Hk).
  apply String.eqb_eq in Hk. now subst.
Qed.

Lemma legal_known vars c :
  names_ok vars = true -> lettered vars = true ->
  legal_char vars c = true -> known_char vars c = true.
Proof.
  unfold names_ok, lettered, legal_char, known_char. intros Hn Ha Hl.
  destruct (is_control c); [reflexivity|]. rewrite orb_false_r in Hl. simpl.
  assert (Hk : In (str c) (keys vars)) by now apply in_keys_In.
  assert (Hu : isupper c = true).
  { rewrite forallb_forall in Hn. apply (Hn (str c) Hk). }
  assert (Hl' : isalpha c = true).
  { rewrite forallb_forall in Ha. specialize (Ha (str c) Hk). cbn in Ha.
    now rewrite andb_true_r in Ha. }
  unfold is_variable. rewrite Hu, Hl'. simpl.
  unfold declared.
  destruct (find_variable_declared vars 0 c Hl) as [e ->]. reflexivity.
Qed.

Lemma legal_all_known vars cs :
  names_ok vars = true -> lettered vars = true ->
  forallb (legal_char vars) cs = true -> forallb (known_char vars) cs = true.
Proof.
  intros Hn Ha H. rewrite forallb_forall in *. intros c Hc. apply legal_known; auto.
Qed.

Lemma entries_from items : forall n var replacement draw,
  In (var, replacement, draw) (entries items n) ->
  exists p, In (var, p) items /\ replacement = replacement_of p.
Proof.
  induction items as [|[k p] items IH]; intros n var replacement draw H; [contradiction|].
  destruct p as [r|r d]; simpl in H; destruct H as [H|H].
  - inversion H; subst. exists (Plain replacement). simpl. auto.
  - destruct (IH _ _ _ _ H) as (p & Hp & ->). exists p. simpl. auto.
  - inversion H; subst. exists (Pair replacement draw). simpl. auto.
  - destruct (IH _ _ _ _ H) as (p & Hp & ->). exists p. simpl. auto.
Qed.

Lemma grammar_ok_known axiom vars :
  grammar_ok axiom vars = true -> lettered vars = true ->
  known_grammar vars = true /\ forallb (known_char vars) (chars axiom) = true.
Proof.
  unfold grammar_ok. intros H Hl.
  apply andb_prop in H as [H Hr]. apply andb_prop in H as [Hn Ha].
  split; [|now apply legal_all_known].
  unfold known_grammar. apply forallb_forall. intros [[var replacement] draw] Hin.
  apply entries_from in Hin as (p & Hp & ->).
  unfold replacements_ok in Hr. rewrite forallb_forall in Hr.
  specialize (Hr _ Hp). unfold replacement_ok in Hr. simpl in Hr.
  apply andb_prop in Hr as [_ Hr]. now apply legal_all_known.
Qed.

Lemma fails_only_lift (E : exception -> Prop) A (x : exception + A) :
  (forall ex, x = inl ex -> E ex) -> fails_only E (lift x).
Proof. intros H w w' ex Hc. inversion Hc; subst. auto. Qed.

Lemma auto_factor_fails lo hi width height step ex :
  auto_factor lo hi width height step = inl ex -> ex = ZeroDivisionError.
Proof.
  unfold auto_factor, divide.
  destruct (Req_dec_T _ 0); [congruence|].
  destruct (Req_dec_T _ 0); congruence.
Qed.

Lemma fails_only_auto_scale d axiom o t text s initial_depth :
  compression_factor o = Auto ->
  known_grammar (vars o) = true ->
  forallb (known_char (vars o)) (chars axiom) = true ->
  fails_only (bracket_or_scale o) (auto_scale d axiom o t text s initial_depth).
Proof.
  intros Hc Hg Ha. unfold auto_scale.
  apply fails_only_bind; [apply fails_only_steady; steady_all|intro].
  apply fails_only_bind; [apply fails_only_steady; steady_all|intro].
  apply fails_only_bind.
  { eapply fails_only_weaken; [intros ex H; left; exact H|].
    apply fails_only_nested; auto. }
  intro r.
  apply fails_only_bind; [apply fails_only_steady; steady_all|intro ww].
  apply fails_only_bind; [apply fails_only_steady; steady_all|intro wh].
  apply fails_only_bind.
  { apply fails_only_lift. intros ex H. right. split; [exact Hc|].
    eapply auto_factor_fails; eassumption. }
  intro factor. apply fails_only_steady. steady_all.
Qed.

Lemma fails_only_initialise d axiom o s t :
  known_grammar (vars o) = true ->
  forallb (known_char (vars o)) (chars axiom) = true ->
  fails_only (bracket_or_scale o) (initialise d axiom o s t).
Proof.
  intros Hg Ha.
  destruct (compression_factor o) as [|f] eqn:Hc.
  - unfold initialise.
    do 3 (apply fails_only_bind; [apply fails_only_steady; steady_all|intro]).
    apply fails_only_bind; [apply fails_only_steady; steady_all|intro text].
    do 3 (apply fails_only_bind; [apply fails_only_steady; steady_all|intro]).
    apply fails_only_bind; [apply fails_only_steady; destruct (fg_color o); steady_all|intro].
    apply fails_only_bind;
      [apply fails_only_steady; destruct (instant_draw o); steady_all|intro].
    apply fails_only_bind;
      [apply fails_only_steady; destruct (initial_window_size o) as [[|]|]; steady_all|intro].
    rewrite Hc. cbv iota.
    apply fails_only_bind.
    { apply fails_only_bind; [|intro; apply fails_only_ret].
      now apply fails_only_auto_scale. }
    intro scaled. apply fails_only_steady. steady_all.
  - apply fails_only_steady. eapply steady_initialise_factor; eassumption.
Qed.

Lemma yields_initialise d axiom o s t :
  yields (fun i => exists step initial_depth extrem,
                     snd i = with_locals o step initial_depth (is_static (fg_color o)) extrem)
    (initialise d axiom o s t).
Proof.
  intros w w' [text o'] H. apply initialise_facts in H as [(step & id & ext & -> & _) _].
  simpl. eauto.
Qed.

Lemma fails_only_draw d axiom o s t text :
  color_callable o = true ->
  known_grammar (vars o) = true ->
  forallb (known_char (vars o)) (chars axiom) = true ->
  fails_only unmatched (draw d axiom o s t text).
Proof.
  intros Hc Hg Ha. unfold draw.
  apply fails_only_bind; [apply fails_only_steady, steady_suppress|intro].
  apply fails_only_bind.
  { apply fails_only_scan; auto.
    intros recurse replacement H Hk. destruct d as [|d]; [discriminate|].
    injection H as <-. apply fails_only_nested; auto. }
  intro r.
  do 3 (apply fails_only_bind; [apply fails_only_steady; steady_all|intro]).
  apply fails_only_steady, steady_finish.
Qed.

(** X5.  What is left to fail once a grammar of letters is accepted.  Of
    the [ValueError]s that the function raises itself (lines 119, 122, 126,
    231, 280 and 282), an initial call with [depth >= 0] whose axiom,
    variables, step length and compression factor pass the checks of lines
    116-129, and whose variable names are letters, can raise only that of an
    unmatched closing bracket (line 231).  The errors of lines 280 and 282
    cannot occur any more. *)
Theorem accepted_letters_leave_only_the_bracket_error axiom depth o w w' m :
  (0 <= depth)%Z ->
  validate axiom (vars o) (step_length o) (compression_factor o) = inr tt ->
  lettered (vars o) = true ->
  lindenmayer_system axiom depth true o w = (w', inl (ValueError m)) ->
  exists index, m = UnmatchedBracket index.
Proof.
  intros Hd Hv Hl H. pose proof Hv as Hv'.
  apply validate_accepts_iff in Hv as (Hg & _ & _).
  apply grammar_ok_known in Hg as [Hg Ha]; [|exact Hl].
  unfold lindenmayer_system in H. apply Z.ltb_ge in Hd. rewrite Hd in H.
  assert (F : fails_only (bracket_or_scale o) (top_level (Z.to_nat depth) axiom o)).
  { unfold top_level.
    apply fails_only_bind; [apply fails_only_steady, steady_prepare|intros [s t]].
    apply fails_only_bind.
    { rewrite Hv'. apply fails_only_lift. discriminate. }
    intros _.
    eapply fails_only_bind_yields;
      [now apply fails_only_initialise | apply yields_initialise |].
    intros [text o'] (step & id & ext & Ho). simpl in Ho. subst o'.
    eapply fails_only_weaken; [intros ex Hex; left; exact Hex|].
    apply fails_only_draw; auto. apply color_callable_with_locals. }
  destruct (F _ _ _ H) as [[index E]|[_ E]]; [|discriminate].
  injection E as ->. eauto.
Qed.

Lemma accepted_letters_leave_only_the_bracket_error_witness :
  exists w',
    lindenmayer_system "F]" 0 true (defaults [("F", Plain "F")] 90) blank_world
    = (w', inl (ValueError (UnmatchedBracket 1)))
    /\ exists index, UnmatchedBracket 1 = UnmatchedBracket index.
Proof.
  assert (Hv : validate "F]" (vars (defaults [("F", Plain "F")] 90))
                 (step_length (defaults [("F", Plain "F")] 90))
                 (compression_factor (defaults [("F", Plain "F")] 90)) = inr tt).
  { apply validate_accepts_iff. split; [reflexivity|]. split; [simpl; lra | reflexivity]. }
  assert (E : exists w',
             lindenmayer_system "F]" 0 true (defaults [("F", Plain "F")] 90) blank_world
             = (w', inl (ValueError (UnmatchedBracket 1)))).
  { eexists. unfold lindenmayer_system. cbn [Z.ltb Z.compare Z.to_nat].
    rewrite (top_level_valid _ _ _ _ Hv). run. reflexivity. }
  destruct E as [w' E]. exists w'. split; [exact E|].
  exact (accepted_letters_leave_only_the_bracket_error "F]" 0
           (defaults [("F", Plain "F")] 90) blank_world w' _ ltac:(lia) Hv eq_refl E).
Defined.

Lemma dry_run_draws_nothing_witness :
  exists evs,
    log (fst (lindenmayer_system "F[+F]F" 1 false (dry_run [("F", Plain "FF")] 90 (0, 0)%Z 1)
                blank_world))
    = log blank_world ++ evs
    /\ inked evs = [].
Proof.
  apply dry_run_draws_nothing. reflexivity.
Defined.

Lemma fixed_factor_scales_every_step_witness :
  exists evs,
    log (fst (lindenmayer_system "F+F" 2 true halving blank_world))
    = log blank_world ++ evs
    /\ forall h, Forall (fun x => x = 10 * powerRZ (1 / 2) 2) (forward_moves h evs).
Proof.
  exact (fixed_factor_scales_every_step "F+F" 2 halving (1 / 2) blank_world
           ltac:(lia) eq_refl eq_refl).
Defined.

Lemma fails_after E A B (c : M A) (k : A -> M B) :
  steady c -> (forall a, fails E (k a)) -> fails E (bind c k).
Proof.
  intros Hc Hk w. destruct (Hc w) as (w1 & a & evs & Ec & _).
  rewrite (bind_run _ Ec). apply Hk.
Qed.

Lemma fails_bind E A B (c : M A) (k : A -> M B) : fails E c -> fails E (bind c k).
Proof.
  intros Hc w. destruct (Hc w) as (w1 & ex & Ec & He).
  rewrite (bind_raise _ Ec). eauto.
Qed.

Lemma box_of_origin lo hi : bounding_box lo hi [(0, 0)] -> lo = (0, 0) /\ hi = (0, 0).
Proof.
  intros ([H1 _] & [H2 _] & [H3 _] & [H4 _]). simpl in *.
  destruct lo, hi. simpl in *. split; f_equal; intuition.
Qed.

Lemma auto_factor_of_origin width height step :
  auto_factor (0, 0) (0, 0) width height step = inl ZeroDivisionError.
Proof.
  unfold auto_factor, divide, max_key_abs. simpl.
  destruct (Rlt_dec (Rabs 0) (Rabs 0)); destruct (Req_dec_T 0 0); congruence.
Qed.

Lemma fails_auto_scale d axiom o t text s initial_depth :
  known_grammar (vars o) = true ->
  forallb (known_char (vars o)) (chars axiom) = true ->
  visits (vars o) d (chars axiom) = 0%nat ->
  fails (fun ex => (ex = ZeroDivisionError \/ unmatched ex)
                   /\ (safe_grammar (vars o) = true ->
                       safe_string (vars o) (chars axiom) = true ->
                       ex = ZeroDivisionError))
    (auto_scale d axiom o t text s initial_depth).
Proof.
  intros Hg Ha Hz. unfold auto_scale.
  apply fails_after; [steady_all|intros []].
  apply fails_after; [steady_all|intros []].
  intro w.
  destruct (nested d axiom (dry_run_options o s initial_depth) w) as [w1 [ex|r]] eqn:En.
  - rewrite (bind_raise _ En). exists w1, ex. split; [reflexivity|]. split.
    + right. eapply (fails_only_nested d axiom (dry_run_options o s initial_depth)); eauto.
    + intros Hsg Hss.
      destruct (nested_returns d axiom (dry_run_options o s initial_depth) eq_refl Hsg Hss w)
        as (w2 & r & E2). congruence.
  - rewrite (bind_run _ En).
    apply nested_facts in En as (evs & L & F & B & _).
    cbn [dry_run_options vars] in F. rewrite Hz in F.
    unfold forwards in F. apply length_zero_iff_nil in F.
    specialize (B eq_refl). rewrite F in B. apply box_of_origin in B as [B1 B2].
    unfold bind, window_width, window_height. rewrite B1, B2, auto_factor_of_origin.
    unfold lift. eauto 6.
Qed.

(** An initial call with ['auto'] on a drawing without a forward movement. *)
Lemma fails_without_forward d axiom o :
  known_grammar (vars o) = true ->
  forallb (known_char (vars o)) (chars axiom) = true ->
  compression_factor o = Auto ->
  visits (vars o) d (chars axiom) = 0%nat ->
  fails (fun ex => (ex = ZeroDivisionError \/ unmatched ex)
                   /\ (safe_grammar (vars o) = true ->
                       safe_string (vars o) (chars axiom) = true ->
                       ex = ZeroDivisionError))
    (st <- prepare o ;;
     i <- initialise d axiom o (fst st) (snd st) ;;
     draw d axiom (snd i) (fst st) (snd st) (fst i)).
Proof.
  intros Hg Ha Hc Hz.
  apply fails_after; [apply steady_prepare|intros [s t]].
  apply fails_bind. unfold initialise.
  do 3 (apply fails_after; [steady_all|intros []]).
  apply fails_after; [steady_all|intros text].
  do 3 (apply fails_after; [steady_all|intros []]).
  apply fails_after; [destruct (fg_color o); steady_all|intros []].
  apply fails_after; [destruct (instant_draw o); steady_all|intros []].
  apply fails_after; [destruct (initial_window_size o) as [[|]|]; steady_all|intros []].
  rewrite Hc. apply fails_bind, fails_bind.
  now apply fails_auto_scale.
Qed.

(** A run that turns and never moves. *)
Lemma turning_run :
  exists w',
    lindenmayer_system "+[-]" 3 true (defaults [("F", Plain "FF")] 90) blank_world
    = (w', inl ZeroDivisionError).
Proof.
  assert (Hv : validate "+[-]" (vars (defaults [("F", Plain "FF")] 90))
                 (step_length (defaults [("F", Plain "FF")] 90))
                 (compression_factor (defaults [("F", Plain "FF")] 90)) = inr tt).
  { apply validate_accepts_iff. split; [reflexivity|]. split; [simpl; lra | reflexivity]. }
  unfold lindenmayer_system. cbn [Z.ltb Z.compare]. change (Z.to_nat 3) with 3%nat.
  rewrite (top_level_valid _ _ _ _ Hv).
  destruct (fails_without_forward 3 "+[-]" (defaults [("F", Plain "FF")] 90)
              eq_refl eq_refl eq_refl eq_refl blank_world) as (w' & ex & E & _ & H).
  exists w'. rewrite E. now rewrite (H eq_refl eq_refl).
Qed.

(** X6.  Auto-scaling needs a forward movement.  With the compression
    factor ['auto'], an accepted grammar whose variable names are letters,
    and a drawing that holds no forward movement at the given depth, the
    initial call always raises: the box that the measuring pass returns is
    the origin alone, and lines 172-173 divide by zero.  The only other
    exception is that of an unmatched closing bracket, met while measuring;
    with matched brackets it is [ZeroDivisionError]. *)
Theorem auto_scaling_needs_a_forward_movement axiom depth o w :
  (0 <= depth)%Z ->
  validate axiom (vars o) (step_length o) (compression_factor o) = inr tt ->
  lettered (vars o) = true ->
  compression_factor o = Auto ->
  visits (vars o) (Z.to_nat depth) (chars axiom) = 0%nat ->
  exists w' ex,
    lindenmayer_system axiom depth true o w = (w', inl ex)
    /\ (ex = ZeroDivisionError
        \/ exists index, ex = ValueError (UnmatchedBracket index))
    /\ (safe_grammar (vars o) = true ->
        safe_string (vars o) (chars axiom) = true ->
        ex = ZeroDivisionError).
Proof.
  intros Hd Hv Hl Hc Hz. pose proof Hv as Hv'.
  apply validate_accepts_iff in Hv as (Hg & _ & _).
  apply grammar_ok_known in Hg as [Hg Ha]; [|exact Hl].
  unfold lindenmayer_system. apply Z.ltb_ge in Hd. rewrite Hd.
  rewrite (top_level_valid _ _ _ _ Hv').
  destruct (fails_without_forward (Z.to_nat depth) axiom o Hg Ha Hc Hz w)
    as (w' & ex & E & H1 & H2).
  exists w', ex. auto.
Qed.

Lemma auto_scaling_needs_a_forward_movement_witness :
  exists w',
    lindenmayer_system "+[-]" 3 true (defaults [("F", Plain "FF")] 90) blank_world
    = (w', inl ZeroDivisionError).
Proof.
  destruct (auto_scaling_needs_a_forward_movement "+[-]" 3 (defaults [("F", Plain "FF")] 90)
              blank_world) as (w' & ex & E & _ & H);
    [lia | | reflexivity | reflexivity | reflexivity |].
  - apply validate_accepts_iff. split; [reflexivity|]. split; [simpl; lra | reflexivity].
  - exists w'. rewrite E. now rewrite (H eq_refl eq_refl).
Defined.

Lemma bind_ext A B (c : M A) (k k' : A -> M B) w :
  (forall a w1, k a w1 = k' a w1) -> bind c k w = bind c k' w.
Proof. intro H. unfold bind. destruct (c w) as [w1 [ex|a]]; auto. Qed.

(** The loop on a concatenation: the second part is scanned from where the
    first part stops, with its stack and its extremes. *)
Lemma scan_app o t deeper cs : forall index st b rest w,
  scan o t deeper index st b (cs ++ rest) w
  = (r <- scan o t deeper index st b cs ;;
     scan o t deeper (index + List.length cs) (fst r) (snd r) rest) w.
Proof.
  induction cs as [|c cs IH]; intros index st b rest w.
  - cbn [app List.length scan]. rewrite Nat.add_0_r. reflexivity.
  - cbn [app List.length]. rewrite !scan_cons, Nat.add_succ_r.
    destruct (c =? "[")%char.
    { rewrite !bind_assoc. apply bind_ext. intros p w1.
      rewrite !bind_assoc. apply bind_ext. intros h w2. apply IH. }
    destruct (c =? "]")%char.
    { destruct st as [|[p h] below]; [reflexivity|].
      rewrite !bind_assoc. apply bind_ext. intros ? w1.
      rewrite !bind_assoc. apply bind_ext. intros ? w2.
      rewrite !bind_assoc. apply bind_ext. intros ? w3.
      rewrite !bind_assoc. apply bind_ext. intros ? w4. apply IH. }
    destruct (c =? "+")%char.
    { rewrite !bind_assoc. apply bind_ext. intros ? w1. apply IH. }
    destruct (c =? "-")%char.
    { rewrite !bind_assoc. apply bind_ext. intros ? w1. apply IH. }
    destruct (is_variable c); [|reflexivity].
    destruct (find_variable (vars o) 0 c) as [[[var replacement] draw]|]; [|reflexivity].
    rewrite !bind_assoc. apply bind_ext. intros b' w1. apply IH.
Qed.

(** States that lie below on the stack are not touched by a scan that
    returns. *)
Lemma scan_frame o t deeper below cs : forall index st b w w' st' b',
  scan o t deeper index st b cs w = (w', inr (st', b')) ->
  scan o t deeper index (st ++ below) b cs w = (w', inr (st' ++ below, b')).
Proof.
  induction cs as [|c cs IH]; intros index st b w w' st' b' H.
  - cbn [scan] in *. inversion H; subst. reflexivity.
  - rewrite scan_cons in *.
    destruct (c =? "[")%char.
    { apply bind_inr in H as (w1 & p & E1 & H). rewrite (bind_run _ E1).
      apply bind_inr in H as (w2 & h & E2 & H). rewrite (bind_run _ E2).
      apply (IH _ ((p, h) :: st)). exact H. }
    destruct (c =? "]")%char.
    { destruct st as [|[p h] st]; [discriminate|]. cbn [app].
      apply bind_inr in H as (w1 & ? & E1 & H). rewrite (bind_run _ E1).
      apply bind_inr in H as (w2 & ? & E2 & H). rewrite (bind_run _ E2).
      apply bind_inr in H as (w3 & ? & E3 & H). rewrite (bind_run _ E3).
      apply bind_inr in H as (w4 & ? & E4 & H). rewrite (bind_run _ E4).
      apply IH. exact H. }
    destruct (c =? "+")%char.
    { apply bind_inr in H as (w1 & ? & E1 & H). rewrite (bind_run _ E1). apply IH, H. }
    destruct (c =? "-")%char.
    { apply bind_inr in H as (w1 & ? & E1 & H). rewrite (bind_run _ E1). apply IH, H. }
    destruct (is_variable c); [|discriminate].
    destruct (find_variable (vars o) 0 c) as [[[var replacement] draw]|]; [|discriminate].
    apply bind_inr in H as (w1 & ? & E1 & H). rewrite (bind_run _ E1). apply IH, H.
Qed.

Lemma scan_close o t deeper index stored_pos stored_head below b rest w :
  exists w1 evs,
    scan o t deeper index ((stored_pos, stored_head) :: below) b ("]"%char :: rest) w
    = scan o t deeper (S index) below b rest w1
    /\ log w1 = log w ++ evs
    /\ ops_of evs = [Penup; Goto stored_pos; Seth stored_head]
                    ++ (if __no_draw o then [] else [Pendown])
    /\ t_pos (turtles w1 t) = stored_pos
    /\ heading_of (turtles w1 t) = mod360 stored_head
    /\ t_down (turtles w1 t) = negb (__no_draw o).
Proof.
  rewrite scan_cons. cbn [Ascii.eqb Bool.eqb].
  destruct (__no_draw o); eexists _, _; walk;
    (split; [reflexivity|]); walk; rewrite <- ?app_assoc;
    (split; [reflexivity|]); rewrite Nat.eqb_refl; repeat split.
Qed.

(** X7.  A bracketed branch, whatever it draws, is undone.  When the loop
    of lines 226-282 runs through [cs] from an empty stack without raising
    and leaves the stack empty, then on ["[" ++ cs ++ "]" ++ rest], from any
    stack, it goes on with [rest] at the index after the closing bracket,
    with the stack as it was and the extremes that [cs] left.  The turtle is
    back at the position and the heading of the opening bracket, with the pen
    down unless [__no_draw] is set; the closing bracket has added penup,
    goto, seth and (unless [__no_draw]) pendown to the log. *)
Theorem balanced_branch_is_undone o t deeper index st b cs rest w w0 b0 :
  scan o t deeper (S index) [] b cs w = (w0, inr ([], b0)) ->
  exists w1 evs,
    scan o t deeper index st b ("["%char :: cs ++ "]"%char :: rest) w
    = scan o t deeper (S (S (index + List.length cs))) st b0 rest w1
    /\ log w1 = log w0 ++ evs
    /\ ops_of evs = [Penup; Goto (t_pos (turtles w t)); Seth (heading_of (turtles w t))]
                    ++ (if __no_draw o then [] else [Pendown])
    /\ t_pos (turtles w1 t) = t_pos (turtles w t)
    /\ heading_of (turtles w1 t) = heading_of (turtles w t)
    /\ t_down (turtles w1 t) = negb (__no_draw o).
Proof.
  intro H.
  apply (scan_frame o t deeper ((t_pos (turtles w t), heading_of (turtles w t)) :: st)) in H.
  cbn [app] in H.
  destruct (scan_close o t deeper (S index + List.length cs) (t_pos (turtles w t))
              (heading_of (turtles w t)) st b0 rest w0)
    as (w1 & evs & E & L & O & P & Hh & D).
  exists w1, evs.
  split.
  { rewrite scan_cons. cbn [Ascii.eqb Bool.eqb].
    change ((p <- pos t;; h <- heading t;;
             scan o t deeper (S index) ((p, h) :: st) b (cs ++ "]"%char :: rest)) w)
      with (scan o t deeper (S index)
              ((t_pos (turtles w t), heading_of (turtles w t)) :: st) b
              (cs ++ "]"%char :: rest) w).
    rewrite scan_app, (bind_run _ H). cbn [fst snd]. exact E. }
  rewrite heading_of_normal in Hh. auto.
Qed.

Lemma same_failure_refl ex : same_failure ex ex.
Proof. destruct ex as [[]| | | | |]; simpl; auto. Qed.

Lemma alike_raise w ex ex' :
  same_failure ex ex' -> alike (w, inl ex) (w, inl ex').
Proof. intro H. split; [reflexivity | exact H]. Qed.

Lemma alike_bind A (c : M A) k k' w :
  (forall a w1, alike (k a w1) (k' a w1)) -> alike (bind c k w) (bind c k' w).
Proof.
  intro H. unfold bind. destruct (c w) as [w1 [ex|a]]; [|apply H].
  apply alike_raise, same_failure_refl.
Qed.

Lemma alike_bind_both A (c c' : M A) k k' w w1 a a' :
  c w = (w1, inr a) -> c' w = (w1, inr a') ->
  alike (k a w1) (k' a' w1) -> alike (bind c k w) (bind c' k' w).
Proof. intros E E' H. now rewrite (bind_run _ E), (bind_run _ E'). Qed.

Lemma expansion_cons vars d c rest :
  expansion vars d (c :: rest)
  = match d with
    | O => c :: expansion vars d rest
    | S d' =>
        if is_variable c then
          match find_variable vars 0 c with
          | Some (_, replacement, _) =>
              expansion vars d' (chars replacement) ++ expansion vars d rest
          | None => c :: expansion vars d rest
          end
        else c :: expansion vars d rest
    end.
Proof. destruct d; reflexivity. Qed.

Lemma expansion_nil vars d : expansion vars d [] = [].
Proof. destruct d; reflexivity. Qed.

Lemma expansion_0 vars cs : expansion vars 0 cs = cs.
Proof. induction cs as [|c cs IH]; [reflexivity|]. rewrite expansion_cons, IH. reflexivity. Qed.

Lemma draw_forward_static o t var index b index' b' w :
  truth (__static_color o) = true ->
  exists w1 b1 b1',
    draw_forward o t var index b w = (w1, inr b1)
    /\ draw_forward o t var index' b' w = (w1, inr b1').
Proof.
  intro Hs. unfold draw_forward, grow_canvas. rewrite Hs. cbn [negb andb].
  destruct (__extrem_cords o) as [e|]; destruct (compression_factor o) as [|f];
    try destruct (__no_draw o); exec;
    repeat match goal with |- context [Rge_dec ?x ?y] => destruct (Rge_dec x y) end;
    eexists _, _, _; split; reflexivity.
Qed.

Section Indifferent.

Variable o : options.
Variable t : nat.
Variable deeper : option (string -> M returned).
Hypothesis static : truth (__static_color o) = true.

(** With a static colour, the index and the running extremes have no
    influence on what the loop does. *)
Lemma scan_indifferent cs : forall index index' st b b' w,
  alike (scan o t deeper index st b cs w) (scan o t deeper index' st b' cs w).
Proof.
  induction cs as [|c cs IH]; intros index index' st b b' w.
  - split; reflexivity.
  - rewrite !scan_cons.
    destruct (c =? "[")%char.
    { apply alike_bind. intros p w1. apply alike_bind. intros h w2. apply IH. }
    destruct (c =? "]")%char.
    { destruct st as [|[p h] below]; [now apply alike_raise|].
      do 4 (apply alike_bind; intros ? ?). apply IH. }
    destruct (c =? "+")%char. { apply alike_bind; intros ? ?. apply IH. }
    destruct (c =? "-")%char. { apply alike_bind; intros ? ?. apply IH. }
    destruct (is_variable c); [|apply alike_raise, same_failure_refl].
    destruct (find_variable (vars o) 0 c) as [[[var replacement] draw]|];
      [|apply alike_raise, same_failure_refl].
    destruct deeper as [recurse|].
    + rewrite !bind_assoc. apply alike_bind. intros r w1.
      destruct (__extrem_cords o); apply IH.
    + destruct draw; [|apply IH].
      destruct (draw_forward_static o t var index b index' b' w static)
        as (w1 & b1 & b1' & E & E').
      eapply alike_bind_both; [exact E | exact E' | apply IH].
Qed.

End Indifferent.

Lemma scan_recursive_options o t t' s cs : forall index st b w,
  scan (recursive_options o t' s) t None index st b cs w = scan o t None index st b cs w.
Proof.
  induction cs as [|c cs IH]; intros index st b w; [reflexivity|].
  rewrite !scan_cons.
  destruct (c =? "[")%char.
  { apply bind_ext. intros p w1. apply bind_ext. intros h w2. apply IH. }
  destruct (c =? "]")%char.
  { destruct st as [|[p h] below]; [reflexivity|].
    do 4 (apply bind_ext; intros ? ?). apply IH. }
  destruct (c =? "+")%char. { apply bind_ext; intros ? ?. apply IH. }
  destruct (c =? "-")%char. { apply bind_ext; intros ? ?. apply IH. }
  destruct (is_variable c); [|reflexivity].
  change (vars (recursive_options o t' s)) with (vars o).
  destruct (find_variable (vars o) 0 c) as [[[var replacement] draw]|]; [|reflexivity].
  apply bind_ext. intros b1 w1. apply IH.
Qed.

Lemma entry_safe vars c var replacement draw :
  safe_grammar vars = true ->
  find_variable vars 0 c = Some (var, replacement, draw) ->
  safe_string vars (chars replacement) = true.
Proof.
  intros Hg Hf. apply find_variable_entries in Hf.
  unfold safe_grammar in Hg. rewrite forallb_forall in Hg. exact (Hg _ Hf).
Qed.

Lemma entry_closed vars c var replacement draw :
  closed_grammar vars = true ->
  find_variable vars 0 c = Some (var, replacement, draw) ->
  unclosed 0 (chars replacement) = 0%nat.
Proof.
  intros Hg Hf. apply find_variable_entries in Hf.
  unfold closed_grammar in Hg. rewrite forallb_forall in Hg.
  apply Nat.eqb_eq. exact (Hg _ Hf).
Qed.

Lemma color_callable_static o : truth (__static_color o) = true -> color_callable o = true.
Proof. unfold color_callable. now intros ->. Qed.

(** What a call of the recursion does in drawing mode: the loop, and then
    the warning and the corners. *)
Lemma nested_drawing d axiom o t s w :
  __no_draw o = false -> _turtle o = Some t -> _screen o = Some s ->
  nested d axiom o w
  = (r <- scan o t (deeper_of d o t s) 0 [] zero_extremes (chars axiom) ;;
     finish axiom o t s (fst r) (snd r)) w.
Proof.
  intros Hn Ht Hs. rewrite nested_unfold. unfold acquire_screen, acquire_turtle, suppress.
  rewrite Ht, Hs, Hn. destruct d; reflexivity.
Qed.

Lemma flat_scan d : forall o t s,
  truth (__static_color o) = true ->
  __no_draw o = false ->
  safe_grammar (vars o) = true ->
  closed_grammar (vars o) = true ->
  forall cs index index' st b b' w,
    alike (scan o t (deeper_of d o t s) index st b cs w)
          (scan o t None index' st b' (expansion (vars o) d cs) w).
Proof.
  induction d as [|d IHd]; intros o t s Hs Hn Hg Hc.
  { intros. rewrite expansion_0. now apply scan_indifferent. }
  induction cs as [|c cs IH]; intros index index' st b b' w.
  { rewrite expansion_nil. split; reflexivity. }
  rewrite expansion_cons.
  destruct (role_of c) as [->| ->| ->| ->|Hctl Hv|Hctl Hv].
  - change (is_variable "[") with false. cbv iota.
    rewrite !scan_cons. cbn [Ascii.eqb Bool.eqb].
    apply alike_bind. intros p w1. apply alike_bind. intros h w2. apply IH.
  - change (is_variable "]") with false. cbv iota.
    rewrite !scan_cons. cbn [Ascii.eqb Bool.eqb].
    destruct st as [|[p h] below]; [now apply alike_raise|].
    do 4 (apply alike_bind; intros ? ?). apply IH.
  - change (is_variable "+") with false. cbv iota.
    rewrite !scan_cons. cbn [Ascii.eqb Bool.eqb].
    apply alike_bind; intros ? ?. apply IH.
  - change (is_variable "-") with false. cbv iota.
    rewrite !scan_cons. cbn [Ascii.eqb Bool.eqb].
    apply alike_bind; intros ? ?. apply IH.
  - rewrite Hv. destruct (control_split c Hctl) as (E1 & E2 & E3 & E4).
    destruct (find_variable (vars o) 0 c) as [[[var replacement] draw]|] eqn:Hf.
    + rewrite scan_cons, E1, E2, E3, E4, Hv, Hf. rewrite scan_app.
      pose proof (entry_safe _ _ _ _ _ Hg Hf) as Hsafe.
      pose proof (entry_closed _ _ _ _ _ Hc Hf) as Hclosed.
      destruct (nested_returns d replacement (recursive_options o t s)
                  (color_callable_static _ Hs) Hg Hsafe w) as (w1 & r & En).
      pose proof En as En'.
      rewrite (nested_drawing d replacement (recursive_options o t s) t s w Hn eq_refl eq_refl)
        in En'.
      apply bind_inr in En' as (w2 & [st1 b1] & Es & Ef).
      pose proof (scan_stack _ _ _ _ _ _ _ _ _ _ _ Es) as [_ Hlen].
      cbn [List.length] in Hlen. rewrite Hclosed in Hlen.
      destruct st1; [|discriminate]. cbn [fst snd] in Ef.
      assert (w1 = w2).
      { unfold finish in Ef. cbn [List.length Nat.eqb negb when] in Ef.
        destruct (__extrem_cords (recursive_options o t s)) as [[lo hi]|];
          inversion Ef; reflexivity. }
      subst w2.
      pose proof (IHd (recursive_options o t s) t s Hs Hn Hg Hc (chars replacement)
                    0%nat index' [] zero_extremes b' w) as [Hw Hr].
      rewrite Es in Hw, Hr. cbn [fst snd] in Hw, Hr.
      rewrite scan_recursive_options in Hw, Hr.
      change (vars (recursive_options o t s)) with (vars o) in Hw, Hr.
      destruct (scan o t None index' [] b' (expansion (vars o) d (chars replacement)) w)
        as [w2 [ex|[st2 b2]]] eqn:Ef2; [contradiction|].
      cbn [fst snd] in Hw, Hr. subst w2 st2.
      apply (scan_frame o t None st) in Ef2. cbn [app] in Ef2.
      rewrite (bind_run _ Ef2). cbn [fst snd].
      cbn [deeper_of]. rewrite bind_assoc, (bind_run _ En).
      destruct (__extrem_cords o); apply IH.
    + rewrite !scan_cons, E1, E2, E3, E4, Hv, Hf. apply alike_raise, same_failure_refl.
  - rewrite Hv. destruct (control_split c Hctl) as (E1 & E2 & E3 & E4).
    rewrite !scan_cons, E1, E2, E3, E4, Hv. apply alike_raise, same_failure_refl.
Qed.

Lemma least_unique m m' xs : least m xs -> least m' xs -> m = m'.
Proof. intros [H1 H2] [H1' H2']. apply Rle_antisym; auto. Qed.

Lemma greatest_unique m m' xs : greatest m xs -> greatest m' xs -> m = m'.
Proof. intros [H1 H2] [H1' H2']. apply Rle_antisym; auto. Qed.

Lemma bounding_box_unique lo hi lo' hi' ps :
  bounding_box lo hi ps -> bounding_box lo' hi' ps -> lo = lo' /\ hi = hi'.
Proof.
  intros (A & B & C & D) (A' & B' & C' & D').
  destruct lo, hi, lo', hi'. simpl in *.
  split; f_equal; eauto using least_unique, greatest_unique.
Qed.

Lemma finish_closed axiom o t s b w :
  finish axiom o t s [] b w
  = (w, inr match __extrem_cords o with
            | Some (lo, hi) => (t, s, lo, hi)
            | None => (t, s, (min_x b, min_y b), (max_x b, max_y b))
            end).
Proof. unfold finish. destruct (__extrem_cords o) as [[lo hi]|]; reflexivity. Qed.

Lemma nested_by_scan o w :
  __no_draw o = false ->
  exists w2 s t, forall d axiom,
    nested d axiom o w
    = (r <- scan o t (deeper_of d o t s) 0 [] zero_extremes (chars axiom) ;;
       finish axiom o t s (fst r) (snd r)) w2.
Proof.
  intro Hn.
  destruct (steady_acquire_screen o w) as (w1 & s & evs1 & E1 & _).
  destruct (steady_acquire_turtle o w1) as (w2 & t & evs2 & E2 & _).
  exists w2, s, t. intros d axiom.
  rewrite nested_unfold, (bind_run _ E1), (bind_run _ E2).
  unfold suppress. rewrite Hn. destruct d; reflexivity.
Qed.

(** X8.  Recursion is rewriting.  For a call of the recursion that draws
    with a static colour, a grammar whose replacements hold known characters
    and matched brackets only, and an axiom that leaves no bracket open, the
    call at depth [d] does what the call at depth 0 does on the string that
    [d] rounds of rewriting make of the axiom: the two end in the same world
    and return the same value, or both raise, the same exception up to the
    index that the message of an unmatched bracket names. *)
Theorem recursion_draws_the_rewritten_string axiom d o w :
  truth (__static_color o) = true ->
  __no_draw o = false ->
  safe_grammar (vars o) = true ->
  closed_grammar (vars o) = true ->
  unclosed 0 (chars axiom) = 0%nat ->
  let flat := string_of_list_ascii (expansion (vars o) d (chars axiom)) in
  fst (lindenmayer_system axiom (Z.of_nat d) false o w)
  = fst (lindenmayer_system flat 0 false o w)
  /\ match snd (lindenmayer_system axiom (Z.of_nat d) false o w),
           snd (lindenmayer_system flat 0 false o w) with
     | inr r, inr r' => r = r'
     | inl ex, inl ex' => same_failure ex ex'
     | _, _ => False
     end.
Proof.
  intros Hs Hn Hg Hc Hu flat. unfold lindenmayer_system.
  replace (Z.of_nat d <? 0)%Z with false by (symmetry; apply Z.ltb_ge; lia).
  cbn [Z.ltb Z.compare]. rewrite Nat2Z.id. change (Z.to_nat 0) with 0%nat.
  destruct (nested_by_scan o w Hn) as (w2 & s & t & Hnest).
  pose proof (fun r => nested_facts d axiom o w (fst (nested d axiom o w)) r) as Fa.
  pose proof (fun r => nested_facts 0 flat o w (fst (nested 0 flat o w)) r) as Fb.
  rewrite !Hnest in *.
  unfold flat in *. rewrite list_ascii_of_string_of_list_ascii in *.
  pose proof (flat_scan d o t s Hs Hn Hg Hc (chars axiom) 0%nat 0%nat [] zero_extremes
                zero_extremes w2) as [Hw Hr].
  cbn [deeper_of] in Fb |- *.
  destruct (scan o t (deeper_of d o t s) 0 [] zero_extremes (chars axiom) w2)
    as [w3 [ex|[st1 b1]]] eqn:Sa;
    destruct (scan o t None 0 [] zero_extremes (expansion (vars o) d (chars axiom)) w2)
      as [w4 [ex'|[st2 b2]]] eqn:Sb; cbn [fst snd] in Hw, Hr; try contradiction.
  - rewrite (bind_raise _ Sa), (bind_raise _ Sb). cbn [fst snd]. auto.
  - pose proof (scan_stack _ _ _ _ _ _ _ _ _ _ _ Sa) as [_ Hlen].
    cbn [List.length] in Hlen. rewrite Hu in Hlen.
    destruct st1; [|discriminate]. subst st2 w4.
    rewrite (bind_run _ Sa), (bind_run _ Sb) in *. cbn [fst snd] in *.
    rewrite !finish_closed in *. cbn [fst snd] in *.
    split; [reflexivity|].
    destruct (__extrem_cords o) as [[lo hi]|] eqn:He; [reflexivity|].
    destruct (Fa _ eq_refl) as (evsa & La & _ & Ba & _).
    destruct (Fb _ eq_refl) as (evsb & Lb & _ & Bb & _).
    rewrite La in Lb. apply app_inv_head in Lb. subst evsb.
    destruct (bounding_box_unique _ _ _ _ _ (Ba He) (Bb He)) as [Hlo Hhi].
    unfold min_corner, max_corner in Hlo, Hhi. cbn [fst snd] in Hlo, Hhi.
    now rewrite Hlo, Hhi.
Qed.

Lemma yields_weaken A (P P' : A -> Prop) (c : M A) :
  (forall a, P a -> P' a) -> yields P c -> yields P' c.
Proof. intros H Hc w w' a E. eapply H, Hc, E. Qed.

Lemma yields_bind_yields A B (P : A -> Prop) (Q : B -> Prop) (c : M A) (k : A -> M B) :
  yields P c -> (forall a, P a -> yields Q (k a)) -> yields Q (bind c k).
Proof.
  intros Hc Hk w w' b H. apply bind_inr in H as (w1 & a & E & H).
  eapply Hk; [eapply Hc|]; eassumption.
Qed.

Lemma yields_draw d axiom o s t text lo hi :
  __extrem_cords o = Some (lo, hi) ->
  yields (fun r => min_corner r = lo /\ max_corner r = hi) (draw d axiom o s t text).
Proof.
  intro He. unfold draw, finish. rewrite He.
  do 6 (apply yields_bind; intro). apply yields_ret. auto.
Qed.

Section Sim.

Variable k : R.
Variable off : cord_type.
Variables t1 t2 : nat.

Lemma sim_bind A B A' B' (V : A -> B -> Prop) (V' : A' -> B' -> Prop)
  (c1 : M A) (c2 : M B) (k1 : A -> M A') (k2 : B -> M B') :
  sim k off t1 t2 V c1 c2 ->
  (forall a b, V a b -> sim k off t1 t2 V' (k1 a) (k2 b)) ->
  sim k off t1 t2 V' (bind c1 k1) (bind c2 k2).
Proof.
  intros Hc Hk w1 w2 Hw. destruct (Hc w1 w2 Hw) as (evs1 & evs2 & L1 & L2 & P & H).
  unfold bind.
  destruct (c1 w1) as [w1' [ex1|a]]; destruct (c2 w2) as [w2' [ex2|b]];
    cbn [fst snd] in *; try contradiction.
  - exists evs1, evs2. auto.
  - destruct H as [Hv Hw'].
    destruct (Hk a b Hv w1' w2' Hw') as (evs1' & evs2' & L1' & L2' & P' & H').
    exists (evs1 ++ evs1'), (evs2 ++ evs2').
    rewrite L1', L1, L2', L2, !app_assoc, !endpoints_app, map_app, P, P'. auto.
Qed.

Lemma sim_ret A B (V : A -> B -> Prop) a b : V a b -> sim k off t1 t2 V (ret a) (ret b).
Proof. intros Hv w1 w2 Hw. exists [], []. rewrite !app_nil_r. simpl. auto. Qed.

Lemma sim_raise A B (V : A -> B -> Prop) ex : sim k off t1 t2 V (raise ex) (raise ex).
Proof. intros w1 w2 Hw. exists [], []. rewrite !app_nil_r. simpl. auto. Qed.

Lemma sim_weaken A B (V V' : A -> B -> Prop) c1 c2 :
  (forall a b, V a b -> V' a b) -> sim k off t1 t2 V c1 c2 -> sim k off t1 t2 V' c1 c2.
Proof.
  intros Hv Hc w1 w2 Hw. destruct (Hc w1 w2 Hw) as (evs1 & evs2 & L1 & L2 & P & H).
  exists evs1, evs2. repeat split; auto.
  destruct (snd (c1 w1)), (snd (c2 w2)); auto. destruct H. auto.
Qed.

Lemma sim_inert A B (c1 : M A) (c2 : M B) :
  inert t1 c1 -> inert t2 c2 -> sim k off t1 t2 (fun _ _ => True) c1 c2.
Proof.
  intros H1 H2 w1 w2 [Ha Hp].
  destruct (H1 w1) as (w1' & a & evs1 & E1 & L1 & P1 & Q1 & A1).
  destruct (H2 w2) as (w2' & b & evs2 & E2 & L2 & P2 & Q2 & A2).
  exists evs1, evs2. rewrite E1, E2. cbn [fst snd]. rewrite P1, P2.
  repeat split; auto; unfold related; congruence.
Qed.

Lemma sim_pos : sim k off t1 t2 (fun p1 p2 => p2 = scaled k off p1) (pos t1) (pos t2).
Proof.
  intros w1 w2 [Ha Hp]. exists [], []. rewrite !app_nil_r. simpl.
  repeat split; auto.
Qed.

Lemma heading_related u1 u2 : related k off u1 u2 -> heading_of u2 = heading_of u1.
Proof. intros [Ha _]. unfold heading_of. now rewrite Ha. Qed.

Lemma sim_heading : sim k off t1 t2 (fun h1 h2 => h2 = h1) (heading t1) (heading t2).
Proof.
  intros w1 w2 Hw. exists [], []. rewrite !app_nil_r. simpl.
  repeat split; auto; try apply Hw. now apply heading_related.
Qed.

Lemma sim_call op1 op2 :
  (forall u1 u2, related k off u1 u2 -> related k off (apply_op op1 u1) (apply_op op2 u2)) ->
  (forall u1 u2, related k off u1 u2 ->
     endpoints [TurtleDid t2 op2 (apply_op op2 u2)]
     = map (scaled k off) (endpoints [TurtleDid t1 op1 (apply_op op1 u1)])) ->
  sim k off t1 t2 (fun _ _ => True) (call t1 op1) (call t2 op2).
Proof.
  intros Hr He w1 w2 Hw.
  exists [TurtleDid t1 op1 (apply_op op1 (turtles w1 t1))],
         [TurtleDid t2 op2 (apply_op op2 (turtles w2 t2))].
  cbn [call fst snd log emit store turtles]. rewrite !Nat.eqb_refl.
  split; [reflexivity|]. split; [reflexivity|].
  split; [now apply He|]. split; [exact I | now apply Hr].
Qed.

Lemma sim_turn op :
  match op with Left _ | Right _ | Seth _ | Penup | Pendown => True | _ => False end ->
  sim k off t1 t2 (fun _ _ => True) (call t1 op) (call t2 op).
Proof.
  intro H. apply sim_call.
  - intros u1 u2 [Ha Hp]. destruct op; try contradiction; split; cbn; congruence.
  - intros u1 u2 _. destruct op; try contradiction; reflexivity.
Qed.

Lemma sim_goto p :
  sim k off t1 t2 (fun _ _ => True) (call t1 (Goto p)) (call t2 (Goto (scaled k off p))).
Proof.
  apply sim_call.
  - intros u1 u2 [Ha Hp]. split; cbn; auto.
  - reflexivity.
Qed.

Lemma scaled_move p x h :
  move (scaled k off p) (k * x) h = scaled k off (move p x h).
Proof. unfold move, scaled. cbn [fst snd]. f_equal; ring. Qed.

Lemma sim_forward x :
  sim k off t1 t2 (fun _ _ => True) (call t1 (Forward x)) (call t2 (Forward (k * x))).
Proof.
  apply sim_call.
  - intros u1 u2 [Ha Hp]. split; cbn; [assumption|].
    rewrite Hp. unfold heading_of. rewrite Ha. apply scaled_move.
  - intros u1 u2 [Ha Hp]. cbn. rewrite Hp. unfold heading_of. rewrite Ha.
    now rewrite scaled_move.
Qed.

End Sim.

Lemma inert_bind t A B (c : M A) (k : A -> M B) :
  inert t c -> (forall a, inert t (k a)) -> inert t (bind c k).
Proof.
  intros Hc Hk w. destruct (Hc w) as (w1 & a & evs & E & L & P & Q & R').
  destruct (Hk a w1) as (w2 & b & evs' & E' & L' & P' & Q' & R'').
  exists w2, b, (evs ++ evs'). rewrite (bind_run _ E), E', L', L, app_assoc, endpoints_app, P, P'.
  repeat split; congruence.
Qed.

Lemma inert_ret t A (a : A) : inert t (ret a).
Proof. intro w. exists w, a, []. rewrite app_nil_r. auto. Qed.

Lemma inert_query t A (f : world -> A) : inert t (fun w => (w, inr (f w))).
Proof. intro w. exists w, (f w), []. rewrite app_nil_r. auto. Qed.

Lemma inert_call t h op :
  match op with
  | Forward _ | Goto _ | Seth _ | Left _ | Right _ => False
  | _ => True
  end -> inert t (call h op).
Proof.
  intros H w. eexists _, tt, _. split; [reflexivity|].
  cbn [log emit store turtles]. split; [reflexivity|].
  split; [destruct op; try contradiction; reflexivity|].
  destruct (Nat.eqb_spec t h) as [->|Hne]; [|split; reflexivity].
  destruct op; try contradiction; split; reflexivity.
Qed.

Lemma inert_screen t op : inert t (screen op).
Proof.
  intro w. exists (fst (screen op w)), tt, [ScreenDid op].
  destruct op; cbn; auto.
Qed.

Lemma inert_warn t s : inert t (warn s).
Proof. intro w. eexists _, tt, _. split; [reflexivity|]. cbn. auto. Qed.

Lemma inert_when t b c : inert t c -> inert t (when b c).
Proof. destruct b; [auto | intros _; apply inert_ret]. Qed.

Ltac inert_step :=
  lazymatch goal with
  | |- inert _ (bind _ _) => apply inert_bind; [|intro]
  | |- inert _ (ret _) => apply inert_ret
  | |- inert _ (screen _) => apply inert_screen
  | |- inert _ (warn _) => apply inert_warn
  | |- inert _ (call _ _) => apply inert_call; exact I
  | |- inert _ (when _ _) => apply inert_when
  | |- inert ?t (pos ?h) => apply (inert_query t _ (fun w => t_pos (turtles w h)))
  | |- inert ?t (heading ?h) => apply (inert_query t _ (fun w => heading_of (turtles w h)))
  | |- inert ?t window_width => apply (inert_query t _ (fun w => fst (window w)))
  | |- inert ?t window_height => apply (inert_query t _ (fun w => snd (window w)))
  end.

Lemma inert_grow_canvas t h : inert t (grow_canvas h).
Proof.
  unfold grow_canvas. inert_step; [inert_step|]. inert_step; [inert_step|].
  destruct (Rge_dec _ _); [inert_step|].
  inert_step; [inert_step|]. destruct (Rge_dec _ _); inert_step.
Qed.

Lemma inert_colour o t var index :
  color_callable o = true ->
  inert t
    (if negb (truth (__static_color o)) && negb (__no_draw o) then
       match fg_color o with
       | ColorFunction f =>
           p <- pos t ;;
           h <- heading t ;;
           call t (Color (f (fst p) (snd p) h (__initial_depth o) (__extrem_cords o) var index))
       | StaticColor _ => raise TypeError
       end
     else ret tt).
Proof.
  unfold color_callable. intro Hc.
  destruct (truth (__static_color o)); cbn [negb andb orb] in *; [inert_step|].
  destruct (__no_draw o); cbn [negb andb orb] in *; [inert_step|].
  destruct (fg_color o); [discriminate|]. repeat inert_step.
Qed.

Section ScanSim.

Variable k : R.
Variable off : cord_type.
Variables o1 o2 : options.
Variables t1 t2 : nat.
Variables deeper1 deeper2 : option (string -> M returned).

Hypothesis same_vars : vars o2 = vars o1.
Hypothesis same_angle : angle o2 = angle o1.
Hypothesis scaled_step : step_length o2 = k * step_length o1.
Hypothesis callable1 : color_callable o1 = true.
Hypothesis callable2 : color_callable o2 = true.

Hypothesis deeper_sim :
  match deeper1, deeper2 with
  | None, None => True
  | Some recurse1, Some recurse2 =>
      forall replacement,
        sim k off t1 t2 (fun _ _ => True) (recurse1 replacement) (recurse2 replacement)
  | _, _ => False
  end.

Lemma sim_draw_forward var index b1 b2 :
  sim k off t1 t2 (fun _ _ => True)
    (draw_forward o1 t1 var index b1) (draw_forward o2 t2 var index b2).
Proof.
  unfold draw_forward.
  eapply sim_bind; [apply sim_inert; now apply inert_colour|intros _ _ _].
  eapply sim_bind; [rewrite scaled_step; apply sim_forward|intros _ _ _].
  eapply sim_bind.
  { apply sim_inert.
    - destruct (__extrem_cords o1); repeat inert_step.
    - destruct (__extrem_cords o2); repeat inert_step. }
  intros b1' b2' _.
  eapply sim_bind; [|intros _ _ _; now apply sim_ret].
  apply sim_inert.
  - destruct (compression_factor o1); [inert_step|].
    destruct (__no_draw o1); [inert_step | apply inert_grow_canvas].
  - destruct (compression_factor o2); [inert_step|].
    destruct (__no_draw o2); [inert_step | apply inert_grow_canvas].
Qed.

Lemma sim_scan cs : forall index st b1 b2,
  sim k off t1 t2 (fun r1 r2 => fst r2 = map (scaled_state k off) (fst r1))
    (scan o1 t1 deeper1 index st b1 cs)
    (scan o2 t2 deeper2 index (map (scaled_state k off) st) b2 cs).
Proof.
  induction cs as [|c cs IH]; intros index st b1 b2.
  - cbn [scan]. now apply sim_ret.
  - rewrite !scan_cons.
    destruct (c =? "[")%char.
    { eapply sim_bind; [apply sim_pos|intros p1 p2 ->].
      eapply sim_bind; [apply sim_heading|intros h1 h2 ->].
      apply (IH _ ((p1, h1) :: st)). }
    destruct (c =? "]")%char.
    { destruct st as [|[p h] below]; [apply sim_raise|]. cbn [map scaled_state fst snd].
      eapply sim_bind; [apply sim_turn; exact I|intros _ _ _].
      eapply sim_bind; [apply sim_goto|intros _ _ _].
      eapply sim_bind; [apply sim_turn; exact I|intros _ _ _].
      eapply sim_bind; [apply sim_inert; repeat inert_step|intros _ _ _].
      apply IH. }
    destruct (c =? "+")%char.
    { rewrite same_angle. eapply sim_bind; [apply sim_turn; exact I|intros _ _ _]. apply IH. }
    destruct (c =? "-")%char.
    { rewrite same_angle. eapply sim_bind; [apply sim_turn; exact I|intros _ _ _]. apply IH. }
    destruct (is_variable c); [|apply sim_raise].
    rewrite same_vars.
    destruct (find_variable (vars o1) 0 c) as [[[var replacement] draw]|]; [|apply sim_raise].
    eapply (sim_bind _ _ _ _ _ _ _ _ (fun _ _ => True)); [|intros b1' b2' _; apply IH].
    destruct deeper1 as [recurse1|], deeper2 as [recurse2|]; try contradiction.
    + eapply sim_bind; [apply deeper_sim|intros r1 r2 _].
      destruct (__extrem_cords o1), (__extrem_cords o2); apply sim_ret; exact I.
    + destruct draw; [apply sim_draw_forward | apply sim_ret; exact I].
Qed.

End ScanSim.

Lemma inert_finish t axiom o h s st b : inert t (finish axiom o h s st b).
Proof.
  unfold finish. inert_step; [repeat inert_step|].
  destruct (__extrem_cords o) as [[lo hi]|]; inert_step.
Qed.

Lemma inert_acquire_screen t o : inert t (acquire_screen o).
Proof.
  unfold acquire_screen. destruct (_screen o); [inert_step|].
  do 2 (inert_step; [inert_step|]). inert_step; [|inert_step].
  destruct (_screen_icon o); [|inert_step].
  inert_step; [apply (inert_query t _ (fun w => isfile w s))|]. repeat inert_step.
Qed.

Lemma inert_suppress t o h : inert t (suppress o h).
Proof. unfold suppress. repeat inert_step. Qed.

Lemma sim_nested k off d : forall axiom o1 o2 t1 t2,
  vars o2 = vars o1 -> angle o2 = angle o1 -> step_length o2 = k * step_length o1 ->
  color_callable o1 = true -> color_callable o2 = true ->
  _turtle o1 = Some t1 -> _turtle o2 = Some t2 ->
  orientless d o1 -> orientless d o2 ->
  sim k off t1 t2 (fun _ _ => True) (nested d axiom o1) (nested d axiom o2).
Proof.
  induction d as [|d IH]; intros axiom o1 o2 t1 t2 Hv Ha Hs Hc1 Hc2 Ht1 Ht2 Ho1 Ho2;
    rewrite !nested_unfold; unfold acquire_turtle; rewrite Ht1, Ht2.
  - eapply sim_bind; [apply sim_inert; apply inert_acquire_screen|intros s1 s2 _].
    change (bind (ret t1) ?f) with (f t1). change (bind (ret t2) ?f) with (f t2). cbv beta.
    rewrite (Ho1 0%nat), (Ho2 0%nat) by lia. unfold when at 1 2.
    eapply sim_bind; [now apply sim_ret|intros _ _ _].
    eapply sim_bind; [apply sim_inert; apply inert_suppress|intros _ _ _].
    eapply sim_bind; [|intros r1 r2 _; apply sim_inert; apply inert_finish].
    apply sim_scan; auto.
  - eapply sim_bind; [apply sim_inert; apply inert_acquire_screen|intros s1 s2 _].
    change (bind (ret t1) ?f) with (f t1). change (bind (ret t2) ?f) with (f t2). cbv beta.
    rewrite (Ho1 (S d)), (Ho2 (S d)) by lia. unfold when at 1 2.
    eapply sim_bind; [now apply sim_ret|intros _ _ _].
    eapply sim_bind; [apply sim_inert; apply inert_suppress|intros _ _ _].
    eapply sim_bind; [|intros r1 r2 _; apply sim_inert; apply inert_finish].
    apply sim_scan; auto.
    intro replacement. apply IH; auto.
    + intros d' Hd. apply (Ho1 d'). lia.
    + intros d' Hd. apply (Ho2 d'). lia.
Qed.

(** X10.  Scaling the step scales the drawing.  Take two calls of the
    recursion on the same axiom, variables, angle and depth, with the step
    lengths [s] and [k * s], on turtles that are turned the same way, the
    second standing where [p -> off + k * p] puts the first; neither call
    sets its turtle back to the centre (line 109) and the colour can be set.
    Then the forward movements of the second call reach the images of the
    points that those of the first reach, and both return, the turtles
    related as before, or both raise the same exception. *)
Theorem scaling_the_step_scales_the_drawing axiom d o1 o2 t1 t2 k off w1 w2 :
  vars o2 = vars o1 -> angle o2 = angle o1 -> step_length o2 = k * step_length o1 ->
  color_callable o1 = true -> color_callable o2 = true ->
  _turtle o1 = Some t1 -> _turtle o2 = Some t2 ->
  orientless d o1 -> orientless d o2 ->
  related k off (turtles w1 t1) (turtles w2 t2) ->
  let run1 := lindenmayer_system axiom (Z.of_nat d) false o1 w1 in
  let run2 := lindenmayer_system axiom (Z.of_nat d) false o2 w2 in
  exists evs1 evs2,
    log (fst run1) = log w1 ++ evs1
    /\ log (fst run2) = log w2 ++ evs2
    /\ endpoints evs2 = map (scaled k off) (endpoints evs1)
    /\ match snd run1, snd run2 with
       | inr _, inr _ => related k off (turtles (fst run1) t1) (turtles (fst run2) t2)
       | inl ex1, inl ex2 => ex1 = ex2
       | _, _ => False
       end.
Proof.
  intros Hv Ha Hs Hc1 Hc2 Ht1 Ht2 Ho1 Ho2 Hw. cbv zeta. unfold lindenmayer_system.
  replace (Z.of_nat d <? 0)%Z with false by (symmetry; apply Z.ltb_ge; lia).
  rewrite Nat2Z.id.
  destruct (sim_nested k off d axiom o1 o2 t1 t2 Hv Ha Hs Hc1 Hc2 Ht1 Ht2 Ho1 Ho2 w1 w2 Hw)
    as (evs1 & evs2 & L1 & L2 & P & H).
  exists evs1, evs2. repeat split; auto.
  destruct (snd (nested d axiom o1 w1)), (snd (nested d axiom o2 w2)); tauto.
Qed.

Lemma scaling_the_step_scales_the_drawing_witness :
  let run1 := lindenmayer_system "X" (Z.of_nat 3) false (plant 10) blank_world in
  let run2 := lindenmayer_system "X" (Z.of_nat 3) false (plant 25) blank_world in
  exists evs1 evs2,
    log (fst run1) = log blank_world ++ evs1
    /\ log (fst run2) = log blank_world ++ evs2
    /\ endpoints evs2 = map (scaled (5 / 2) (0, 0)) (endpoints evs1)
    /\ match snd run1, snd run2 with
       | inr _, inr _ =>
           related (5 / 2) (0, 0) (turtles (fst run1) 0%nat) (turtles (fst run2) 0%nat)
       | inl ex1, inl ex2 => ex1 = ex2
       | _, _ => False
       end.
Proof.
  apply (scaling_the_step_scales_the_drawing "X" 3 (plant 10) (plant 25) 0 0 (5 / 2) (0, 0)
           blank_world blank_world); try reflexivity.
  - cbn. lra.
  - intros d' _. reflexivity.
  - intros d' _. reflexivity.
  - split; [reflexivity|]. unfold scaled. cbn. f_equal; lra.
Defined.

(** X11.  A call of the recursion keeps to its turtle.  A call with
    [__initial_call = False] that is handed a turtle and a screen creates no
    turtle and prints nothing, whether it returns or raises: every turtle
    operation is one of the turtle it was handed, forward by [step_length],
    turns by [angle]; the only screen operations are the resizings of lines
    263-266, made only when the compression factor is a number and the
    call draws. *)
Theorem recursive_call_keeps_to_its_turtle axiom depth o t s w :
  _turtle o = Some t -> _screen o = Some s ->
  exists evs,
    log (fst (lindenmayer_system axiom depth false o w)) = log w ++ evs
    /\ Forall (loop_event o t) evs.
Proof.
  intros Ht Hs. unfold lindenmayer_system. destruct (depth <? 0)%Z.
  - exists []. unfold negative_depth, acquire_screen, acquire_turtle.
    rewrite Ht, Hs, app_nil_r. split; [reflexivity | constructor].
  - apply (emits_nested (Z.to_nat depth) axiom o t s Ht Hs w).
Qed.

Lemma recursive_call_keeps_to_its_turtle_witness :
  exists evs,
    log (fst (lindenmayer_system "X" 3 false (plant 10) blank_world)) = log blank_world ++ evs
    /\ Forall (loop_event (plant 10) 0) evs.
Proof.
  exact (recursive_call_keeps_to_its_turtle "X" 3 (plant 10) 0%nat TheScreen blank_world
           eq_refl eq_refl).
Defined.

Lemma recursion_draws_the_rewritten_string_witness :
  let flat := string_of_list_ascii (expansion (vars (plant 10)) 2 (chars "X")) in
  fst (lindenmayer_system "X" (Z.of_nat 2) false (plant 10) blank_world)
  = fst (lindenmayer_system flat 0 false (plant 10) blank_world)
  /\ match snd (lindenmayer_system "X" (Z.of_nat 2) false (plant 10) blank_world),
           snd (lindenmayer_system flat 0 false (plant 10) blank_world) with
     | inr r, inr r' => r = r'
     | inl ex, inl ex' => same_failure ex ex'
     | _, _ => False
     end.
Proof.
  apply (recursion_draws_the_rewritten_string "X" 2 (plant 10) blank_world); reflexivity.
Defined.

Lemma balanced_branch_is_undone_witness :
  exists w0 b0 w1 evs,
    scan measuring 0 None 1 [] zero_extremes (chars "+F[F]-") blank_world = (w0, inr ([], b0))
    /\ scan measuring 0 None 0 [] zero_extremes
         ("["%char :: chars "+F[F]-" ++ "]"%char :: chars "F") blank_world
       = scan measuring 0 None (S (S (0 + List.length (chars "+F[F]-")))) [] b0 (chars "F") w1
    /\ log w1 = log w0 ++ evs
    /\ ops_of evs = [Penup; Goto (t_pos (turtles blank_world 0%nat));
                     Seth (heading_of (turtles blank_world 0%nat))]
                    ++ (if __no_draw measuring then [] else [Pendown])
    /\ t_pos (turtles w1 0%nat) = t_pos (turtles blank_world 0%nat)
    /\ heading_of (turtles w1 0%nat) = heading_of (turtles blank_world 0%nat)
    /\ t_down (turtles w1 0%nat) = negb (__no_draw measuring).
Proof.
  assert (E : exists w0 b0,
             scan measuring 0 None 1 [] zero_extremes (chars "+F[F]-") blank_world
             = (w0, inr ([], b0))).
  { eexists _, _. run. reflexivity. }
  destruct E as (w0 & b0 & E).
  destruct (balanced_branch_is_undone measuring 0 None 0 [] zero_extremes (chars "+F[F]-")
              (chars "F") blank_world w0 b0 E) as (w1 & evs & H).
  exists w0, b0, w1, evs. split; [exact E | exact H].
Defined.

(** The call [lindenmayer_system("F+FF", {"F": "F"}, 0, 90)] in a window of
    960 by 810 returns. *)
Lemma leaning_run :
  exists w' r, lindenmayer_system "F+FF" 0 true leaning blank_world = (w', inr r).
Proof.
  eexists _, _.
  unfold lindenmayer_system. cbn [Z.ltb Z.compare Z.to_nat].
  rewrite top_level_valid.
  2:{ apply validate_accepts_iff. repeat split. cbn. lra. }
  step_with (TheScreen, 0%nat). cbn [fst snd]. unfold initialise.
  cbn [leaning defaults bg_color fg_color __initial_depth instant_draw initial_window_size
       compression_factor step_length invert Z.of_nat].
  do 3 step_with tt. step_with 1%nat. do 4 step_with tt.
  step_with tt. step_with tt. step_with tt.
  unfold auto_scale. step_with tt. step_with tt.
  rewrite ?bind_assoc.
  match goal with
  | |- bind (nested ?d ?a ?o) ?k ?w = _ =>
      assert (E : nested d a o w
                  = (after (nested d a o) w, inr (2%nat, TheScreen, (-20, 0), (0, 10))))
  end.
  { run. unfold heading_of, move. cbn [t_angle t_pos fst snd].
    rewrite !heading_north, !heading_west, !direction_north, !direction_west.
    cbn [fst snd]. settle_extremes.
    replace (0 + 10 * 0 + 10 * -1 + 10 * -1) with (-20) by lra.
    replace (0 + 10 * 1 + 10 * 0 + 10 * 0) with 10 by lra.
    replace (0 + 10 * 0) with 0 by lra.
    reflexivity. }
  rewrite (bind_run _ E). cbv beta.
  step_with 960%Z. step_with 810%Z.
  cbn [min_corner max_corner fst snd].
  change (step_length leaning) with 10. rewrite leaning_factor.
  step_with (- (216 / 5)).
  run. reflexivity.
Qed.

(** ** The closing bracket in every axiom *)

Lemma chars_app s1 s2 : chars (s1 ++ s2) = chars s1 ++ chars s2.
Proof.
  unfold chars. induction s1 as [|c s1 IH]; cbn; [reflexivity|]. now rewrite IH.
Qed.

Lemma chars_length s : List.length (chars s) = String.length s.
Proof. unfold chars. induction s as [|c s IH]; cbn; [reflexivity|]. now rewrite IH. Qed.

Lemma sober_returns A (c : M A) : returns c -> sober c.
Proof. intros H w w' E. destruct (H w) as (w1 & a & Ha). congruence. Qed.

Lemma sober_steady A (c : M A) : steady c -> sober c.
Proof. intro H. apply sober_returns, returns_steady, H. Qed.

Lemma sober_ret A (a : A) : sober (ret a).
Proof. intros w w' H. discriminate. Qed.

Lemma sober_raise A ex : ex <> ZeroDivisionError -> sober (@raise A ex).
Proof. intros H w w' E. inversion E. contradiction. Qed.

Lemma sober_bind A B (c : M A) (k : A -> M B) :
  sober c -> (forall a, sober (k a)) -> sober (bind c k).
Proof.
  intros Hc Hk w w' H. unfold bind in H.
  destruct (c w) as [w1 [ex|a]] eqn:E.
  - inversion H; subst. exact (Hc _ _ E).
  - exact (Hk _ _ _ H).
Qed.

Lemma sober_call t op : sober (call t op).
Proof. intros w w' H. discriminate. Qed.

Lemma sober_pos t : sober (pos t).
Proof. intros w w' H. discriminate. Qed.

Lemma sober_heading t : sober (heading t).
Proof. intros w w' H. discriminate. Qed.

Lemma sober_draw_forward o t var index b : sober (draw_forward o t var index b).
Proof.
  unfold draw_forward.
  apply sober_bind.
  { destruct (negb (truth (__static_color o)) && negb (__no_draw o)); [|apply sober_ret].
    destruct (fg_color o); [apply sober_raise; discriminate|].
    apply sober_bind; [apply sober_pos|intro].
    apply sober_bind; [apply sober_heading|intro]. apply sober_call. }
  intros []. apply sober_bind; [apply sober_call|intros []].
  apply sober_bind.
  { destruct (__extrem_cords o); [apply sober_ret|].
    apply sober_bind; [apply sober_pos|intro]. apply sober_ret. }
  intro. apply sober_bind; [|intro; apply sober_ret].
  destruct (compression_factor o); [apply sober_ret|].
  destruct (__no_draw o); [apply sober_ret|].
  intros w w' H. destruct (grow_canvas_spec t w) as (w1 & evs & E & _). congruence.
Qed.

Lemma sober_scan o t deeper :
  (forall recurse replacement, deeper = Some recurse -> sober (recurse replacement)) ->
  forall cs index st b, sober (scan o t deeper index st b cs).
Proof.
  intros Hdeep cs. induction cs as [|c cs IH]; intros index st b.
  - apply sober_ret.
  - rewrite scan_cons.
    destruct (c =? "[")%char.
    { apply sober_bind; [apply sober_pos|intro].
      apply sober_bind; [apply sober_heading|intro]. apply IH. }
    destruct (c =? "]")%char.
    { destruct st as [|[p h] below]; [apply sober_raise; discriminate|].
      do 3 (apply sober_bind; [apply sober_call|intro]).
      apply sober_bind; [destruct (negb (__no_draw o)); [apply sober_call|apply sober_ret]|intro].
      apply IH. }
    destruct (c =? "+")%char.
    { apply sober_bind; [apply sober_call|intro]. apply IH. }
    destruct (c =? "-")%char.
    { apply sober_bind; [apply sober_call|intro]. apply IH. }
    destruct (is_variable c); [|apply sober_raise; discriminate].
    destruct (find_variable (vars o) 0 c) as [[[var replacement] draw]|];
      [|apply sober_raise; discriminate].
    apply sober_bind; [|intro; apply IH].
    destruct deeper as [recurse|] eqn:Ed.
    + apply sober_bind; [now apply Hdeep|].
      intro r. destruct (__extrem_cords o); apply sober_ret.
    + destruct draw; [apply sober_draw_forward | apply sober_ret].
Qed.

Lemma sober_nested d : forall axiom o, sober (nested d axiom o).
Proof.
  induction d as [|d IH]; intros axiom o; rewrite nested_unfold;
    (apply sober_bind; [apply sober_steady, steady_acquire_screen|intro s]);
    (apply sober_bind; [apply sober_steady, steady_acquire_turtle|intro t]);
    (apply sober_bind; [apply sober_steady, steady_when, steady_orient|intro]);
    (apply sober_bind; [apply sober_steady, steady_suppress|intro]);
    (apply sober_bind; [|intro; apply sober_steady, steady_finish]);
    apply sober_scan; intros recurse replacement H; [discriminate|].
  injection H as <-. apply IH.
Qed.

Lemma sober_deeper d o t s recurse replacement :
  match d with
  | O => None
  | S d' => Some (fun replacement => nested d' replacement (recursive_options o t s))
  end = Some recurse ->
  sober (recurse replacement).
Proof. destruct d; [discriminate|]. intros [= <-]. apply sober_nested. Qed.

Lemma read_sober name v ex : read name v = inl ex -> ex <> ZeroDivisionError.
Proof. destruct v; intro H; inversion H. discriminate. Qed.

Lemma any_bad_replacement_sober vars items : forall w ex,
  any_bad_replacement vars items w = inl ex -> ex <> ZeroDivisionError.
Proof.
  induction items as [|[k i] items IH]; intros w ex H; cbn in H; [discriminate|].
  destruct (select_replacement i) as [ex'|repl] eqn:Es.
  { injection H as ->. destruct i as [[|]|]; inversion Es. discriminate. }
  destruct (negb (truthy k)); [discriminate|].
  destruct (negb (truthy repl)); [discriminate|].
  destruct (any_foreign_char vars (chars repl) (e3 w)) as [e3' bad].
  destruct bad; [discriminate|]. exact (IH _ _ H).
Qed.

Lemma validate_sober axiom vars step factor :
  validate axiom vars step factor <> inl ZeroDivisionError.
Proof.
  unfold validate.
  destruct (any_invalid_name (keys vars) None) as [e bad].
  destruct bad.
  { destruct (read "e" e) eqn:Er; [|discriminate].
    intro H. injection H as ->. now apply read_sober in Er. }
  destruct (any_foreign_char vars (chars axiom) e) as [e' bad].
  destruct bad.
  { destruct (read "e" e') eqn:Er; [|discriminate].
    intro H. injection H as ->. now apply read_sober in Er. }
  destruct (any_bad_replacement vars vars (mkWalrus None None None)) as [ex|[w bad]] eqn:Eb.
  { intro H. injection H as ->. now apply any_bad_replacement_sober in Eb. }
  destruct bad.
  - destruct (read "e3" (e3 w)) eqn:E3;
      [intro H; injection H as ->; now apply read_sober in E3|].
    destruct (read "e2" (e2 w)) eqn:E2;
      [intro H; injection H as ->; now apply read_sober in E2|].
    destruct (read "e1" (e1 w)) eqn:E1;
      [intro H; injection H as ->; now apply read_sober in E1|]. discriminate.
  - destruct (nonzero step && compression_nonzero factor); discriminate.
Qed.

Lemma trips_bind_same ex A B B' (c : M A) (k : A -> M B) (k' : A -> M B') :
  sober c -> (forall a, trips ex (k a) (k' a)) -> trips ex (bind c k) (bind c k').
Proof.
  intros Hc Hk w w' x H Hx. unfold bind in H |- *.
  destruct (c w) as [w1 [ex1|a]] eqn:E.
  - injection H as <- <-. destruct Hx as [Hx|[a Hx]]; [|discriminate].
    injection Hx as ->. destruct (Hc _ _ E).
  - exact (Hk a _ _ _ H Hx).
Qed.

Lemma trips_bind_left ex A A' B B' (c : M A) (c' : M A') (k : A -> M B) (k' : A' -> M B') :
  trips ex c c' -> trips ex (bind c k) (bind c' k').
Proof.
  intros Hc w w' x H Hx. unfold bind in H.
  destruct (c w) as [w1 [ex1|a]] eqn:E.
  - injection H as <- <-. destruct Hx as [Hx|[a Hx]]; [|discriminate].
    injection Hx as ->.
    destruct (Hc _ _ _ E (or_introl eq_refl)) as [w'' E'].
    exists w''. apply bind_raise, E'.
  - destruct (Hc _ _ _ E (or_intror (ex_intro _ a eq_refl))) as [w'' E'].
    exists w''. apply bind_raise, E'.
Qed.

(** The loop on a string that goes on with a closing bracket after a part
    that leaves nothing on the stack. *)
Lemma trips_scan o t deeper b pre rest :
  (forall recurse replacement, deeper = Some recurse -> sober (recurse replacement)) ->
  unclosed 0 pre = 0%nat ->
  trips (ValueError (UnmatchedBracket (List.length pre)))
    (scan o t deeper 0 [] b pre)
    (scan o t deeper 0 [] b (pre ++ "]"%char :: rest)).
Proof.
  intros Hdeep Hu w w' x H Hx.
  destruct Hx as [->|[[st b'] ->]]; [destruct (sober_scan o t deeper Hdeep _ _ _ _ _ _ H)|].
  exists w'.
  rewrite scan_app, (bind_run _ H). cbn [fst snd].
  apply scan_stack in H as [_ Hl]. cbn [List.length] in Hl. rewrite Hu in Hl.
  destruct st; [|discriminate]. reflexivity.
Qed.

Lemma trips_loop d pre rest o t s b :
  unclosed 0 (chars pre) = 0%nat ->
  trips (ValueError (UnmatchedBracket (String.length pre)))
    (scan o t
       match d with
       | O => None
       | S d' => Some (fun replacement => nested d' replacement (recursive_options o t s))
       end 0 [] b (chars pre))
    (scan o t
       match d with
       | O => None
       | S d' => Some (fun replacement => nested d' replacement (recursive_options o t s))
       end 0 [] b (chars (pre ++ "]" ++ rest))).
Proof.
  intro Hu.
  rewrite chars_app. cbn [append chars list_ascii_of_string]. rewrite <- chars_length.
  apply trips_scan; [|exact Hu].
  intros recurse replacement. apply sober_deeper.
Qed.

Lemma trips_nested d pre rest o :
  unclosed 0 (chars pre) = 0%nat ->
  trips (ValueError (UnmatchedBracket (String.length pre)))
    (nested d pre o) (nested d (pre ++ "]" ++ rest) o).
Proof.
  intro Hu. rewrite !nested_unfold.
  apply trips_bind_same; [apply sober_steady, steady_acquire_screen|intro].
  apply trips_bind_same; [apply sober_steady, steady_acquire_turtle|intro].
  apply trips_bind_same; [apply sober_steady, steady_when, steady_orient|intro].
  apply trips_bind_same; [apply sober_steady, steady_suppress|intro].
  apply trips_bind_left. now apply trips_loop.
Qed.

Lemma trips_draw d pre rest o s t text :
  unclosed 0 (chars pre) = 0%nat ->
  trips (ValueError (UnmatchedBracket (String.length pre)))
    (draw d pre o s t text) (draw d (pre ++ "]" ++ rest) o s t text).
Proof.
  intro Hu. unfold draw.
  apply trips_bind_same; [apply sober_steady, steady_suppress|intro].
  apply trips_bind_left. now apply trips_loop.
Qed.

Lemma initialise_factor d axiom axiom' o s t f :
  compression_factor o = Factor f ->
  initialise d axiom o s t = initialise d axiom' o s t.
Proof. intro Hcf. unfold initialise. rewrite Hcf. reflexivity. Qed.

Lemma trips_initialise d pre rest o s t :
  compression_factor o = Auto ->
  unclosed 0 (chars pre) = 0%nat ->
  trips (ValueError (UnmatchedBracket (String.length pre)))
    (initialise d pre o s t) (initialise d (pre ++ "]" ++ rest) o s t).
Proof.
  intros Hcf Hu. unfold initialise. rewrite Hcf.
  do 3 (apply trips_bind_same; [apply sober_steady; steady_all|intro]).
  apply trips_bind_same; [apply sober_steady; steady_all|intro].
  do 3 (apply trips_bind_same; [apply sober_steady; steady_all|intro]).
  apply trips_bind_same; [apply sober_steady; destruct (fg_color o); steady_all|intro].
  apply trips_bind_same; [apply sober_steady; destruct (instant_draw o); steady_all|intro].
  apply trips_bind_same;
    [apply sober_steady; destruct (initial_window_size o) as [[|]|]; steady_all|intro].
  do 2 apply trips_bind_left. unfold auto_scale.
  do 2 (apply trips_bind_same; [apply sober_steady; steady_all|intro]).
  apply trips_bind_left. now apply trips_nested.
Qed.

Lemma trips_top_level d pre rest o :
  validate (pre ++ "]" ++ rest) (vars o) (step_length o) (compression_factor o) = inr tt ->
  unclosed 0 (chars pre) = 0%nat ->
  trips (ValueError (UnmatchedBracket (String.length pre)))
    (top_level d pre o) (top_level d (pre ++ "]" ++ rest) o).
Proof.
  intros Hv Hu. unfold top_level.
  apply trips_bind_same; [apply sober_steady, steady_prepare|intros [s t]]. cbn [fst snd].
  intros w w' x H Hx.
  destruct (validate pre (vars o) (step_length o) (compression_factor o)) as [ex|[]] eqn:Ev.
  { exfalso. change (bind (lift (inl ex)) ?k w) with (@pair world (exception + returned) w (inl ex)) in H.
    injection H as <- <-. destruct Hx as [Hx|[a Hx]]; [|discriminate].
    injection Hx as ->. exact (validate_sober _ _ _ _ Ev). }
  change (bind (lift (inr tt)) ?k w) with (k tt w) in H. cbv beta in H.
  rewrite Hv. change (bind (lift (inr tt)) ?k w) with (k tt w). cbv beta.
  revert w w' x H Hx.
  change (trips (ValueError (UnmatchedBracket (String.length pre)))
            (i <- initialise d pre o s t ;; draw d pre (snd i) s t (fst i))
            (i <- initialise d (pre ++ "]" ++ rest) o s t ;;
             draw d (pre ++ "]" ++ rest) (snd i) s t (fst i))).
  destruct (compression_factor o) as [|f] eqn:Hcf.
  - apply trips_bind_left. now apply trips_initialise.
  - rewrite (initialise_factor d (pre ++ "]" ++ rest) pre o s t f Hcf).
    apply trips_bind_same; [apply sober_steady; now apply (steady_initialise_factor d pre o s t f)|].
    intros [text o']. now apply trips_draw.
Qed.

(** Every call. *)
Lemma trips_call pre rest depth initial_call o :
  (0 <= depth)%Z ->
  (initial_call = true ->
   validate (pre ++ "]" ++ rest) (vars o) (step_length o) (compression_factor o) = inr tt) ->
  unclosed 0 (chars pre) = 0%nat ->
  trips (ValueError (UnmatchedBracket (String.length pre)))
    (lindenmayer_system pre depth initial_call o)
    (lindenmayer_system (pre ++ "]" ++ rest) depth initial_call o).
Proof.
  intros Hd Hv Hu. unfold lindenmayer_system. apply Z.ltb_ge in Hd. rewrite Hd.
  destruct initial_call; [apply trips_top_level; auto | now apply trips_nested].
Qed.

(** C5.  The closing bracket, in every axiom.  Take the axiom of a call as
    [pre ++ "]" ++ rest] and let the loop of the call (lines 226-282, from
    index 0 with an empty stack) run through [pre].  If that leaves the stack
    empty, the loop raises the [ValueError] of line 231 with the index of
    the bracket, which is the length of [pre].  If it leaves a state on top,
    the bracket takes it off: the pen is lifted, the turtle is moved to the
    stored position and turned to the stored heading, the pen is put down
    unless nothing is drawn, and the loop goes on behind the bracket with
    the rest of the stack.  The state taken off is the one that the matching
    opening bracket stored: behind ["[" ++ mid ++ "]"], where [mid] by itself
    leaves nothing on the stack, the turtle is where and how it was at the
    opening bracket.  So every call, initial or of the recursion, whose
    axiom is [pre ++ "]" ++ rest] raises the error with index [len(pre)]
    whenever [pre] closes every bracket it opens and the same call on [pre]
    alone gets through its loop, that is, returns or fails only in the
    division of lines 172-173 behind the dry run (for an initial call, the
    whole axiom has to pass the validation). *)
Theorem closing_bracket_pops_or_fails :
  (forall o t deeper pre rest w w1 b1,
     scan o t deeper 0 [] zero_extremes pre w = (w1, inr ([], b1)) ->
     scan o t deeper 0 [] zero_extremes (pre ++ "]"%char :: rest) w
     = (w1, inl (ValueError (UnmatchedBracket (List.length pre)))))
  /\ (forall o t deeper pre rest w w1 stored_pos stored_head below b1,
        scan o t deeper 0 [] zero_extremes pre w
        = (w1, inr ((stored_pos, stored_head) :: below, b1)) ->
        exists w2 evs,
          scan o t deeper 0 [] zero_extremes (pre ++ "]"%char :: rest) w
          = scan o t deeper (S (List.length pre)) below b1 rest w2
          /\ log w2 = log w1 ++ evs
          /\ ops_of evs = [Penup; Goto stored_pos; Seth stored_head]
                          ++ (if __no_draw o then [] else [Pendown])
          /\ t_pos (turtles w2 t) = stored_pos
          /\ heading_of (turtles w2 t) = mod360 stored_head
          /\ t_down (turtles w2 t) = negb (__no_draw o))
  /\ (forall o t deeper pre mid rest w w1 st b1 w2 b2,
        scan o t deeper 0 [] zero_extremes pre w = (w1, inr (st, b1)) ->
        scan o t deeper (S (List.length pre)) [] b1 mid w1 = (w2, inr ([], b2)) ->
        exists w3 evs,
          scan o t deeper 0 [] zero_extremes (pre ++ "["%char :: mid ++ "]"%char :: rest) w
          = scan o t deeper (S (S (List.length pre + List.length mid))) st b2 rest w3
          /\ log w3 = log w2 ++ evs
          /\ ops_of evs = [Penup; Goto (t_pos (turtles w1 t)); Seth (heading_of (turtles w1 t))]
                          ++ (if __no_draw o then [] else [Pendown])
          /\ t_pos (turtles w3 t) = t_pos (turtles w1 t)
          /\ heading_of (turtles w3 t) = heading_of (turtles w1 t)
          /\ t_down (turtles w3 t) = negb (__no_draw o))
  /\ (forall pre rest depth initial_call o w w' x,
        (0 <= depth)%Z ->
        (initial_call = true ->
         validate (pre ++ "]" ++ rest) (vars o) (step_length o) (compression_factor o)
         = inr tt) ->
        unclosed 0 (chars pre) = 0%nat ->
        lindenmayer_system pre depth initial_call o w = (w', x) ->
        (x = inl ZeroDivisionError \/ exists r, x = inr r) ->
        exists w'',
          lindenmayer_system (pre ++ "]" ++ rest) depth initial_call o w
          = (w'', inl (ValueError (UnmatchedBracket (String.length pre)))))
  /\ (forall o w,
        validate "F]" (vars o) (step_length o) (compression_factor o) = inr tt ->
        exists w',
          lindenmayer_system "F]" 0 true o w = (w', inl (ValueError (UnmatchedBracket 1)))).
Proof.
  split; [|split; [|split; [|split]]].
  - intros o t deeper pre rest w w1 b1 H.
    rewrite scan_app, (bind_run _ H). reflexivity.
  - intros o t deeper pre rest w w1 stored_pos stored_head below b1 H.
    rewrite scan_app, (bind_run _ H). cbn [fst snd Nat.add].
    apply scan_close.
  - intros o t deeper pre mid rest w w1 st b1 w2 b2 H1 H2.
    apply (scan_frame o t deeper ((t_pos (turtles w1 t), heading_of (turtles w1 t)) :: st))
      in H2.
    cbn [app] in H2.
    destruct (scan_close o t deeper (S (List.length pre) + List.length mid)
                (t_pos (turtles w1 t)) (heading_of (turtles w1 t)) st b2 rest w2)
      as (w3 & evs & E & L & O & P & Hh & D).
    exists w3, evs. split.
    { rewrite scan_app, (bind_run _ H1). cbn [fst snd Nat.add].
      rewrite scan_cons. cbn [Ascii.eqb Bool.eqb].
      change ((p <- pos t;; h <- heading t;;
               scan o t deeper (S (List.length pre)) ((p, h) :: st) b1
                 (mid ++ "]"%char :: rest)) w1)
        with (scan o t deeper (S (List.length pre))
                ((t_pos (turtles w1 t), heading_of (turtles w1 t)) :: st) b1
                (mid ++ "]"%char :: rest) w1).
      rewrite scan_app, (bind_run _ H2). cbn [fst snd]. exact E. }
    rewrite heading_of_normal in Hh. auto.
  - intros pre rest depth initial_call o w w' x Hd Hv Hu H Hx.
    exact (trips_call pre rest depth initial_call o Hd Hv Hu w w' x H Hx).
  - intros o w Hv. unfold lindenmayer_system. cbn [Z.ltb Z.compare Z.to_nat].
    rewrite (top_level_valid _ _ _ _ Hv). revert w.
    change (raises (ValueError (UnmatchedBracket 1))
              (st <- prepare o ;;
               i <- initialise 0 "F]" o (fst st) (snd st) ;;
               draw 0 "F]" (snd i) (fst st) (snd st) (fst i))).
    apply validate_accepts_iff in Hv as (Hg & _ & _).
    unfold grammar_ok in Hg. apply andb_prop in Hg as [Hg _]. apply andb_prop in Hg as [_ Hg].
    unfold axiom_ok in Hg. cbn [chars list_ascii_of_string forallb] in Hg.
    apply andb_prop in Hg as [Hg _]. unfold legal_char in Hg. cbn [is_control] in Hg.
    rewrite orb_false_r in Hg.
    destruct (find_variable_declared (vars o) 0 "F" Hg) as [[[var repl] dr] Hf].
    apply raises_after; [apply steady_prepare|]. intros [s t]. cbn [fst snd].
    destruct (compression_factor o) as [|f] eqn:Hcf.
    + apply raises_bind. unfold initialise.
      do 3 (apply raises_after; [steady_all|intros []]).
      apply raises_after; [steady_all|intros text].
      do 3 (apply raises_after; [steady_all|intros []]).
      apply raises_after; [destruct (fg_color o); steady_all|intros []].
      apply raises_after; [destruct (instant_draw o); steady_all|intros []].
      apply raises_after; [destruct (initial_window_size o) as [[|]|]; steady_all|intros []].
      rewrite Hcf. apply raises_bind, raises_bind. unfold auto_scale.
      do 2 (apply raises_after; [steady_all|intros []]).
      apply raises_bind. rewrite nested_unfold.
      apply raises_after; [apply steady_acquire_screen|intros s'].
      apply raises_after; [apply steady_acquire_turtle|intros t'].
      apply raises_after; [apply steady_when, steady_orient|intros []].
      apply raises_after; [apply steady_suppress|intros []].
      apply raises_bind. intro w.
      eapply scan_variable_then_close; [reflexivity | reflexivity | exact Hf].
    + intro w.
      destruct (steady_initialise_factor 0 "F]" o s t f Hcf w) as (w1 & [text o'] & evs & E & _).
      rewrite (bind_run _ E). cbn [fst snd].
      apply initialise_facts in E as ((step & id & ext & -> & _) & _).
      revert w1. unfold draw.
      apply raises_after; [apply steady_suppress|intros []].
      apply raises_bind. intro w1.
      eapply scan_variable_then_close;
        [apply color_callable_with_locals | reflexivity | exact Hf].
Qed.

Lemma closing_bracket_pops_or_fails_witness :
  (exists w1 b1,
     scan measuring 0 None 0 [] zero_extremes (chars "F") blank_world = (w1, inr ([], b1))
     /\ scan measuring 0 None 0 [] zero_extremes (chars "F" ++ "]"%char :: chars "F")
          blank_world
        = (w1, inl (ValueError (UnmatchedBracket 1))))
  /\ (exists w1 b1 w2 evs,
        scan measuring 0 None 0 [] zero_extremes (chars "[+F") blank_world
        = (w1, inr ([((0, 0), heading_of (turtles blank_world 0%nat))], b1))
        /\ scan measuring 0 None 0 [] zero_extremes (chars "[+F" ++ "]"%char :: chars "F")
             blank_world
           = scan measuring 0 None 4 [] b1 (chars "F") w2
        /\ log w2 = log w1 ++ evs
        /\ ops_of evs = [Penup; Goto (0, 0); Seth (heading_of (turtles blank_world 0%nat))]
        /\ t_pos (turtles w2 0%nat) = (0, 0)
        /\ heading_of (turtles w2 0%nat) = heading_of (turtles blank_world 0%nat)
        /\ t_down (turtles w2 0%nat) = false)
  /\ (exists w1 b1 w2 b2 w3 evs,
        scan measuring 0 None 0 [] zero_extremes (chars "F") blank_world = (w1, inr ([], b1))
        /\ scan measuring 0 None 2 [] b1 (chars "+F") w1 = (w2, inr ([], b2))
        /\ scan measuring 0 None 0 [] zero_extremes
             (chars "F" ++ "["%char :: chars "+F" ++ "]"%char :: chars "-F") blank_world
           = scan measuring 0 None 5 [] b2 (chars "-F") w3
        /\ log w3 = log w2 ++ evs
        /\ ops_of evs = [Penup; Goto (t_pos (turtles w1 0%nat));
                         Seth (heading_of (turtles w1 0%nat))]
        /\ t_pos (turtles w3 0%nat) = t_pos (turtles w1 0%nat)
        /\ heading_of (turtles w3 0%nat) = heading_of (turtles w1 0%nat)
        /\ t_down (turtles w3 0%nat) = false)
  /\ (exists w' r w'',
        lindenmayer_system "F+FF" 0 true leaning blank_world = (w', inr r)
        /\ lindenmayer_system ("F+FF" ++ "]" ++ "+F") 0 true leaning blank_world
           = (w'', inl (ValueError (UnmatchedBracket 4))))
  /\ (exists w' w'',
        lindenmayer_system "+[-]" 3 true (defaults [("F", Plain "FF")] 90) blank_world
        = (w', inl ZeroDivisionError)
        /\ lindenmayer_system ("+[-]" ++ "]" ++ "F") 3 true (defaults [("F", Plain "FF")] 90)
             blank_world
           = (w'', inl (ValueError (UnmatchedBracket 4))))
  /\ (exists w',
        lindenmayer_system "F]" 0 true (defaults [("F", Plain "F")] 90) blank_world
        = (w', inl (ValueError (UnmatchedBracket 1)))).
Proof.
  destruct closing_bracket_pops_or_fails as (P1 & P2 & P3 & P4 & P5).
  split; [|split; [|split; [|split; [|split]]]].
  - assert (E : exists w1 b1,
               scan measuring 0 None 0 [] zero_extremes (chars "F") blank_world
               = (w1, inr ([], b1))) by (eexists _, _; run; reflexivity).
    destruct E as (w1 & b1 & E). exists w1, b1. split; [exact E|].
    exact (P1 measuring 0%nat None (chars "F") (chars "F") blank_world w1 b1 E).
  - assert (E : exists w1 b1,
               scan measuring 0 None 0 [] zero_extremes (chars "[+F") blank_world
               = (w1, inr ([((0, 0), heading_of (turtles blank_world 0%nat))], b1)))
      by (eexists _, _; run; reflexivity).
    destruct E as (w1 & b1 & E).
    destruct (P2 measuring 0%nat None (chars "[+F") (chars "F") blank_world w1 _ _ _ b1 E)
      as (w2 & evs & H).
    rewrite heading_of_normal in H.
    exists w1, b1, w2, evs. split; [exact E | exact H].
  - assert (E1 : exists w1 b1,
               scan measuring 0 None 0 [] zero_extremes (chars "F") blank_world
               = (w1, inr ([], b1))) by (eexists _, _; run; reflexivity).
    destruct E1 as (w1 & b1 & E1).
    assert (E2 : exists w2 b2,
               scan measuring 0 None 2 [] b1 (chars "+F") w1 = (w2, inr ([], b2))).
    { run in E1. injection E1 as <- <-. eexists _, _. run. reflexivity. }
    destruct E2 as (w2 & b2 & E2).
    destruct (P3 measuring 0%nat None (chars "F") (chars "+F") (chars "-F") blank_world
                w1 [] b1 w2 b2 E1 E2) as (w3 & evs & H).
    exists w1, b1, w2, b2, w3, evs. split; [exact E1|]. split; [exact E2 | exact H].
  - destruct leaning_run as (w' & r & E).
    destruct (P4 "F+FF" "+F" 0%Z true leaning blank_world w' (inr r)) as [w'' H];
      [lia | | reflexivity | exact E | right; exists r; reflexivity |].
    + intros _. apply validate_accepts_iff. split; [reflexivity|].
      split; [simpl; lra | reflexivity].
    + exists w', r, w''. split; [exact E | exact H].
  - destruct turning_run as (w' & E).
    destruct (P4 "+[-]" "F" 3%Z true (defaults [("F", Plain "FF")] 90) blank_world w'
                (inl ZeroDivisionError)) as [w'' H];
      [lia | | reflexivity | exact E | left; reflexivity |].
    + intros _. apply validate_accepts_iff. split; [reflexivity|].
      split; [simpl; lra | reflexivity].
    + exists w', w''. split; [exact E | exact H].
  - apply P5. apply validate_accepts_iff. split; [reflexivity|].
    split; [simpl; lra | reflexivity].
Defined.

(** ** One stack for each call: the recursive call *)

Lemma variable_not_control c : is_variable c = true -> is_control c = false.
Proof.
  intro Hv.
  destruct (role_of c) as [E|E|E|E|Hc _|Hc _]; try exact Hc; subst c; discriminate.
Qed.

Lemma draw_returns d axiom o s t text :
  color_callable o = true ->
  safe_grammar (vars o) = true ->
  safe_string (vars o) (chars axiom) = true ->
  returns (draw d axiom o s t text).
Proof.
  intros Hcc Hg Hs. unfold draw.
  unfold safe_string in Hs. apply andb_prop in Hs as [Hk Hb].
  apply returns_after; [apply steady_suppress|intros []].
  apply returns_bind.
  - apply scan_returns; try assumption.
    intros recurse Hr replacement Hsafe. destruct d as [|d]; [discriminate|].
    injection Hr as <-. apply nested_returns; assumption.
  - intros [st b]. cbn [fst snd].
    do 3 (apply returns_after; [steady_all|intro]).
    apply returns_steady, steady_finish.
Qed.

Lemma top_level_returns d axiom o f :
  validate axiom (vars o) (step_length o) (compression_factor o) = inr tt ->
  compression_factor o = Factor f ->
  safe_grammar (vars o) = true ->
  safe_string (vars o) (chars axiom) = true ->
  returns (top_level d axiom o).
Proof.
  intros Hv Hcf Hg Hs w. rewrite (top_level_valid _ _ _ _ Hv). revert w.
  change (returns (st <- prepare o ;;
                   i <- initialise d axiom o (fst st) (snd st) ;;
                   draw d axiom (snd i) (fst st) (snd st) (fst i))).
  apply returns_after; [apply steady_prepare|intros [s t]]. cbn [fst snd].
  intro w.
  destruct (steady_initialise_factor d axiom o s t f Hcf w) as (w1 & [text o'] & evs & E & _).
  rewrite (bind_run _ E). cbn [fst snd].
  apply initialise_facts in E as ((step & id & ext & -> & _) & _).
  apply draw_returns; [apply color_callable_with_locals | exact Hg | exact Hs].
Qed.



(** ** The auto-scaled drawing *)

Lemma rests_refl t w : rests t w w.
Proof. repeat split; auto. exists []. now rewrite app_nil_r. Qed.

Lemma rests_trans t w1 w2 w3 : rests t w1 w2 -> rests t w2 w3 -> rests t w1 w3.
Proof.
  intros ((e1 & L1 & E1) & P1 & A1 & N1) ((e2 & L2 & E2) & P2 & A2 & N2).
  repeat split; try congruence; [|lia].
  exists (e1 ++ e2). rewrite L2, L1, app_assoc, endpoints_app, E1, E2. auto.
Qed.

Lemma calm_bind t A B (c : M A) (k : A -> M B) :
  calm t c -> (forall a, calm t (k a)) -> calm t (bind c k).
Proof.
  intros Hc Hk w Hw. destruct (Hc w Hw) as (w1 & a & E & R1).
  assert (Hw1 : (t < next_turtle w1)%nat) by (destruct R1 as (_ & _ & _ & N); lia).
  destruct (Hk a w1 Hw1) as (w2 & b & E2 & R2).
  exists w2, b. rewrite (bind_run _ E). split; [exact E2|]. eapply rests_trans; eassumption.
Qed.

Lemma calm_ret t A (a : A) : calm t (ret a).
Proof. intros w _. exists w, a. split; [reflexivity|apply rests_refl]. Qed.

Lemma calm_query t A (f : world -> A) : calm t (fun w => (w, inr (f w))).
Proof. intros w _. exists w, (f w). split; [reflexivity|apply rests_refl]. Qed.

Lemma calm_call t h op :
  match op with
  | Forward _ | Goto _ | Seth _ | Left _ | Right _ => False
  | _ => True
  end -> calm t (call h op).
Proof.
  intros Hop w _. eexists _, tt. split; [reflexivity|]. unfold rests. walk.
  split; [exists [TurtleDid h op (apply_op op (turtles w h))]; split; [reflexivity|]|].
  - destruct op; try reflexivity; destruct Hop.
  - destruct (Nat.eqb_spec t h) as [->|_]; [|auto].
    destruct op; try destruct Hop; cbn; auto.
Qed.

Lemma calm_screen t op : calm t (screen op).
Proof.
  intros w _. eexists _, tt. split; [reflexivity|]. unfold rests.
  split; [exists [ScreenDid op]; split; [|reflexivity]|]; destruct op; walk; auto.
Qed.

Lemma calm_print t s : calm t (print s).
Proof.
  intros w _. eexists _, tt. split; [reflexivity|]. unfold rests. walk.
  split; [exists [Printed s]; auto|auto].
Qed.

Lemma calm_warn t s : calm t (warn s).
Proof.
  intros w _. eexists _, tt. split; [reflexivity|]. unfold rests. walk.
  split; [exists [Warned s]; auto|auto].
Qed.

Lemma calm_when t b c : calm t c -> calm t (when b c).
Proof. destruct b; [auto | intros _; apply calm_ret]. Qed.

Lemma calm_Turtle t : calm t Turtle.
Proof.
  intros w Hw. eexists _, _. split; [reflexivity|]. unfold rests. walk.
  split; [exists [TurtleNew (next_turtle w)]; auto|].
  destruct (Nat.eqb_spec t (next_turtle w)); [lia|auto].
Qed.

Ltac calm_step :=
  lazymatch goal with
  | |- calm _ (bind _ _) => apply calm_bind; [|intro]
  | |- calm _ (ret _) => apply calm_ret
  | |- calm _ (screen _) => apply calm_screen
  | |- calm _ (print _) => apply calm_print
  | |- calm _ (warn _) => apply calm_warn
  | |- calm _ Turtle => apply calm_Turtle
  | |- calm _ (call _ _) => apply calm_call; exact I
  | |- calm _ (when _ _) => apply calm_when
  | |- calm ?t window_width => apply (calm_query t _ (fun w => fst (window w)))
  | |- calm ?t window_height => apply (calm_query t _ (fun w => snd (window w)))
  | |- calm ?t (os_path_isfile ?p) => apply (calm_query t _ (fun w => isfile w p))
  end.

Lemma calm_inv t A B (c : M A) (k : A -> M B) w w' r :
  calm t c -> (t < next_turtle w)%nat -> bind c k w = (w', r) ->
  exists w1 a, rests t w w1 /\ (t < next_turtle w1)%nat /\ k a w1 = (w', r).
Proof.
  intros Hc Hw H. destruct (Hc w Hw) as (w1 & a & E & R1).
  rewrite (bind_run _ E) in H. exists w1, a. split; [exact R1|]. split; [|exact H].
  destruct R1 as (_ & _ & _ & N). lia.
Qed.

Lemma calm_acquire_screen t o : calm t (acquire_screen o).
Proof.
  unfold acquire_screen. destruct (_screen o); [calm_step|].
  destruct (_screen_icon o); repeat calm_step.
Qed.

Lemma calm_suppress t o h : calm t (suppress o h).
Proof. unfold suppress. repeat calm_step. Qed.

Lemma calm_finish t axiom o h s st b : calm t (finish axiom o h s st b).
Proof.
  unfold finish. apply calm_bind; [repeat calm_step|intros []].
  destruct (__extrem_cords o) as [[lo hi]|]; calm_step.
Qed.

(** *** What the measuring pass leaves alone *)

Lemma aside_bind t A B (c : M A) (k : A -> M B) :
  aside t c -> (forall a, aside t (k a)) -> aside t (bind c k).
Proof.
  intros Hc Hk w Hw. destruct (Hc w Hw) as [T N]. rewrite fst_bind.
  destruct (c w) as [w1 [ex|a]]; cbn [fst] in *; [auto|].
  destruct (Hk a w1) as [T' N']; [lia|]. split; [congruence|lia].
Qed.

Lemma aside_ret t A (a : A) : aside t (ret a).
Proof. intros w _. cbn. auto. Qed.

Lemma aside_raise t A ex : aside t (raise ex : M A).
Proof. intros w _. cbn. auto. Qed.

Lemma aside_lift t A (r : exception + A) : aside t (lift r).
Proof. intros w _. cbn. auto. Qed.

Lemma aside_query t A (f : world -> A) : aside t (fun w => (w, inr (f w))).
Proof. intros w _. cbn. auto. Qed.

Lemma aside_call t h op : h <> t -> aside t (call h op).
Proof.
  intros Hh w _. walk. split; [|lia].
  destruct (Nat.eqb_spec t h); [congruence|reflexivity].
Qed.

Lemma aside_screen t op : aside t (screen op).
Proof. intros w _. destruct op; walk; auto. Qed.

Lemma aside_warn t s : aside t (warn s).
Proof. intros w _. walk. auto. Qed.

Lemma aside_when t b c : aside t c -> aside t (when b c).
Proof. destruct b; [auto | intros _; apply aside_ret]. Qed.

Lemma aside_Turtle_then t B (k : nat -> M B) :
  (forall h, h <> t -> aside t (k h)) -> aside t (bind Turtle k).
Proof.
  intros Hk w Hw. rewrite fst_bind. cbn [Turtle].
  assert (Hh : next_turtle w <> t) by lia.
  destruct (Hk _ Hh (emit (TurtleNew (next_turtle w)) (allocate w))) as [T N].
  { walk. lia. }
  split.
  - rewrite T. walk. destruct (Nat.eqb_spec t (next_turtle w)); [lia|reflexivity].
  - revert N. walk. lia.
Qed.

Ltac aside_step :=
  lazymatch goal with
  | |- aside _ (bind _ _) => apply aside_bind; [|intro]
  | |- aside _ (ret _) => apply aside_ret
  | |- aside _ (raise _) => apply aside_raise
  | |- aside _ (lift _) => apply aside_lift
  | |- aside _ (screen _) => apply aside_screen
  | |- aside _ (warn _) => apply aside_warn
  | |- aside _ (call _ _) => apply aside_call; assumption
  | |- aside _ (when _ _) => apply aside_when
  | |- aside ?t (pos ?h) => apply (aside_query t _ (fun w => t_pos (turtles w h)))
  | |- aside ?t (heading ?h) => apply (aside_query t _ (fun w => heading_of (turtles w h)))
  | |- aside ?t window_width => apply (aside_query t _ (fun w => fst (window w)))
  | |- aside ?t window_height => apply (aside_query t _ (fun w => snd (window w)))
  | |- aside ?t (os_path_isfile ?p) => apply (aside_query t _ (fun w => isfile w p))
  end.

Lemma aside_grow_canvas t h : aside t (grow_canvas h).
Proof.
  unfold grow_canvas. aside_step; [aside_step|]. aside_step; [aside_step|].
  destruct (Rge_dec _ _); [aside_step|]. aside_step; [aside_step|].
  destruct (Rge_dec _ _); aside_step.
Qed.

Lemma aside_draw_forward t o h var index b :
  h <> t -> aside t (draw_forward o h var index b).
Proof.
  intro Hh. unfold draw_forward.
  aside_step.
  { destruct (_ && _); [|aside_step]. destruct (fg_color o); repeat aside_step. }
  aside_step; [aside_step|].
  aside_step; [destruct (__extrem_cords o); repeat aside_step|].
  aside_step; [|aside_step].
  destruct (compression_factor o); [aside_step|].
  destruct (__no_draw o); [aside_step|apply aside_grow_canvas].
Qed.

Section ScanAside.

Variable t : nat.
Variable o : options.
Variable h : nat.
Variable deeper : option (string -> M returned).

Hypothesis other : h <> t.
Hypothesis deeper_aside :
  match deeper with
  | None => True
  | Some recurse => forall replacement, aside t (recurse replacement)
  end.

Lemma aside_scan cs : forall index st b, aside t (scan o h deeper index st b cs).
Proof.
  induction cs as [|c cs IH]; intros index st b; [apply aside_ret|].
  rewrite scan_cons.
  destruct (c =? "[")%char; [repeat aside_step; apply IH|].
  destruct (c =? "]")%char.
  { destruct st as [|[p a] below]; [aside_step|]. repeat aside_step. apply IH. }
  destruct (c =? "+")%char; [repeat aside_step; apply IH|].
  destruct (c =? "-")%char; [repeat aside_step; apply IH|].
  destruct (is_variable c); [|aside_step].
  destruct (find_variable (vars o) 0 c) as [[[var replacement] draw]|]; [|aside_step].
  aside_step; [|apply IH].
  destruct deeper as [recurse|].
  - aside_step; [apply deeper_aside|]. destruct (__extrem_cords o); aside_step.
  - destruct draw; [now apply aside_draw_forward|aside_step].
Qed.

End ScanAside.

Lemma aside_acquire_screen t o : aside t (acquire_screen o).
Proof.
  unfold acquire_screen. destruct (_screen o); [aside_step|].
  destruct (_screen_icon o); repeat aside_step.
Qed.

Lemma aside_finish t axiom o h s st b : aside t (finish axiom o h s st b).
Proof.
  unfold finish. aside_step; [repeat aside_step|].
  destruct (__extrem_cords o) as [[lo hi]|]; aside_step.
Qed.

Lemma aside_body t d axiom o s h
  (recurse : nat -> string -> options -> M returned) :
  h <> t ->
  (forall d' replacement, aside t (recurse d' replacement (recursive_options o h s))) ->
  aside t
    (when (__no_draw o && at_initial_depth d o) (orient o h) ;;
     suppress o h ;;
     r <- scan o h
            match d with
            | O => None
            | S d' => Some (fun replacement => recurse d' replacement (recursive_options o h s))
            end
            0 [] zero_extremes (chars axiom) ;;
     finish axiom o h s (fst r) (snd r)).
Proof.
  intros Hh Hr.
  aside_step; [unfold orient; repeat aside_step|].
  aside_step; [unfold suppress; repeat aside_step|].
  aside_step; [|apply aside_finish].
  apply aside_scan; [exact Hh|]. destruct d; [exact I|]. intro. apply Hr.
Qed.

Lemma aside_nested t d : forall axiom o,
  (forall h, _turtle o = Some h -> h <> t) -> aside t (nested d axiom o).
Proof.
  induction d as [|d IH]; intros axiom o Ho; rewrite nested_unfold;
    (aside_step; [apply aside_acquire_screen|]);
    unfold acquire_turtle; destruct (_turtle o) as [h|] eqn:Et.
  - change (bind (ret h) ?k) with (k h). cbv beta.
    apply (aside_body t 0 axiom o a h (fun _ _ _ => ret (h, a, (0, 0), (0, 0)))).
    + now apply Ho.
    + intros. aside_step.
  - apply aside_Turtle_then. intros h Hh.
    apply (aside_body t 0 axiom o a h (fun _ _ _ => ret (h, a, (0, 0), (0, 0)))).
    + exact Hh.
    + intros. aside_step.
  - change (bind (ret h) ?k) with (k h). cbv beta.
    apply (aside_body t (S d) axiom o a h (fun _ => nested d)).
    + now apply Ho.
    + intros d' replacement. apply IH. cbn. intros h' E. injection E as <-. now apply Ho.
  - apply aside_Turtle_then. intros h Hh.
    apply (aside_body t (S d) axiom o a h (fun _ => nested d)).
    + exact Hh.
    + intros d' replacement. apply IH. cbn. intros h' E. now injection E as <-.
Qed.

(** *** From the measuring pass to the drawing *)

Lemma orient_state o t w :
  exists w1,
    orient o t w = (w1, inr tt)
    /\ (exists evs, log w1 = log w ++ evs /\ endpoints evs = [])
    /\ t_pos (turtles w1 t)
       = (IZR (fst (system_center_cords o)), IZR (snd (system_center_cords o)))
    /\ t_angle (turtles w1 t) = mod360 (initial_angle o + 90)
    /\ next_turtle w1 = next_turtle w.
Proof.
  unfold orient. destruct (instant_draw o); eexists; (split; [reflexivity|]); walk;
    rewrite !Nat.eqb_refl; cbn [apply_op t_pos t_angle];
    (split; [eexists; split; [rewrite <- !app_assoc; reflexivity|reflexivity]|auto]).
Qed.

Lemma acquire_screen_next o w :
  next_turtle (fst (acquire_screen o w)) = next_turtle w.
Proof.
  unfold acquire_screen. destruct (_screen o); [reflexivity|].
  destruct (_screen_icon o) as [icon|]; exec; [destruct (isfile w icon)|]; reflexivity.
Qed.

Lemma prepare_state o w :
  (forall h, _turtle o = Some h -> (h < next_turtle w)%nat) ->
  exists w1 s t,
    prepare o w = (w1, inr (s, t))
    /\ (exists evs, log w1 = log w ++ evs /\ endpoints evs = [])
    /\ (t < next_turtle w1)%nat
    /\ t_pos (turtles w1 t)
       = (IZR (fst (system_center_cords o)), IZR (snd (system_center_cords o)))
    /\ t_angle (turtles w1 t) = mod360 (initial_angle o + 90).
Proof.
  intro Ht. unfold prepare.
  destruct (steady_acquire_screen o w) as (w1 & s & e1 & E1 & L1 & P1).
  rewrite (bind_run _ E1).
  assert (N1 : next_turtle w1 = next_turtle w).
  { pose proof (acquire_screen_next o w) as N. now rewrite E1 in N. }
  unfold acquire_turtle. destruct (_turtle o) as [h|] eqn:Eh.
  - change (bind (ret h) ?k w1) with (k h w1). cbv beta.
    destruct (orient_state o h w1) as (w2 & E2 & (e2 & L2 & P2) & Hp & Ha & N2).
    rewrite (bind_run _ E2). exists w2, s, h. split; [reflexivity|].
    split; [exists (e1 ++ e2); rewrite L2, L1, app_assoc, endpoints_app, P1, P2; auto|].
    specialize (Ht h eq_refl). repeat split; auto. lia.
  - unfold bind at 1. cbn [Turtle].
    set (w1' := emit (TurtleNew (next_turtle w1)) (allocate w1)).
    destruct (orient_state o (next_turtle w1) w1') as (w2 & E2 & (e2 & L2 & P2) & Hp & Ha & N2).
    rewrite (bind_run _ E2). exists w2, s, (next_turtle w1). split; [reflexivity|].
    split.
    + exists (e1 ++ TurtleNew (next_turtle w1) :: e2).
      rewrite L2. unfold w1'. walk. rewrite L1, <- !app_assoc. split; [reflexivity|].
      rewrite endpoints_app, P1. cbn. exact P2.
    + repeat split; auto. rewrite N2. unfold w1'. cbn. lia.
Qed.

Lemma bind_ret_left A B (a : A) (k : A -> M B) w : bind (ret a) k w = k a w.
Proof. reflexivity. Qed.

Lemma bind_Turtle B (k : nat -> M B) w :
  bind Turtle k w = k (next_turtle w) (emit (TurtleNew (next_turtle w)) (allocate w)).
Proof. reflexivity. Qed.

Tactic Notation "calm_next" constr(t) hyp(H) hyp(R) hyp(N) ident(wn) :=
  let a := fresh "a" in
  let R1 := fresh "R" in
  let N1 := fresh "N" in
  apply (calm_inv t) in H as (wn & a & R1 & N1 & H);
  [ apply (rests_trans _ _ _ _ R) in R1; clear R N; rename R1 into R; rename N1 into N
  | | exact N ].

(** The measuring pass: a new turtle is put at the centre, turned north of
    the initial angle, and taken through the axiom. *)
Lemma dry_run_inv d axiom o s t w3 w4 r :
  (t < next_turtle w3)%nat ->
  nested d axiom (dry_run_options o s (Z.of_nat d)) w3 = (w4, inr r) ->
  exists wc wd st b,
    (exists pre, log wc = log w3 ++ pre /\ endpoints pre = [])
    /\ t_pos (turtles wc (next_turtle w3))
       = (IZR (fst (system_center_cords o)), IZR (snd (system_center_cords o)))
    /\ t_angle (turtles wc (next_turtle w3)) = mod360 (initial_angle o + 90)
    /\ scan (dry_run_options o s (Z.of_nat d)) (next_turtle w3)
         match d with
         | O => None
         | S d' =>
             Some (fun replacement =>
                     nested d' replacement
                       (recursive_options (dry_run_options o s (Z.of_nat d))
                          (next_turtle w3) s))
         end 0 [] zero_extremes (chars axiom) wc
       = (wd, inr (st, b))
    /\ (exists post, log w4 = log wd ++ post /\ endpoints post = [])
    /\ turtles w4 t = turtles w3 t
    /\ (next_turtle w3 <= next_turtle w4)%nat.
Proof.
  intros Ht H.
  destruct (aside_nested t d axiom (dry_run_options o s (Z.of_nat d))
              ltac:(cbn; discriminate) w3 Ht) as [Ht4 Hn4].
  rewrite H in Ht4, Hn4. cbn [fst] in Ht4, Hn4.
  rewrite nested_unfold in H. unfold acquire_screen, acquire_turtle in H.
  cbn [dry_run_options _screen _turtle] in H.
  rewrite bind_ret_left, bind_Turtle in H.
  set (o_dry := dry_run_options o s (Z.of_nat d)) in *.
  set (h := next_turtle w3) in *.
  assert (Ew : __no_draw o_dry && at_initial_depth d o_dry = true).
  { unfold at_initial_depth. cbn. apply Z.eqb_refl. }
  rewrite Ew in H. unfold when at 1 in H.
  destruct (orient_state o_dry h (emit (TurtleNew h) (allocate w3)))
    as (w1 & E1 & (e1 & L1 & P1) & Hp & Ha & N1).
  rewrite (bind_run _ E1) in H.
  assert (Nh : (h < next_turtle w1)%nat) by (rewrite N1; cbn; lia).
  apply (calm_inv h) in H as (wc & [] & Rc & Nc & H); [|apply calm_suppress|exact Nh].
  destruct Rc as ((ec & Lc & Pc) & Hpc & Hac & _).
  apply bind_inr in H as (wd & [st b] & Es & H).
  destruct (steady_finish axiom o_dry h s st b wd) as (w4' & r' & e4 & E4 & L4 & P4).
  cbn [fst snd] in H. rewrite E4 in H. injection H as <- <-.
  exists wc, wd, st, b. repeat split; auto.
  - exists (TurtleNew h :: e1 ++ ec).
    rewrite Lc, L1. walk. rewrite <- !app_assoc. split; [reflexivity|].
    cbn. now rewrite endpoints_app, P1, Pc.
  - now rewrite Hpc, Hp.
  - now rewrite Hac, Ha.
  - eauto.
Qed.

Lemma bind_window_width B (k : Z -> M B) w :
  bind window_width k w = k (fst (window w)) w.
Proof. reflexivity. Qed.

Lemma bind_window_height B (k : Z -> M B) w :
  bind window_height k w = k (snd (window w)) w.
Proof. reflexivity. Qed.

Lemma bind_call B h op (k : unit -> M B) w :
  bind (call h op) k w
  = k tt (emit (TurtleDid h op (apply_op op (turtles w h)))
            (store h (apply_op op (turtles w h)) w)).
Proof. reflexivity. Qed.

(** *** The window *)

Lemma unsized_bind A B (c : M A) (k : A -> M B) :
  unsized c -> (forall a, unsized (k a)) -> unsized (bind c k).
Proof.
  intros Hc Hk w. rewrite fst_bind. specialize (Hc w).
  destruct (c w) as [w1 [ex|a]]; cbn [fst] in *; [exact Hc|].
  now rewrite Hk.
Qed.

Lemma unsized_still A (c : M A) : (forall w, fst (c w) = w) -> unsized c.
Proof. intros H w. now rewrite H. Qed.

Lemma unsized_call h op : unsized (call h op).
Proof. intro w. reflexivity. Qed.

Lemma unsized_print s : unsized (print s).
Proof. intro w. reflexivity. Qed.

Lemma unsized_warn s : unsized (warn s).
Proof. intro w. reflexivity. Qed.

Lemma unsized_Turtle : unsized Turtle.
Proof. intro w. reflexivity. Qed.

Lemma unsized_when b c : unsized c -> unsized (when b c).
Proof. destruct b; [auto | intros _ w; reflexivity]. Qed.

Ltac unsized_step :=
  lazymatch goal with
  | |- unsized (bind _ _) => apply unsized_bind; [|intro]
  | |- unsized (ret _) => apply unsized_still; reflexivity
  | |- unsized (raise _) => apply unsized_still; reflexivity
  | |- unsized (lift _) => apply unsized_still; reflexivity
  | |- unsized (pos _) => apply unsized_still; reflexivity
  | |- unsized (heading _) => apply unsized_still; reflexivity
  | |- unsized window_width => apply unsized_still; reflexivity
  | |- unsized window_height => apply unsized_still; reflexivity
  | |- unsized (os_path_isfile _) => apply unsized_still; reflexivity
  | |- unsized (call _ _) => apply unsized_call
  | |- unsized (print _) => apply unsized_print
  | |- unsized (warn _) => apply unsized_warn
  | |- unsized Turtle => apply unsized_Turtle
  | |- unsized (when _ _) => apply unsized_when
  | |- unsized (screen _) => intro; reflexivity
  end.

Lemma unsized_grow_canvas t : unsized (grow_canvas t).
Proof.
  unfold grow_canvas. unsized_step; [unsized_step|]. unsized_step; [unsized_step|].
  destruct (Rge_dec _ _); [unsized_step|]. unsized_step; [unsized_step|].
  destruct (Rge_dec _ _); unsized_step.
Qed.

Lemma unsized_draw_forward o t var index b : unsized (draw_forward o t var index b).
Proof.
  unfold draw_forward.
  unsized_step.
  { destruct (_ && _); [|unsized_step]. destruct (fg_color o); repeat unsized_step. }
  unsized_step; [unsized_step|].
  unsized_step; [destruct (__extrem_cords o); repeat unsized_step|].
  unsized_step; [|unsized_step].
  destruct (compression_factor o); [unsized_step|].
  destruct (__no_draw o); [unsized_step|apply unsized_grow_canvas].
Qed.

Lemma unsized_scan o t deeper :
  match deeper with
  | None => True
  | Some recurse => forall replacement, unsized (recurse replacement)
  end ->
  forall cs index st b, unsized (scan o t deeper index st b cs).
Proof.
  intro Hd. induction cs as [|c cs IH]; intros index st b;
    [apply unsized_still; reflexivity|].
  rewrite scan_cons.
  destruct (c =? "[")%char; [repeat unsized_step; apply IH|].
  destruct (c =? "]")%char.
  { destruct st as [|[p a] below]; [unsized_step|]. repeat unsized_step. apply IH. }
  destruct (c =? "+")%char; [repeat unsized_step; apply IH|].
  destruct (c =? "-")%char; [repeat unsized_step; apply IH|].
  destruct (is_variable c); [|unsized_step].
  destruct (find_variable (vars o) 0 c) as [[[var replacement] draw]|]; [|unsized_step].
  unsized_step; [|apply IH].
  destruct deeper as [recurse|].
  - unsized_step; [apply Hd|]. destruct (__extrem_cords o); unsized_step.
  - destruct draw; [apply unsized_draw_forward|unsized_step].
Qed.

Lemma unsized_acquire_screen o : unsized (acquire_screen o).
Proof.
  unfold acquire_screen. destruct (_screen o); [unsized_step|].
  destruct (_screen_icon o); repeat unsized_step.
Qed.

Lemma unsized_finish axiom o t s st b : unsized (finish axiom o t s st b).
Proof.
  unfold finish. unsized_step; [repeat unsized_step|].
  destruct (__extrem_cords o) as [[lo hi]|]; unsized_step.
Qed.

Lemma unsized_nested d : forall axiom o, unsized (nested d axiom o).
Proof.
  induction d as [|d IH]; intros axiom o; rewrite nested_unfold;
    (unsized_step; [apply unsized_acquire_screen|]);
    (unsized_step; [unfold acquire_turtle; destruct (_turtle o); unsized_step|]);
    (unsized_step; [unfold orient; repeat unsized_step|]);
    (unsized_step; [unfold suppress; repeat unsized_step|]);
    (unsized_step; [|apply unsized_finish]);
    apply unsized_scan; [exact I | intro; apply IH].
Qed.

Lemma unsized_draw d axiom o s t text : unsized (draw d axiom o s t text).
Proof.
  unfold draw.
  unsized_step; [unfold suppress; repeat unsized_step|].
  unsized_step.
  { apply unsized_scan. destruct d; [exact I | intro; apply unsized_nested]. }
  unsized_step; [repeat unsized_step|].
  unsized_step; [unsized_step|].
  unsized_step; [repeat unsized_step|].
  apply unsized_finish.
Qed.

Lemma unsized_run A (c : M A) w w' x : unsized c -> c w = (w', x) -> window w' = window w.
Proof. intros H E. specialize (H w). now rewrite E in H. Qed.


(** Lines 164-212, when they return. *)
Lemma auto_scale_run d axiom o t text s initial_depth w2 w5 a :
  (t < next_turtle w2)%nat ->
  auto_scale d axiom o t text s initial_depth w2 = (w5, inr a) ->
  exists w3 w4 r factor,
    rests t w2 w3 /\ (t < next_turtle w3)%nat
    /\ nested d axiom (dry_run_options o s initial_depth) w3 = (w4, inr r)
    /\ auto_factor (min_corner r) (max_corner r) (fst (window w5)) (snd (window w5))
         (step_length o) = inr factor
    /\ a = (step_length o * factor,
            frozen_extremes (starting_point (min_corner r) (max_corner r) factor))
    /\ (exists evs,
          log w5 = log w4 ++ evs /\ endpoints evs = []
          /\ exists after,
               In (TurtleDid t (Goto (starting_point (min_corner r) (max_corner r) factor))
                     after) evs
               /\ t_pos after = starting_point (min_corner r) (max_corner r) factor)
    /\ t_pos (turtles w5 t) = starting_point (min_corner r) (max_corner r) factor
    /\ t_angle (turtles w5 t) = t_angle (turtles w4 t)
    /\ (t < next_turtle w5)%nat.
Proof.
  intros N H. unfold auto_scale in H.
  pose proof (rests_refl t w2) as R.
  calm_next t H R N wa; [|calm_step].
  calm_next t H R N w3; [|calm_step].
  apply bind_inr in H as (w4 & r & En & H).
  exists w3, w4, r.
  destruct (aside_nested t d axiom (dry_run_options o s initial_depth)
              ltac:(cbn; discriminate) w3 N) as [_ N4].
  rewrite En in N4. cbn [fst] in N4.
  rewrite bind_window_width, bind_window_height in H.
  unfold bind at 1, lift in H.
  destruct (auto_factor _ _ _ _ _) as [ex|factor] eqn:Ef; [discriminate|].
  exists factor.
  assert (W : window w5 = window w4).
  { eapply unsized_run; [|exact H]. repeat unsized_step. }
  rewrite <- W in Ef.
  assert (N' : (t < next_turtle w4)%nat) by lia.
  pose proof (rests_refl t w4) as R'.
  calm_next t H R' N' wb; [|calm_step].
  calm_next t H R' N' wc; [|calm_step].
  rewrite bind_call in H.
  set (start := starting_point (min_corner r) (max_corner r) factor) in *.
  set (wg := emit _ _) in H.
  assert (Ng : (t < next_turtle wg)%nat) by (unfold wg; cbn; exact N').
  pose proof (rests_refl t wg) as Rg.
  calm_next t H Rg Ng wd; [|calm_step].
  calm_next t H Rg Ng we; [|calm_step].
  calm_next t H Rg Ng wf; [|repeat calm_step].
  injection H as Ew Ea. subst wf a.
  destruct R' as ((e1 & L1 & P1) & Hp1 & Ha1 & _).
  destruct Rg as ((e2 & L2 & P2) & Hp2 & Ha2 & _).
  split; [exact R|]. split; [exact N|]. split; [exact En|].
  split; [exact Ef|]. split; [reflexivity|].
  split; [|split; [|split; [|exact Ng]]].
  - exists (e1 ++ TurtleDid t (Goto start) (apply_op (Goto start) (turtles wc t)) :: e2).
    rewrite L2. unfold wg. walk. rewrite L1, <- !app_assoc. split; [reflexivity|].
    split; [rewrite endpoints_app, P1; cbn; exact P2|].
    exists (apply_op (Goto start) (turtles wc t)). split; [|reflexivity].
    apply in_or_app. right. left. reflexivity.
  - rewrite Hp2. unfold wg. walk. now rewrite Nat.eqb_refl.
  - rewrite Ha2. unfold wg. walk. rewrite Nat.eqb_refl. cbn. exact Ha1.
Qed.

(** Lines 131-217 with the compression factor ['auto'], when they return. *)
Lemma initialise_auto_run d axiom o s t w1 w5 text o' :
  compression_factor o = Auto -> __initial_depth o = None ->
  (t < next_turtle w1)%nat ->
  initialise d axiom o s t w1 = (w5, inr (text, o')) ->
  exists w3 w4 r factor,
    rests t w1 w3 /\ (t < next_turtle w3)%nat
    /\ nested d axiom (dry_run_options o s (Z.of_nat d)) w3 = (w4, inr r)
    /\ auto_factor (min_corner r) (max_corner r) (fst (window w5)) (snd (window w5))
         (step_length o) = inr factor
    /\ o' = with_locals o (step_length o * factor) (Z.of_nat d) (is_static (fg_color o))
              (Some (frozen_extremes
                       (starting_point (min_corner r) (max_corner r) factor)))
    /\ (exists evs,
          log w5 = log w4 ++ evs /\ endpoints evs = []
          /\ exists after,
               In (TurtleDid t (Goto (starting_point (min_corner r) (max_corner r) factor))
                     after) evs
               /\ t_pos after = starting_point (min_corner r) (max_corner r) factor)
    /\ t_pos (turtles w5 t) = starting_point (min_corner r) (max_corner r) factor
    /\ t_angle (turtles w5 t) = t_angle (turtles w4 t)
    /\ (t < next_turtle w5)%nat.
Proof.
  intros Hcf Hid N H. unfold initialise in H. rewrite Hcf, Hid in H.
  pose proof (rests_refl t w1) as R.
  calm_next t H R N wa; [|calm_step].
  calm_next t H R N wb; [|calm_step].
  calm_next t H R N wc; [|calm_step].
  calm_next t H R N wd; [|calm_step].
  calm_next t H R N we; [|calm_step].
  calm_next t H R N wf; [|calm_step].
  calm_next t H R N wg; [|calm_step].
  calm_next t H R N wh; [|destruct (fg_color o); calm_step].
  calm_next t H R N wi; [|destruct (instant_draw o); repeat calm_step].
  calm_next t H R N wj; [|destruct (initial_window_size o) as [[|]|]; calm_step].
  rewrite bind_assoc in H. apply bind_inr in H as (wk & sc & Ea & H).
  rewrite bind_ret_left in H. cbn [fst snd] in H.
  apply (auto_scale_run _ _ _ _ _ _ _ _ _ _ N) in Ea
    as (w3 & w4 & r & factor & R3 & N3 & En & Ef & -> & (e1 & L1 & P1 & after & G1 & G2)
        & Hp & Ha & Nk).
  assert (W : window w5 = window wk).
  { eapply unsized_run; [|exact H]. repeat unsized_step. }
  rewrite <- W in Ef.
  pose proof (rests_refl t wk) as Rk.
  calm_next t H Rk Nk wl; [|calm_step].
  calm_next t H Rk Nk wm; [|repeat calm_step].
  injection H as Ew _ Eo. subst wm o'.
  destruct Rk as ((e2 & L2 & P2) & Hp2 & Ha2 & _).
  exists w3, w4, r, factor.
  split; [eapply rests_trans; eassumption|]. split; [exact N3|]. split; [exact En|].
  split; [exact Ef|]. split; [reflexivity|].
  split; [|split; [congruence|split; [congruence|exact Nk]]].
  exists (e1 ++ e2). rewrite L2, L1, app_assoc, endpoints_app, P1, P2.
  split; [reflexivity|]. split; [reflexivity|].
  exists after. split; [apply in_or_app; left; exact G1 | exact G2].
Qed.

(** Lines 218-299 of an initial call, when they return. *)
Lemma draw_inv d axiom o s t text w5 w' r :
  (t < next_turtle w5)%nat ->
  draw d axiom o s t text w5 = (w', inr r) ->
  exists wa wb st b,
    rests t w5 wa
    /\ scan o t
         match d with
         | O => None
         | S d' => Some (fun replacement => nested d' replacement (recursive_options o t s))
         end 0 [] zero_extremes (chars axiom) wa
       = (wb, inr (st, b))
    /\ (exists evs, log w' = log wb ++ evs /\ endpoints evs = []).
Proof.
  intros N H. unfold draw in H.
  pose proof (rests_refl t w5) as R.
  calm_next t H R N wa; [|apply calm_suppress].
  apply bind_inr in H as (wb & [st b] & Es & H).
  exists wa, wb, st, b. split; [exact R|]. split; [exact Es|].
  assert (Ht : steady
                 (when (instant_draw o) (call text Clear ;; screen Update) ;;
                  print "Finished drawing." ;;
                  when (_mainloop o) (screen Exitonclick) ;;
                  finish axiom o t s st b)).
  { apply steady_bind; [steady_all|intro]. apply steady_bind; [steady_all|intro].
    apply steady_bind; [steady_all|intro]. apply steady_finish. }
  destruct (Ht wb) as (w'' & r' & evs & E & L & P).
  cbn [fst snd] in H. rewrite E in H. injection H as <- _. eauto.
Qed.

Lemma orientless_below d o t s i :
  __initial_depth o = Some (Z.of_nat (S d)) -> i = recursive_options o t s ->
  orientless d i.
Proof.
  intros Hi -> d' Hd. unfold at_initial_depth. cbn [recursive_options __initial_depth __no_draw].
  rewrite Hi. replace (Z.of_nat d' =? Z.of_nat (S d))%Z with false; [apply andb_false_r|].
  symmetry. apply Z.eqb_neq. lia.
Qed.

Lemma strides_app evs evs' : strides (evs ++ evs') = strides evs ++ strides evs'.
Proof.
  induction evs as [|e evs IH]; [reflexivity|].
  destruct e as [| h [] after | | |]; cbn; try exact IH. now rewrite IH.
Qed.

Lemma strides_quiet evs : endpoints evs = [] -> strides evs = [].
Proof.
  induction evs as [|e evs IH]; [reflexivity|].
  destruct e as [| h [] after | | |]; cbn; try exact IH. discriminate.
Qed.

Lemma strides_steps distance evs :
  Forall (steps_of distance) evs ->
  strides evs = repeat distance (List.length (endpoints evs)).
Proof.
  induction 1 as [|e evs He _ IH]; [reflexivity|].
  destruct e as [| h [] after | | |]; cbn in *; try exact IH. now rewrite He, IH.
Qed.

Lemma emits_steps_nested d axiom o : emits (steps_of (step_length o)) (nested d axiom o).
Proof.
  rewrite nested_unfold.
  emits_step; [apply emits_steady, steady_acquire_screen|].
  emits_step; [apply emits_steady, steady_acquire_turtle|].
  emits_step; [apply emits_steady, steady_when, steady_orient|].
  emits_step; [apply emits_steady, steady_suppress|].
  emits_step; [|apply emits_steady, steady_finish].
  eapply emits_weaken; [apply loop_event_steps|].
  apply emits_scan. intros recurse replacement H.
  destruct d as [|d]; [discriminate|]. injection H as <-.
  eapply emits_weaken; [intro e; apply loop_event_recursive|].
  apply (emits_nested d replacement (recursive_options o a0 a) a0 a); reflexivity.
Qed.

Lemma emits_run Q A (c : M A) w w' x evs :
  emits Q c -> c w = (w', x) -> log w' = log w ++ evs -> Forall Q evs.
Proof.
  intros H E L. destruct (H w) as (evs' & L' & F). rewrite E in L'. cbn [fst] in L'.
  rewrite L in L'. apply app_inv_head in L'. now subst.
Qed.

Lemma emits_steps_scan d o s t cs index st b :
  emits (steps_of (step_length o))
    (scan o t
       match d with
       | O => None
       | S d' => Some (fun replacement => nested d' replacement (recursive_options o t s))
       end index st b cs).
Proof.
  eapply emits_weaken; [apply loop_event_steps|].
  apply emits_scan. intros recurse replacement H.
  destruct d as [|d]; [discriminate|]. injection H as <-.
  eapply emits_weaken; [intro e; apply loop_event_recursive|].
  apply (emits_nested d replacement (recursive_options o t s) t s); reflexivity.
Qed.

Lemma yields_draw_turtle d axiom o s t text :
  yields (fun r => fst (fst (fst r)) = t) (draw d axiom o s t text).
Proof.
  unfold draw, finish. do 6 (apply yields_bind; intro).
  destruct (__extrem_cords o) as [[lo hi]|]; apply yields_ret; reflexivity.
Qed.

(** An initial call with the compression factor ['auto'] that returns: the
    measuring pass, the factor, the drawing and the corners. *)
Lemma auto_scaled_run axiom depth o w w' r :
  (0 <= depth)%Z ->
  compression_factor o = Auto ->
  __initial_depth o = None ->
  (forall h, _turtle o = Some h -> (h < next_turtle w)%nat) ->
  lindenmayer_system axiom depth true o w = (w', inr r) ->
  exists evs measured lo hi factor,
    log w' = log w ++ evs
    /\ bounding_box lo hi ((0, 0) :: measured)
    /\ auto_factor lo hi (fst (window w')) (snd (window w')) (step_length o) = inr factor
    /\ endpoints evs
       = measured
         ++ map (scaled factor
                   (offset factor (starting_point lo hi factor) (system_center_cords o)))
              measured
    /\ strides evs
       = repeat (step_length o) (List.length measured)
         ++ repeat (step_length o * factor) (List.length measured)
    /\ (min_corner r, max_corner r) = frozen_extremes (starting_point lo hi factor)
    /\ exists before after behind,
         evs = before
               ++ TurtleDid (fst (fst (fst r))) (Goto (starting_point lo hi factor)) after
                  :: behind
         /\ endpoints before = measured
         /\ endpoints behind
            = map (scaled factor
                     (offset factor (starting_point lo hi factor) (system_center_cords o)))
                measured
         /\ t_pos after = starting_point lo hi factor.
Proof.
  intros Hd Hcf Hid Ht H. unfold lindenmayer_system in H.
  destruct (Z.ltb_spec depth 0) as [|_]; [lia|].
  set (d := Z.to_nat depth) in *. unfold top_level in H.
  destruct (prepare_state o w Ht) as (w1 & s & t & Ep & (e0 & L0 & P0) & N1 & Hp1 & Ha1).
  rewrite (bind_run _ Ep) in H. cbn [fst snd] in H.
  unfold bind at 1, lift in H.
  destruct (validate axiom (vars o) (step_length o) (compression_factor o)) as [ex|[]];
    [discriminate|].
  apply bind_inr in H as (w5 & [text o'] & Ei & H). cbn [fst snd] in H.
  apply (initialise_auto_run _ _ _ _ _ _ _ _ _ Hcf Hid N1) in Ei
    as (w3 & w4 & rd & factor & R3 & N3 & En & Ef & -> & (e4 & L4 & P4 & after & G1 & G2)
        & Hp5 & Ha5 & N5).
  assert (W : window w' = window w5) by (eapply unsized_run; [apply unsized_draw | exact H]).
  assert (Hrt : fst (fst (fst r)) = t) by exact (yields_draw_turtle _ _ _ _ _ _ _ _ _ H).
  rewrite <- W in Ef.
  set (lo := min_corner rd) in *. set (hi := max_corner rd) in *.
  set (start := starting_point lo hi factor) in *.
  assert (Hr : (min_corner r, max_corner r) = frozen_extremes start).
  { destruct (frozen_extremes start) as [flo fhi] eqn:Efz.
    assert (Hy := yields_draw d axiom
                    (with_locals o (step_length o * factor) (Z.of_nat d)
                       (is_static (fg_color o)) (Some (flo, fhi)))
                    s t text flo fhi eq_refl w5 w' r H).
    destruct Hy as [-> ->]. reflexivity. }
  apply (draw_inv _ _ _ _ _ _ _ _ _ N5) in H
    as (wa & wb & st' & b' & Ra & Es & (e6 & L6 & P6)).
  destruct (dry_run_inv _ _ _ _ _ _ _ _ N3 En)
    as (wc & wd & st & b & (pre & Lc & Pc) & Hpc & Hac & Escan & (post & Lp & Pp) & Ht4 & _).
  set (off := offset factor start (system_center_cords o)).
  set (o1 := dry_run_options o s (Z.of_nat d)) in *.
  set (o2 := with_locals o (step_length o * factor) (Z.of_nat d) (is_static (fg_color o))
               (Some (frozen_extremes start))) in *.
  set (h := next_turtle w3) in *.
  destruct R3 as ((e3 & L3 & P3) & Hp3 & Ha3 & _).
  destruct Ra as ((ea & La & Pa) & Hpa & Haa & _).
  assert (Hrel : related factor off (turtles wc h) (turtles wa t)).
  { split.
    - rewrite Haa, Ha5, Ht4, Ha3, Ha1, Hac. reflexivity.
    - rewrite Hpa, Hp5, Hpc. unfold scaled, off, offset. cbn [fst snd].
      destruct start as [sx sy]. cbn [fst snd]. f_equal; ring. }
  assert (Hsim : sim factor off h t
                   (fun r1 r2 => fst r2 = map (scaled_state factor off) (fst r1))
                   (scan o1 h
                      match d with
                      | O => None
                      | S d' => Some (fun replacement =>
                                        nested d' replacement (recursive_options o1 h s))
                      end 0 [] zero_extremes (chars axiom))
                   (scan o2 t
                      match d with
                      | O => None
                      | S d' => Some (fun replacement =>
                                        nested d' replacement (recursive_options o2 t s))
                      end 0 (map (scaled_state factor off) []) zero_extremes (chars axiom))).
  { apply sim_scan; try reflexivity.
    - unfold o2, o1. cbn [with_locals dry_run_options step_length]. ring.
    - apply color_callable_with_locals.
    - destruct d as [|d']; [exact I|]. intro replacement.
      apply sim_nested; try reflexivity.
      + unfold o2, o1. cbn. ring.
      + apply color_callable_with_locals.
      + eapply orientless_below; [|reflexivity]. reflexivity.
      + eapply orientless_below; [|reflexivity]. reflexivity. }
  destruct (Hsim wc wa Hrel) as (evs1 & evs2 & L1 & L2 & Hends & _).
  cbn [map] in L2. rewrite Escan in L1. rewrite Es in L2. cbn [fst] in L1, L2.
  destruct (nested_facts _ _ _ _ _ _ En) as (evn & Ln & _ & Hbox & _).
  assert (Hevn : evn = pre ++ evs1 ++ post).
  { apply (app_inv_head (log w3)). rewrite <- Ln, Lp, L1, Lc, <- !app_assoc. reflexivity. }
  assert (Sn : strides evn = repeat (step_length o) (List.length (endpoints evs1))).
  { rewrite (strides_steps (step_length o) evn).
    - now rewrite Hevn, !endpoints_app, Pc, Pp, app_nil_r.
    - exact (emits_run _ _ _ _ _ _ _ (emits_steps_nested d axiom o1) En Ln). }
  assert (S2 : strides evs2
               = repeat (step_length o * factor) (List.length (endpoints evs1))).
  { rewrite (strides_steps (step_length o * factor) evs2).
    - now rewrite Hends, length_map.
    - exact (emits_run _ _ _ _ _ _ _ (emits_steps_scan d o2 s t _ _ _ _) Es L2). }
  exists (e0 ++ e3 ++ evn ++ e4 ++ ea ++ evs2 ++ e6), (endpoints evs1), lo, hi, factor.
  split; [|split; [|split; [exact Ef|split; [|split; [|split; [exact Hr|]]]]]].
  - rewrite L6, L2, La, L4, Ln, L3, L0, <- !app_assoc. reflexivity.
  - specialize (Hbox eq_refl). rewrite Hevn, !endpoints_app, Pc, Pp, app_nil_r in Hbox.
    exact Hbox.
  - rewrite Hevn, !endpoints_app, P0, P3, Pc, Pp, P4, Pa, P6, Hends, !app_nil_r.
    reflexivity.
  - rewrite !strides_app, Sn, S2, !(strides_quiet _ P0), !(strides_quiet _ P3),
      !(strides_quiet _ P4), !(strides_quiet _ Pa), !(strides_quiet _ P6), !app_nil_r.
    reflexivity.
  - apply in_split in G1 as (l1 & l2 & E4).
    assert (Q : endpoints l1 = [] /\ endpoints l2 = []).
    { rewrite E4 in P4. rewrite endpoints_app in P4. apply app_eq_nil in P4 as [Q1 Q2].
      change (TurtleDid t (Goto start) after :: l2)
        with ([TurtleDid t (Goto start) after] ++ l2) in Q2.
      rewrite endpoints_app in Q2. apply app_eq_nil in Q2 as [_ Q2]. auto. }
    destruct Q as [Q1 Q2].
    exists (e0 ++ e3 ++ evn ++ l1), after, (l2 ++ ea ++ evs2 ++ e6). rewrite Hrt.
    split; [rewrite E4, <- !app_assoc; reflexivity|].
    split; [|split; [|exact G2]].
    + rewrite Hevn, !endpoints_app, P0, P3, Pc, Pp, Q1, !app_nil_r. reflexivity.
    + rewrite !endpoints_app, Q2, Pa, P6, Hends, !app_nil_r. reflexivity.
Qed.

Lemma auto_factor_chosen lo hi width height step factor :
  auto_factor lo hi width height step = inr factor ->
  max_key_abs (fst lo) (fst hi) <> 0 /\ max_key_abs (snd lo) (snd hi) <> 0
  /\ factor = chosen_quotient lo hi width height * (9 / 10)
              * (if Rlt_dec 0 step then 1 else -1).
Proof.
  unfold auto_factor, divide, chosen_quotient.
  destruct (Req_dec_T (max_key_abs (fst lo) (fst hi)) 0) as [|HX]; [discriminate|].
  destruct (Req_dec_T (max_key_abs (snd lo) (snd hi)) 0) as [|HY]; [discriminate|].
  intro H. injection H as <-. auto.
Qed.

(** The factor of the code against the formula of the specification. *)
Lemma factor_against_specification lo hi width height step factor :
  auto_factor lo hi width height step = inr factor ->
  step <> 0 -> (0 < width)%Z -> (0 < height)%Z ->
  factor = (if Rlt_dec 0 (chosen_quotient lo hi width height) then 1 else -1)
           * spec_scale_factor lo hi width height step
  /\ spec_scale_factor lo hi width height step <> 0.
Proof.
  intros Hf Hs Hw Hh. apply auto_factor_chosen in Hf as (HX & HY & ->).
  unfold spec_scale_factor, chosen_quotient.
  rewrite <- !max_key_abs_abs.
  set (X := max_key_abs (fst lo) (fst hi)) in *.
  set (Y := max_key_abs (snd lo) (snd hi)) in *.
  apply IZR_lt in Hw, Hh.
  assert (HaX : 0 < Rabs X) by now apply Rabs_pos_lt.
  assert (HaY : 0 < Rabs Y) by now apply Rabs_pos_lt.
  assert (Ex : IZR width / Rabs X = Rabs (IZR width / X)).
  { unfold Rdiv. rewrite Rabs_mult, Rabs_inv, (Rabs_pos_eq (IZR width)) by lra. reflexivity. }
  assert (Ey : IZR height / Rabs Y = Rabs (IZR height / Y)).
  { unfold Rdiv. rewrite Rabs_mult, Rabs_inv, (Rabs_pos_eq (IZR height)) by lra. reflexivity. }
  rewrite Ex, Ey, <- min_key_abs_abs.
  set (q := min_key_abs (IZR width / X) (IZR height / Y)).
  assert (Hq : q <> 0).
  { unfold q, min_key_abs.
    assert (IZR width / X <> 0).
    { unfold Rdiv. apply Rmult_integral_contrapositive. split; [lra|].
      now apply Rinv_neq_0_compat. }
    assert (IZR height / Y <> 0).
    { unfold Rdiv. apply Rmult_integral_contrapositive. split; [lra|].
      now apply Rinv_neq_0_compat. }
    destruct (Rlt_dec _ _); assumption. }
  assert (Hp : 0 < Rabs q) by now apply Rabs_pos_lt.
  destruct (Rlt_dec 0 q) as [Hpos|Hneg].
  - rewrite (Rabs_pos_eq q) by lra.
    destruct (Rlt_dec 0 step); [split; nra|].
    destruct (Rlt_dec step 0); [split; nra | lra].
  - rewrite (Rabs_left q) in * by lra.
    destruct (Rlt_dec 0 step); [split; nra|].
    destruct (Rlt_dec step 0); [split; nra | lra].
Qed.

Lemma returned_call_validated axiom depth o w w' r :
  (0 <= depth)%Z ->
  lindenmayer_system axiom depth true o w = (w', inr r) ->
  validate axiom (vars o) (step_length o) (compression_factor o) = inr tt.
Proof.
  intros Hd H. unfold lindenmayer_system in H. apply Z.ltb_ge in Hd. rewrite Hd in H.
  unfold top_level in H.
  apply bind_inr in H as (w1 & st & _ & H).
  apply bind_inr in H as (w2 & [] & Hv & _). now apply lift_inr in Hv as [-> _].
Qed.

Lemma unsized_top_level d axiom o :
  initial_window_size o = None -> unsized (top_level d axiom o).
Proof.
  intro Hw. unfold top_level.
  unsized_step.
  { unfold prepare. unsized_step; [apply unsized_acquire_screen|].
    unsized_step; [unfold acquire_turtle; destruct (_turtle o); unsized_step|].
    unsized_step; [unfold orient; repeat unsized_step|unsized_step]. }
  unsized_step; [unsized_step|].
  unsized_step; [|apply unsized_draw].
  unfold initialise. rewrite Hw.
  do 7 (unsized_step; [unsized_step|]).
  unsized_step; [destruct (fg_color o); unsized_step|].
  unsized_step; [destruct (instant_draw o); repeat unsized_step|].
  unsized_step; [unsized_step|].
  unsized_step; [|repeat unsized_step].
  destruct (compression_factor o); [|unsized_step].
  unsized_step; [|unsized_step]. unfold auto_scale.
  do 2 (unsized_step; [unsized_step|]).
  unsized_step; [apply unsized_nested|]. repeat unsized_step.
Qed.

(** C6.  What the automatic scaling does to the step length.  When an
    initial call with the compression factor ['auto'] returns (no
    [__initial_depth] is passed, a turtle that is passed exists, and the
    window has a positive width and height), it has made every forward
    movement twice: first the measuring pass, with the step length as it was
    passed, then the drawing, with the step length times [factor].  The
    factor is the quotient that lines 172-173 choose, times 0.9, times 1 or
    -1 as the step length is positive or not (lines 175-177).  Against the
    formula of the specification,
    [0.9 * min(width / maxAbsX, height / maxAbsY) * sign(step_length)], over
    the corners of the box around the origin and the measured points, it has
    the same absolute value and the same sign only when the chosen quotient
    is positive: when the chosen extreme coordinate is negative, the drawing
    is made with steps of the opposite sign. *)
Theorem auto_scaled_steps_follow_the_signed_extreme axiom depth o w w' r :
  (0 <= depth)%Z ->
  compression_factor o = Auto ->
  __initial_depth o = None ->
  (forall h, _turtle o = Some h -> (h < next_turtle w)%nat) ->
  (0 < fst (window w'))%Z -> (0 < snd (window w'))%Z ->
  lindenmayer_system axiom depth true o w = (w', inr r) ->
  exists evs measured lo hi factor,
    log w' = log w ++ evs
    /\ endpoints evs
       = measured
         ++ map (scaled factor
                   (offset factor (starting_point lo hi factor) (system_center_cords o)))
              measured
    /\ bounding_box lo hi ((0, 0) :: measured)
    /\ strides evs
       = repeat (step_length o) (List.length measured)
         ++ repeat (step_length o * factor) (List.length measured)
    /\ factor
       = chosen_quotient lo hi (fst (window w')) (snd (window w')) * (9 / 10)
         * (if Rlt_dec 0 (step_length o) then 1 else -1)
    /\ factor
       = (if Rlt_dec 0 (chosen_quotient lo hi (fst (window w')) (snd (window w')))
          then 1 else -1)
         * spec_scale_factor lo hi (fst (window w')) (snd (window w')) (step_length o)
    /\ spec_scale_factor lo hi (fst (window w')) (snd (window w')) (step_length o) <> 0.
Proof.
  intros Hd Hcf Hid Ht Hw Hh H.
  pose proof (returned_call_validated _ _ _ _ _ _ Hd H) as Hv.
  apply validate_accepts_iff in Hv as (_ & Hs & _).
  destruct (auto_scaled_run _ _ _ _ _ _ Hd Hcf Hid Ht H)
    as (evs & measured & lo & hi & factor & L & B & Ef & E & S & _).
  exists evs, measured, lo, hi, factor.
  destruct (auto_factor_chosen _ _ _ _ _ _ Ef) as (_ & _ & Hc).
  destruct (factor_against_specification _ _ _ _ _ _ Ef Hs Hw Hh) as [Hq Hn].
  auto 10.
Qed.

Lemma leaning_window w' x :
  lindenmayer_system "F+FF" 0 true leaning blank_world = (w', x) -> window w' = (960, 810)%Z.
Proof.
  intro E. change (960, 810)%Z with (window blank_world).
  eapply unsized_run; [|exact E].
  unfold lindenmayer_system. cbn [Z.ltb Z.compare]. now apply unsized_top_level.
Qed.

Lemma auto_scaled_steps_follow_the_signed_extreme_witness :
  exists w' r evs measured lo hi factor,
    lindenmayer_system "F+FF" 0 true leaning blank_world = (w', inr r)
    /\ log w' = log blank_world ++ evs
    /\ endpoints evs
       = measured
         ++ map (scaled factor
                   (offset factor (starting_point lo hi factor)
                      (system_center_cords leaning)))
              measured
    /\ bounding_box lo hi ((0, 0) :: measured)
    /\ strides evs
       = repeat (step_length leaning) (List.length measured)
         ++ repeat (step_length leaning * factor) (List.length measured)
    /\ factor
       = chosen_quotient lo hi 960 810 * (9 / 10)
         * (if Rlt_dec 0 (step_length leaning) then 1 else -1)
    /\ factor
       = (if Rlt_dec 0 (chosen_quotient lo hi 960 810) then 1 else -1)
         * spec_scale_factor lo hi 960 810 (step_length leaning)
    /\ spec_scale_factor lo hi 960 810 (step_length leaning) <> 0.
Proof.
  destruct leaning_run as (w' & r & E).
  pose proof (leaning_window w' _ E) as W.
  destruct (auto_scaled_steps_follow_the_signed_extreme "F+FF" 0 leaning blank_world w' r)
    as (evs & measured & lo & hi & factor & H);
    [lia | reflexivity | reflexivity | discriminate
    | rewrite W; reflexivity | rewrite W; reflexivity | exact E |].
  rewrite W in H. cbn [fst snd] in H.
  exists w', r, evs, measured, lo, hi, factor. split; [exact E | exact H].
Defined.

(** X9.  What an auto-scaled call returns.  An initial call with the
    compression factor ['auto'] that returns (no [__initial_depth] is
    passed, and a turtle that is passed exists) makes its forward movements
    in two halves of the same number, the measuring pass and the drawing.
    Between them (line 202) the turtle that it returns is sent to the
    starting point [start] of line 200, which is
    [-(lo + (hi - lo) / 2) * factor] for the corners [lo] and [hi] of the
    box around the origin and the measured points and for the [factor] that
    lines 172-177 make of them and of the window.  The call returns as its
    first corner [start] rounded away from zero, the x coordinate doubled
    before, and as its second corner the negation of the first (lines
    206-208 and 298). *)
Theorem auto_scaled_call_returns_symmetric_corners axiom depth o w w' r :
  (0 <= depth)%Z ->
  compression_factor o = Auto ->
  __initial_depth o = None ->
  (forall h, _turtle o = Some h -> (h < next_turtle w)%nat) ->
  lindenmayer_system axiom depth true o w = (w', inr r) ->
  exists before after behind lo hi factor start,
    log w' = log w ++ before ++ TurtleDid (fst (fst (fst r))) (Goto start) after :: behind
    /\ List.length (endpoints behind) = List.length (endpoints before)
    /\ bounding_box lo hi ((0, 0) :: endpoints before)
    /\ auto_factor lo hi (fst (window w')) (snd (window w')) (step_length o) = inr factor
    /\ start = (- (fst lo + (fst hi - fst lo) / 2) * factor,
                - (snd lo + (snd hi - snd lo) / 2) * factor)
    /\ t_pos after = start
    /\ min_corner r
       = (IZR (rnd_from_zero (fst start * 2)), IZR (rnd_from_zero (snd start)))
    /\ max_corner r
       = (IZR (- rnd_from_zero (fst start * 2)), IZR (- rnd_from_zero (snd start))).
Proof.
  intros Hd Hcf Hid Ht H.
  destruct (auto_scaled_run _ _ _ _ _ _ Hd Hcf Hid Ht H)
    as (evs & measured & lo & hi & factor & L & B & Ef & _ & _ & Hr
        & before & after & behind & -> & <- & Eb & G).
  exists before, after, behind, lo, hi, factor, (starting_point lo hi factor).
  split; [exact L|]. split; [rewrite Eb; apply length_map|].
  split; [exact B|]. split; [exact Ef|]. split; [reflexivity|]. split; [exact G|].
  unfold frozen_extremes in Hr. injection Hr as -> ->.
  unfold starting_point. cbn [fst snd]. rewrite ?Z.mul_1_r, ?Rmult_1_r.
  split; [reflexivity|]. f_equal; f_equal; lia.
Qed.

Lemma auto_scaled_call_returns_symmetric_corners_witness :
  exists w' r before after behind lo hi factor start,
    lindenmayer_system "F+FF" 0 true leaning blank_world = (w', inr r)
    /\ log w' = log blank_world
                 ++ before ++ TurtleDid (fst (fst (fst r))) (Goto start) after :: behind
    /\ List.length (endpoints behind) = List.length (endpoints before)
    /\ bounding_box lo hi ((0, 0) :: endpoints before)
    /\ auto_factor lo hi 960 810 (step_length leaning) = inr factor
    /\ start = (- (fst lo + (fst hi - fst lo) / 2) * factor,
                - (snd lo + (snd hi - snd lo) / 2) * factor)
    /\ t_pos after = start
    /\ min_corner r
       = (IZR (rnd_from_zero (fst start * 2)), IZR (rnd_from_zero (snd start)))
    /\ max_corner r
       = (IZR (- rnd_from_zero (fst start * 2)), IZR (- rnd_from_zero (snd start))).
Proof.
  destruct leaning_run as (w' & r & E).
  pose proof (leaning_window w' _ E) as W.
  destruct (auto_scaled_call_returns_symmetric_corners "F+FF" 0 leaning blank_world w' r)
    as (before & after & behind & lo & hi & factor & start & H);
    [lia | reflexivity | reflexivity | discriminate | exact E |].
  rewrite W in H. cbn [fst snd] in H.
  exists w', r, before, after, behind, lo, hi, factor, start.
  split; [exact E | exact H].
Defined.

(** X21.  The auto-scaled drawing is the measured one, scaled.  When an
    initial call with the compression factor ['auto'] returns (no
    [__initial_depth] is passed, and a turtle that is passed exists), its
    forward movements reach first the points that the measuring pass
    reaches and then, in the same order, their images under
    [p -> off + factor * p]: [factor] is what lines 172-177 make of the width
    and the height of the window, which are those of the window when the
    call has returned, and of the corners of the box around the origin and
    the measured points, and [off] sends the centre to the starting point of
    line 200.  There is no other forward movement. *)
Theorem auto_scaled_drawing_is_the_measured_one_scaled axiom depth o w w' r :
  (0 <= depth)%Z ->
  compression_factor o = Auto ->
  __initial_depth o = None ->
  (forall h, _turtle o = Some h -> (h < next_turtle w)%nat) ->
  lindenmayer_system axiom depth true o w = (w', inr r) ->
  exists evs measured lo hi factor,
    log w' = log w ++ evs
    /\ bounding_box lo hi ((0, 0) :: measured)
    /\ auto_factor lo hi (fst (window w')) (snd (window w')) (step_length o) = inr factor
    /\ endpoints evs
       = measured
         ++ map (scaled factor
                   (offset factor (starting_point lo hi factor) (system_center_cords o)))
              measured.
Proof.
  intros Hd Hcf Hid Ht H.
  destruct (auto_scaled_run _ _ _ _ _ _ Hd Hcf Hid Ht H)
    as (evs & measured & lo & hi & factor & L & B & Ef & E & _).
  exists evs, measured, lo, hi, factor. auto.
Qed.

Lemma auto_scaled_drawing_is_the_measured_one_scaled_witness :
  exists w' r evs measured lo hi factor,
    lindenmayer_system "F+FF" 0 true leaning blank_world = (w', inr r)
    /\ log w' = log blank_world ++ evs
    /\ bounding_box lo hi ((0, 0) :: measured)
    /\ auto_factor lo hi 960 810 (step_length leaning) = inr factor
    /\ endpoints evs
       = measured
         ++ map (scaled factor
                   (offset factor (starting_point lo hi factor)
                      (system_center_cords leaning)))
              measured.
Proof.
  destruct leaning_run as (w' & r & E).
  pose proof (leaning_window w' _ E) as W.
  destruct (auto_scaled_drawing_is_the_measured_one_scaled "F+FF" 0 leaning blank_world w' r)
    as (evs & measured & lo & hi & factor & H);
    [lia | reflexivity | reflexivity | discriminate | exact E |].
  rewrite W in H. cbn [fst snd] in H.
  exists w', r, evs, measured, lo, hi, factor. split; [exact E | exact H].
Defined.

(** ** Type validation *)

Section ValidateFacts.

Import Typing.
Local Open Scope nat_scope.

Variable repr : object -> string.
Variable retype : hint -> error + hint.

Abbreviation validate := (Typing.validate repr retype).
Abbreviation validate_type := (Typing.validate_type repr retype).
Abbreviation plain_case := (Typing.plain_case retype).

Lemma validate_unfold fuel value value_type :
  validate fuel value value_type
  = match value_type with
    | TLiteral literals =>
        Some (inr (existsb (fun literal => String.eqb (repr value) (repr literal)) literals))
    | TUnion members => any_of (validate fuel value) members
    | _ =>
        plain_case
          match fuel with
          | O => None
          | S fuel' => Some (validate fuel')
          end
          value value_type
    end.
Proof. destruct fuel, value_type; reflexivity. Qed.

Lemma any_of_mono A (f g : A -> option (error + bool)) xs r :
  Forall (fun x => forall r, f x = Some r -> g x = Some r) xs ->
  any_of f xs = Some r -> any_of g xs = Some r.
Proof.
  induction 1 as [|x xs Hx _ IH]; simpl; [auto|].
  destruct (f x) as [[e|[|]]|] eqn:E; try discriminate;
    rewrite (Hx _ eq_refl); auto.
Qed.

Lemma all_from_mono A (f g : nat -> A -> option (error + bool)) xs : forall i r,
  (forall i x r, In x xs -> f i x = Some r -> g i x = Some r) ->
  all_from f i xs = Some r -> all_from g i xs = Some r.
Proof.
  induction xs as [|x xs IH]; intros i r H; simpl; [auto|].
  destruct (f i x) as [[e|[|]]|] eqn:E; try discriminate;
    rewrite (H _ _ _ (or_introl eq_refl) E); auto.
  apply IH. intros j y r' Hy. apply H. now right.
Qed.

Lemma plain_case_mono deeper deeper' value value_type r :
  (forall validate_type, deeper = Some validate_type ->
     exists validate_type', deeper' = Some validate_type'
       /\ forall v t r, validate_type v t = Some r -> validate_type' v t = Some r) ->
  (deeper = None -> plain_case deeper value value_type = Some r -> deeper' <> None) ->
  plain_case deeper value value_type = Some r ->
  plain_case deeper' value value_type = Some r.
Proof.
  intros Hd Hn. unfold Typing.plain_case.
  destruct (is_bytes value || is_str value || is_class CStr value_type
            || is_class CBytes value_type); [auto|].
  destruct (isinstance value CIterable); [|auto].
  destruct deeper as [f|]; [|discriminate].
  destruct (Hd f eq_refl) as (g & -> & Hfg).
  destruct (if is_dict value then _ else _) as [e|sub_types]; [auto|].
  destruct (len_wout_optionals sub_types) as [e|lwo]; [auto|].
  destruct (_ || _)%bool; [|auto].
  apply all_from_mono. intros i x r' _.
  destruct (nth_error sub_types _); auto.
Qed.

Lemma validate_more fuel : forall value value_type r,
  validate fuel value value_type = Some r -> validate (S fuel) value value_type = Some r.
Proof.
  assert (Hplain : forall fuel value value_type r,
             (forall v t r, validate fuel v t = Some r -> validate (S fuel) v t = Some r) ->
             plain_case (Some (validate fuel)) value value_type = Some r ->
             plain_case (Some (validate (S fuel))) value value_type = Some r).
  { intros n value value_type r IH. apply plain_case_mono.
    - intros f Hf. injection Hf as <-. eauto.
    - discriminate. }
  assert (Hzero : forall value value_type r,
             plain_case None value value_type = Some r ->
             plain_case (Some (validate 0)) value value_type = Some r).
  { intros value value_type r. apply plain_case_mono; [discriminate|]. discriminate. }
  induction fuel as [|fuel IH]; intros value value_type; revert value_type;
    apply (hint_induction (fun t => forall r, validate _ value t = Some r ->
                                               validate _ value t = Some r));
    intros; rewrite validate_unfold in *; auto;
    eapply any_of_mono; eassumption.
Qed.

Lemma any_of_total A (f : A -> option (error + bool)) xs :
  Forall (fun x => exists r, f x = Some r) xs -> exists r, any_of f xs = Some r.
Proof.
  induction 1 as [|x xs [r Hx] _ IH]; simpl; [eauto|].
  rewrite Hx. destruct r as [e|[|]]; eauto.
Qed.

Lemma all_from_total A (f : nat -> A -> option (error + bool)) xs : forall i,
  (forall i x, In x xs -> exists r, f i x = Some r) ->
  exists r, all_from f i xs = Some r.
Proof.
  induction xs as [|x xs IH]; intros i H; simpl; [eauto|].
  destruct (H i x (or_introl eq_refl)) as [r ->].
  destruct r as [e|[|]]; eauto.
  apply IH. intros j y Hy. apply H. now right.
Qed.

Lemma plain_case_total f value value_type :
  (forall x t, In x (elements value) -> exists r, f x t = Some r) ->
  exists r, plain_case (Some f) value value_type = Some r.
Proof.
  intro H. unfold Typing.plain_case.
  destruct (is_bytes value || is_str value || is_class CStr value_type
            || is_class CBytes value_type).
  { destruct (get_args value_type); eauto. }
  destruct (isinstance value CIterable).
  2:{ destruct (get_args value_type); [eauto|]. destruct (get_origin value_type); eauto. }
  destruct (if is_dict value then _ else _) as [e|sub_types]; [eauto|].
  destruct (len_wout_optionals sub_types) as [e|lwo]; [eauto|].
  destruct (_ || _)%bool; [|eauto].
  apply all_from_total. intros i x Hx.
  destruct (nth_error sub_types _); eauto.
Qed.

Lemma depth_items x items :
  In x items -> (depth x <= fold_right (fun x n => Nat.max (depth x) n) O items)%nat.
Proof.
  induction items as [|y items IH]; [contradiction|].
  intros [->|H]; simpl; [lia|]. specialize (IH H). lia.
Qed.

Lemma depth_elements value x : In x (elements value) -> (depth x < depth value)%nat.
Proof.
  destruct value; simpl; try contradiction.
  - intro H. apply depth_items in H. lia.
  - intro H. apply depth_items in H. lia.
  - induction items as [|[k v] items IH]; [contradiction|].
    intros [<-|H]; simpl in *; [lia|]. specialize (IH H). lia.
  - intro H. apply depth_items in H. lia.
Qed.

Lemma validate_total fuel : forall value value_type,
  (depth value < fuel)%nat -> exists r, validate fuel value value_type = Some r.
Proof.
  induction fuel as [|fuel IH]; intros value value_type Hd; [lia|].
  revert value_type.
  apply (hint_induction (fun t => exists r, validate (S fuel) value t = Some r));
    intros; rewrite validate_unfold; eauto using any_of_total.
  all: apply plain_case_total; intros x t Hx; apply IH;
    apply depth_elements in Hx; lia.
Qed.

(** With enough fuel [validate] is [validate_type]. *)
Lemma validate_enough fuel value value_type :
  (depth value < fuel)%nat ->
  validate fuel value value_type = validate_type value value_type.
Proof.
  intro Hd. unfold Typing.validate_type.
  destruct (validate_total (S (depth value)) value value_type) as [r Hr]; [lia|].
  rewrite Hr.
  induction fuel as [|fuel IH]; [lia|].
  destruct (Nat.eq_dec fuel (depth value)) as [->|Hne]; [exact Hr|].
  apply validate_more, IH. lia.
Qed.

Lemma validate_type_total value value_type :
  exists r, validate_type value value_type = Some r.
Proof. apply validate_total. lia. Qed.

(** X12.  [validate_type] against a class.  A value that is not
    iterable, a [str] or [bytes] validates exactly when it is an instance of
    the class (lines 33 and 46).  A list, a tuple or another iterable that
    is no dict, such as a set or a range, validates exactly when it is empty
    and the class is neither [str] nor [bytes] (lines 39-44, with no type
    arguments): the empty list passes for [bool], no list with an item
    passes for [list], and no set with an item passes for its own class,
    of which it is an instance. *)
Theorem class_hint_accepts_scalars_and_empty_containers c :
  (forall value,
     scalar value = true ->
     validate_type value (TClass c) = Some (inr (isinstance value c)))
  /\ (forall items,
        validate_type (VList items) (TClass c)
        = Some (inr match items with
                    | [] => negb (is_class CStr (TClass c) || is_class CBytes (TClass c))
                    | _ :: _ => false
                    end))
  /\ (forall items,
        validate_type (VTuple items) (TClass c)
        = Some (inr match items with
                    | [] => negb (is_class CStr (TClass c) || is_class CBytes (TClass c))
                    | _ :: _ => false
                    end))
  /\ (forall cls items,
        validate_type (VIter cls items) (TClass c)
        = Some (inr match items with
                    | [] => negb (is_class CStr (TClass c) || is_class CBytes (TClass c))
                    | _ :: _ => false
                    end))
  /\ (forall cls item items,
        isinstance (VIter cls (item :: items)) (COther cls) = true
        /\ validate_type (VIter cls (item :: items)) (TClass (COther cls))
           = Some (inr false)).
Proof.
  split; [|split; [|split; [|split]]].
  - intros value H. unfold Typing.validate_type. rewrite validate_unfold.
    destruct value; try discriminate; destruct c; reflexivity.
  - intros [|x items]; unfold Typing.validate_type; rewrite validate_unfold;
      destruct c; reflexivity.
  - intros [|x items]; unfold Typing.validate_type; rewrite validate_unfold;
      destruct c; reflexivity.
  - intros cls [|x items]; unfold Typing.validate_type; rewrite validate_unfold;
      destruct c; reflexivity.
  - intros cls item items. split.
    + cbn. apply String.eqb_refl.
    + unfold Typing.validate_type. rewrite validate_unfold. reflexivity.
Qed.

Lemma all_from_ext A (f g : nat -> A -> option (error + bool)) xs : forall i,
  (forall i x, In x xs -> f i x = g i x) -> all_from f i xs = all_from g i xs.
Proof.
  induction xs as [|x xs IH]; intros i H; simpl; [reflexivity|].
  rewrite (H i x (or_introl eq_refl)).
  destruct (g i x) as [[e|[|]]|]; try reflexivity.
  apply IH. intros j y Hy. apply H. now right.
Qed.

Lemma sequence_against_one origin sub_type value opt :
  is_str value = false -> is_bytes value = false -> is_dict value = false ->
  isinstance value CIterable = true ->
  is_optional sub_type = inr opt ->
  validate_type value (TGeneric origin sub_type [])
  = if negb opt && (List.length (elements value) =? 0)%nat then Some (inr false)
    else all_from (fun _ sub_value => validate_type sub_value sub_type) O (elements value).
Proof.
  intros Hs Hb Hd Hi Ho. unfold Typing.validate_type at 1. rewrite validate_unfold.
  unfold Typing.plain_case. rewrite Hs, Hb, Hd, Hi. cbn [is_class orb get_args len_wout_optionals].
  rewrite Ho. cbn [List.length Nat.eqb andb].
  assert (E : all_from
                (fun (i : nat) (sub_value : object) =>
                   match nth_error [sub_type] 0 with
                   | Some sub_type0 => validate (depth value) sub_value sub_type0
                   | None => Some (inl IndexError_args)
                   end) 0 (elements value)
              = all_from (fun _ sub_value => validate_type sub_value sub_type) 0
                  (elements value)).
  { apply all_from_ext. intros i x Hx. cbn [nth_error].
    apply validate_enough. now apply depth_elements. }
  rewrite E.
  destruct opt, (elements value) as [|x xs];
    cbn [Nat.leb Nat.eqb List.length andb orb negb]; rewrite ?orb_true_r; reflexivity.
Qed.

(** X13.  A hint with one argument against a list or a tuple.  Against
    [List[T]], [Tuple[T]] or [Iterable[T]] with [T] not an [Optional], the
    empty sequence fails (line 41 wants one value at least) and a sequence
    with items is checked item by item against [T], up to the first item
    that fails or raises (line 43).  The tuple gets the answer of the
    list. *)
Theorem sequence_hint_demands_an_element origin sub_type items :
  is_optional sub_type = inr false ->
  validate_type (VList items) (TGeneric origin sub_type [])
  = match items with
    | [] => Some (inr false)
    | _ :: _ => all_from (fun _ sub_value => validate_type sub_value sub_type) O items
    end
  /\ validate_type (VTuple items) (TGeneric origin sub_type [])
     = validate_type (VList items) (TGeneric origin sub_type []).
Proof.
  intro Ho.
  rewrite (sequence_against_one origin sub_type (VList items) false) by auto.
  rewrite (sequence_against_one origin sub_type (VTuple items) false) by auto.
  split; [|reflexivity]. destruct items; reflexivity.
Qed.

(** X14.  The kind of the container is not looked at.  Against a hint
    that compares no [repr] of the value itself (no [Literal], no [Union]
    with a [Literal] member), a tuple gets the answer, verdict or exception,
    of the list with the same items. *)
Theorem container_kind_is_ignored value_type items :
  compares_repr value_type = false ->
  validate_type (VTuple items) value_type = validate_type (VList items) value_type.
Proof.
  unfold Typing.validate_type.
  change (depth (VTuple items)) with (depth (VList items)).
  generalize (S (depth (VList items))). intro fuel. revert value_type.
  apply (hint_induction
           (fun t => compares_repr t = false ->
                     validate fuel (VTuple items) t = validate fuel (VList items) t));
    [intros c _ | intros literals H; discriminate | intros members IH H
    | intros origin first others _ _ _ | intros params _ _];
    rewrite !validate_unfold; try reflexivity; try (destruct c; reflexivity).
  simpl in H. induction IH as [|m ms Hm _ IH]; [reflexivity|].
  simpl in H. apply orb_false_iff in H as [H1 H2].
  simpl. rewrite (Hm H1). destruct (validate fuel (VList items) m) as [[e|[|]]|]; auto.
Qed.

Lemma pair_against_two origin K V k v ok ov :
  is_optional K = inr ok -> is_optional V = inr ov ->
  validate_type (VTuple [k; v]) (TGeneric origin K [V])
  = match validate_type k K with
    | Some (inr true) => validate_type v V
    | r => r
    end.
Proof.
  intros Hk Hv. unfold Typing.validate_type at 1. rewrite validate_unfold.
  unfold Typing.plain_case.
  cbn [is_bytes is_str is_class orb isinstance is_dict elements get_args len_wout_optionals].
  rewrite Hk, Hv.
  assert (Ek : validate (depth (VTuple [k; v])) k K = validate_type k K).
  { apply validate_enough. simpl. lia. }
  assert (Ev : validate (depth (VTuple [k; v])) v V = validate_type v V).
  { apply validate_enough. simpl. lia. }
  destruct ok, ov; cbn [List.length Nat.leb Nat.eqb andb orb all_from nth_error];
    rewrite Ek, Ev;
    destruct (validate_type k K) as [[e|[|]]|]; try reflexivity;
    destruct (validate_type v V) as [[e|[|]]|]; reflexivity.
Qed.

(** X15.  A dict against [Dict[K, V]].  When line 37 reads the hint back
    as [Tuple[K, V]], the empty dict fails, and a dict with items is checked
    item by item: the key against [K], then the value against [V], up to
    the first that fails or raises. *)
Theorem dict_hint_checks_every_key_and_value K V items ok ov :
  retype (TGeneric CDict K [V]) = inr (TGeneric CTuple K [V]) ->
  is_optional K = inr ok -> is_optional V = inr ov ->
  validate_type (VDict items) (TGeneric CDict K [V])
  = match items with
    | [] => Some (inr false)
    | _ :: _ =>
        all_from (fun _ entry =>
                    match validate_type (fst entry) K with
                    | Some (inr true) => validate_type (snd entry) V
                    | r => r
                    end) O items
    end.
Proof.
  intros Hre Hk Hv. unfold Typing.validate_type at 1. rewrite validate_unfold.
  unfold Typing.plain_case.
  cbn [is_bytes is_str is_class orb isinstance is_dict elements].
  rewrite Hre. cbn [len_wout_optionals is_optional List.length Nat.eqb andb].
  destruct items as [|entry items]; [reflexivity|].
  cbn [map List.length Nat.leb orb nth_error]. rewrite orb_true_r.
  set (whole := VDict (entry :: items)).
  assert (E : forall rest i,
             (forall x, In x rest -> In x (entry :: items)) ->
             all_from (fun _ sub_value => validate (depth whole) sub_value (TGeneric CTuple K [V]))
               i (map (fun kv => VTuple [fst kv; snd kv]) rest)
             = all_from (fun _ entry =>
                           match validate_type (fst entry) K with
                           | Some (inr true) => validate_type (snd entry) V
                           | r => r
                           end) i rest).
  { induction rest as [|x rest IH]; intros i Hin; [reflexivity|].
    cbn [map all_from].
    rewrite validate_enough.
    - rewrite (pair_against_two _ _ _ _ _ _ _ Hk Hv).
      rewrite IH by (intros y Hy; apply Hin; now right).
      reflexivity.
    - apply (depth_elements whole). unfold whole. cbn [elements].
      apply (in_map (fun kv => VTuple [fst kv; snd kv])), Hin. now left. }
  exact (E (entry :: items) O (fun _ H => H)).
Qed.

End ValidateFacts.

Section ValidateCases.

Import Typing TypingCases.

Lemma sequence_hint_demands_an_element_witness :
  Typing.validate_type unnamed dict_of_builtins (VList [VInt 1; VInt 2])
    (TGeneric CList (TClass CInt) [])
  = all_from (fun _ sub_value =>
                Typing.validate_type unnamed dict_of_builtins sub_value (TClass CInt))
      O [VInt 1; VInt 2]
  /\ Typing.validate_type unnamed dict_of_builtins (VTuple [VInt 1; VInt 2])
       (TGeneric CList (TClass CInt) [])
     = Typing.validate_type unnamed dict_of_builtins (VList [VInt 1; VInt 2])
         (TGeneric CList (TClass CInt) []).
Proof.
  exact (sequence_hint_demands_an_element unnamed dict_of_builtins CList (TClass CInt)
           [VInt 1; VInt 2] eq_refl).
Defined.

Lemma container_kind_is_ignored_witness :
  Typing.validate_type unnamed dict_of_builtins (VTuple [VInt 1; VInt 2])
    (TUnion [TGeneric CList (TClass CInt) []; TClass CNoneType])
  = Typing.validate_type unnamed dict_of_builtins (VList [VInt 1; VInt 2])
      (TUnion [TGeneric CList (TClass CInt) []; TClass CNoneType]).
Proof.
  exact (container_kind_is_ignored unnamed dict_of_builtins
           (TUnion [TGeneric CList (TClass CInt) []; TClass CNoneType])
           [VInt 1; VInt 2] eq_refl).
Defined.

Lemma dict_hint_checks_every_key_and_value_witness :
  Typing.validate_type unnamed dict_of_builtins
    (VDict [(VStr "F", VStr "FF"); (VStr "X", VInt 1)])
    (TGeneric CDict (TClass CStr) [TClass CStr])
  = all_from (fun _ entry =>
                match Typing.validate_type unnamed dict_of_builtins (fst entry) (TClass CStr) with
                | Some (inr true) =>
                    Typing.validate_type unnamed dict_of_builtins (snd entry) (TClass CStr)
                | r => r
                end) O [(VStr "F", VStr "FF"); (VStr "X", VInt 1)].
Proof.
  exact (dict_hint_checks_every_key_and_value unnamed dict_of_builtins
           (TClass CStr) (TClass CStr) [(VStr "F", VStr "FF"); (VStr "X", VInt 1)]
           false false eq_refl eq_refl eq_refl).
Defined.

End ValidateCases.

(** ** The dialogue *)

Section DialogueFacts.

Import Typing InputManager.
Local Open Scope nat_scope.

Variable Disk : Type.
Variable saved : Disk -> list string.
Variable restored : Disk -> object -> option (string + list object).
Variable stored : Disk -> object -> string -> Disk.
Variable repr : object -> string.
Variable retype : hint -> error + hint.
Variable eval : string -> evaluation.

Abbreviation world := (InputManager.world Disk).
Abbreviation Dialogue := (InputManager.Dialogue Disk).
Abbreviation inp_fun := (@InputManager.inp_fun Disk).
Abbreviation out_fun := (@InputManager.out_fun Disk).
Abbreviation checked := (@InputManager.checked Disk repr retype).
Abbreviation _eval_wrapper := (@InputManager._eval_wrapper Disk eval).
Abbreviation _check_filename := (@InputManager._check_filename Disk).
Abbreviation ask_flag := (@InputManager.ask_flag Disk repr retype eval).
Abbreviation ask_saved := (@InputManager.ask_saved Disk restored eval).
Abbreviation ask_parameter := (@InputManager.ask_parameter Disk repr retype eval).
Abbreviation collect := (@InputManager.collect Disk repr retype eval).
Abbreviation ask_name := (@InputManager.ask_name Disk stored eval).
Abbreviation arguments := (@InputManager.arguments Disk saved restored stored repr retype eval).
Abbreviation call := (@InputManager.call Disk).
Abbreviation auto_inputs :=
  (@InputManager.auto_inputs Disk saved restored stored repr retype eval).
Abbreviation validate_type := (Typing.validate_type repr retype).

Lemma and_then_inv A B (c : Dialogue A) (k : A -> Dialogue B) w w'' r :
  and_then c k w = Some (w'', r) ->
  (exists e, c w = Some (w'', inl e) /\ r = inl e)
  \/ (exists w' a, c w = Some (w', inr a) /\ k a w' = Some (w'', r)).
Proof.
  unfold and_then. destruct (c w) as [[w' [e|a]]|]; intro H; [|eauto|discriminate].
  injection H as <- <-. eauto.
Qed.

Lemma and_then_run A B (c : Dialogue A) (k : A -> Dialogue B) w w' a :
  c w = Some (w', inr a) -> and_then c k w = k a w'.
Proof. unfold and_then. now intros ->. Qed.

(** *** What is shown and what is taken *)

Section Progress.

Variable Q : event -> Prop.

Abbreviation progress := (@InputManager.progress Disk Q).

Lemma progress_refl (w : world) : progress w w.
Proof. exists [], []. rewrite app_nil_r. repeat split; constructor. Qed.

Lemma progress_trans (w1 w2 w3 : world) :
  progress w1 w2 -> progress w2 w3 -> progress w1 w3.
Proof.
  intros (t1 & e1 & A1 & S1 & L1 & F1) (t2 & e2 & A2 & S2 & L2 & F2).
  exists (t1 ++ t2), (e1 ++ e2). repeat split.
  - rewrite A1, A2, app_assoc. reflexivity.
  - rewrite S2, S1, app_assoc. reflexivity.
  - unfold questions in *. rewrite filter_app, !length_app. lia.
  - apply Forall_app. auto.
Qed.

Abbreviation advances c := (@InputManager.advances Disk Q _ c).

Lemma advances_bind A B (c : Dialogue A) (k : A -> Dialogue B) :
  advances c -> (forall a, advances (k a)) -> advances (and_then c k).
Proof.
  intros Hc Hk w w'' r H. apply and_then_inv in H as [(e & H & _)|(w' & a & H1 & H2)].
  - eapply Hc, H.
  - eapply progress_trans; [eapply Hc, H1|eapply Hk, H2].
Qed.

Lemma advances_value A (a : A) : advances (value a).
Proof. intros w w' r H. injection H as <- _. apply progress_refl. Qed.

Lemma advances_fail A e : advances (fail e : Dialogue A).
Proof. intros w w' r H. injection H as <- _. apply progress_refl. Qed.

Lemma advances_waiting A : advances (waiting : Dialogue A).
Proof. intros w w' r H. discriminate. Qed.

Lemma advances_if A (b : bool) (c1 c2 : Dialogue A) :
  advances c1 -> advances c2 -> advances (if b then c1 else c2).
Proof. destruct b; auto. Qed.

Lemma advances_inp_fun name t has_default default doc is_param :
  Q (Asked name t has_default default doc is_param) ->
  advances (inp_fun name t has_default default doc is_param).
Proof.
  intros HQ w w' r. unfold InputManager.inp_fun.
  destruct (answers w) as [|answer rest] eqn:E; [discriminate|].
  intro H. injection H as <- _.
  exists [answer], [Asked name t has_default default doc is_param]. simpl. auto.
Qed.

Lemma advances_shown A (c : Dialogue A) title content lasting :
  Q (Told title content lasting) ->
  (forall w w' r, c w = Some (w', r) ->
     answers w' = answers w /\ shown w' = shown w ++ [Told title content lasting]) ->
  advances c.
Proof.
  intros HQ H w w' r E. destruct (H _ _ _ E) as [Ha Hs].
  exists [], [Told title content lasting]. rewrite Ha, Hs. simpl. auto.
Qed.

Lemma advances_quiet A (c : Dialogue A) :
  (forall w w' r, c w = Some (w', r) -> answers w' = answers w /\ shown w' = shown w) ->
  advances c.
Proof.
  intros H w w' r E. destruct (H _ _ _ E) as [Ha Hs].
  exists [], []. rewrite Ha, Hs, app_nil_r. repeat split; constructor.
Qed.

Lemma advances_out_fun title content :
  Q (Told title content error_message_timeout) -> advances (out_fun title content).
Proof.
  intro HQ. apply (advances_shown _ _ _ _ _ HQ). intros w w' r H.
  injection H as <- _. auto.
Qed.

Lemma advances_checked v t : advances (checked v t).
Proof.
  apply advances_quiet. intros w w' r. unfold InputManager.checked.
  destruct (Typing.validate_type repr retype v t) as [[e|b]|]; intro H;
    try discriminate; injection H as <- _; auto.
Qed.

Hypothesis parse_message : forall content,
  Q (Told "Couldn't parse input." content error_message_timeout).
Hypothesis error_message : forall content, Q (Told "Error" content error_message_timeout).

Lemma advances_eval_wrapper inp : advances (_eval_wrapper inp).
Proof.
  unfold InputManager._eval_wrapper. destruct (eval inp).
  - apply advances_value.
  - apply advances_bind; [apply advances_out_fun, parse_message|].
    intros _. apply advances_value.
  - apply advances_fail.
Qed.

Lemma advances_check_filename filename : advances (_check_filename filename).
Proof.
  unfold InputManager._check_filename.
  destruct filename;
    try (apply advances_bind; [apply advances_out_fun, error_message|];
         intros _; apply advances_value).
  apply advances_if; [|apply advances_value].
  apply advances_bind; [apply advances_out_fun, error_message|].
  intros _. apply advances_value.
Qed.

Lemma advances_ask_flag attempts name default doc :
  (forall has_default d, Q (Asked name (TClass CBool) has_default d (Some doc) false)) ->
  advances (ask_flag attempts name default doc).
Proof.
  intro HQ. induction attempts as [|attempts IH]; [apply advances_waiting|].
  cbn [InputManager.ask_flag].
  apply advances_bind; [apply advances_inp_fun, HQ|]. intro inp.
  apply advances_bind; [apply advances_eval_wrapper|]. intro flag.
  apply advances_bind; [apply advances_checked|]. intro correct_type.
  apply advances_bind.
  - apply advances_if; [apply advances_value|apply advances_out_fun, error_message].
  - intros _. destruct flag; try exact IH. apply advances_value.
Qed.

Lemma advances_ask_saved attempts keys files :
  (forall has_default d doc, Q (Asked "Filename" (TClass CStr) has_default d doc false)) ->
  advances (ask_saved attempts keys files).
Proof.
  intro HQ. induction attempts as [|attempts IH]; [apply advances_waiting|].
  cbn [InputManager.ask_saved].
  apply advances_bind; [apply advances_inp_fun, HQ|]. intro inp.
  apply advances_bind; [apply advances_eval_wrapper|]. intro filename.
  apply advances_if; [exact IH|].
  apply advances_bind; [apply advances_check_filename|]. intro valid.
  apply advances_if; [|exact IH].
  intros w w' r. destruct (restored (disk w) filename) as [[text|values]|].
  - apply advances_fail.
  - apply advances_value.
  - revert w' r. apply advances_bind; [apply advances_out_fun, error_message|].
    intros _. exact IH.
Qed.

Lemma advances_ask_parameter attempts param param_type default_args doc :
  (forall has_default d, Q (Asked param param_type has_default d doc true)) ->
  advances (ask_parameter attempts param param_type default_args doc).
Proof.
  intro HQ. induction attempts as [|attempts IH]; [apply advances_waiting|].
  cbn [InputManager.ask_parameter].
  apply advances_bind; [apply advances_inp_fun, HQ|]. intro inp.
  apply advances_bind; [apply advances_eval_wrapper|]. intro v.
  apply advances_if; [exact IH|].
  apply advances_bind; [apply advances_checked|]. intro correct_type.
  apply advances_if; [apply advances_value|].
  apply advances_bind; [apply advances_out_fun, error_message|].
  intros _. exact IH.
Qed.

Lemma advances_collect attempts default_args doc types :
  (forall param param_type has_default d doc,
     In (param, param_type) types -> hidden param = false ->
     Q (Asked param param_type has_default d doc true)) ->
  forall kwargs inputs raw_inputs,
    advances (collect attempts default_args doc types kwargs inputs raw_inputs).
Proof.
  induction types as [|[param param_type] types IH]; intros HQ kwargs inputs raw_inputs.
  - apply advances_value.
  - cbn [InputManager.collect].
    assert (Hrest : forall kwargs inputs raw_inputs,
               advances (collect attempts default_args doc types kwargs inputs raw_inputs)).
    { apply IH. intros. apply HQ; [now right|assumption]. }
    destruct (hidden param) eqn:Eh; [apply Hrest|].
    destruct (get param kwargs); [apply Hrest|].
    apply advances_bind; [|intro; apply Hrest].
    apply advances_ask_parameter. intros. apply HQ; [now left|assumption].
Qed.

Lemma advances_ask_name attempts restore filename raw_inputs :
  (forall has_default d doc, Q (Asked "Filename" (TClass CStr) has_default d doc false)) ->
  advances (ask_name attempts restore filename raw_inputs).
Proof.
  intro HQ. revert filename.
  induction attempts as [|attempts IH]; intro filename; [apply advances_waiting|].
  cbn [InputManager.ask_name].
  apply advances_bind; [apply advances_inp_fun, HQ|]. intro inp.
  apply advances_bind; [apply advances_eval_wrapper|]. intro name.
  apply advances_if; [apply IH|].
  apply advances_bind; [apply advances_check_filename|]. intro valid.
  apply advances_if; [|apply IH].
  apply advances_quiet. intros w w' r H. injection H as <- _. auto.
Qed.

End Progress.

(** *** The saves *)

Lemma untouched_bind A B (c : Dialogue A) (k : A -> Dialogue B) :
  untouched c -> (forall a, untouched (k a)) -> untouched (and_then c k).
Proof.
  intros Hc Hk w w'' r H. apply and_then_inv in H as [(e & H & _)|(w' & a & H1 & H2)].
  - eapply Hc, H.
  - rewrite (Hk _ _ _ _ H2). eapply Hc, H1.
Qed.

Lemma untouched_value A (a : A) : untouched (value a : Dialogue A).
Proof. intros w w' r H. now injection H as <- _. Qed.

Lemma untouched_fail A e : untouched (fail e : Dialogue A).
Proof. intros w w' r H. now injection H as <- _. Qed.

Lemma untouched_waiting A : untouched (waiting : Dialogue A).
Proof. intros w w' r H. discriminate. Qed.

Lemma untouched_inp_fun name t has_default default doc is_param :
  untouched (inp_fun name t has_default default doc is_param).
Proof.
  intros w w' r. unfold InputManager.inp_fun.
  destruct (answers w); [discriminate|]. intro H. now injection H as <- _.
Qed.

Lemma untouched_out_fun title content : untouched (out_fun title content).
Proof. intros w w' r H. now injection H as <- _. Qed.

Lemma untouched_checked v t : untouched (checked v t).
Proof.
  intros w w' r. unfold InputManager.checked.
  destruct (Typing.validate_type repr retype v t) as [[e|b]|]; intro H;
    try discriminate; now injection H as <- _.
Qed.

Ltac untouched_step :=
  first [ apply untouched_value | apply untouched_fail | apply untouched_waiting
        | apply untouched_inp_fun | apply untouched_out_fun | apply untouched_checked
        | apply untouched_bind; [|intro]
        | match goal with
          | |- InputManager.untouched (if ?b then _ else _) => destruct b
          end ].

Lemma untouched_eval_wrapper inp : untouched (_eval_wrapper inp).
Proof.
  unfold InputManager._eval_wrapper. destruct (eval inp); repeat untouched_step.
Qed.

Lemma untouched_check_filename filename : untouched (_check_filename filename).
Proof.
  unfold InputManager._check_filename. destruct filename; repeat untouched_step.
Qed.

Lemma untouched_ask_flag attempts name default doc :
  untouched (ask_flag attempts name default doc).
Proof.
  induction attempts as [|attempts IH]; [apply untouched_waiting|].
  cbn [InputManager.ask_flag].
  untouched_step; [untouched_step|].
  untouched_step; [apply untouched_eval_wrapper|].
  repeat untouched_step. destruct a0; try exact IH. untouched_step.
Qed.

Lemma untouched_ask_saved attempts keys files : untouched (ask_saved attempts keys files).
Proof.
  induction attempts as [|attempts IH]; [apply untouched_waiting|].
  cbn [InputManager.ask_saved].
  untouched_step; [untouched_step|].
  untouched_step; [apply untouched_eval_wrapper|].
  untouched_step; [exact IH|].
  untouched_step; [apply untouched_check_filename|].
  untouched_step; [|exact IH].
  intros w w' r. destruct (restored (disk w) a0) as [[text|values]|].
  - apply untouched_fail.
  - apply untouched_value.
  - revert w' r. untouched_step; [untouched_step|exact IH].
Qed.

Lemma untouched_ask_parameter attempts param param_type default_args doc :
  untouched (ask_parameter attempts param param_type default_args doc).
Proof.
  induction attempts as [|attempts IH]; [apply untouched_waiting|].
  cbn [InputManager.ask_parameter].
  untouched_step; [untouched_step|].
  untouched_step; [apply untouched_eval_wrapper|].
  untouched_step; [exact IH|].
  untouched_step; [untouched_step|].
  untouched_step; [untouched_step|].
  untouched_step; [untouched_step|exact IH].
Qed.

Lemma untouched_collect attempts default_args doc types :
  forall kwargs inputs raw_inputs,
    untouched (collect attempts default_args doc types kwargs inputs raw_inputs).
Proof.
  induction types as [|[param param_type] types IH]; intros kwargs inputs raw_inputs.
  - apply untouched_value.
  - cbn [InputManager.collect].
    destruct (hidden param); [apply IH|].
    destruct (get param kwargs); [apply IH|].
    untouched_step; [apply untouched_ask_parameter|apply IH].
Qed.

Lemma untouched_call R (f : function R) inputs kwargs : untouched (call f inputs kwargs).
Proof.
  unfold InputManager.call. destruct (body f inputs kwargs); try untouched_step.
  intros w w' r H. now injection H as <- _.
Qed.

(** *** What is entered *)

Lemma and_then_inr A B (c : Dialogue A) (k : A -> Dialogue B) w w'' b :
  and_then c k w = Some (w'', inr b) ->
  exists w' a, c w = Some (w', inr a) /\ k a w' = Some (w'', inr b).
Proof.
  intro H. apply and_then_inv in H as [(e & _ & H)|H]; [discriminate|exact H].
Qed.

Lemma has_key_get A key (d : list (string * A)) :
  has_key key d = match get key d with Some _ => true | None => false end.
Proof.
  induction d as [|[k v] d IH]; [reflexivity|].
  unfold has_key in *. simpl. destruct (String.eqb k key); [reflexivity|exact IH].
Qed.

Lemma del_absent A key (d : list (string * A)) : get key d = None -> del key d = d.
Proof.
  induction d as [|[k v] d IH]; [reflexivity|].
  unfold del in *. simpl. destruct (String.eqb k key); [discriminate|].
  intro H. simpl. now rewrite IH.
Qed.

Lemma get_del_other A key other (d : list (string * A)) :
  key <> other -> get key (del other d) = get key d.
Proof.
  intro Hne. induction d as [|[k v] d IH]; [reflexivity|].
  unfold del in *. simpl. destruct (String.eqb_spec k other) as [->|Hk]; simpl.
  - destruct (String.eqb_spec other key) as [->|_]; [congruence|exact IH].
  - now rewrite IH.
Qed.

Lemma inp_fun_result name t has_default default doc is_param w w' raw :
  inp_fun name t has_default default doc is_param w = Some (w', inr raw) ->
  answers w = raw :: answers w'
  /\ shown w' = shown w ++ [Asked name t has_default default doc is_param]
  /\ disk w' = disk w.
Proof.
  unfold InputManager.inp_fun. destruct (answers w); [discriminate|].
  intro H. injection H as <- <-. auto.
Qed.

Lemma eval_wrapper_result raw w w' v :
  _eval_wrapper raw w = Some (w', inr v) -> eval raw = Value v \/ v = empty_value.
Proof.
  unfold InputManager._eval_wrapper. destruct (eval raw); intro H.
  - injection H as _ <-. now left.
  - injection H as _ <-. now right.
  - discriminate.
Qed.

Lemma checked_result v t w w' verdict :
  checked v t w = Some (w', inr verdict) -> validate_type v t = Some (inr verdict).
Proof.
  unfold InputManager.checked.
  destruct (Typing.validate_type repr retype v t) as [[e|b]|]; intro H; try discriminate.
  now injection H as _ <-.
Qed.

Lemma check_filename_result filename w w' r :
  _check_filename filename w = Some (w', r) -> r = inr (valid_name filename).
Proof.
  unfold InputManager._check_filename, valid_name.
  destruct filename; try (intro H; now injection H as _ <-).
  destruct (existsb _ _); intro H; now injection H as _ <-.
Qed.

Lemma ask_parameter_result attempts param param_type default_args doc :
  forall w w' inp raw,
    ask_parameter attempts param param_type default_args doc w = Some (w', inr (inp, raw)) ->
    eval raw = Value inp /\ is_empty inp = false
    /\ validate_type inp param_type = Some (inr true).
Proof.
  induction attempts as [|attempts IH]; intros w w' inp raw H; [discriminate|].
  cbn [InputManager.ask_parameter] in H.
  apply and_then_inr in H as (w1 & raw1 & _ & H).
  apply and_then_inr in H as (w2 & v & Hv & H).
  destruct (is_empty v) eqn:Ee; [eapply IH, H|].
  apply and_then_inr in H as (w3 & correct_type & Hc & H).
  apply checked_result in Hc.
  destruct correct_type.
  - injection H as _ <- <-. repeat split; auto.
    apply eval_wrapper_result in Hv as [Hv| ->]; [exact Hv|discriminate].
  - apply and_then_inr in H as (w4 & _ & _ & H). eapply IH, H.
Qed.

Lemma passed_cons_hidden param param_type types :
  hidden param = true -> passed ((param, param_type) :: types) = passed types.
Proof. intro H. unfold passed. simpl. now rewrite H. Qed.

Lemma passed_cons_shown param param_type types :
  hidden param = false ->
  passed ((param, param_type) :: types) = (param, param_type) :: passed types.
Proof. intro H. unfold passed. simpl. now rewrite H. Qed.

Lemma passed_keys types p : In p (passed types) -> In (fst p) (map fst types).
Proof.
  unfold passed. intro H. apply filter_In in H as [H _]. now apply in_map.
Qed.

Lemma asked_del params other kwargs :
  ~ In other (map fst params) ->
  asked params (del other kwargs) = asked params kwargs.
Proof.
  intro Hn. unfold asked. apply filter_ext_in. intros p Hp.
  rewrite !has_key_get, get_del_other; [reflexivity|].
  intros <-. apply Hn. now apply passed_keys.
Qed.

Lemma positional_del params other kwargs entered :
  ~ In other (map fst params) ->
  positional params (del other kwargs) entered = positional params kwargs entered.
Proof.
  revert entered. induction params as [|p params IH]; intros entered Hn; [reflexivity|].
  simpl in *. rewrite get_del_other by (intros <-; apply Hn; now left).
  assert (Hn' : ~ In other (map fst params)) by tauto.
  destruct (get (fst p) kwargs); [now rewrite IH|].
  destruct entered; [reflexivity|]. now rewrite IH.
Qed.

Lemma positional_passed_del types other kwargs entered :
  ~ In other (map fst types) ->
  positional (passed types) (del other kwargs) entered
  = positional (passed types) kwargs entered.
Proof.
  intro Hn. apply positional_del. intro H. apply Hn.
  apply in_map_iff in H as (p & <- & Hp). now apply passed_keys.
Qed.

(** What the loop over the parameters returns. *)
Lemma collect_result attempts default_args doc types :
  NoDup (map fst types) ->
  forall kwargs inputs raw_inputs w w' inputs' raw_inputs' kwargs',
    collect attempts default_args doc types kwargs inputs raw_inputs w
    = Some (w', inr (inputs', raw_inputs', kwargs')) ->
    exists entered texts,
      inputs' = inputs ++ positional (passed types) kwargs entered
      /\ raw_inputs' = raw_inputs ++ texts
      /\ kwargs' = kept types kwargs
      /\ Forall2 (fun p v => validate_type v (snd p) = Some (inr true) /\ is_empty v = false)
           (asked types kwargs) entered
      /\ Forall2 (fun text v => eval text = Value v) texts entered.
Proof.
  induction types as [|[param param_type] types IH];
    intros Hnd kwargs inputs raw_inputs w w' inputs' raw_inputs' kwargs' H.
  - injection H as _ <- <- <-. exists [], []. rewrite !app_nil_r.
    repeat split; constructor.
  - simpl in Hnd. apply NoDup_cons_iff in Hnd as [Hn Hnd].
    cbn [InputManager.collect] in H.
    destruct (hidden param) eqn:Eh.
    { destruct (IH Hnd _ _ _ _ _ _ _ _ H) as (entered & texts & H1 & H2 & H3 & H4 & H5).
      exists entered, texts. unfold asked, kept in *.
      rewrite (passed_cons_hidden _ _ _ Eh). auto. }
    destruct (get param kwargs) as [given|] eqn:Eg.
    + destruct (IH Hnd _ _ _ _ _ _ _ _ H) as (entered & texts & H1 & H2 & H3 & H4 & H5).
      exists entered, texts.
      rewrite positional_passed_del in H1 by exact Hn.
      rewrite asked_del in H4 by exact Hn.
      unfold asked, kept in *. rewrite (passed_cons_shown _ _ _ Eh).
      cbn [positional fst filter fold_left]. rewrite Eg, has_key_get, Eg.
      cbn [negb]. rewrite <- app_assoc in H1. auto.
    + apply and_then_inr in H as (w1 & [inp raw] & Ha & H).
      apply ask_parameter_result in Ha as (Ha1 & Ha2 & Ha3).
      destruct (IH Hnd _ _ _ _ _ _ _ _ H) as (entered & texts & H1 & H2 & H3 & H4 & H5).
      exists (inp :: entered), (raw :: texts).
      unfold asked, kept in *. rewrite (passed_cons_shown _ _ _ Eh).
      cbn [positional fst snd filter fold_left]. rewrite Eg, has_key_get, Eg.
      cbn [negb]. rewrite (del_absent _ _ _ Eg).
      rewrite <- app_assoc in H1, H2. repeat split; auto.
Qed.

(** What asking for the name of the save does to the saves. *)
Lemma ask_name_result attempts restore raw_inputs :
  forall filename w w' r,
    ask_name attempts restore filename raw_inputs w = Some (w', r) ->
    disk w' = disk w
    \/ exists name,
         valid_name name = true
         /\ disk w' = stored (disk w) name (String.concat newline raw_inputs).
Proof.
  induction attempts as [|attempts IH]; intros filename w w' r H; [discriminate|].
  cbn [InputManager.ask_name] in H.
  apply and_then_inv in H as [(e & H & _)|(w1 & inp & H1 & H)].
  { left. eapply untouched_inp_fun, H. }
  apply untouched_inp_fun in H1.
  apply and_then_inv in H as [(e & H & _)|(w2 & name & H2 & H)].
  { left. rewrite <- H1. eapply untouched_eval_wrapper, H. }
  apply untouched_eval_wrapper in H2.
  assert (Hloop : forall name, ask_name attempts restore name raw_inputs w2 = Some (w', r) ->
            disk w' = disk w
            \/ exists name, valid_name name = true
                 /\ disk w' = stored (disk w) name (String.concat newline raw_inputs)).
  { intros n Hn. apply IH in Hn. now rewrite H2, H1 in Hn. }
  destruct (is_empty name); [eapply Hloop, H|].
  apply and_then_inv in H as [(e & H & _)|(w3 & valid & H3 & H)].
  { apply check_filename_result in H. discriminate. }
  pose proof (untouched_check_filename _ _ _ _ H3) as Hd.
  apply check_filename_result in H3. injection H3 as ->.
  destruct (valid_name name) eqn:Ev.
  - injection H as <- _. right. exists name. cbn [disk]. now rewrite Hd, H2, H1.
  - apply IH in H. now rewrite Hd, H2, H1 in H.
Qed.

Lemma char_in_In char s : char_in char s = true <-> In char s.
Proof.
  unfold char_in. rewrite existsb_exists. split.
  - intros (x & Hx & E). apply Ascii.eqb_eq in E. now subst.
  - intro H. exists char. split; [exact H|apply Ascii.eqb_refl].
Qed.

(** X16.  [_check_filename] (lines 29-45) always returns.  It returns
    [True] exactly for a string none of whose characters is one of the nine
    of line 42 (the two slashes among them), and shows nothing then;
    otherwise it returns [False] after exactly one message with the title
    Error.  It takes no answer and leaves the saves alone. *)
Theorem filename_check_rejects_path_characters filename (w : world) :
  exists w',
    _check_filename filename w = Some (w', inr (valid_name filename))
    /\ answers w' = answers w /\ disk w' = disk w
    /\ (if valid_name filename then shown w' = shown w
        else exists content,
          shown w' = shown w ++ [Told "Error" content error_message_timeout])
    /\ (valid_name filename = true <->
        exists name,
          filename = VStr name
          /\ forall char, In char (list_ascii_of_string name) -> ~ In char forbidden).
Proof.
  assert (Hspec : valid_name filename = true <->
            exists name,
              filename = VStr name
              /\ forall char, In char (list_ascii_of_string name) -> ~ In char forbidden).
  { destruct filename; cbn [valid_name];
      try (split; [discriminate|intros (name & E & _); discriminate]).
    rewrite negb_true_iff. split.
    - intro H. exists s. split; [reflexivity|]. intros char Hc Hf.
      assert (existsb (fun char => char_in char forbidden) (list_ascii_of_string s) = true)
        as E by (apply existsb_exists; exists char; split; [exact Hc|now apply char_in_In]).
      congruence.
    - intros (name & E & H). injection E as <-.
      destruct (existsb _ _) eqn:E; [|reflexivity].
      apply existsb_exists in E as (char & Hc & Hf). apply char_in_In in Hf.
      now destruct (H char Hc). }
  unfold InputManager._check_filename, valid_name in *.
  destruct filename;
    try (eexists; split; [reflexivity|]; cbn [answers disk shown]; repeat split;
         try (eexists; reflexivity); apply Hspec).
  destruct (existsb _ _); cbn [negb];
    (eexists; split; [reflexivity|]; cbn [answers disk shown]; repeat split;
     try (eexists; reflexivity); apply Hspec).
Qed.

Lemma validated_only A (ps : list A) P Q' (vs : list object) :
  Forall2 (fun p v => P p v /\ Q' v) ps vs -> Forall2 P ps vs.
Proof. induction 1 as [|p v ps vs [H _] _ IH]; constructor; auto. Qed.

(** X17.  The arguments of the call.  Whenever [auto_inputs] returns, the
    function was called on these positional arguments, in the order of the
    parameters that are not hidden (line 116): what [kwargs] gives for the
    parameter, as it is, or else a value that was entered and that
    [validate_type] accepted for the hint of the parameter (lines 147-149);
    and on the keyword arguments of [kwargs] that were not used so.  The
    result is what the function returned, or [None] when it raised an
    [Exception].  (The names of the parameters are the keys of a dict.) *)
Theorem function_is_called_on_validated_arguments R (f : function R) enable_saves kwargs
  w w' result :
  NoDup (map fst (types f)) ->
  auto_inputs f enable_saves kwargs w = Some (w', inr result) ->
  exists entered,
    Forall2 (fun p v => validate_type v (snd p) = Some (inr true))
      (asked (types f) kwargs) entered
    /\ match body f (positional (passed (types f)) kwargs entered) (kept (types f) kwargs) with
       | Returned r => result = Some r
       | Raised _ => result = None
       | Left _ => False
       end.
Proof.
  intros Hnd H. unfold InputManager.auto_inputs in H.
  apply and_then_inr in H as (w1 & [inputs kwargs'] & Ha & Hc).
  unfold InputManager.arguments in Ha.
  apply and_then_inr in Ha as (w2 & [[restore filename] default_args] & _ & Ha).
  apply and_then_inr in Ha as (w3 & [[inputs3 raw_inputs] kwargs3] & Hcol & Ha).
  apply and_then_inr in Ha as (w4 & _ & _ & Ha).
  injection Ha as _ <- <-.
  apply (collect_result _ _ _ _ Hnd) in Hcol
    as (entered & texts & -> & _ & -> & Hv & _).
  exists entered. split; [eapply validated_only, Hv|].
  cbn [fst snd app] in Hc. unfold InputManager.call in Hc.
  destruct (body f _ _); [now injection Hc as _ <-|now injection Hc as _ <-|discriminate].
Qed.



Lemma ask_parameter_run attempts param param_type default_args doc text v rest sh d :
  eval text = Value v -> is_empty v = false ->
  validate_type v param_type = Some (inr true) ->
  ask_parameter (S attempts) param param_type default_args doc (mkWorld (text :: rest) sh d)
  = Some (mkWorld rest (sh ++ [question default_args (fun _ => doc) (param, param_type)]) d,
          inr (v, text)).
Proof.
  intros He Hn Hv. cbn [InputManager.ask_parameter].
  unfold and_then, InputManager.inp_fun, InputManager._eval_wrapper, InputManager.checked.
  cbn [answers shown disk]. rewrite He. unfold value. rewrite Hn, Hv. reflexivity.
Qed.

Lemma asked_cons_hidden param param_type types kwargs :
  hidden param = true -> asked ((param, param_type) :: types) kwargs = asked types kwargs.
Proof. intro H. unfold asked. now rewrite (passed_cons_hidden _ _ _ H). Qed.

Lemma asked_cons_given param param_type types kwargs given :
  hidden param = false -> get param kwargs = Some given ->
  asked ((param, param_type) :: types) kwargs = asked types kwargs.
Proof.
  intros H Hg. unfold asked. rewrite (passed_cons_shown _ _ _ H).
  cbn [filter fst]. now rewrite has_key_get, Hg.
Qed.

Lemma asked_cons_absent param param_type types kwargs :
  hidden param = false -> get param kwargs = None ->
  asked ((param, param_type) :: types) kwargs = (param, param_type) :: asked types kwargs.
Proof.
  intros H Hg. unfold asked. rewrite (passed_cons_shown _ _ _ H).
  cbn [filter fst]. now rewrite has_key_get, Hg.
Qed.

Lemma kept_cons_hidden param param_type types kwargs :
  hidden param = true -> kept ((param, param_type) :: types) kwargs = kept types kwargs.
Proof. intro H. unfold kept. now rewrite (passed_cons_hidden _ _ _ H). Qed.

Lemma kept_cons_shown param param_type types kwargs :
  hidden param = false ->
  kept ((param, param_type) :: types) kwargs = kept types (del param kwargs).
Proof. intro H. unfold kept. now rewrite (passed_cons_shown _ _ _ H). Qed.

Lemma collect_run attempts default_args doc types :
  NoDup (map fst types) ->
  forall kwargs inputs raw_inputs texts entered rest sh d,
    Forall2 (fun text v => eval text = Value v /\ is_empty v = false) texts entered ->
    Forall2 (fun p v => validate_type v (snd p) = Some (inr true)) (asked types kwargs)
      entered ->
    collect (S attempts) default_args doc types kwargs inputs raw_inputs
      (mkWorld (texts ++ rest) sh d)
    = Some (mkWorld rest (sh ++ map (question default_args doc) (asked types kwargs)) d,
            inr (inputs ++ positional (passed types) kwargs entered, raw_inputs ++ texts,
                 kept types kwargs)).
Proof.
  induction types as [|[param param_type] types IH];
    intros Hnd kwargs inputs raw_inputs texts entered rest sh d Ht Hv.
  - inversion Hv; subst. inversion Ht; subst. simpl. now rewrite !app_nil_r.
  - simpl in Hnd. apply NoDup_cons_iff in Hnd as [Hn Hnd].
    cbn [InputManager.collect].
    destruct (hidden param) eqn:Eh.
    { rewrite asked_cons_hidden in * by exact Eh.
      rewrite kept_cons_hidden, passed_cons_hidden by exact Eh. now apply IH. }
    rewrite kept_cons_shown, passed_cons_shown by exact Eh.
    cbn [positional fst].
    destruct (get param kwargs) as [given|] eqn:Eg.
    + rewrite (asked_cons_given _ _ _ _ _ Eh Eg) in *.
      rewrite (IH Hnd _ _ _ texts entered); [|exact Ht|now rewrite asked_del].
      rewrite asked_del, positional_passed_del by exact Hn.
      now rewrite <- app_assoc.
    + rewrite (asked_cons_absent _ _ _ _ Eh Eg) in *.
      inversion Hv as [|p v ps entered' Hp Hv']; subst.
      inversion Ht as [|text v' texts' es [He Hne] Ht']; subst.
      cbn [app snd] in *.
      rewrite (and_then_run _ _ _ _ _ _ _
                 (ask_parameter_run attempts param param_type default_args (doc param)
                    text v _ sh d He Hne Hp)).
      cbn [fst snd]. rewrite (del_absent _ _ _ Eg).
      rewrite (IH Hnd _ _ _ texts' entered' rest _ d Ht' Hv').
      cbn [map]. unfold question at 2. cbn [fst snd].
      now rewrite <- !app_assoc.
Qed.


End DialogueFacts.

Section DialogueRuns.

Import Typing TypingCases InputManager DialogueCases.

Lemma function_is_called_on_validated_arguments_witness :
  exists entered,
    Forall2 (fun p v => Typing.validate_type unnamed dict_of_builtins v (snd p)
                        = Some (inr true))
      (asked (types rerun_prev) []) entered
    /\ match body rerun_prev (positional (passed (types rerun_prev)) [] entered)
               (kept (types rerun_prev) []) with
       | Returned r => Some (VBool true) = Some r
       | Raised _ => Some (VBool true) = None
       | Left _ => False
       end.
Proof.
  eapply (function_is_called_on_validated_arguments shelf shelf_saved shelf_restored
            shelf_stored unnamed dict_of_builtins literal object rerun_prev false []
            (mkWorld ["maybe"; "1"; "True"] [] [])).
  - repeat constructor. simpl. tauto.
  - reflexivity.
Defined.




End DialogueRuns.
